(** * Link-graph subsystem of realm-core: backlinks, link lists, list views

    A shallow embedding of
      - [src/realm/column_backlink.cpp]   (module [BacklinkColumn]),
      - [src/realm/link_view.cpp]         (module [LinkView]),
      - [src/tightdb/link_view.hpp]       (module [TightdbLinkView]),
      - [src/realm/column_linklist.cpp]   (module [LinkListColumn]),
    with the properties of the specification stated over it.

    Conventions.  A cell of an integer column is a 64-bit word, kept as a
    [Z] in the range [0, 2^64) with the wrap-around of every C++ operation
    written out ([uint64_t], [int64_t]).  A backing [IntegerColumn] is the
    sequence of its [int64_t] elements.  Row indices ([size_t]) are [nat]:
    they are bounded by table sizes and never wrap in the code modelled
    here.  A failed [REALM_ASSERT] terminates the program ([Assert_failed]);
    a thrown [LogicError] is [Throws]. *)

From stdpp Require Import base numbers list option gmap gmultiset fin_maps sorting.
From Stdlib Require Import ZArith Lia.

(** ** Machine integers *)

Definition uint64_t (x : Z) : Z := (x mod 2 ^ 64)%Z.
Definition int64_t (x : Z) : Z := ((x + 2 ^ 63) mod 2 ^ 64 - 2 ^ 63)%Z.

(** [realm::Key]: a struct around one [int64_t]. *)
Record Key := { value : Z }.

(** [to_ref] (alloc.hpp): a plain conversion; its alignment assertion is
    commented out in the source. *)
Abbreviation ref_type := Z (only parsing).
Definition to_ref (v : Z) : ref_type := v.

(** ** Outcomes *)

Inductive LogicError := detached_accessor | link_index_out_of_range.

Inductive Res (A : Type) : Type :=
| Ok (a : A)
| Assert_failed
| Throws (e : LogicError).
Arguments Ok {A} a.
Arguments Assert_failed {A}.
Arguments Throws {A} e.

Definition Res_bind {A B} (m : Res A) (k : A → Res B) : Res B :=
  match m with
  | Ok a => k a
  | Assert_failed => Assert_failed
  | Throws e => Throws e
  end.

(** ** The allocator and the stores it holds *)

(** Modelled from the spec: the allocator (realm/alloc.hpp, alloc_slab.cpp)
    is not in src/.  The spec lists it as a consumed interface
    [alloc]/[free]/[translate]; a ref is a non-null, 8-byte aligned
    address.  The heap maps every live ref to the elements of the
    [IntegerColumn] rooted there; [alloc_ref] picks an aligned address
    above all live ones, and allocation never fails. *)
Definition top_ref (h : gmap Z (list Z)) : Z :=
  map_fold (λ k _ acc, Z.max k acc) 0%Z h.

Definition alloc_ref (h : gmap Z (list Z)) : ref_type :=
  (8 * (1 + top_ref h / 8))%Z.

(** [IntegerColumn::create(alloc, type, size, value)]. *)
Definition IntegerColumn_create (size : nat) (v : Z) (h : gmap Z (list Z))
  : ref_type * gmap Z (list Z) :=
  let ref := alloc_ref h in (ref, <[ref := replicate size v]> h).

(** [IntegerColumn::find_first(value)]; [None] is [realm::not_found]. *)
Definition find_first (v : Z) (l : list Z) : option nat :=
  fst <$> list_find (λ x, x = v) l.

(** ** The persisted state

    [heap] is the allocator, [backlinks] the leaf of the backlink column of
    the target table (one word per target row) and [links] the leaf of the
    link-list column of the origin table (one word per origin row). *)
Record Sys := {
  heap : gmap Z (list Z);
  backlinks : list Z;
  links : list Z;
}.

Definition set_heap (h : gmap Z (list Z)) (st : Sys) : Sys :=
  {| heap := h; backlinks := backlinks st; links := links st |}.
Definition set_backlinks (c : list Z) (st : Sys) : Sys :=
  {| heap := heap st; backlinks := c; links := links st |}.
Definition set_links (c : list Z) (st : Sys) : Sys :=
  {| heap := heap st; backlinks := backlinks st; links := c |}.

(** The tagged inline word [uint64_t(origin) << 1 | 1]. *)
Definition tagged (origin : Z) : Z :=
  Z.lor (uint64_t (Z.shiftl (uint64_t origin) 1)) 1.

(** ** column_backlink.cpp *)

Module BacklinkColumn.
Section WithTable.

(** [m_table->get_row_ndx(key)] of the target table (table.hpp is not in
    src/): the row a key currently lives at. *)
Variable get_row_ndx : Key → nat.

(** [IntegerColumn::set_uint(row_ndx, v)] on the column itself. *)
Definition set_uint (row_ndx : nat) (v : Z) (st : Sys) : Sys :=
  set_backlinks (<[row_ndx := v]> (backlinks st)) st.

Definition add_backlink (target_key origin_key : Key) (st : Sys) : Res Sys :=
  let row_ndx := get_row_ndx target_key in
  match backlinks st !! row_ndx with
  | None => Assert_failed
  | Some v =>
    if decide (v = 0%Z) then
      Ok (set_uint row_ndx (tagged (value origin_key)) st)
    else
      let '(ref, st1) :=
        if decide (Z.land v 1 ≠ 0%Z) then
          let value_2 := Z.shiftr v 1 in
          let '(ref, h) := IntegerColumn_create 1 value_2 (heap st) in
          (ref, set_uint row_ndx ref (set_heap h st))
        else (to_ref v, st) in
      match heap st1 !! ref with
      | None => Assert_failed
      | Some backlink_list =>
        Ok (set_heap (<[ref := backlink_list ++ [value origin_key]]> (heap st1)) st1)
      end
  end.

Definition get_backlink_count (row_ndx : nat) (st : Sys) : option nat :=
  match backlinks st !! row_ndx with
  | None => None
  | Some v =>
    if decide (v = 0%Z) then Some 0
    else if decide (Z.land v 1 ≠ 0%Z) then Some 1
    else length <$> heap st !! to_ref v
  end.

Definition get_backlink (row_ndx backlink_ndx : nat) (st : Sys) : Res Key :=
  match backlinks st !! row_ndx with
  | None => Assert_failed
  | Some w =>
    let v := int64_t w in
    if decide (v = 0%Z) then Assert_failed
    else if decide (Z.land v 1 ≠ 0%Z) then
      if decide (backlink_ndx = 0) then Ok {| value := Z.shiftr v 1 |}
      else Assert_failed
    else
      match heap st !! to_ref v with
      | None => Assert_failed
      | Some backlink_list =>
        match backlink_list !! backlink_ndx with
        | Some value_2 => Ok {| value := value_2 |}
        | None => Assert_failed
        end
      end
  end.

Definition remove_one_backlink (target_key origin_key : Key) (st : Sys) : Res Sys :=
  let row_ndx := get_row_ndx target_key in
  match backlinks st !! row_ndx with
  | None => Assert_failed
  | Some v =>
    if decide (v = 0%Z) then Assert_failed
    else if decide (Z.land v 1 ≠ 0%Z) then
      if decide (Z.shiftr v 1 = uint64_t (value origin_key)) then
        Ok (set_uint row_ndx (uint64_t 0) st)
      else Assert_failed
    else
      let ref := to_ref v in
      match heap st !! ref with
      | None => Assert_failed
      | Some backlink_list =>
        match find_first (value origin_key) backlink_list with
        | None => Assert_failed
        | Some backlink_ndx =>
          let erased := delete backlink_ndx backlink_list in
          if decide (length erased = 1) then
            match erased !! 0 with
            | None => Assert_failed
            | Some e =>
              let value_3 := uint64_t e in
              let value_4 := int64_t (Z.lor (uint64_t (Z.shiftl value_3 1)) 1) in
              Ok (set_uint row_ndx (uint64_t value_4)
                    (set_heap (delete ref (heap st)) st))
            end
          else Ok (set_heap (<[ref := erased]> (heap st)) st)
        end
      end
  end.

(** [swap_backlinks(row_ndx, origin_row_ndx_1, origin_row_ndx_2)]. *)
Definition swap_origin (origin_row_ndx_1 origin_row_ndx_2 : Z) (r : Z) : Z :=
  if decide (uint64_t r = origin_row_ndx_1) then origin_row_ndx_2
  else if decide (uint64_t r = origin_row_ndx_2) then origin_row_ndx_1
  else r.

Definition swap_backlinks (row_ndx : nat) (origin_row_ndx_1 origin_row_ndx_2 : Z)
    (st : Sys) : Res Sys :=
  match backlinks st !! row_ndx with
  | None => Assert_failed
  | Some v =>
    if decide (v = 0%Z) then Assert_failed
    else if decide (Z.land v 1 ≠ 0%Z) then
      let r := Z.shiftr v 1 in
      if decide (r = origin_row_ndx_1) then
        Ok (set_uint row_ndx (Z.lor (uint64_t (Z.shiftl origin_row_ndx_2 1)) 1) st)
      else if decide (r = origin_row_ndx_2) then
        Ok (set_uint row_ndx (Z.lor (uint64_t (Z.shiftl origin_row_ndx_1 1)) 1) st)
      else Ok st
    else
      match heap st !! to_ref v with
      | None => Assert_failed
      | Some backlink_list =>
        Ok (set_heap (<[to_ref v :=
               swap_origin origin_row_ndx_1 origin_row_ndx_2 <$> backlink_list]>
               (heap st)) st)
      end
  end.

(** [IntegerColumn::swap_rows]: the two words change places. *)
Definition IntegerColumn_swap_rows (row_ndx_1 row_ndx_2 : nat) (c : list Z)
    : option (list Z) :=
  match c !! row_ndx_1, c !! row_ndx_2 with
  | Some w1, Some w2 => Some (<[row_ndx_2 := w1]> (<[row_ndx_1 := w2]> c))
  | _, _ => None
  end.

(** [BacklinkColumn::swap_rows]: the loop over the origins of the two rows
    that calls [do_swap_link] is commented out in the source; what is left
    is the swap of the two words. *)
Definition swap_rows (row_ndx_1 row_ndx_2 : nat) (st : Sys) : Res Sys :=
  match IntegerColumn_swap_rows row_ndx_1 row_ndx_2 (backlinks st) with
  | Some c => Ok (set_backlinks c st)
  | None => Assert_failed
  end.

End WithTable.
End BacklinkColumn.

(** ** Accessor objects and effects *)

(** A [LinkView] object of link_view.cpp: [m_origin_table] is non-null while the view is
    attached; [m_row_indexes] is the accessor of the backing store, attached
    to a ref or not; [ndx_in_parent] is the index of the root array in the
    link-list column, which [get_origin_row_index] returns. *)
Record LinkViewObject := {
  m_origin_table : bool;
  ndx_in_parent : nat;
  m_row_indexes : option Z;
}.

(** The instructions a [Replication] sink receives from a list view. *)
Inductive Instr :=
| link_list_insert (link_ndx target_row_ndx : nat)
| link_list_set (link_ndx target_row_ndx : nat)
| link_list_erase (link_ndx : nat)
| link_list_move (from_link_ndx to_link_ndx : nat)
| link_list_swap (link_ndx_1 link_ndx_2 : nat)
| link_list_clear
| link_list_nullify (link_ndx : nat).

(** What a list view does to the world outside itself, in the order it does
    it: a call of the replication sink, a call that writes the paired
    backlink column, a write to the forward side (the backing store of the
    list or its cell in the link-list column), and the calls of the two
    entry points of the cascade in table.cpp:
    [cascade_break_backlinks_to(target_table, row, state)] and
    [remove_backlink_broken_rows(table, state)] with [state.rows]. *)
Inductive Event :=
| Replication (i : Instr)
| BacklinkUpdate
| ForwardUpdate
| CascadeBreak (row_ndx : nat)
| RemoveRows (rows : list nat).

Record State := {
  sys : Sys;
  this : LinkViewObject;
  m_version : nat;
  trace : list Event;
}.

Definition M (A : Type) : Type := State → Res (A * State).

#[global] Instance M_ret : MRet M := λ A a s, Ok (a, s).
#[global] Instance M_bind : MBind M := λ A B k m s,
  match m s with
  | Ok (a, s') => k a s'
  | Assert_failed => Assert_failed
  | Throws e => Throws e
  end.

Definition get_state : M State := λ s, Ok (s, s).
Definition put_sys (st : Sys) : M unit := λ s,
  Ok (tt, {| sys := st; this := this s; m_version := m_version s; trace := trace s |}).
Definition put_this (lv : LinkViewObject) : M unit := λ s,
  Ok (tt, {| sys := sys s; this := lv; m_version := m_version s; trace := trace s |}).
Definition emit (e : Event) : M unit := λ s,
  Ok (tt, {| sys := sys s; this := this s; m_version := m_version s;
             trace := trace s ++ [e] |}).
Definition bump_version : M unit := λ s,
  Ok (tt, {| sys := sys s; this := this s; m_version := S (m_version s);
             trace := trace s |}).
Definition throw {A} (e : LogicError) : M A := λ _, Throws e.
Definition fail {A} : M A := λ _, Assert_failed.
Definition skip : M unit := mret tt.
Definition REALM_ASSERT (b : bool) : M unit := if b then skip else fail.
Definition lift {A} (r : Res A) : M A := λ s,
  match r with
  | Ok a => Ok (a, s)
  | Assert_failed => Assert_failed
  | Throws e => Throws e
  end.

(** [for (i = lo; i < lo + n; ++i) acc = body(i, acc)]. *)
Fixpoint for_loop {A} (lo n : nat) (body : nat → A → M A) (acc : A) : M A :=
  match n with
  | 0 => mret acc
  | S n' => acc' ← body lo acc; for_loop (S lo) n' body acc'
  end.

(** [std::upper_bound] on a sorted vector of rows, and the insertion at the
    position it returns. *)
Fixpoint upper_bound (x : nat) (rows : list nat) : nat :=
  match rows with
  | [] => 0
  | y :: rows' => if decide (x < y) then 0 else S (upper_bound x rows')
  end.

Definition vector_insert {A} (i : nat) (x : A) (l : list A) : list A :=
  take i l ++ x :: drop i l.

(** ** link_view.cpp *)

Module LinkView.
Section WithColumn.

(** The origin column and its surroundings: the key-to-row map of the target
    table, [m_origin_column->m_weak_links], whether [get_repl()] returns a
    sink, and the backlinks that the other strong link columns of the schema
    contribute to a target row (table.hpp is not in src/;
    [Table::get_backlink_count(row, only_strong_links)] sums over the strong
    columns). *)
Variable get_row_ndx : Key → nat.
Variable m_weak_links : bool.
Variable repl : bool.
Variable other_strong_backlinks : nat → nat.

Definition is_attached : M bool := s ← get_state; mret (m_origin_table (this s)).

Definition row_indexes_is_attached : M bool :=
  s ← get_state; mret (bool_decide (is_Some (m_row_indexes (this s)))).

Definition get_origin_row_index : M nat := s ← get_state; mret (ndx_in_parent (this s)).

Definition target_table_size : M nat := s ← get_state; mret (length (backlinks (sys s))).

(** Reading through the accessor [m_row_indexes]: the elements of the store
    it is attached to. *)
Definition row_indexes : M (list Z) :=
  s ← get_state;
  match m_row_indexes (this s) with
  | None => fail
  | Some ref =>
    match heap (sys s) !! ref with
    | None => fail
    | Some l => mret l
    end
  end.

Definition row_indexes_size : M nat := l ← row_indexes; mret (length l).

(** [m_row_indexes.get(link_ndx)] and [to_size_t] of it ([to_size_t]
    asserts that the value fits). *)
Definition row_indexes_get_int (link_ndx : nat) : M Z :=
  l ← row_indexes;
  match l !! link_ndx with
  | None => fail
  | Some v => mret v
  end.

Definition row_indexes_get (link_ndx : nat) : M nat :=
  v ← row_indexes_get_int link_ndx;
  if decide (0 ≤ v)%Z then mret (Z.to_nat v) else fail.

(** A write to the backing store through the accessor. *)
Definition row_indexes_write (f : list Z → option (list Z)) : M unit :=
  s ← get_state;
  match m_row_indexes (this s) with
  | None => fail
  | Some ref =>
    match heap (sys s) !! ref with
    | None => fail
    | Some l =>
      match f l with
      | None => fail
      | Some l' =>
        put_sys (set_heap (<[ref := l']> (heap (sys s))) (sys s));;
        emit ForwardUpdate
      end
    end
  end.

Definition row_indexes_insert (link_ndx : nat) (v : nat) : M unit :=
  row_indexes_write (λ l,
    if decide (link_ndx ≤ length l) then Some (vector_insert link_ndx (Z.of_nat v) l)
    else None).

Definition row_indexes_set_int (link_ndx : nat) (v : Z) : M unit :=
  row_indexes_write (λ l,
    if decide (link_ndx < length l) then Some (<[link_ndx := v]> l)
    else None).

Definition row_indexes_set (link_ndx : nat) (v : nat) : M unit :=
  row_indexes_set_int link_ndx (Z.of_nat v).

Definition row_indexes_erase (link_ndx : nat) : M unit :=
  row_indexes_write (λ l,
    if decide (link_ndx < length l) then Some (delete link_ndx l) else None).

(** [m_row_indexes.destroy()]: frees the store and detaches the accessor;
    nothing happens on an accessor that is not attached. *)
Definition row_indexes_destroy : M unit :=
  s ← get_state;
  match m_row_indexes (this s) with
  | None => skip
  | Some ref =>
    put_sys (set_heap (delete ref (heap (sys s))) (sys s));;
    put_this {| m_origin_table := m_origin_table (this s);
                ndx_in_parent := ndx_in_parent (this s);
                m_row_indexes := None |};;
    emit ForwardUpdate
  end.

(** [m_origin_column->set_row_ref(row_ndx, ref)]. *)
Definition set_row_ref (row_ndx : nat) (ref : Z) : M unit :=
  s ← get_state;
  REALM_ASSERT (bool_decide (row_ndx < length (links (sys s))));;
  put_sys (set_links (<[row_ndx := ref]> (links (sys s))) (sys s));;
  emit ForwardUpdate.

(** [m_row_indexes.init_from_parent()]: attach to the ref found in the
    cell. *)
Definition init_from_parent : M unit :=
  s ← get_state;
  match links (sys s) !! ndx_in_parent (this s) with
  | None => fail
  | Some ref =>
    put_this {| m_origin_table := m_origin_table (this s);
                ndx_in_parent := ndx_in_parent (this s);
                m_row_indexes := if decide (ref = 0%Z) then None else Some ref |}
  end.

(** [m_origin_column->add_backlink] and [remove_backlink]
    (column_linkbase.hpp is not in src/) hand over to the backlink column. *)
Definition key_of (row_ndx : nat) : Key := {| value := Z.of_nat row_ndx |}.

Definition add_backlink (target_row_ndx origin_row_ndx : nat) : M unit :=
  s ← get_state;
  st ← lift (BacklinkColumn.add_backlink get_row_ndx
               (key_of target_row_ndx) (key_of origin_row_ndx) (sys s));
  put_sys st;;
  emit BacklinkUpdate.

Definition remove_backlink (target_row_ndx origin_row_ndx : nat) : M unit :=
  s ← get_state;
  st ← lift (BacklinkColumn.remove_one_backlink get_row_ndx
               (key_of target_row_ndx) (key_of origin_row_ndx) (sys s));
  put_sys st;;
  emit BacklinkUpdate.

(** [target_table.get_backlink_count(row_ndx, only_strong_links = true)],
    called on a strong column only. *)
Definition get_backlink_count (target_row_ndx : nat) : M nat :=
  s ← get_state;
  match BacklinkColumn.get_backlink_count target_row_ndx (sys s) with
  | None => fail
  | Some n => mret (n + other_strong_backlinks target_row_ndx)
  end.

(** [IntegerColumn::create(m_origin_column->get_alloc())]: a new, empty
    store. *)
Definition create_list : M Z :=
  s ← get_state;
  put_sys (set_heap (IntegerColumn_create 0 0 (heap (sys s))).2 (sys s));;
  mret (IntegerColumn_create 0 0 (heap (sys s))).1.

Definition replicate_instr (i : Instr) : M unit :=
  if repl then emit (Replication i) else skip.

Definition do_insert (link_ndx target_row_ndx : nat) : M unit :=
  a ← is_attached; REALM_ASSERT a;;
  ra ← row_indexes_is_attached;
  REALM_ASSERT (ra || bool_decide (link_ndx = 0));;
  (if (ra : bool) then n ← row_indexes_size; REALM_ASSERT (bool_decide (link_ndx ≤ n))
   else skip);;
  tsz ← target_table_size;
  REALM_ASSERT (bool_decide (target_row_ndx < tsz));;
  bump_version;;
  origin_row_ndx ← get_origin_row_index;
  (if (ra : bool) then skip
   else
     REALM_ASSERT (bool_decide (link_ndx = 0));;
     ref ← create_list;
     set_row_ref origin_row_ndx ref;;
     init_from_parent);;
  row_indexes_insert link_ndx target_row_ndx;;
  add_backlink target_row_ndx origin_row_ndx.

Definition insert (link_ndx target_row_ndx : nat) : M unit :=
  do_insert link_ndx target_row_ndx;;
  replicate_instr (link_list_insert link_ndx target_row_ndx).

Definition do_set (link_ndx target_row_ndx : nat) : M nat :=
  old_target_row_ndx ← row_indexes_get link_ndx;
  origin_row_ndx ← get_origin_row_index;
  remove_backlink old_target_row_ndx origin_row_ndx;;
  add_backlink target_row_ndx origin_row_ndx;;
  row_indexes_set link_ndx target_row_ndx;;
  bump_version;;
  mret old_target_row_ndx.

(** Modelled from the spec: [tf::cascade_break_backlinks_to(table, row,
    state)] of table.cpp, which is not in src/.  It is steps 1 to 3 of the
    cascade algorithm of the specification: from the scheduled row it walks
    the link columns of the table, records the link nullifications and
    schedules further rows in [state]; no row is removed by it.  The tables
    and their other columns are outside [Sys], so of this call the model
    keeps the call itself, as an event with the row. *)
Definition tf_cascade_break_backlinks_to (row_ndx : nat) : M unit :=
  emit (CascadeBreak row_ndx).

(** Modelled from the spec: [tf::remove_backlink_broken_rows(table, state)]
    of table.cpp, which is not in src/.  It is step 5 of the cascade
    algorithm of the specification: every row of [state.rows] is removed
    from its table by [move_last_over]; with no row scheduled nothing is
    removed.  The model records the call with the rows that the list view
    has scheduled and does not remove them: after a call with [rows = []]
    the state is the one of the program, after a call with scheduled rows
    it is the state of the program at the call, before the rows go.  What
    is proved below of the columns after [set], [remove] and [clear] is
    therefore proved of the runs in which no row is scheduled. *)
Definition tf_remove_backlink_broken_rows (rows : list nat) : M unit :=
  emit (RemoveRows rows).

(** The tail shared by [set] and [remove]: seeding the cascade on the old
    target row of a strong column. *)
Definition cascade_on (old_target_row_ndx : nat) : M unit :=
  if m_weak_links then skip
  else
    num_remaining ← get_backlink_count old_target_row_ndx;
    if decide (0 < num_remaining) then skip
    else
      tf_cascade_break_backlinks_to old_target_row_ndx;;
      tf_remove_backlink_broken_rows [old_target_row_ndx].

Definition set (link_ndx target_row_ndx : nat) : M unit :=
  a ← is_attached; REALM_ASSERT a;;
  ra ← row_indexes_is_attached; REALM_ASSERT ra;;
  n ← row_indexes_size; REALM_ASSERT (bool_decide (link_ndx < n));;
  tsz ← target_table_size;
  REALM_ASSERT (bool_decide (target_row_ndx < tsz));;
  replicate_instr (link_list_set link_ndx target_row_ndx);;
  old_target_row_ndx ← do_set link_ndx target_row_ndx;
  cascade_on old_target_row_ndx.

Definition move (from_link_ndx to_link_ndx : nat) : M unit :=
  a ← is_attached;
  (if (a : bool) then skip else throw detached_accessor);;
  ra ← row_indexes_is_attached;
  (if (ra : bool) then
     n ← row_indexes_size;
     if decide (n ≤ from_link_ndx ∨ n ≤ to_link_ndx)
     then throw link_index_out_of_range else skip
   else throw link_index_out_of_range);;
  if decide (from_link_ndx = to_link_ndx) then skip
  else
    bump_version;;
    target_row_ndx ← row_indexes_get from_link_ndx;
    row_indexes_erase from_link_ndx;;
    row_indexes_insert to_link_ndx target_row_ndx;;
    replicate_instr (link_list_move from_link_ndx to_link_ndx).

Definition swap (link_ndx_1 link_ndx_2 : nat) : M unit :=
  a ← is_attached;
  (if (a : bool) then skip else throw detached_accessor);;
  ra ← row_indexes_is_attached;
  (if (ra : bool) then
     n ← row_indexes_size;
     if decide (n ≤ link_ndx_1 ∨ n ≤ link_ndx_2)
     then throw link_index_out_of_range else skip
   else throw link_index_out_of_range);;
  if decide (link_ndx_1 = link_ndx_2) then skip
  else
    let '(link_ndx_1, link_ndx_2) :=
      if decide (link_ndx_2 < link_ndx_1) then (link_ndx_2, link_ndx_1)
      else (link_ndx_1, link_ndx_2) in
    bump_version;;
    target_row_ndx ← row_indexes_get link_ndx_1;
    other ← row_indexes_get_int link_ndx_2;
    row_indexes_set_int link_ndx_1 other;;
    row_indexes_set link_ndx_2 target_row_ndx;;
    replicate_instr (link_list_swap link_ndx_1 link_ndx_2).

Definition do_remove (link_ndx : nat) : M nat :=
  target_row_ndx ← row_indexes_get link_ndx;
  origin_row_ndx ← get_origin_row_index;
  remove_backlink target_row_ndx origin_row_ndx;;
  row_indexes_erase link_ndx;;
  bump_version;;
  mret target_row_ndx.

Definition remove (link_ndx : nat) : M unit :=
  a ← is_attached; REALM_ASSERT a;;
  ra ← row_indexes_is_attached; REALM_ASSERT ra;;
  n ← row_indexes_size; REALM_ASSERT (bool_decide (link_ndx < n));;
  replicate_instr (link_list_erase link_ndx);;
  target_row_ndx ← do_remove link_ndx;
  cascade_on target_row_ndx.

Definition do_clear (broken_reciprocal_backlinks : bool) : M unit :=
  origin_row_ndx ← get_origin_row_index;
  ra ← row_indexes_is_attached;
  (if negb broken_reciprocal_backlinks && ra then
     num_links ← row_indexes_size;
     for_loop 0 num_links (λ link_ndx _,
       target_row_ndx ← row_indexes_get link_ndx;
       remove_backlink target_row_ndx origin_row_ndx) tt
   else skip);;
  row_indexes_destroy;;
  set_row_ref origin_row_ndx 0;;
  bump_version.

Definition clear : M unit :=
  a ← is_attached; REALM_ASSERT a;;
  ra ← row_indexes_is_attached;
  if negb (ra : bool) then skip
  else
    replicate_instr link_list_clear;;
    if m_weak_links then do_clear false
    else
      origin_row_ndx ← get_origin_row_index;
      num_links ← row_indexes_size;
      rows ← for_loop 0 num_links (λ link_ndx (rows : list nat),
        target_row_ndx ← row_indexes_get link_ndx;
        remove_backlink target_row_ndx origin_row_ndx;;
        num_remaining ← get_backlink_count target_row_ndx;
        if decide (0 < num_remaining) then mret rows
        else
          let i := upper_bound target_row_ndx rows in
          REALM_ASSERT (bool_decide (i = 0 ∨ rows !! (i - 1) ≠ Some target_row_ndx));;
          let rows := vector_insert i target_row_ndx rows in
          tf_cascade_break_backlinks_to target_row_ndx;;
          mret rows) [];
      do_clear true;;
      tf_remove_backlink_broken_rows rows.

Definition do_nullify_link (old_target_row_ndx : nat) : M unit :=
  ra ← row_indexes_is_attached; REALM_ASSERT ra;;
  l ← row_indexes;
  match find_first (Z.of_nat old_target_row_ndx) l with
  | None => fail
  | Some pos =>
    replicate_instr (link_list_nullify pos);;
    row_indexes_erase pos;;
    n ← row_indexes_size;
    if decide (n = 0) then
      row_indexes_destroy;;
      origin_row_ndx ← get_origin_row_index;
      set_row_ref origin_row_ndx 0
    else skip
  end.

Definition do_update_link (old_target_row_ndx new_target_row_ndx : nat) : M unit :=
  ra ← row_indexes_is_attached; REALM_ASSERT ra;;
  l ← row_indexes;
  match find_first (Z.of_nat old_target_row_ndx) l with
  | None => fail
  | Some pos => row_indexes_set pos new_target_row_ndx
  end.

Definition do_swap_link (target_row_ndx_1 target_row_ndx_2 : nat) : M unit :=
  ra ← row_indexes_is_attached; REALM_ASSERT ra;;
  len ← row_indexes_size;
  for_loop 0 len (λ i _,
    v ← row_indexes_get i;
    if decide (v = target_row_ndx_1) then row_indexes_set i target_row_ndx_2
    else if decide (v = target_row_ndx_2) then row_indexes_set i target_row_ndx_1
    else skip) tt.

End WithColumn.
End LinkView.

(** ** tightdb/link_view.hpp *)

Module TightdbLinkView.

Record LinkView := {
  m_origin_table : bool;
  m_target_row_indexes : option Z;
  ndx_in_parent : nat;
}.

Section WithBuild.

(** [TIGHTDB_ASSERT] (tightdb/assert.hpp is not in src/) is compiled in or
    out with the build; [debug] says whether it is checked. *)
Variable debug : bool.

Definition TIGHTDB_ASSERT {A} (cond : bool) (k : Res A) : Res A :=
  if debug && negb cond then Assert_failed else k.

(** The constructor: the store accessor attaches only if the cell holds a
    ref. *)
Definition new_LinkView (row_ndx : nat) (st : Sys) : LinkView :=
  {| m_origin_table := true;
     m_target_row_indexes :=
       match links st !! row_ndx with
       | Some ref => if decide (ref = 0%Z) then None else Some ref
       | None => None
       end;
     ndx_in_parent := row_ndx |}.

Definition is_attached (lv : LinkView) : bool := m_origin_table lv.

Definition detach (lv : LinkView) : Res LinkView :=
  TIGHTDB_ASSERT (is_attached lv)
    (Ok {| m_origin_table := false; m_target_row_indexes := None;
           ndx_in_parent := ndx_in_parent lv |}).

Definition is_empty (lv : LinkView) (st : Sys) : Res bool :=
  TIGHTDB_ASSERT (is_attached lv)
    match m_target_row_indexes lv with
    | None => Ok true
    | Some ref =>
      match heap st !! ref with
      | Some l => Ok (bool_decide (length l = 0))
      | None => Assert_failed
      end
    end.

Definition size (lv : LinkView) (st : Sys) : Res nat :=
  TIGHTDB_ASSERT (is_attached lv)
    match m_target_row_indexes lv with
    | None => Ok 0
    | Some ref =>
      match heap st !! ref with
      | Some l => Ok (length l)
      | None => Assert_failed
      end
    end.

(** [find]: [None] is [tightdb::not_found]. *)
Definition find (lv : LinkView) (target_row_ndx : nat) (st : Sys) : Res (option nat) :=
  TIGHTDB_ASSERT (is_attached lv)
    (TIGHTDB_ASSERT (bool_decide (target_row_ndx < length (backlinks st)))
       match m_target_row_indexes lv with
       | None => Ok None
       | Some ref =>
         match heap st !! ref with
         | Some l => Ok (find_first (Z.of_nat target_row_ndx) l)
         | None => Assert_failed
         end
       end).

(** [get(link_ndx)]: the row of the target table the link points at. *)
Definition get (lv : LinkView) (link_ndx : nat) (st : Sys) : Res nat :=
  TIGHTDB_ASSERT (is_attached lv)
    (TIGHTDB_ASSERT (bool_decide (is_Some (m_target_row_indexes lv)))
       match m_target_row_indexes lv with
       | None => Assert_failed
       | Some ref =>
         match heap st !! ref with
         | Some l =>
           TIGHTDB_ASSERT (bool_decide (link_ndx < length l))
             match l !! link_ndx with
             | Some v => Ok (Z.to_nat v)
             | None => Assert_failed
             end
         | None => Assert_failed
         end
       end).

Definition get_origin_row_index (lv : LinkView) : Res nat :=
  TIGHTDB_ASSERT (is_attached lv) (Ok (ndx_in_parent lv)).

End WithBuild.
End TightdbLinkView.

(** ** column_linklist.cpp: the registry of list accessors *)

Module LinkListColumn.

(** An entry of [m_list_accessors].  The [std::weak_ptr<LinkView>] is the
    identity of the object it was made from, or nothing after [reset()]; it
    is expired when that object is gone. *)
Record list_entry := {
  m_row_ndx : nat;
  m_list : option nat;
}.

(** The accessor side of the column: the registry, its tombstone flag, and
    the [LinkView] objects that some [LinkViewRef] still owns, by identity.
    [next_view] is the identity the next [LinkView::create] hands out. *)
Record Accessors := {
  m_list_accessors : list list_entry;
  m_list_accessors_contains_tombstones : bool;
  views : gmap nat LinkViewObject;
  next_view : nat;
}.

Definition empty_accessors : Accessors :=
  {| m_list_accessors := []; m_list_accessors_contains_tombstones := false;
     views := ∅; next_view := 0 |}.

(** [entry.m_list.lock()] and [entry.m_list.expired()]. *)
Definition lock (vs : gmap nat LinkViewObject) (e : list_entry) : option nat :=
  match m_list e with
  | Some h => if decide (is_Some (vs !! h)) then Some h else None
  | None => None
  end.

Definition expired (vs : gmap nat LinkViewObject) (e : list_entry) : bool :=
  bool_decide (lock vs e = None).

(** [std::lower_bound(begin, end, list_entry{row_ndx, ...})] as an index;
    entries compare by [m_row_ndx]. *)
Fixpoint lower_bound (row_ndx : nat) (l : list list_entry) : nat :=
  match l with
  | [] => 0
  | e :: l' => if decide (m_row_ndx e < row_ndx) then S (lower_bound row_ndx l') else 0
  end.

(** [std::rotate(first, middle, last)] on indices. *)
Definition rotate {A} (first middle last : nat) (l : list A) : list A :=
  take first l ++ drop middle (take last l) ++ drop first (take middle l) ++ drop last l.

(** [validate_list_accessors]: the two debug assertions, [std::is_sorted]
    and no adjacent pair with the same [m_row_ndx]. *)
Fixpoint is_sorted (l : list list_entry) : bool :=
  match l with
  | a :: (b :: _) as l' => negb (bool_decide (m_row_ndx b < m_row_ndx a)) && is_sorted l'
  | _ => true
  end.

Fixpoint no_adjacent_equal (l : list list_entry) : bool :=
  match l with
  | a :: (b :: _) as l' => negb (bool_decide (m_row_ndx a = m_row_ndx b)) && no_adjacent_equal l'
  | _ => true
  end.

Definition validate_list_accessors (c : Accessors) : bool :=
  is_sorted (m_list_accessors c) && no_adjacent_equal (m_list_accessors c).

(** [LinkView::detach] and [LinkView::set_origin_row_index] on the object
    with identity [h]. *)
Definition detach_view (h : nat) (vs : gmap nat LinkViewObject) : gmap nat LinkViewObject :=
  alter (λ v, {| m_origin_table := false; ndx_in_parent := ndx_in_parent v;
                 m_row_indexes := None |}) h vs.

Definition set_origin_row_index (h : nat) (row_ndx : nat) (vs : gmap nat LinkViewObject)
    : gmap nat LinkViewObject :=
  alter (λ v, {| m_origin_table := m_origin_table v; ndx_in_parent := row_ndx;
                 m_row_indexes := m_row_indexes v |}) h vs.

Definition set_accessors (l : list list_entry) (c : Accessors) : Accessors :=
  {| m_list_accessors := l;
     m_list_accessors_contains_tombstones := m_list_accessors_contains_tombstones c;
     views := views c; next_view := next_view c |}.

Definition set_views (vs : gmap nat LinkViewObject) (c : Accessors) : Accessors :=
  {| m_list_accessors := m_list_accessors c;
     m_list_accessors_contains_tombstones := m_list_accessors_contains_tombstones c;
     views := vs; next_view := next_view c |}.

Definition set_tombstones (b : bool) (c : Accessors) : Accessors :=
  {| m_list_accessors := m_list_accessors c;
     m_list_accessors_contains_tombstones := b;
     views := views c; next_view := next_view c |}.

(** [unregister_linkview], and the destructor of a [LinkView] that calls
    it when the view is still attached (link_view.hpp); the object is gone
    afterwards. *)
Definition unregister_linkview (c : Accessors) : Accessors := set_tombstones true c.

Definition destroy_view (h : nat) (c : Accessors) : Accessors :=
  match views c !! h with
  | None => c
  | Some v =>
    let c' := if m_origin_table v then unregister_linkview c else c in
    set_views (delete h (views c')) c'
  end.

Definition prune_list_accessor_tombstones (c : Accessors) : Accessors :=
  let had_tombstones := m_list_accessors_contains_tombstones c in
  let c := set_tombstones false c in
  if negb had_tombstones then c
  else set_accessors (filter (λ e, expired (views c) e = false) (m_list_accessors c)) c.

(** [create_view] of [get_ptr]: the entry at index [i] is given the row and
    a new [LinkView], whose store accessor attaches if the cell holds a
    ref. *)
Definition create_view (cells : list Z) (row_ndx : nat) (i : nat) (c : Accessors)
    : nat * Accessors :=
  let h := next_view c in
  let v := {| m_origin_table := true; ndx_in_parent := row_ndx;
              m_row_indexes := match cells !! row_ndx with
                               | Some ref => if decide (ref = 0%Z) then None else Some ref
                               | None => None
                               end |} in
  (h, {| m_list_accessors :=
           <[i := {| m_row_ndx := row_ndx; m_list := Some h |}]> (m_list_accessors c);
         m_list_accessors_contains_tombstones := m_list_accessors_contains_tombstones c;
         views := <[h := v]> (views c);
         next_view := S h |}).

(** [get_ptr(row_ndx)]; [cells] is the leaf of the column, whose length is
    [size()]. *)
Definition get_ptr (cells : list Z) (row_ndx : nat) (c : Accessors) : Res (nat * Accessors) :=
  if decide (row_ndx < length cells) then
    let l := m_list_accessors c in
    let it := lower_bound row_ndx l in
    let reuse_it :=
      match l !! it with
      | Some e =>
        match (if decide (m_row_ndx e = row_ndx) then lock (views c) e else None) with
        | Some list => Some (Ok (list, c))
        | None =>
          if expired (views c) e then Some (Ok (create_view cells row_ndx it c))
          else None
        end
      | None => None
      end in
    match reuse_it with
    | Some r => r
    | None =>
      let reuse_previous :=
        if decide (it ≠ 0) then
          match l !! (it - 1) with
          | Some previous =>
            if expired (views c) previous
            then Some (create_view cells row_ndx (it - 1) c) else None
          | None => None
          end
        else None in
      match reuse_previous with
      | Some r => Ok r
      | None =>
        let key := {| m_row_ndx := row_ndx; m_list := None |} in
        Ok (create_view cells row_ndx it (set_accessors (vector_insert it key l) c))
      end
    end
  else Assert_failed.

Definition discard_child_accessors (c : Accessors) : Accessors :=
  let vs := foldl (λ vs e, match lock vs e with
                           | Some h => detach_view h vs
                           | None => vs
                           end) (views c) (m_list_accessors c) in
  set_accessors [] (set_views vs c).

(** The loop [for (; it != end; ++it)] of [adj_insert_rows] over the
    entries from [it] on. *)
Fixpoint bump_entries (fix_ndx_in_parent : bool) (num_rows_inserted : nat)
    (l : list list_entry) (vs : gmap nat LinkViewObject)
    : list list_entry * gmap nat LinkViewObject :=
  match l with
  | [] => ([], vs)
  | e :: l' =>
    let e' := {| m_row_ndx := m_row_ndx e + num_rows_inserted; m_list := m_list e |} in
    let vs' := if fix_ndx_in_parent then
                 match lock vs e' with
                 | Some h => set_origin_row_index h (m_row_ndx e') vs
                 | None => vs
                 end
               else vs in
    let '(r, vs'') := bump_entries fix_ndx_in_parent num_rows_inserted l' vs' in
    (e' :: r, vs'')
  end.

Definition adj_insert_rows (fix_ndx_in_parent : bool) (row_ndx num_rows_inserted : nat)
    (c : Accessors) : Accessors :=
  let c := prune_list_accessor_tombstones c in
  let l := m_list_accessors c in
  let it := lower_bound row_ndx l in
  let '(r, vs) := bump_entries fix_ndx_in_parent num_rows_inserted (drop it l) (views c) in
  set_accessors (take it l ++ r) (set_views vs c).

(** The two loops of [adj_erase_rows]. *)
Definition detach_entries (l : list list_entry) (vs : gmap nat LinkViewObject)
    : gmap nat LinkViewObject :=
  foldl (λ vs e, match lock vs e with
                 | Some h => detach_view h vs
                 | None => vs
                 end) vs l.

Fixpoint lower_entries (fix_ndx_in_parent : bool) (num_rows_erased : nat)
    (l : list list_entry) (vs : gmap nat LinkViewObject)
    : list list_entry * gmap nat LinkViewObject :=
  match l with
  | [] => ([], vs)
  | e :: l' =>
    let e' := {| m_row_ndx := m_row_ndx e - num_rows_erased; m_list := m_list e |} in
    let vs' := if fix_ndx_in_parent then
                 match lock vs e' with
                 | Some h => set_origin_row_index h (m_row_ndx e') vs
                 | None => vs
                 end
               else vs in
    let '(r, vs'') := lower_entries fix_ndx_in_parent num_rows_erased l' vs' in
    (e' :: r, vs'')
  end.

Definition adj_erase_rows (fix_ndx_in_parent : bool) (row_ndx num_rows_erased : nat)
    (c : Accessors) : Accessors :=
  let c := prune_list_accessor_tombstones c in
  let l := m_list_accessors c in
  let erased_begin := lower_bound row_ndx l in
  let erased_end :=
    erased_begin + lower_bound (row_ndx + num_rows_erased) (drop erased_begin l) in
  let vs := detach_entries (drop erased_begin (take erased_end l)) (views c) in
  let '(r, vs) := lower_entries fix_ndx_in_parent num_rows_erased (drop erased_end l) vs in
  set_accessors (take erased_begin l ++ r) (set_views vs c).

(** [std::iter_swap(to, from)]. *)
Definition iter_swap {A} (i j : nat) (l : list A) : list A :=
  match l !! i, l !! j with
  | Some a, Some b => <[j := a]> (<[i := b]> l)
  | _, _ => l
  end.

Definition adj_move_over (fix_ndx_in_parent : bool) (from_row_ndx to_row_ndx : nat)
    (c : Accessors) : Accessors :=
  let c := prune_list_accessor_tombstones c in
  let l := m_list_accessors c in
  let to := lower_bound to_row_ndx l in
  let to_is_valid :=
    match l !! to with
    | Some e => bool_decide (m_row_ndx e = to_row_ndx)
    | None => false
    end in
  let c :=
    match l !! to with
    | Some e =>
      if bool_decide (m_row_ndx e = to_row_ndx) then
        match lock (views c) e with
        | Some h =>
          {| m_list_accessors :=
               <[to := {| m_row_ndx := m_row_ndx e; m_list := None |}]> l;
             m_list_accessors_contains_tombstones := true;
             views := detach_view h (views c);
             next_view := next_view c |}
        | None => c
        end
      else c
    | None => c
    end in
  if decide (from_row_ndx = to_row_ndx) then c
  else
    let l := m_list_accessors c in
    let from := lower_bound from_row_ndx l in
    match l !! from with
    | Some e =>
      if decide (m_row_ndx e = from_row_ndx) then
        let e' := {| m_row_ndx := to_row_ndx; m_list := m_list e |} in
        let l := <[from := e']> l in
        let vs := if fix_ndx_in_parent then
                    match lock (views c) e' with
                    | Some h => set_origin_row_index h to_row_ndx (views c)
                    | None => views c
                    end
                  else views c in
        let l :=
          if to_is_valid then
            iter_swap to from
              (alter (λ t, {| m_row_ndx := from_row_ndx; m_list := m_list t |}) to l)
          else if decide (from < to) then rotate from (from + 1) to l
          else rotate to from (from + 1) l in
        set_accessors l (set_views vs c)
      else c
    | None => c
    end.

Definition adj_swap (fix_ndx_in_parent : bool) (row_ndx_1 row_ndx_2 : nat)
    (c : Accessors) : Accessors :=
  let c := prune_list_accessor_tombstones c in
  let l := m_list_accessors c in
  let found (it : nat) (row_ndx : nat) : option (list_entry * nat) :=
    match l !! it with
    | Some e =>
      if decide (m_row_ndx e = row_ndx) then
        match lock (views c) e with
        | Some ptr => Some (e, ptr)
        | None => None
        end
      else None
    | None => None
    end in
  let it_1 := lower_bound row_ndx_1 l in
  let it_2 := lower_bound row_ndx_2 l in
  match found it_1 row_ndx_1, found it_2 row_ndx_2 with
  | Some (e_1, ptr_1), Some (e_2, ptr_2) =>
    let vs := if fix_ndx_in_parent then
                set_origin_row_index ptr_2 row_ndx_1
                  (set_origin_row_index ptr_1 row_ndx_2 (views c))
              else views c in
    let l := <[it_2 := {| m_row_ndx := m_row_ndx e_2; m_list := m_list e_1 |}]>
               (<[it_1 := {| m_row_ndx := m_row_ndx e_1; m_list := m_list e_2 |}]> l) in
    set_accessors l (set_views vs c)
  | Some (e_1, ptr_1), None =>
    let l := <[it_1 := {| m_row_ndx := row_ndx_2; m_list := m_list e_1 |}]> l in
    let vs := if fix_ndx_in_parent then set_origin_row_index ptr_1 row_ndx_2 (views c)
              else views c in
    let l := if decide (it_1 < it_2) then rotate it_1 (it_1 + 1) it_2 l
             else rotate it_2 it_1 (it_1 + 1) l in
    set_accessors l (set_views vs c)
  | None, Some (e_2, ptr_2) =>
    let l := <[it_2 := {| m_row_ndx := row_ndx_1; m_list := m_list e_2 |}]> l in
    let vs := if fix_ndx_in_parent then set_origin_row_index ptr_2 row_ndx_1 (views c)
              else views c in
    let l := if decide (it_2 < it_1) then rotate it_2 (it_2 + 1) it_1 l
             else rotate it_1 it_2 (it_2 + 1) l in
    set_accessors l (set_views vs c)
  | None, None => c
  end.

(** What happens to the registry of one column: its mutators and lookups,
    and the release of the last reference to a view by its holder. *)
Inductive op :=
| Get_ptr (cells : list Z) (row_ndx : nat)
| Adj_insert_rows (fix_ndx_in_parent : bool) (row_ndx num_rows_inserted : nat)
| Adj_erase_rows (fix_ndx_in_parent : bool) (row_ndx num_rows_erased : nat)
| Adj_move_over (fix_ndx_in_parent : bool) (from_row_ndx to_row_ndx : nat)
| Adj_swap (fix_ndx_in_parent : bool) (row_ndx_1 row_ndx_2 : nat)
| Discard_child_accessors
| Release (h : nat).

Definition step (o : op) (c : Accessors) : Res Accessors :=
  match o with
  | Get_ptr cells row_ndx =>
    match get_ptr cells row_ndx c with
    | Ok (_, c') => Ok c'
    | Assert_failed => Assert_failed
    | Throws e => Throws e
    end
  | Adj_insert_rows f r n => Ok (adj_insert_rows f r n c)
  | Adj_erase_rows f r n => Ok (adj_erase_rows f r n c)
  | Adj_move_over f a b => Ok (adj_move_over f a b c)
  | Adj_swap f a b => Ok (adj_swap f a b c)
  | Discard_child_accessors => Ok (discard_child_accessors c)
  | Release h => Ok (destroy_view h c)
  end.

Fixpoint run (ops : list op) (c : Accessors) : Res Accessors :=
  match ops with
  | [] => Ok c
  | o :: ops' => Res_bind (step o c) (run ops')
  end.

End LinkListColumn.

(** * Specification-level definitions *)

(** ** The backlink column against the multisets it stands for *)

Module BacklinkSpec.

Inductive op :=
| Add (target_key origin_key : Key)
| Remove_one (target_key origin_key : Key).

Section WithTable.

Variable get_row_ndx : Key → nat.

Definition step (o : op) (st : Sys) : Res Sys :=
  match o with
  | Add t x => BacklinkColumn.add_backlink get_row_ndx t x st
  | Remove_one t x => BacklinkColumn.remove_one_backlink get_row_ndx t x st
  end.

Fixpoint run (ops : list op) (st : Sys) : Res Sys :=
  match ops with
  | [] => Ok st
  | o :: ops' => Res_bind (step o st) (run ops')
  end.

(** The abstract side: one multiset of origin rows per target row.  An
    origin row index fits 63 bits; an edge that is removed must be there. *)
Definition origin_ok (x : Z) : Prop := (0 ≤ x < 2 ^ 63)%Z.

Definition spec_step (o : op) (Ms : list (gmultiset Z)) : option (list (gmultiset Z)) :=
  match o with
  | Add t x =>
    match Ms !! get_row_ndx t with
    | Some M =>
      if decide (origin_ok (value x))
      then Some (<[get_row_ndx t := M ⊎ {[+ value x +]}]> Ms) else None
    | None => None
    end
  | Remove_one t x =>
    match Ms !! get_row_ndx t with
    | Some M =>
      if decide (value x ∈ M)
      then Some (<[get_row_ndx t := M ∖ {[+ value x +]}]> Ms) else None
    | None => None
    end
  end.

Fixpoint spec_run (ops : list op) (Ms : list (gmultiset Z)) : option (list (gmultiset Z)) :=
  match ops with
  | [] => Some Ms
  | o :: ops' =>
    match spec_step o Ms with
    | Some Ms' => spec_run ops' Ms'
    | None => None
    end
  end.

End WithTable.

(** A column of [n] target rows without any backlink, next to whatever else
    the allocator holds. *)
Definition fresh_column (n : nat) (st : Sys) : Prop :=
  backlinks st = replicate n 0%Z.

(** The three forms of a cell, as the specification words them. *)
Definition encodes (st : Sys) (w : Z) (M : gmultiset Z) : Prop :=
  (M = ∅ → w = 0%Z) ∧
  (∀ o, M = {[+ o +]} → w = Z.lor (Z.shiftl o 1) 1) ∧
  (2 ≤ size M →
     w ≠ 0%Z ∧ Z.land w 1 = 0%Z ∧
     ∃ l, heap st !! to_ref w = Some l ∧ list_to_set_disj l = M).

(** The representation invariant used in the proofs: the same three forms,
    with the facts that make them stable. *)
Definition rep (st : Sys) (w : Z) (M : gmultiset Z) : Prop :=
  (M = ∅ ∧ w = 0%Z) ∨
  (∃ o, M = {[+ o +]} ∧ origin_ok o ∧ w = (2 * o + 1)%Z) ∨
  (∃ l, heap st !! w = Some l ∧ list_to_set_disj l = M ∧ 2 ≤ length l ∧
        Forall origin_ok l ∧ w ≠ 0%Z ∧ Z.land w 1 = 0%Z).

Definition is_ref (w : Z) : Prop := w ≠ 0%Z ∧ Z.land w 1 = 0%Z.

Record bl_inv (Ms : list (gmultiset Z)) (st : Sys) : Prop := {
  bl_length : length (backlinks st) = length Ms;
  bl_rep : ∀ row w M, backlinks st !! row = Some w → Ms !! row = Some M → rep st w M;
  bl_sep : ∀ i j w, i ≠ j → backlinks st !! i = Some w → backlinks st !! j = Some w →
           ¬ is_ref w;
}.

(** A ref the backlink column does not own. *)
Definition foreign (st : Sys) (r : Z) : Prop :=
  is_ref r ∧ is_Some (heap st !! r) ∧ r ∉ backlinks st.

End BacklinkSpec.

(** Concrete surroundings for the examples: keys that are row indices, and
    an empty database with [n] target rows and [m] origin rows. *)
Definition row_of_key (k : Key) : nat := Z.to_nat (value k).

Definition empty_sys (n m : nat) : Sys :=
  {| heap := ∅; backlinks := replicate n 0%Z; links := replicate m 0%Z |}.

(** ** Traces of a list view *)

Definition is_replication (e : Event) : bool :=
  match e with Replication _ => true | _ => false end.

Definition is_update (e : Event) : bool :=
  match e with BacklinkUpdate | ForwardUpdate => true | _ => false end.

Definition is_row_removal (e : Event) : bool :=
  match e with RemoveRows _ => true | _ => false end.

(** In [tr], every call of the replication sink comes before every update
    of the backlink column or of the forward side. *)
Definition replication_first (tr : list Event) : Prop :=
  ∀ i j e u, tr !! i = Some e → tr !! j = Some u →
    is_replication e = true → is_update u = true → i < j.

(** A detached view, as [LinkView::detach] leaves it. *)
Definition detached_state (st : Sys) (row_ndx : nat) : State :=
  {| sys := st;
     this := {| m_origin_table := false; ndx_in_parent := row_ndx; m_row_indexes := None |};
     m_version := 0; trace := [] |}.

(** An attached view on the cell of [row_ndx], as the constructor makes
    it. *)
Definition attached_state (st : Sys) (row_ndx : nat) : State :=
  {| sys := st;
     this := {| m_origin_table := true; ndx_in_parent := row_ndx;
                m_row_indexes := match links st !! row_ndx with
                                 | Some ref => if decide (ref = 0%Z) then None else Some ref
                                 | None => None
                                 end |};
     m_version := 0; trace := [] |}.

Definition replication_last (tr : list Event) : Prop :=
  ∀ i j e u, tr !! i = Some e → tr !! j = Some u →
    is_replication e = true → is_update u = true → j < i.

(** The public mutators of a list view. *)
Inductive mutator :=
| Insert (link_ndx target_row_ndx : nat)
| Set_ (link_ndx target_row_ndx : nat)
| Remove (link_ndx : nat)
| Move (from_link_ndx to_link_ndx : nat)
| Swap (link_ndx_1 link_ndx_2 : nat)
| Clear.

Section WithColumn.

Variable get_row_ndx : Key → nat.
Variable m_weak_links : bool.
Variable repl : bool.
Variable other_strong_backlinks : nat → nat.

Definition run_mutator (m : mutator) : M unit :=
  match m with
  | Insert i t => LinkView.insert get_row_ndx repl i t
  | Set_ i t => LinkView.set get_row_ndx m_weak_links repl other_strong_backlinks i t
  | Remove i => LinkView.remove get_row_ndx m_weak_links repl other_strong_backlinks i
  | Move a b => LinkView.move repl a b
  | Swap a b => LinkView.swap repl a b
  | Clear => LinkView.clear get_row_ndx m_weak_links repl other_strong_backlinks
  end.

Fixpoint run_mutators (ms : list mutator) : M unit :=
  match ms with
  | [] => skip
  | m :: ms' => run_mutator m;; run_mutators ms'
  end.

End WithColumn.

(** What each mutator adds to the trace when a sink is installed. *)
Definition no_replication (tr : list Event) : Prop :=
  Forall (λ e, is_replication e = false) tr.

Definition replication_shape (m : mutator) (added : list Event) : Prop :=
  match m with
  | Set_ i t =>
    ∃ tr, added = Replication (link_list_set i t) :: tr ∧ no_replication tr
  | Remove i =>
    ∃ tr, added = Replication (link_list_erase i) :: tr ∧ no_replication tr
  | Clear =>
    added = [] ∨ ∃ tr, added = Replication link_list_clear :: tr ∧ no_replication tr
  | Insert i t =>
    ∃ tr, added = tr ++ [ForwardUpdate; BacklinkUpdate; Replication (link_list_insert i t)] ∧
          no_replication tr
  | Move a b =>
    added = [] ∨ added = [ForwardUpdate; ForwardUpdate; Replication (link_list_move a b)]
  | Swap a b =>
    added = [] ∨
    added = [ForwardUpdate; ForwardUpdate;
             Replication (link_list_swap (a `min` b) (a `max` b))]
  end.

Definition replicates_first (m : mutator) : bool :=
  match m with
  | Set_ _ _ | Remove _ | Clear => true
  | Insert _ _ | Move _ _ | Swap _ _ => false
  end.

(** The elements of the list of an origin row, read from the persisted
    state. *)
Definition link_list (st : Sys) (row_ndx : nat) : option (list Z) :=
  match links st !! row_ndx with
  | Some ref => if decide (ref = 0%Z) then Some [] else heap st !! ref
  | None => None
  end.

(** The target at position [link_ndx] of the list the view is attached
    to. *)
Definition old_target (s : State) (link_ndx : nat) : option nat :=
  match m_row_indexes (this s) with
  | Some ref =>
    match heap (sys s) !! ref with
    | Some l => Z.to_nat <$> l !! link_ndx
    | None => None
    end
  | None => None
  end.

(** The test of [set] and [remove] for seeding the cascade, on the state
    [st] in which they make it: the column is strong and no strong backlink
    to the old target row is left. *)
Definition cascades (m_weak_links : bool) (other_strong_backlinks : nat → nat)
    (old_target_row_ndx : nat) (st : Sys) : bool :=
  negb m_weak_links &&
  match BacklinkColumn.get_backlink_count old_target_row_ndx st with
  | Some n => bool_decide (n + other_strong_backlinks old_target_row_ndx = 0)
  | None => false
  end.

Definition no_row_removal (tr : list Event) : Prop :=
  Forall (λ e, is_row_removal e = false) tr.

(** In [tr] no row is scheduled for removal: the cascade is not entered
    and [remove_backlink_broken_rows] is called with no rows at most. *)
Definition is_scheduling (e : Event) : bool :=
  match e with
  | CascadeBreak _ => true
  | RemoveRows rows => negb (bool_decide (rows = []))
  | _ => false
  end.

Definition schedules_no_row (tr : list Event) : Prop :=
  Forall (λ e, is_scheduling e = false) tr.

(** What a run adds to the trace satisfies [P]. *)
Definition trace_ext {A} (P : list Event → Prop) (m : M A) : Prop :=
  ∀ s a s', m s = Ok (a, s') → ∃ tr, trace s' = trace s ++ tr ∧ P tr.

Definition replication_of (repl : bool) (i : Instr) : list Event :=
  if repl then [Replication i] else [].

Definition cascade_tail (m_weak_links : bool) (other_strong_backlinks : nat → nat)
    (old : nat) (st : Sys) : list Event :=
  if cascades m_weak_links other_strong_backlinks old st
  then [CascadeBreak old; RemoveRows [old]] else [].

(** The state a run ends in ([d] if it does not end normally). *)
Definition final {A} (r : Res (A * State)) (d : State) : State :=
  match r with
  | Ok (_, s') => s'
  | _ => d
  end.

(** The position a mutator takes its old target from. *)
Definition replaced_position (m : mutator) : option nat :=
  match m with
  | Set_ i _ | Remove i => Some i
  | _ => None
  end.

(** Origin row 5 of 6 holds the list [7], and target row 7 of 10 has the
    one backlink from row 5, inline. *)
Definition example_sys : Sys :=
  {| heap := {[ 8%Z := [7%Z] ]};
     backlinks := <[7 := 11%Z]> (replicate 10 0%Z);
     links := <[5 := 8%Z]> (replicate 6 0%Z) |}.

Definition example_state : State := attached_state example_sys 5.

(** Origin row 5 after [insert(0,7)], [insert(1,7)], [insert(2,9)] on an
    empty database of 10 target rows and 6 origin rows, a strong column
    without sink. *)
Definition list_7_7_9 : State :=
  final (run_mutators row_of_key false false (λ _, 0)
           [Insert 0 7; Insert 1 7; Insert 2 9]
           (attached_state (empty_sys 10 6) 5))
        (attached_state (empty_sys 10 6) 5).

(** The state a backlink-column call ends in ([d] if it fails). *)
Definition final_sys (r : Res Sys) (d : Sys) : Sys :=
  match r with
  | Ok st => st
  | _ => d
  end.

(** A view of link_view.hpp after [detach]. *)
Definition detached_view : TightdbLinkView.LinkView :=
  {| TightdbLinkView.m_origin_table := false;
     TightdbLinkView.m_target_row_indexes := None;
     TightdbLinkView.ndx_in_parent := 5 |}.

(** ** A list view against the backlinks of its list *)

(** [n] copies of the origin [r], and the backlink multisets [Ms0] of all
    other origins joined with the backlinks of the list [L] of origin
    [r]. *)
Definition mrep (n : nat) (r : Z) : gmultiset Z := list_to_set_disj (replicate n r).

Definition cnt (row : nat) (L : list nat) : nat := length (filter (λ t, t = row) L).

Definition add_links (r : Z) (L : list nat) (Ms0 : list (gmultiset Z))
    : list (gmultiset Z) :=
  imap (λ row M, M ⊎ mrep (cnt row L) r) Ms0.

(** The strong backlinks of target row [t] while the list of the view is
    [L]: those that the paired backlink column holds apart from the list,
    those of the list, and those of the other columns; this is the count
    that [LinkView.get_backlink_count] returns for [t] when the backlink
    column is reciprocal with [L]. *)
Definition strong_backlinks (other_strong_backlinks : nat → nat)
    (Ms0 : list (gmultiset Z)) (L : list nat) (t : nat) : nat :=
  size (default ∅ (Ms0 !! t)) + cnt t L + other_strong_backlinks t.

(** The exchange of two rows. *)
Definition exchange {A} `{EqDecision A} (a b x : A) : A :=
  if decide (x = a) then b else if decide (x = b) then a else x.

(** A column whose rows [r1] and [r2] have changed places. *)
Definition swap_cells {A} (r1 r2 : nat) (c : list A) : list A :=
  match c !! r1, c !! r2 with
  | Some x1, Some x2 => <[r2 := x1]> (<[r1 := x2]> c)
  | _, _ => c
  end.

(** An attached view on an origin row whose list is [L]: the cell is 0 and
    the store accessor detached (then [L] is empty), or the cell holds the
    ref of a store with the elements of [L] that the accessor is attached
    to; the backlink column represents [add_links r L Ms0]. *)
Record view_inv (Ms0 : list (gmultiset Z)) (L : list nat) (s : State) : Prop := {
  vi_attached : m_origin_table (this s) = true;
  vi_row : ndx_in_parent (this s) < length (links (sys s));
  vi_origin : BacklinkSpec.origin_ok (Z.of_nat (ndx_in_parent (this s)));
  vi_bl : BacklinkSpec.bl_inv (add_links (Z.of_nat (ndx_in_parent (this s))) L Ms0) (sys s);
  vi_targets : Forall (λ t, t < length Ms0) L;
  vi_cell :
    (links (sys s) !! ndx_in_parent (this s) = Some 0%Z ∧
     m_row_indexes (this s) = None ∧ L = []) ∨
    (∃ ref, links (sys s) !! ndx_in_parent (this s) = Some ref ∧
            m_row_indexes (this s) = Some ref ∧
            BacklinkSpec.foreign (sys s) ref ∧
            heap (sys s) !! ref = Some (Z.of_nat <$> L));
}.

(** Insertions at valid positions of a list of length [len], with targets
    among [n] rows. *)
Fixpoint valid_inserts (n len : nat) (ins : list (nat * nat)) : Prop :=
  match ins with
  | [] => True
  | (i, t) :: ins' => i ≤ len ∧ t < n ∧ valid_inserts n (S len) ins'
  end.

Definition insert_all (ins : list (nat * nat)) : list mutator :=
  (λ p, Insert p.1 p.2) <$> ins.

(** ** The registry of list accessors *)

Module RegistrySpec.
Import LinkListColumn.

Definition rows (l : list list_entry) : list nat := m_row_ndx <$> l.

(** Strictly sorted by origin row: no two entries with the same row. *)
Definition sorted (l : list list_entry) : Prop := StronglySorted lt (rows l).

Definition ptrs (l : list list_entry) : list (option nat) := m_list <$> l.

(** The part of the invariant that is about the weak pointers [ps] of the
    entries: without the tombstone flag every pointer is live; a live view
    in the registry is attached; identities in use are below the next one;
    no view is registered twice. *)
Record pointers_ok (flag : bool) (vs : gmap nat LinkViewObject) (next : nat)
    (ps : list (option nat)) : Prop := {
  po_live : flag = false → Forall (λ o, ∃ h, o = Some h ∧ is_Some (vs !! h)) ps;
  po_attached : ∀ h v, Some h ∈ ps → vs !! h = Some v → m_origin_table v = true;
  po_bound : ∀ h, Some h ∈ ps → h < next;
  po_nodup : NoDup (omap id ps);
}.

Record inv (c : Accessors) : Prop := {
  inv_sorted : sorted (m_list_accessors c);
  inv_pointers :
    pointers_ok (m_list_accessors_contains_tombstones c) (views c) (next_view c)
      (ptrs (m_list_accessors c));
}.

(** The entries whose view still exists. *)
Definition live_entries (c : Accessors) : list list_entry :=
  filter (λ e, expired (views c) e = false) (m_list_accessors c).

(** [v.get_origin_row_index()] of the view with identity [h]. *)
Definition origin_row (c : Accessors) (h : nat) : option nat :=
  ndx_in_parent <$> views c !! h.

(** A run of registry operations used as a running example: three views
    are obtained, one is moved by a swap, one is released, and rows are
    erased and inserted in front of the others. *)
Definition the_registry (r : Res Accessors) : Accessors :=
  match r with
  | Ok c => c
  | _ => empty_accessors
  end.

Definition example_cells : list Z := replicate 12 0%Z.

Definition example_ops : list op :=
  [Get_ptr example_cells 3; Get_ptr example_cells 7; Get_ptr example_cells 5;
   Adj_swap true 3 6; Release 1; Adj_erase_rows true 0 1;
   Adj_insert_rows true 2 2; Adj_move_over true 11 4].

Definition example_registry : Accessors :=
  the_registry (run example_ops empty_accessors).

Definition example_registry_held : Accessors :=
  the_registry (run (example_ops ++ [Get_ptr example_cells 10]) empty_accessors).

End RegistrySpec.

Module RegistryAux.
Import LinkListColumn.

(** The two loops of [adj_insert_rows] and [adj_erase_rows] change the row
    of every entry by a function [f] of the row. *)
Definition set_row (f : nat → nat) (e : list_entry) : list_entry :=
  {| m_row_ndx := f (m_row_ndx e); m_list := m_list e |}.

Fixpoint map_entries (f : nat → nat) (fix_ndx_in_parent : bool)
    (l : list list_entry) (vs : gmap nat LinkViewObject)
    : list list_entry * gmap nat LinkViewObject :=
  match l with
  | [] => ([], vs)
  | e :: l' =>
    let e' := set_row f e in
    let vs' := if fix_ndx_in_parent then
                 match lock vs e' with
                 | Some h => set_origin_row_index h (m_row_ndx e') vs
                 | None => vs
                 end
               else vs in
    let '(r, vs'') := map_entries f fix_ndx_in_parent l' vs' in
    (e' :: r, vs'')
  end.

(** Two maps of views with the same objects, up to the origin row the
    objects carry. *)
Definition same_views (vs vs' : gmap nat LinkViewObject) : Prop :=
  ∀ h, match vs !! h, vs' !! h with
       | Some v, Some v' =>
         m_origin_table v' = m_origin_table v ∧ m_row_indexes v' = m_row_indexes v
       | None, None => True
       | _, _ => False
       end.

(** [vs'] is [vs] with the views of [D] detached. *)
Definition detached_in (D : list nat) (vs vs' : gmap nat LinkViewObject) : Prop :=
  (∀ h, is_Some (vs' !! h) ↔ is_Some (vs !! h)) ∧
  (∀ h, h ∉ D → vs' !! h = vs !! h).

Definition all_live (vs : gmap nat LinkViewObject) (ps : list (option nat)) : Prop :=
  Forall (λ o, ∃ h, o = Some h ∧ is_Some (vs !! h)) ps.

End RegistryAux.

(** * More of the code *)

(** ** column_backlink.cpp: updates in place, bulk removal, iteration *)

Module BacklinkColumnOps.

(** [update_backlink(row_ndx, old_origin_row_ndx, new_origin_row_ndx)]; the
    new inline word is [new_origin_row_ndx << 1 | 1] in [size_t]. *)
Definition update_backlink (row_ndx old_origin_row_ndx new_origin_row_ndx : nat)
    (st : Sys) : Res Sys :=
  match backlinks st !! row_ndx with
  | None => Assert_failed
  | Some v =>
    if decide (v = 0%Z) then Assert_failed
    else if decide (Z.land v 1 ≠ 0%Z) then
      if decide (Z.shiftr v 1 = Z.of_nat old_origin_row_ndx) then
        let value_2 := Z.lor (uint64_t (Z.shiftl (Z.of_nat new_origin_row_ndx) 1)) 1 in
        Ok (BacklinkColumn.set_uint row_ndx value_2 st)
      else Assert_failed
    else
      let ref := to_ref v in
      match heap st !! ref with
      | None => Assert_failed
      | Some backlink_list =>
        let value_2 := int64_t (Z.of_nat old_origin_row_ndx) in
        match find_first value_2 backlink_list with
        | None => Assert_failed
        | Some backlink_ndx =>
          let value_3 := int64_t (Z.of_nat new_origin_row_ndx) in
          Ok (set_heap (<[ref := <[backlink_ndx := value_3]> backlink_list]> (heap st)) st)
        end
      end
  end.

(** [remove_all_backlinks(num_rows)]: the loop from [row_ndx] on for [n]
    more rows.  [Array::destroy_deep] frees the store. *)
Fixpoint remove_all_backlinks_from (row_ndx n : nat) (st : Sys) : Res Sys :=
  match n with
  | 0 => Ok st
  | S n' =>
    match backlinks st !! row_ndx with
    | None => Assert_failed
    | Some w =>
      let value := uint64_t (int64_t w) in
      let st1 := if decide (value ≠ 0%Z ∧ Z.land value 1 = 0%Z)
                 then set_heap (delete (to_ref value) (heap st)) st
                 else st in
      remove_all_backlinks_from (S row_ndx) n' (BacklinkColumn.set_uint row_ndx 0 st1)
    end
  end.

Definition remove_all_backlinks (num_rows : nat) (st : Sys) : Res Sys :=
  remove_all_backlinks_from 0 num_rows st.

(** [for_each_link(row_ndx, do_destroy, func)].  [func] may do anything to
    the database and to what it captured ([A]); the size of the list is
    read once, the elements one by one through the accessor.  With
    [do_destroy] the store is freed at the end, and the word of the cell is
    left as it is.  The result is [to_size_t] of the word read at the start,
    which asserts that the word is not negative. *)
Fixpoint for_each_in_list {A} (ref : Z) (i n : nat)
    (func : Key → A * Sys → Res (A * Sys)) (a : A * Sys) : Res (A * Sys) :=
  match n with
  | 0 => Ok a
  | S n' =>
    match heap a.2 !! ref with
    | None => Assert_failed
    | Some backlink_list =>
      match backlink_list !! i with
      | None => Assert_failed
      | Some value_2 =>
        Res_bind (func {| value := value_2 |} a) (for_each_in_list ref (S i) n' func)
      end
    end
  end.

Definition for_each_link {A} (row_ndx : nat) (do_destroy : bool)
    (func : Key → A * Sys → Res (A * Sys)) (a : A * Sys) : Res (Z * (A * Sys)) :=
  match backlinks a.2 !! row_ndx with
  | None => Assert_failed
  | Some w =>
    let value := int64_t w in
    let to_size_t (a' : A * Sys) : Res (Z * (A * Sys)) :=
      if decide (0 ≤ value)%Z then Ok (value, a') else Assert_failed in
    if decide (value = 0%Z) then to_size_t a
    else if decide (Z.land value 1 ≠ 0%Z) then
      Res_bind (func {| value := Z.shiftr value 1 |} a) to_size_t
    else
      let ref := to_ref value in
      match heap a.2 !! ref with
      | None => Assert_failed
      | Some backlink_list =>
        Res_bind (for_each_in_list ref 0 (length backlink_list) func a) (λ a',
          to_size_t (if do_destroy then (a'.1, set_heap (delete ref (heap a'.2)) a'.2)
                     else a'))
      end
  end.

(** The part of [CascadeState] the backlink column writes: the links to
    nullify, each with its origin table, origin column, origin key and old
    target key. *)
Record link := {
  origin_table : nat;
  origin_col_ndx : nat;
  origin_key : Key;
  old_target_key : Key;
}.

Record CascadeState := {
  track_link_nullifications : bool;
  links : list link;
}.

Section WithTable.

(** [m_table->get_key(row_ndx)] of the target table, the origin table
    [m_origin_table.get()] and [get_origin_column_index()]. *)
Variable get_key : nat → Key.
Variable m_origin_table : nat.
Variable origin_column_index : nat.

Definition push_link (target_key : Key) (origin_key : Key) (a : CascadeState * Sys)
    : Res (CascadeState * Sys) :=
  Ok ({| track_link_nullifications := track_link_nullifications a.1;
         links := links a.1 ++ [{| origin_table := m_origin_table;
                                   origin_col_ndx := origin_column_index;
                                   origin_key := origin_key;
                                   old_target_key := target_key |}] |}, a.2).

Definition cascade_break_backlinks_to (row_ndx : nat) (a : CascadeState * Sys)
    : Res (CascadeState * Sys) :=
  if track_link_nullifications a.1 then
    let old_target_key := get_key row_ndx in
    Res_bind (for_each_link row_ndx false (push_link old_target_key) a) (λ r, Ok r.2)
  else Ok a.

(** [cascade_break_backlinks_to_all_rows(num_rows, state)]. *)
Definition cascade_break_backlinks_to_all_rows (num_rows : nat) (a : CascadeState * Sys)
    : Res (CascadeState * Sys) :=
  if track_link_nullifications a.1 then
    foldl (λ r row_ndx,
             Res_bind r (λ a,
               Res_bind (for_each_link row_ndx false (push_link (get_key row_ndx)) a)
                        (λ r, Ok r.2)))
          (Ok a) (seq 0 num_rows)
  else Ok a.

End WithTable.

End BacklinkColumnOps.

(** ** column_linklist.cpp: the swap of two origin rows *)

Module LinkListColumnOps.
Import LinkListColumn.

(** [std::set<size_t>::insert]: the set is the ascending sequence of its
    elements, which is the order the range-for goes through it. *)
Fixpoint set_insert (x : nat) (s : list nat) : list nat :=
  match s with
  | [] => [x]
  | y :: s' =>
    if decide (x < y) then x :: s
    else if decide (x = y) then s
    else y :: set_insert x s'
  end.

(** The loop over a link list that inserts [to_size_t(link_list.get(i))]
    into the set. *)
Fixpoint insert_targets (link_list : list Z) (s : list nat) : Res (list nat) :=
  match link_list with
  | [] => Ok s
  | v :: rest =>
    if decide (0 ≤ v)%Z then insert_targets rest (set_insert (Z.to_nat v) s)
    else Assert_failed
  end.

Definition targets_of (ref : Z) (st : Sys) (s : list nat) : Res (list nat) :=
  if decide (ref = 0%Z) then Ok s
  else
    match heap st !! ref with
    | Some link_list => insert_targets link_list s
    | None => Assert_failed
    end.

(** [for (size_t target_row : update_target_backlinks)
       m_backlink_column->swap_backlinks(target_row, row_ndx_1, row_ndx_2)]. *)
Fixpoint swap_all_backlinks (update_target_backlinks : list nat)
    (row_ndx_1 row_ndx_2 : nat) (st : Sys) : Res Sys :=
  match update_target_backlinks with
  | [] => Ok st
  | target_row :: rest =>
    Res_bind (BacklinkColumn.swap_backlinks target_row
                (Z.of_nat row_ndx_1) (Z.of_nat row_ndx_2) st)
             (swap_all_backlinks rest row_ndx_1 row_ndx_2)
  end.

(** [adj_acc_merge_rows(old_row_ndx, new_row_ndx)]: the entry of
    [old_row_ndx], if there is one, is rotated to the insertion point of
    [new_row_ndx], searched on its side of the entry only, and is then given
    the new row; a view that is alive is told its new origin row. *)
Definition adj_acc_merge_rows (old_row_ndx new_row_ndx : nat) (c : Accessors)
    : Accessors :=
  let c := prune_list_accessor_tombstones c in
  let l := m_list_accessors c in
  let old_it := lower_bound old_row_ndx l in
  match l !! old_it with
  | None => c
  | Some e =>
    if decide (m_row_ndx e ≠ old_row_ndx) then c
    else
      let '(l, old_it) :=
        if decide (old_row_ndx < new_row_ndx) then
          let new_it := old_it + lower_bound new_row_ndx (drop old_it l) in
          (rotate old_it (old_it + 1) new_it l, new_it - 1)
        else
          let new_it := lower_bound new_row_ndx (take old_it l) in
          (rotate new_it old_it (old_it + 1) l, new_it) in
      let l := alter (λ e, {| m_row_ndx := new_row_ndx; m_list := m_list e |}) old_it l in
      let vs :=
        match l !! old_it with
        | Some e =>
          match lock (views c) e with
          | Some list => set_origin_row_index list new_row_ndx (views c)
          | None => views c
          end
        | None => views c
        end in
      set_accessors l (set_views vs c)
  end.

Section WithBuild.

(** [REALM_ASSERT_DEBUG] is compiled in or out with the build; [debug] says
    whether it is checked. *)
Variable debug : bool.

(** [LinkListColumn::swap_rows(row_ndx_1, row_ndx_2)], on the database and
    the registry of the column. *)
Definition swap_rows (row_ndx_1 row_ndx_2 : nat) (st : Sys) (c : Accessors)
    : Res (Sys * Accessors) :=
  if debug && bool_decide (row_ndx_1 = row_ndx_2) then Assert_failed
  else
    match links st !! row_ndx_1, links st !! row_ndx_2 with
    | Some w1, Some w2 =>
      let ref_1 := to_ref w1 in
      let ref_2 := to_ref w2 in
      Res_bind (targets_of ref_1 st []) (λ s,
      Res_bind (targets_of ref_2 st s) (λ update_target_backlinks,
      Res_bind (swap_all_backlinks update_target_backlinks row_ndx_1 row_ndx_2 st) (λ st1,
      match BacklinkColumn.IntegerColumn_swap_rows row_ndx_1 row_ndx_2 (links st1) with
      | Some l => Ok (set_links l st1, adj_swap true row_ndx_1 row_ndx_2 c)
      | None => Assert_failed
      end)))
    | _, _ => Assert_failed
    end.

End WithBuild.
End LinkListColumnOps.

(** ** column_link.hpp: the column of single links *)

#[global] Instance Key_eq_dec : EqDecision Key.
Proof. solve_decision. Defined.

Module LinkColumn.
Section WithTable.

(** [get_row_ndx] of the target table (used by the backlink column),
    [m_table->get_key(row_ndx)] of the origin table, and the constant
    [realm::null_key] (keys.hpp is not in src/). *)
Variable get_row_ndx : Key → nat.
Variable get_key : nat → Key.
Variable null_key : Key.

(** The cells of the column are [int64_t] values: 0 for no link, else the
    value of the target key plus one, computed in [int_fast64_t]. *)
Definition is_null (row_ndx : nat) (st : Sys) : Res bool :=
  match links st !! row_ndx with
  | Some v => Ok (bool_decide (v = 0%Z))
  | None => Assert_failed
  end.

Definition get_link (row_ndx : nat) (st : Sys) : Res Key :=
  match links st !! row_ndx with
  | Some v => Ok {| value := int64_t (v - 1) |}
  | None => Assert_failed
  end.

Definition set_link (row_ndx : nat) (target_key : Key) (st : Sys) : Res (Key * Sys) :=
  let origin_key := get_key row_ndx in
  match links st !! row_ndx with
  | None => Assert_failed
  | Some old_value =>
    let old_target_key := {| value := int64_t (old_value - 1) |} in
    Res_bind
      (if decide (old_value ≠ 0%Z)
       then BacklinkColumn.remove_one_backlink get_row_ndx old_target_key origin_key st
       else Ok st) (λ st1,
    let new_value := int64_t (value target_key + 1) in
    match links st1 !! row_ndx with
    | None => Assert_failed
    | Some _ =>
      let st2 := set_links (<[row_ndx := new_value]> (links st1)) st1 in
      Res_bind
        (if decide (target_key ≠ null_key)
         then BacklinkColumn.add_backlink get_row_ndx target_key origin_key st2
         else Ok st2) (λ st3, Ok (old_target_key, st3))
    end)
  end.

Definition set_null (row_ndx : nat) (st : Sys) : Res Sys :=
  Res_bind (set_link row_ndx null_key st) (λ r, Ok r.2).

Definition nullify_link (row_ndx : nat) (st : Sys) : Res Sys := set_null row_ndx st.

(** [do_swap_link(row_ndx, target_key_1, target_key_2)]. *)
Definition do_swap_link (row_ndx : nat) (target_key_1 target_key_2 : Key) (st : Sys)
    : Res Sys :=
  match links st !! row_ndx with
  | None => Assert_failed
  | Some v =>
    if decide (v = int64_t (value target_key_1 + 1)) then
      Ok (set_links (<[row_ndx := int64_t (value target_key_2 + 1)]> (links st)) st)
    else if decide (v = int64_t (value target_key_2 + 1)) then
      Ok (set_links (<[row_ndx := int64_t (value target_key_1 + 1)]> (links st)) st)
    else Ok st
  end.

End WithTable.
End LinkColumn.

(** ** Specification-level definitions for the further properties *)

(** The backlinks of a cell with word [w] in the order in which the column
    keeps them: none for the word 0, the one origin of a tagged word, the
    elements of the store from first to last for a ref. *)
Definition stored_backlinks (st : Sys) (w : Z) : list Z :=
  if decide (w = 0%Z) then []
  else if decide (Z.land w 1 = 1%Z) then [Z.shiftr w 1]
  else default [] (heap st !! w).

(** The words of the backlink column are 64-bit words. *)
Definition words_ok (st : Sys) : Prop :=
  Forall (λ w, 0 ≤ w < 2 ^ 64)%Z (backlinks st).

(** The record [cascade_break_backlinks_to] makes of a backlink to nullify,
    and the cascade state with such records added. *)
Definition link_to_nullify (m_origin_table origin_column_index : nat)
    (target_key : Key) (o : Z) : BacklinkColumnOps.link :=
  {| BacklinkColumnOps.origin_table := m_origin_table;
     BacklinkColumnOps.origin_col_ndx := origin_column_index;
     BacklinkColumnOps.origin_key := {| value := o |};
     BacklinkColumnOps.old_target_key := target_key |}.

Definition add_links_to_nullify (cs : BacklinkColumnOps.CascadeState)
    (ls : list BacklinkColumnOps.link) : BacklinkColumnOps.CascadeState :=
  {| BacklinkColumnOps.track_link_nullifications :=
       BacklinkColumnOps.track_link_nullifications cs;
     BacklinkColumnOps.links := BacklinkColumnOps.links cs ++ ls |}.

(** The backlinks from origin row [r] are reciprocal to its list [L]: a
    target row has as many backlinks from [r] as [L] has links to it. *)
Definition reciprocal (Ms : list (gmultiset Z)) (r : nat) (L : list nat) : Prop :=
  ∀ t, multiplicity (Z.of_nat r) (default ∅ (Ms !! t)) = cnt t L.

(** The list [L] that the cell [w] of the link-list column stands for:
    none for the word 0, else the elements of the store at the ref. *)
Definition list_at (st : Sys) (w : Z) (L : list nat) : Prop :=
  (w = 0%Z ∧ L = []) ∨
  (w ≠ 0%Z ∧ BacklinkSpec.foreign st w ∧ heap st !! to_ref w = Some (Z.of_nat <$> L)).

(** One backlink from origin [o] less, or more, at target row [t]. *)
Definition unlink (o : Z) (t : nat) (Ms : list (gmultiset Z)) : list (gmultiset Z) :=
  alter (λ M, M ∖ {[+ o +]}) t Ms.

Definition link_to (o : Z) (t : nat) (Ms : list (gmultiset Z)) : list (gmultiset Z) :=
  alter (λ M, M ⊎ {[+ o +]}) t Ms.

(** The backlinks after [set_link]: the edge of the old link, if there was
    one, is gone, and the edge of the new link, if it is one, is there. *)
Definition relinked (o : Z) (old_target new_target : option nat)
    (Ms : list (gmultiset Z)) : list (gmultiset Z) :=
  let Ms1 := match old_target with Some t => unlink o t Ms | None => Ms end in
  match new_target with Some t => link_to o t Ms1 | None => Ms1 end.

(** ** Running examples *)

(** A backlink column of three target rows after three edges were added:
    row 1 has the backlinks from the origins 10 and 11, in a store, and
    row 2 has one from origin 10, inline. *)
Definition example_backlink_ops : list BacklinkSpec.op :=
  [BacklinkSpec.Add {| value := 1 |} {| value := 10 |};
   BacklinkSpec.Add {| value := 1 |} {| value := 11 |};
   BacklinkSpec.Add {| value := 2 |} {| value := 10 |}].

Definition example_backlinks : Sys :=
  final_sys (BacklinkSpec.run row_of_key example_backlink_ops (empty_sys 3 0))
            (empty_sys 3 0).

Definition example_edges : list (gmultiset Z) :=
  [∅; {[+ 10%Z; 11%Z +]}; {[+ 10%Z +]}].

(** The registry of the running example after two more views were asked
    for, of the rows 10 and 4. *)
Definition example_registry_two : LinkListColumn.Accessors :=
  RegistrySpec.the_registry
    (LinkListColumn.run
       (RegistrySpec.example_ops ++
        [LinkListColumn.Get_ptr RegistrySpec.example_cells 10;
         LinkListColumn.Get_ptr RegistrySpec.example_cells 4])
       LinkListColumn.empty_accessors).

(** A column of single links over two origin rows and three target rows:
    origin row 0 links to the target row with key 1, which has the
    backlink. *)
Definition example_single_links : Sys :=
  set_links [2%Z; 0%Z]
    (final_sys (BacklinkSpec.run row_of_key
                  [BacklinkSpec.Add {| value := 1 |} {| value := 0 |}] (empty_sys 3 2))
               (empty_sys 3 2)).

(** ** The loops of [clear] *)

(** The state of the loops of [clear] after [k] rounds. *)
Definition clearing (Ms0 : list (gmultiset Z)) (L : list nat) (r : nat) (ref : Z)
    (links0 : list Z) (v : nat) (k : nat) (s : State) : Prop :=
  this s = {| m_origin_table := true; ndx_in_parent := r; m_row_indexes := Some ref |} ∧
  links (sys s) = links0 ∧ m_version s = v ∧
  BacklinkSpec.bl_inv (add_links (Z.of_nat r) (drop k L) Ms0) (sys s) ∧
  BacklinkSpec.foreign (sys s) ref ∧
  heap (sys s) !! ref = Some (Z.of_nat <$> L).

(** The state after [clear] of the list of row [r]. *)
Definition cleared (Ms0 : list (gmultiset Z)) (r : nat) (ref : Z) (links0 : list Z)
    (s : State) : Prop :=
  this s = {| m_origin_table := true; ndx_in_parent := r; m_row_indexes := None |} ∧
  links (sys s) = <[r := 0%Z]> links0 ∧
  heap (sys s) !! ref = None ∧
  BacklinkSpec.bl_inv Ms0 (sys s).

(** * Proofs *)

(** ** Machine words *)

Lemma uint64_small x : (0 ≤ x < 2 ^ 64)%Z → uint64_t x = x.
Proof. intros. unfold uint64_t. by apply Z.mod_small. Qed.

Lemma uint64_int64 x : uint64_t (int64_t x) = uint64_t x.
Proof.
  unfold uint64_t, int64_t.
  rewrite Zminus_mod_idemp_l. f_equal. lia.
Qed.

Lemma lor_double_1 o : (0 ≤ o)%Z → Z.lor (Z.shiftl o 1) 1 = (2 * o + 1)%Z.
Proof. intros H. destruct o as [|p|p]; [done|done|lia]. Qed.

Lemma land_odd_1 o : (0 ≤ o)%Z → Z.land (2 * o + 1) 1 = 1%Z.
Proof. intros H. destruct o as [|p|p]; [done|done|lia]. Qed.

Lemma shiftr_odd_1 o : Z.shiftr (2 * o + 1) 1 = o.
Proof.
  rewrite Z.shiftr_div_pow2 by lia. change (2 ^ 1)%Z with 2%Z.
  symmetry. apply Z.div_unique with 1%Z; lia.
Qed.

Lemma tagged_ok o : BacklinkSpec.origin_ok o → tagged o = (2 * o + 1)%Z.
Proof.
  unfold BacklinkSpec.origin_ok, tagged. intros H.
  rewrite (uint64_small o) by lia.
  rewrite Z.shiftl_mul_pow2 by lia. change (2 ^ 1)%Z with 2%Z.
  rewrite uint64_small by lia.
  replace (o * 2)%Z with (Z.shiftl o 1) by (rewrite Z.shiftl_mul_pow2; lia).
  apply lor_double_1. lia.
Qed.

Lemma tagged_word_range o : BacklinkSpec.origin_ok o → (0 ≤ 2 * o + 1 < 2 ^ 64)%Z.
Proof. unfold BacklinkSpec.origin_ok. lia. Qed.

(** ** The allocator *)

Lemma top_ref_ge (h : gmap Z (list Z)) :
  (0 ≤ top_ref h)%Z ∧ ∀ k l, h !! k = Some l → (k ≤ top_ref h)%Z.
Proof.
  unfold top_ref.
  apply (map_fold_weak_ind
           (λ r (m : gmap Z (list Z)), (0 ≤ r)%Z ∧ ∀ k l, m !! k = Some l → (k ≤ r)%Z)).
  - split; [lia|]. intros k l. by rewrite lookup_empty.
  - intros i x m r Hi [Hr IH]. split; [lia|].
    intros k l. rewrite lookup_insert. case_decide.
    + intros _. lia.
    + intros Hk. specialize (IH _ _ Hk). lia.
Qed.

Lemma alloc_ref_fresh (h : gmap Z (list Z)) : h !! alloc_ref h = None.
Proof.
  destruct (h !! alloc_ref h) as [l|] eqn:E; [|done].
  destruct (top_ref_ge h) as [H0 H]. specialize (H _ _ E).
  unfold alloc_ref in H.
  pose proof (Z.mul_div_le (top_ref h) 8).
  pose proof (Z.mod_pos_bound (top_ref h) 8).
  pose proof (Z.div_mod (top_ref h) 8). lia.
Qed.

Lemma alloc_ref_is_ref (h : gmap Z (list Z)) : BacklinkSpec.is_ref (alloc_ref h).
Proof.
  destruct (top_ref_ge h) as [H0 _]. unfold BacklinkSpec.is_ref, alloc_ref.
  pose proof (Z.div_pos (top_ref h) 8 H0).
  split; [lia|].
  replace (8 * (1 + top_ref h / 8))%Z with (2 * (4 * (1 + top_ref h / 8)))%Z by lia.
  assert (0 ≤ 4 * (1 + top_ref h / 8))%Z as Hz by lia. revert Hz.
  generalize (4 * (1 + top_ref h / 8))%Z. intros z Hz.
  destruct z as [|p|p]; [done|done|lia].
Qed.

(** ** The backlink column keeps its representation *)

Section Backlink.
Import BacklinkSpec.

Lemma rep_heap_agree st st' w M :
  rep st w M → (is_ref w → heap st' !! w = heap st !! w) → rep st' w M.
Proof.
  intros [H|[H|(l & Hl & HM & Hlen & Hok & Hw0 & Hw1)]] Hh; [by left|by right; left|].
  right; right. exists l. rewrite Hh by done. done.
Qed.

Lemma rep_is_ref_heap st w M : rep st w M → is_ref w → is_Some (heap st !! w).
Proof.
  intros [[_ ->]|[(o & _ & Ho & ->)|(l & Hl & _)]] [H0 H1]; [done| |by eexists].
  rewrite land_odd_1 in H1; [done|]. unfold origin_ok in Ho; lia.
Qed.

(** Writing the word [w'] of row [row] and changing the heap only at refs
    that no other row owns keeps the invariant. *)
Lemma bl_inv_update Ms st row w' M' h' :
  bl_inv Ms st → row < length Ms →
  (∀ j w, j ≠ row → backlinks st !! j = Some w → is_ref w → h' !! w = heap st !! w) →
  rep {| heap := h'; backlinks := <[row := w']> (backlinks st); links := links st |} w' M' →
  (is_ref w' → ∀ j, j ≠ row → backlinks st !! j ≠ Some w') →
  bl_inv (<[row := M']> Ms)
         {| heap := h'; backlinks := <[row := w']> (backlinks st); links := links st |}.
Proof.
  intros [Hlen Hrep Hsep] Hrow Hh Hw' Hfresh. split; simpl.
  - by rewrite !length_insert.
  - intros r w M Hw HM.
    destruct (decide (r = row)) as [->|Hne].
    + rewrite list_lookup_insert_eq in Hw by lia.
      rewrite list_lookup_insert_eq in HM by lia. by simplify_eq.
    + rewrite list_lookup_insert_ne in Hw by done.
      rewrite list_lookup_insert_ne in HM by done.
      eapply rep_heap_agree; [by eapply Hrep|]. simpl. intros. by eapply Hh.
  - intros i j w Hij Hi Hj Hw.
    destruct (decide (i = row)) as [->|Hi'], (decide (j = row)) as [->|Hj']; try done.
    + rewrite list_lookup_insert_eq in Hi by lia.
      rewrite list_lookup_insert_ne in Hj by done.
      injection Hi as <-. exact (Hfresh Hw j Hj' Hj).
    + rewrite list_lookup_insert_eq in Hj by lia.
      rewrite list_lookup_insert_ne in Hi by done.
      injection Hj as <-. exact (Hfresh Hw i Hi' Hi).
    + rewrite list_lookup_insert_ne in Hi by done.
      rewrite list_lookup_insert_ne in Hj by done.
      exact (Hsep i j w Hij Hi Hj Hw).
Qed.

Lemma bl_inv_heap_only Ms st row w h' M M' :
  bl_inv Ms st → Ms !! row = Some M → backlinks st !! row = Some w → is_ref w →
  (∀ r, r ≠ w → h' !! r = heap st !! r) →
  rep {| heap := h'; backlinks := backlinks st; links := links st |} w M' →
  bl_inv (<[row := M']> Ms) {| heap := h'; backlinks := backlinks st; links := links st |}.
Proof.
  intros Hinv HM Hw Hr Hh Hrep.
  pose proof (bl_inv_update Ms st row w M' h' Hinv) as H.
  rewrite (list_insert_id (backlinks st) row w) in H by done.
  apply H; try done.
  - by eapply lookup_lt_Some.
  - intros j w0 Hj Hw0 Hr0. apply Hh. intros ->.
    exact (bl_sep _ _ Hinv j row w Hj Hw0 Hw Hr).
  - intros _ j Hj Hw'. exact (bl_sep _ _ Hinv j row w Hj Hw' Hw Hr).
Qed.

Lemma foreign_update st r row w' h' :
  foreign st r → w' ≠ r → h' !! r = heap st !! r →
  foreign {| heap := h'; backlinks := <[row := w']> (backlinks st); links := links st |} r.
Proof.
  intros (Hr & Hh & Hn) Hw Hh'. split; [done|]. split; simpl; [by rewrite Hh'|].
  intros Hin. apply list_elem_of_lookup in Hin as [i Hi].
  destruct (decide (i = row)) as [->|Hne].
  - pose proof (lookup_lt_Some _ _ _ Hi) as Hlt. rewrite length_insert in Hlt.
    rewrite list_lookup_insert_eq in Hi by done. by simplify_eq.
  - rewrite list_lookup_insert_ne in Hi by done.
    apply Hn. apply list_elem_of_lookup. by exists i.
Qed.

Lemma foreign_heap_only st r h' :
  foreign st r → h' !! r = heap st !! r →
  foreign {| heap := h'; backlinks := backlinks st; links := links st |} r.
Proof. intros (Hr & Hh & Hn) Hh'. split; [done|]. split; simpl; [by rewrite Hh'|done]. Qed.

Lemma foreign_ne_owned st r row w :
  foreign st r → backlinks st !! row = Some w → r ≠ w.
Proof.
  intros (_ & _ & Hn) Hw ->. apply Hn. apply list_elem_of_lookup. by exists row.
Qed.

Lemma odd_not_ref o : origin_ok o → ¬ is_ref (2 * o + 1).
Proof. intros Ho [_ H]. rewrite land_odd_1 in H; [done|]. unfold origin_ok in Ho; lia. Qed.

Variable get_row_ndx : Key → nat.

Lemma add_backlink_spec Ms st t x M :
  bl_inv Ms st → Ms !! get_row_ndx t = Some M → origin_ok (value x) →
  ∃ st', BacklinkColumn.add_backlink get_row_ndx t x st = Ok st' ∧
         bl_inv (<[get_row_ndx t := M ⊎ {[+ value x +]}]> Ms) st' ∧
         links st' = links st ∧
         length (backlinks st') = length (backlinks st) ∧
         (∀ r, foreign st r → foreign st' r ∧ heap st' !! r = heap st !! r).
Proof.
  intros Hinv HM Hx. set (row := get_row_ndx t) in *.
  pose proof (lookup_lt_Some _ _ _ HM) as Hrow.
  destruct (lookup_lt_is_Some_2 (backlinks st) row) as [w Hw].
  { rewrite (bl_length _ _ Hinv). done. }
  unfold BacklinkColumn.add_backlink. fold row. rewrite Hw.
  destruct (bl_rep _ _ Hinv _ _ _ Hw HM)
    as [[-> ->]|[(o & -> & Ho & ->)|(l & Hl & HMl & Hlen & Hok & Hw0 & Hw1)]].
  - (* empty: the word becomes the tagged origin *)
    rewrite decide_True by done. eexists; split; [done|].
    rewrite tagged_ok by done. unfold BacklinkColumn.set_uint, set_backlinks; simpl.
    split; [|split; [done|split; [by rewrite length_insert|]]].
    + replace st with {| heap := heap st; backlinks := backlinks st; links := links st |}
        at 1 by (by destruct st).
      apply bl_inv_update; try done.
      * right; left. exists (value x). split; [multiset_solver|done].
      * intros Hr. by apply odd_not_ref in Hr.
    + intros r Hr. split; [|done]. apply foreign_update; try done.
      intros <-. destruct Hr as [Hr _]. by apply odd_not_ref in Hr.
  - (* inline: a store is created with the old origin, the new one is added *)
    pose proof (tagged_word_range o Ho).
    rewrite decide_False by (unfold origin_ok in Ho; lia).
    rewrite land_odd_1 by (unfold origin_ok in Ho; lia).
    rewrite decide_True by done. rewrite shiftr_odd_1.
    unfold IntegerColumn_create, BacklinkColumn.set_uint, set_backlinks, set_heap; simpl.
    rewrite lookup_insert_eq. eexists; split; [done|]. simpl.
    rewrite insert_insert_eq.
    pose proof (alloc_ref_fresh (heap st)) as Hfresh.
    pose proof (alloc_ref_is_ref (heap st)) as Hisref.
    split; [|split; [done|split; [by rewrite length_insert|]]].
    + apply bl_inv_update; try done.
      * intros j w Hj Hjw Hr. rewrite lookup_insert_ne; [done|]. intros <-.
        destruct (lookup_lt_is_Some_2 Ms j) as [Mj HMj].
        { rewrite <-(bl_length _ _ Hinv). by eapply lookup_lt_Some. }
        destruct (rep_is_ref_heap _ _ _ (bl_rep _ _ Hinv _ _ _ Hjw HMj) Hr) as [? Hs].
        congruence.
      * right; right. exists [o; value x]. simpl. rewrite lookup_insert_eq.
        destruct Hisref as [Hr0 Hr1].
        split; [done|]. split; [multiset_solver|]. split; [lia|].
        split; [|done]. apply Forall_cons_2; [done|]. apply Forall_cons_2; [done|]. apply Forall_nil_2.
      * intros _ j Hj Hjw.
        destruct (lookup_lt_is_Some_2 Ms j) as [Mj HMj].
        { rewrite <-(bl_length _ _ Hinv). by eapply lookup_lt_Some. }
        destruct (rep_is_ref_heap _ _ _ (bl_rep _ _ Hinv _ _ _ Hjw HMj) Hisref) as [? Hs].
        congruence.
    + intros r Hr.
      assert (r ≠ alloc_ref (heap st)) as Hne.
      { intros ->. destruct Hr as (_ & [? Hs] & _). congruence. }
      split; [|by rewrite lookup_insert_ne].
      apply foreign_update; try done. by rewrite lookup_insert_ne.
  - (* store: the origin is added at the end *)
    rewrite decide_False by done. rewrite decide_False by (by intros []).
    unfold to_ref. rewrite Hl. eexists; split; [done|].
    unfold set_heap; simpl.
    split; [|split; [done|split; [done|]]].
    + eapply bl_inv_heap_only; try done.
      * intros r Hr. by rewrite lookup_insert_ne.
      * right; right. exists (l ++ [value x]). simpl. rewrite lookup_insert_eq.
        split; [done|]. split; [rewrite list_to_set_disj_app, HMl; multiset_solver|].
        split; [rewrite length_app; lia|].
        split; [|done]. apply Forall_app. split; [done|]. apply Forall_cons_2; [done|]. apply Forall_nil_2.
    + intros r Hr. pose proof (foreign_ne_owned _ _ _ _ Hr Hw).
      split; [|by rewrite lookup_insert_ne].
      apply foreign_heap_only; [done|]. by rewrite lookup_insert_ne.
Qed.

Lemma find_first_elem_of (x : Z) (l : list Z) :
  x ∈ l → ∃ i, find_first x l = Some i ∧ l !! i = Some x.
Proof.
  intros Hin. unfold find_first.
  destruct (list_find_elem_of (λ y, y = x) l x Hin eq_refl) as [[i y] Hf].
  rewrite Hf. simpl. exists i. split; [done|].
  apply list_find_Some in Hf as (Hy & -> & _). done.
Qed.

Lemma find_first_Some (x : Z) (l : list Z) i :
  find_first x l = Some i → l !! i = Some x.
Proof.
  unfold find_first. destruct (list_find _ l) as [[j y]|] eqn:Hf; [|done].
  simpl. intros [= ->]. apply list_find_Some in Hf as (Hy & -> & _). done.
Qed.

Lemma list_to_set_disj_delete (l : list Z) i x :
  l !! i = Some x →
  (list_to_set_disj (delete i l) : gmultiset Z) = list_to_set_disj l ∖ {[+ x +]}.
Proof.
  intros Hi. rewrite delete_take_drop.
  rewrite <-(take_drop_middle l i x Hi) at 3.
  rewrite !list_to_set_disj_app, list_to_set_disj_cons. multiset_solver.
Qed.

Lemma length_delete_lookup {A} (l : list A) i x :
  l !! i = Some x → length l = S (length (delete i l)).
Proof.
  intros Hi. pose proof (length_delete l i (ltac:(by eexists) : is_Some (l !! i))). 
  pose proof (lookup_lt_Some _ _ _ Hi). lia.
Qed.

Lemma Forall_delete_ok {A} (P : A → Prop) (l : list A) i :
  Forall P l → Forall P (delete i l).
Proof.
  intros H. rewrite delete_take_drop. apply Forall_app.
  split; [by apply Forall_take|by apply Forall_drop].
Qed.

Lemma remove_one_backlink_spec Ms st t x M :
  bl_inv Ms st → Ms !! get_row_ndx t = Some M → value x ∈ M →
  ∃ st', BacklinkColumn.remove_one_backlink get_row_ndx t x st = Ok st' ∧
         bl_inv (<[get_row_ndx t := M ∖ {[+ value x +]}]> Ms) st' ∧
         links st' = links st ∧
         length (backlinks st') = length (backlinks st) ∧
         (∀ r, foreign st r → foreign st' r ∧ heap st' !! r = heap st !! r).
Proof.
  intros Hinv HM Hx. set (row := get_row_ndx t) in *.
  pose proof (lookup_lt_Some _ _ _ HM) as Hrow.
  destruct (lookup_lt_is_Some_2 (backlinks st) row) as [w Hw].
  { rewrite (bl_length _ _ Hinv). done. }
  unfold BacklinkColumn.remove_one_backlink. fold row. rewrite Hw.
  destruct (bl_rep _ _ Hinv _ _ _ Hw HM)
    as [[-> ->]|[(o & -> & Ho & ->)|(l & Hl & HMl & Hlen & Hok & Hw0 & Hw1)]].
  - multiset_solver.
  - (* inline: the word goes back to 0 *)
    assert (value x = o) as Hxo by multiset_solver.
    pose proof (tagged_word_range o Ho).
    rewrite decide_False by (unfold origin_ok in Ho; lia).
    rewrite land_odd_1 by (unfold origin_ok in Ho; lia).
    rewrite decide_True by done. rewrite shiftr_odd_1.
    rewrite Hxo, uint64_small by (unfold origin_ok in Ho; lia).
    rewrite decide_True by done. eexists; split; [done|].
    unfold BacklinkColumn.set_uint, set_backlinks; simpl.
    change (uint64_t 0) with 0%Z.
    split; [|split; [done|split; [by rewrite length_insert|]]].
    + replace st with {| heap := heap st; backlinks := backlinks st; links := links st |}
        at 1 by (by destruct st).
      apply bl_inv_update; try done.
      * left. split; [multiset_solver|done].
      * by intros [].
    + intros r Hr. split; [|done]. apply foreign_update; try done.
      intros <-. by destruct Hr as [[] _].
  - (* store: one occurrence is erased; a single survivor is inlined *)
    rewrite decide_False by done. rewrite decide_False by (by intros []).
    unfold to_ref. rewrite Hl.
    assert (value x ∈ l) as Hin.
    { apply elem_of_list_to_set_disj. by rewrite HMl. }
    destruct (find_first_elem_of _ _ Hin) as (i & -> & Hi).
    pose proof (length_delete_lookup _ _ _ Hi) as Hlen'.
    pose proof (list_to_set_disj_delete _ _ _ Hi) as Hset. rewrite HMl in Hset.
    pose proof (Forall_delete_ok _ _ i Hok) as Hok'.
    case_decide as Hone.
    + destruct (delete i l) as [|e [|? ?]] eqn:He; simplify_eq/=.
      apply Forall_cons_1 in Hok' as [He' _].
      eexists; split; [done|].
      unfold BacklinkColumn.set_uint, set_backlinks, set_heap; simpl.
      fold (tagged e). rewrite uint64_int64, tagged_ok by done.
      rewrite uint64_small by (by apply tagged_word_range).
      split; [|split; [done|split; [by rewrite length_insert|]]].
      * apply bl_inv_update; try done.
        -- intros j w' Hj Hjw Hr. rewrite lookup_delete_ne; [done|]. intros <-.
           exact (bl_sep _ _ Hinv j row w Hj Hjw Hw Hr).
        -- right; left. exists e. split; [|done]. rewrite <-Hset. multiset_solver.
        -- intros Hr. by apply odd_not_ref in Hr.
      * intros r Hr. pose proof (foreign_ne_owned _ _ _ _ Hr Hw).
        split; [|by rewrite lookup_delete_ne].
        apply foreign_update; try done; [|by rewrite lookup_delete_ne].
        intros <-. destruct Hr as [Hr _]. by apply odd_not_ref in Hr.
    + eexists; split; [done|]. unfold set_heap; simpl.
      split; [|split; [done|split; [done|]]].
      * eapply bl_inv_heap_only; try done.
        -- intros r Hr. by rewrite lookup_insert_ne.
        -- right; right. exists (delete i l). simpl. rewrite lookup_insert_eq.
           split; [done|]. split; [done|]. split; [lia|]. done.
      * intros r Hr. pose proof (foreign_ne_owned _ _ _ _ Hr Hw).
        split; [|by rewrite lookup_insert_ne].
        apply foreign_heap_only; [done|]. by rewrite lookup_insert_ne.
Qed.

End Backlink.

Section BacklinkProperties.
Import BacklinkSpec.

Lemma size_empty_Z : size (∅ : gmultiset Z) = 0.
Proof. done. Qed.

Lemma size_singleton_Z (o : Z) : size ({[+ o +]} : gmultiset Z) = 1.
Proof. apply gmultiset_size_singleton. Qed.

Lemma size_list_to_set_disj (l : list Z) :
  size (list_to_set_disj l : gmultiset Z) = length l.
Proof.
  induction l as [|x l IH]; simpl.
  - done.
  - rewrite gmultiset_size_disj_union, size_singleton_Z, IH. done.
Qed.

Lemma rep_encodes st row w M :
  backlinks st !! row = Some w → rep st w M →
  encodes st w M ∧ BacklinkColumn.get_backlink_count row st = Some (size M).
Proof.
  intros Hw Hrep. unfold BacklinkColumn.get_backlink_count. rewrite Hw.
  destruct Hrep as [[-> ->]|[(o & -> & Ho & ->)|(l & Hl & HMl & Hlen & Hok & Hw0 & Hw1)]].
  - split; [|by rewrite size_empty_Z].
    split; [done|]. split; [multiset_solver|].
    rewrite size_empty_Z. lia.
  - assert (0 ≤ o)%Z by (unfold origin_ok in Ho; lia).
    rewrite decide_False by lia. rewrite land_odd_1 by done.
    rewrite decide_True by done. rewrite size_singleton_Z.
    split; [|done]. split; [multiset_solver|]. split.
    + intros o' Ho'. assert (o' = o) as -> by multiset_solver.
      by rewrite lor_double_1.
    + rewrite size_singleton_Z. lia.
  - rewrite decide_False by done. rewrite decide_False by (by intros []).
    unfold to_ref. rewrite Hl. simpl. rewrite <-HMl, size_list_to_set_disj.
    split; [|done]. split; [|split].
    + intros HM. apply (f_equal size) in HM.
      rewrite size_list_to_set_disj, size_empty_Z in HM. lia.
    + intros o HM. apply (f_equal size) in HM.
      rewrite size_list_to_set_disj, size_singleton_Z in HM. lia.
    + intros _. split; [done|]. split; [done|]. by exists l.
Qed.

Lemma fresh_column_inv n st :
  fresh_column n st → bl_inv (replicate n ∅) st.
Proof.
  unfold fresh_column. intros Hc. split.
  - by rewrite Hc, !length_replicate.
  - intros row w M Hw HM. rewrite Hc in Hw.
    apply lookup_replicate in Hw as [-> _]. apply lookup_replicate in HM as [-> _].
    by left.
  - intros i j w _ Hw _ [Hr _]. rewrite Hc in Hw.
    by apply lookup_replicate in Hw as [-> _].
Qed.

Variable get_row_ndx : Key → nat.

Lemma run_keeps_rep ops : ∀ Ms0 st0 Ms,
  bl_inv Ms0 st0 → spec_run get_row_ndx ops Ms0 = Some Ms →
  ∃ st, run get_row_ndx ops st0 = Ok st ∧ bl_inv Ms st ∧ links st = links st0 ∧
        length (backlinks st) = length (backlinks st0).
Proof.
  induction ops as [|o ops IH]; intros Ms0 st0 Ms Hinv Hrun; simpl in Hrun.
  - simplify_eq. by exists st0.
  - change (run get_row_ndx (o :: ops) st0)
      with (Res_bind (step get_row_ndx o st0) (run get_row_ndx ops)).
    destruct (spec_step get_row_ndx o Ms0) as [Ms1|] eqn:Hstep; [|done].
    destruct o as [t x|t x]; simpl in Hstep.
    + destruct (Ms0 !! get_row_ndx t) as [M|] eqn:HM; [|done].
      case_decide as Hx; [|done]. simplify_eq.
      destruct (add_backlink_spec get_row_ndx _ _ t x M Hinv HM Hx)
        as (st1 & Hst1 & Hinv1 & Hl & Hlen & _).
      unfold step. rewrite Hst1. simpl. destruct (IH _ _ _ Hinv1 Hrun) as (st & ? & ? & ? & ?).
      exists st. split_and!; [done|done|congruence|congruence].
    + destruct (Ms0 !! get_row_ndx t) as [M|] eqn:HM; [|done].
      case_decide as Hx; [|done]. simplify_eq.
      destruct (remove_one_backlink_spec get_row_ndx _ _ t x M Hinv HM Hx)
        as (st1 & Hst1 & Hinv1 & Hl & Hlen & _).
      unfold step. rewrite Hst1. simpl. destruct (IH _ _ _ Hinv1 Hrun) as (st & ? & ? & ? & ?).
      exists st. split_and!; [done|done|congruence|congruence].
Qed.

(** C1.  Start from a backlink column of [n] rows without backlinks and run
    any sequence of [add_backlink] and [remove_one_backlink] calls that the
    abstract machine of multisets accepts (origins fit 63 bits, a removed
    edge is present).  The code runs to the end, and every cell encodes the
    multiset [M] of its row: the word is 0 if [M] is empty, the tagged
    inline value [(o << 1) | 1] if [M] is the singleton of [o], and an
    untagged non-zero ref to a store that holds exactly [M] if [M] has two
    or more elements; [get_backlink_count] returns the size of [M]. *)
Theorem backlink_cells_encode_multisets n st0 ops Ms :
  fresh_column n st0 →
  spec_run get_row_ndx ops (replicate n ∅) = Some Ms →
  ∃ st, run get_row_ndx ops st0 = Ok st ∧
        length (backlinks st) = n ∧ length Ms = n ∧
        ∀ row w M, backlinks st !! row = Some w → Ms !! row = Some M →
          encodes st w M ∧
          BacklinkColumn.get_backlink_count row st = Some (size M).
Proof.
  intros Hfresh Hrun.
  destruct (run_keeps_rep ops _ _ _ (fresh_column_inv _ _ Hfresh) Hrun)
    as (st & Hst & Hinv & _ & Hlen).
  exists st. split; [done|].
  assert (length (backlinks st) = n) as Hn.
  { rewrite Hlen, Hfresh. apply length_replicate. }
  split; [done|]. split; [by rewrite <-(bl_length _ _ Hinv)|].
  intros row w M Hw HM. eapply rep_encodes; [done|]. by eapply (bl_rep _ _ Hinv).
Qed.

(** C5.  On a cell in tagged inline form with the single origin [o1],
    [add_backlink(target, o2)] creates a store (a fresh ref that now holds
    [o1, o2]) and [remove_one_backlink(target, o2)] then gives back exactly
    the state before: the word is the tagged encoding of [o1] again and the
    store that the add created is no longer allocated. *)
Theorem inline_add_remove_round_trip st t x o1 :
  origin_ok o1 →
  backlinks st !! get_row_ndx t = Some (Z.lor (Z.shiftl o1 1) 1) →
  ∃ st1 st2 ref,
    BacklinkColumn.add_backlink get_row_ndx t x st = Ok st1 ∧
    backlinks st1 !! get_row_ndx t = Some ref ∧ is_ref ref ∧
    heap st !! ref = None ∧ heap st1 !! ref = Some [o1; value x] ∧
    BacklinkColumn.remove_one_backlink get_row_ndx t x st1 = Ok st2 ∧
    backlinks st2 !! get_row_ndx t = Some (Z.lor (Z.shiftl o1 1) 1) ∧
    heap st2 !! ref = None ∧
    st2 = st.
Proof.
  intros Ho Hw. set (row := get_row_ndx t) in *.
  assert (0 ≤ o1)%Z as Ho0 by (unfold origin_ok in Ho; lia).
  rewrite lor_double_1 in * by done.
  pose proof (tagged_word_range o1 Ho) as Hrange.
  pose proof (lookup_lt_Some _ _ _ Hw) as Hrow.
  pose proof (alloc_ref_fresh (heap st)) as Hfresh.
  pose proof (alloc_ref_is_ref (heap st)) as Hisref.
  unfold BacklinkColumn.add_backlink. fold row. rewrite Hw.
  rewrite decide_False by lia. rewrite land_odd_1 by done.
  rewrite decide_True by done. rewrite shiftr_odd_1.
  unfold IntegerColumn_create, BacklinkColumn.set_uint, set_backlinks, set_heap; simpl.
  rewrite lookup_insert_eq, insert_insert_eq.
  eexists _, _, (alloc_ref (heap st)). split; [done|]. simpl.
  split; [by rewrite list_lookup_insert_eq|]. split; [done|]. split; [done|].
  split; [by rewrite lookup_insert_eq|].
  unfold BacklinkColumn.remove_one_backlink. fold row. simpl.
  rewrite list_lookup_insert_eq by done.
  destruct Hisref as [Hr0 Hr1].
  rewrite decide_False by done. rewrite decide_False by (intros Hn; by apply Hn).
  unfold to_ref. rewrite lookup_insert_eq.
  assert (∃ i, find_first (value x) [o1; value x] = Some i ∧
               delete i [o1; value x] = [o1]) as (i & -> & ->).
  { unfold find_first. simpl. case_decide as Heq.
    - exists 0. simpl. by rewrite Heq.
    - rewrite decide_True by done. exists 1. done. }
  simpl. fold (tagged o1). rewrite uint64_int64, tagged_ok by done.
  rewrite uint64_small by done.
  unfold BacklinkColumn.set_uint, set_backlinks, set_heap; simpl.
  rewrite list_insert_insert_eq, list_insert_id by done.
  rewrite delete_insert_id by done.
  split; [done|]. split; [done|]. split; [done|]. by destruct st.
Qed.

End BacklinkProperties.

Lemma backlink_cells_encode_multisets_witness :
  ∃ st,
    BacklinkSpec.run row_of_key
      [BacklinkSpec.Add {| value := 1 |} {| value := 10 |};
       BacklinkSpec.Add {| value := 1 |} {| value := 11 |};
       BacklinkSpec.Remove_one {| value := 1 |} {| value := 10 |}]
      (empty_sys 3 0) = Ok st ∧
    length (backlinks st) = 3 ∧
    length [∅; {[+ 11%Z +]}; (∅ : gmultiset Z)] = 3 ∧
    ∀ row w M, backlinks st !! row = Some w →
      [∅; {[+ 11%Z +]}; (∅ : gmultiset Z)] !! row = Some M →
      BacklinkSpec.encodes st w M ∧
      BacklinkColumn.get_backlink_count row st = Some (size M).
Proof.
  apply (backlink_cells_encode_multisets row_of_key 3 (empty_sys 3 0)).
  - reflexivity.
  - vm_compute. reflexivity.
Defined.

Lemma inline_add_remove_round_trip_witness :
  ∃ st1 st2 ref,
    BacklinkColumn.add_backlink row_of_key {| value := 1 |} {| value := 11 |}
      {| heap := ∅; backlinks := [0; 21; 0]%Z; links := [] |} = Ok st1 ∧
    backlinks st1 !! row_of_key {| value := 1 |} = Some ref ∧
    BacklinkSpec.is_ref ref ∧
    heap {| heap := ∅; backlinks := [0; 21; 0]%Z; links := [] |} !! ref = None ∧
    heap st1 !! ref = Some [10%Z; value {| value := 11 |}] ∧
    BacklinkColumn.remove_one_backlink row_of_key {| value := 1 |} {| value := 11 |} st1
      = Ok st2 ∧
    backlinks st2 !! row_of_key {| value := 1 |} = Some (Z.lor (Z.shiftl 10 1) 1) ∧
    heap st2 !! ref = None ∧
    st2 = {| heap := ∅; backlinks := [0; 21; 0]%Z; links := [] |}.
Proof.
  apply (inline_add_remove_round_trip row_of_key
           {| heap := ∅; backlinks := [0; 21; 0]%Z; links := [] |}
           {| value := 1 |} {| value := 11 |} 10).
  - unfold BacklinkSpec.origin_ok. lia.
  - reflexivity.
Defined.

(** ** The effect monad *)

Lemma bind_Ok {A B} (m : M A) (k : A → M B) s b s' :
  (m ≫= k) s = Ok (b, s') ↔ ∃ a s1, m s = Ok (a, s1) ∧ k a s1 = Ok (b, s').
Proof.
  unfold mbind, M_bind. split.
  - destruct (m s) as [[a s1]| |]; [|done|done]. intros H. by exists a, s1.
  - intros (a & s1 & -> & H). done.
Qed.

Lemma bind_eq {A B} (m : M A) (k : A → M B) s a s1 :
  m s = Ok (a, s1) → (m ≫= k) s = k a s1.
Proof. unfold mbind, M_bind. by intros ->. Qed.

Lemma bind_assert_failed {A B} (m : M A) (k : A → M B) s :
  m s = Assert_failed → (m ≫= k) s = Assert_failed.
Proof. unfold mbind, M_bind. by intros ->. Qed.

Lemma bind_throws {A B} (m : M A) (k : A → M B) s e :
  m s = Throws e → (m ≫= k) s = Throws e.
Proof. unfold mbind, M_bind. by intros ->. Qed.

(** ** C4 and C10: detached and degenerate views *)

Section Detached.

Variable get_row_ndx : Key → nat.
Variable m_weak_links : bool.
Variable repl : bool.
Variable other_strong_backlinks : nat → nat.

Local Abbreviation insert := (LinkView.insert get_row_ndx repl).
Local Abbreviation set := (LinkView.set get_row_ndx m_weak_links repl other_strong_backlinks).
Local Abbreviation remove := (LinkView.remove get_row_ndx m_weak_links repl other_strong_backlinks).
Local Abbreviation clear := (LinkView.clear get_row_ndx m_weak_links repl other_strong_backlinks).
Local Abbreviation move := (LinkView.move repl).
Local Abbreviation swap := (LinkView.swap repl).

Lemma is_attached_eq s : LinkView.is_attached s = Ok (m_origin_table (this s), s).
Proof. done. Qed.

(** C4, as the code has it.  On a detached view [move] and [swap] throw
    [LogicError::detached_accessor]; [insert], [set], [remove] and [clear]
    stop at the failed [REALM_ASSERT(is_attached())], which is not an
    error the caller can receive.  The accessors of link_view.hpp check
    attachment with [TIGHTDB_ASSERT] only: with the assertion compiled in
    they stop there, without it [size], [is_empty] and [find] answer as on
    an empty list, since [detach] has detached the store accessor, and
    [get] reads through the detached accessor. *)
Theorem detached_view_operations s lv debug st :
  m_origin_table (this s) = false →
  TightdbLinkView.is_attached lv = false →
  TightdbLinkView.m_target_row_indexes lv = None →
  (∀ a b, move a b s = Throws detached_accessor) ∧
  (∀ a b, swap a b s = Throws detached_accessor) ∧
  (∀ i t, insert i t s = Assert_failed) ∧
  (∀ i t, set i t s = Assert_failed) ∧
  (∀ i, remove i s = Assert_failed) ∧
  clear s = Assert_failed ∧
  TightdbLinkView.size debug lv st = (if debug then Assert_failed else Ok 0) ∧
  TightdbLinkView.is_empty debug lv st = (if debug then Assert_failed else Ok true) ∧
  (∀ t, TightdbLinkView.find debug lv t st = (if debug then Assert_failed else Ok None)) ∧
  (∀ i, TightdbLinkView.get debug lv i st = Assert_failed).
Proof.
  intros Hd Hlv Hacc.
  split_and!; intros;
    unfold LinkView.move, LinkView.swap, LinkView.insert, LinkView.do_insert,
      LinkView.set, LinkView.remove, LinkView.clear;
    repeat first
      [ rewrite (bind_eq _ _ _ _ _ (is_attached_eq s)), Hd
      | erewrite bind_throws; [reflexivity|]
      | erewrite bind_assert_failed; [reflexivity|] ];
    try done.
  all: unfold TightdbLinkView.size, TightdbLinkView.is_empty, TightdbLinkView.find,
         TightdbLinkView.get, TightdbLinkView.TIGHTDB_ASSERT;
       rewrite Hlv, Hacc; by destruct debug.
Qed.

End Detached.

(** ** Running a list view symbolically *)

Arguments BacklinkColumn.add_backlink : simpl never.
Arguments BacklinkColumn.remove_one_backlink : simpl never.
Arguments BacklinkColumn.get_backlink_count : simpl never.
Arguments IntegerColumn_create : simpl never.
Arguments for_loop : simpl never.

Ltac munfold_in H :=
  unfold run_mutator, LinkView.insert, LinkView.do_insert, LinkView.set, LinkView.do_set,
    LinkView.remove, LinkView.do_remove, LinkView.move, LinkView.swap,
    LinkView.do_nullify_link, LinkView.do_update_link,
    LinkView.cascade_on, LinkView.tf_cascade_break_backlinks_to,
    LinkView.tf_remove_backlink_broken_rows, LinkView.replicate_instr, LinkView.create_list,
    LinkView.is_attached, LinkView.row_indexes_is_attached, LinkView.row_indexes_size,
    LinkView.row_indexes, LinkView.target_table_size, LinkView.row_indexes_get,
    LinkView.row_indexes_get_int, LinkView.get_origin_row_index,
    LinkView.remove_backlink, LinkView.add_backlink, LinkView.row_indexes_set,
    LinkView.row_indexes_set_int, LinkView.row_indexes_insert, LinkView.row_indexes_erase,
    LinkView.row_indexes_write, LinkView.row_indexes_destroy, LinkView.set_row_ref,
    LinkView.init_from_parent, LinkView.get_backlink_count,
    skip, REALM_ASSERT, fail, throw, get_state, put_sys, put_this, emit, bump_version, lift,
    mbind, M_bind, mret, M_ret in H.

(** Inversion of a successful straight-line run: unfold, then split on
    every test the code makes. *)
Ltac minv H :=
  repeat (progress (munfold_in H; simpl in H));
  try (progress simplify_eq/=);
  repeat match type of H with
         | context [match ?x with _ => _ end] =>
           lazymatch x with
           | context [match _ with _ => _ end] => fail
           | _ => destruct x eqn:?; simplify_eq/=
           end
         end.

Ltac munfold :=
  unfold run_mutator, LinkView.insert, LinkView.do_insert, LinkView.set, LinkView.do_set,
    LinkView.remove, LinkView.do_remove, LinkView.move, LinkView.swap,
    LinkView.do_nullify_link, LinkView.do_update_link,
    LinkView.cascade_on, LinkView.tf_cascade_break_backlinks_to,
    LinkView.tf_remove_backlink_broken_rows, LinkView.replicate_instr, LinkView.create_list,
    LinkView.is_attached, LinkView.row_indexes_is_attached, LinkView.row_indexes_size,
    LinkView.row_indexes, LinkView.target_table_size, LinkView.row_indexes_get,
    LinkView.row_indexes_get_int, LinkView.get_origin_row_index,
    LinkView.remove_backlink, LinkView.add_backlink, LinkView.row_indexes_set,
    LinkView.row_indexes_set_int, LinkView.row_indexes_insert, LinkView.row_indexes_erase,
    LinkView.row_indexes_write, LinkView.row_indexes_destroy, LinkView.set_row_ref,
    LinkView.init_from_parent, LinkView.get_backlink_count,
    skip, REALM_ASSERT, fail, throw, get_state, put_sys, put_this, emit, bump_version, lift,
    mbind, M_bind, mret, M_ret.

Ltac mrun := repeat (progress (munfold; simpl)).

Lemma trace_ext_bind {A B} (P Q R : list Event → Prop) (m : M A) (k : A → M B) :
  trace_ext P m → (∀ a, trace_ext Q (k a)) →
  (∀ t1 t2, P t1 → Q t2 → R (t1 ++ t2)) →
  trace_ext R (m ≫= k).
Proof.
  intros Hm Hk HR s b s' H. apply bind_Ok in H as (a & s1 & H1 & H2).
  destruct (Hm _ _ _ H1) as (t1 & E1 & P1). destruct (Hk _ _ _ _ H2) as (t2 & E2 & Q2).
  exists (t1 ++ t2). split; [|by apply HR]. by rewrite E2, E1, app_assoc.
Qed.

Lemma no_replication_app t1 t2 :
  no_replication t1 → no_replication t2 → no_replication (t1 ++ t2).
Proof. intros. by apply Forall_app. Qed.

Lemma no_repl_bind {A B} (m : M A) (k : A → M B) :
  trace_ext no_replication m → (∀ a, trace_ext no_replication (k a)) →
  trace_ext no_replication (m ≫= k).
Proof. intros. eapply trace_ext_bind; eauto using no_replication_app. Qed.

Lemma for_loop_no_repl {A} (body : nat → A → M A) :
  (∀ i acc, trace_ext no_replication (body i acc)) →
  ∀ n lo acc, trace_ext no_replication (for_loop lo n body acc).
Proof.
  intros Hb. induction n as [|n IH]; intros lo acc.
  - intros s a s' H. cbv in H. simplify_eq. exists []. split; [by rewrite app_nil_r|constructor].
  - change (for_loop lo (S n) body acc)
      with (body lo acc ≫= λ acc', for_loop (S lo) n body acc').
    apply no_repl_bind; [apply Hb|]. intros a. apply IH.
Qed.

(** A tactic for the leaves: after inversion the added trace is explicit. *)
Ltac trace_leaf :=
  let s := fresh "s" in let a := fresh "a" in let s' := fresh "s'" in let H := fresh "H" in
  intros s a s' H; minv H;
  repeat rewrite <- app_assoc; simpl;
  first [ (exists []; split; [by rewrite app_nil_r|constructor]); fail
        | (eexists; split; [reflexivity|]; repeat constructor); fail ].

Section Traces.

Variable get_row_ndx : Key → nat.
Variable m_weak_links : bool.
Variable other_strong_backlinks : nat → nat.

Local Abbreviation run_mutator :=
  (run_mutator get_row_ndx m_weak_links true other_strong_backlinks).

Lemma remove_backlink_no_repl t o :
  trace_ext no_replication (LinkView.remove_backlink get_row_ndx t o).
Proof. trace_leaf. Qed.

Lemma row_indexes_get_no_repl i : trace_ext no_replication (LinkView.row_indexes_get i).
Proof. trace_leaf. Qed.

Lemma get_backlink_count_no_repl t :
  trace_ext no_replication (LinkView.get_backlink_count other_strong_backlinks t).
Proof. trace_leaf. Qed.

Lemma row_indexes_destroy_no_repl : trace_ext no_replication LinkView.row_indexes_destroy.
Proof. trace_leaf. Qed.

Lemma set_row_ref_no_repl r v : trace_ext no_replication (LinkView.set_row_ref r v).
Proof. trace_leaf. Qed.

Lemma bump_version_no_repl : trace_ext no_replication bump_version.
Proof. trace_leaf. Qed.

Lemma mret_no_repl {A} (a : A) : trace_ext no_replication (mret a).
Proof. trace_leaf. Qed.

Lemma skip_no_repl : trace_ext no_replication skip.
Proof. trace_leaf. Qed.

Lemma reads_no_repl :
  trace_ext no_replication LinkView.get_origin_row_index ∧
  trace_ext no_replication LinkView.row_indexes_is_attached ∧
  trace_ext no_replication LinkView.row_indexes_size ∧
  trace_ext no_replication LinkView.is_attached.
Proof. split_and!; trace_leaf. Qed.

Lemma REALM_ASSERT_no_repl b : trace_ext no_replication (REALM_ASSERT b).
Proof. trace_leaf. Qed.

Lemma emit_no_repl e : is_replication e = false → trace_ext no_replication (emit e).
Proof.
  intros He s a s' H. minv H. eexists; split; [reflexivity|]. by repeat constructor.
Qed.

Lemma do_clear_no_repl b : trace_ext no_replication (LinkView.do_clear get_row_ndx b).
Proof.
  destruct reads_no_repl as (Hr1 & Hr2 & Hr3 & Hr4).
  unfold LinkView.do_clear.
  apply no_repl_bind; [done|]. intros origin.
  apply no_repl_bind; [done|]. intros ra.
  apply no_repl_bind.
  - destruct (negb b && ra); [|apply skip_no_repl].
    apply no_repl_bind; [done|]. intros n.
    apply for_loop_no_repl. intros i acc.
    apply no_repl_bind; [apply row_indexes_get_no_repl|]. intros t.
    apply remove_backlink_no_repl.
  - intros _. apply no_repl_bind; [apply row_indexes_destroy_no_repl|]. intros _.
    apply no_repl_bind; [apply set_row_ref_no_repl|]. intros _.
    apply bump_version_no_repl.
Qed.

Lemma clear_shape s s' :
  LinkView.clear get_row_ndx m_weak_links true other_strong_backlinks s = Ok (tt, s') →
  ∃ added, trace s' = trace s ++ added ∧ replication_shape Clear added.
Proof.
  destruct reads_no_repl as (Hr1 & Hr2 & Hr3 & Hr4).
  unfold LinkView.clear. intros H.
  apply bind_Ok in H as (a & s1 & H1 & H). minv H1.
  apply bind_Ok in H as (? & s2 & H2 & H). minv H2.
  apply bind_Ok in H as (ra & s3 & H3 & H). minv H3.
  destruct (bool_decide (is_Some (m_row_indexes (this s3)))) eqn:Hra; simpl in H.
  2:{ minv H. exists []. split; [by rewrite app_nil_r|by left]. }
  apply bind_Ok in H as (? & s4 & H4 & H). minv H4.
  match type of H with
  | ?m ?s0 = _ => assert (trace_ext no_replication m) as Hte
  end.
  { destruct m_weak_links; [apply do_clear_no_repl|].
    apply no_repl_bind; [done|]. intros origin.
    apply no_repl_bind; [done|]. intros n.
    apply no_repl_bind.
    - apply for_loop_no_repl. intros i rows.
      apply no_repl_bind; [apply row_indexes_get_no_repl|]. intros t.
      apply no_repl_bind; [apply remove_backlink_no_repl|]. intros _.
      apply no_repl_bind; [apply get_backlink_count_no_repl|]. intros c.
      case_decide; [apply mret_no_repl|].
      apply no_repl_bind; [apply REALM_ASSERT_no_repl|]. intros _.
      apply no_repl_bind; [by apply emit_no_repl|]. intros _. apply mret_no_repl.
    - intros rows. apply no_repl_bind; [apply do_clear_no_repl|]. intros _.
      by apply emit_no_repl. }
  destruct (Hte _ _ _ H) as (tr & Htr & Hno). simpl in Htr.
  exists (Replication link_list_clear :: tr). split.
  - by rewrite Htr, <-app_assoc.
  - right. by exists tr.
Qed.

End Traces.

(** ** The traces of the mutators *)

Section Shapes.

Variable get_row_ndx : Key → nat.
Variable m_weak_links : bool.
Variable repl : bool.
Variable other_strong_backlinks : nat → nat.

Local Abbreviation set_ :=
  (LinkView.set get_row_ndx m_weak_links repl other_strong_backlinks).
Local Abbreviation remove :=
  (LinkView.remove get_row_ndx m_weak_links repl other_strong_backlinks).

Local Abbreviation repl_of := (replication_of repl).
Local Abbreviation casc_tail := (cascade_tail m_weak_links other_strong_backlinks).

Lemma set_trace i t s s' :
  set_ i t s = Ok (tt, s') →
  ∃ old, old_target s i = Some old ∧
    trace s' = trace s ++ repl_of (link_list_set i t) ++
               [BacklinkUpdate; BacklinkUpdate; ForwardUpdate] ++
               casc_tail old (sys s').
Proof.
  intros H. unfold replication_of, cascade_tail, cascades, old_target.
  destruct repl, m_weak_links; minv H;
    repeat match goal with H : _ = _ |- _ => rewrite H end; simpl;
    eexists; (split; [reflexivity|]);
    repeat rewrite <- app_assoc; simpl; try done.
  all: match goal with
       | H : BacklinkColumn.get_backlink_count _ _ = Some _ |- _ => rewrite H
       end;
    first [ by rewrite bool_decide_eq_false_2 by lia
          | by rewrite bool_decide_eq_true_2 by lia ].
Qed.

Lemma remove_trace i s s' :
  remove i s = Ok (tt, s') →
  ∃ old, old_target s i = Some old ∧
    trace s' = trace s ++ repl_of (link_list_erase i) ++
               [BacklinkUpdate; ForwardUpdate] ++
               casc_tail old (sys s').
Proof.
  intros H. unfold replication_of, cascade_tail, cascades, old_target.
  destruct repl, m_weak_links; minv H;
    repeat match goal with H : _ = _ |- _ => rewrite H end; simpl;
    eexists; (split; [reflexivity|]);
    repeat rewrite <- app_assoc; simpl; try done.
  all: match goal with
       | H : BacklinkColumn.get_backlink_count _ _ = Some _ |- _ => rewrite H
       end;
    first [ by rewrite bool_decide_eq_false_2 by lia
          | by rewrite bool_decide_eq_true_2 by lia ].
Qed.

Lemma insert_trace i t s s' :
  LinkView.insert get_row_ndx repl i t s = Ok (tt, s') →
  ∃ tr, trace s' = trace s ++ tr ++ [ForwardUpdate; BacklinkUpdate] ++
                   repl_of (link_list_insert i t) ∧
        no_replication tr.
Proof.
  intros H. unfold replication_of.
  destruct repl; minv H; repeat rewrite <- app_assoc; simpl.
  all: first [ by (exists []; split; [done|constructor])
             | by (exists [ForwardUpdate]; split; [done|repeat constructor]) ].
Qed.

Lemma move_trace a b s s' :
  LinkView.move repl a b s = Ok (tt, s') →
  trace s' = trace s ∨
  trace s' = trace s ++ [ForwardUpdate; ForwardUpdate] ++
             repl_of (link_list_move a b).
Proof.
  intros H. unfold replication_of.
  destruct repl; minv H; repeat rewrite <- app_assoc; simpl; auto.
Qed.

Lemma swap_trace a b s s' :
  LinkView.swap repl a b s = Ok (tt, s') →
  trace s' = trace s ∨
  trace s' = trace s ++ [ForwardUpdate; ForwardUpdate] ++
             repl_of (link_list_swap (a `min` b) (a `max` b)).
Proof.
  intros H. unfold replication_of.
  destruct repl; minv H; repeat rewrite <- app_assoc; simpl; auto.
  all: try (right; repeat f_equal; lia).
Qed.

End Shapes.

(** ** C2: where the replication event stands *)

Lemma replication_first_cons x tr :
  no_replication tr → replication_first (Replication x :: tr).
Proof.
  intros Hno i j e u Hi Hj He Hu.
  destruct i as [|i].
  - destruct j as [|j]; [|lia]. simpl in Hj. by simplify_eq.
  - simpl in Hi. unfold no_replication in Hno. rewrite Forall_lookup in Hno.
    specialize (Hno _ _ Hi). congruence.
Qed.

Lemma replication_last_snoc x tr :
  no_replication tr → replication_last (tr ++ [Replication x]).
Proof.
  intros Hno i j e u Hi Hj He Hu.
  unfold no_replication in Hno. rewrite Forall_lookup in Hno.
  destruct (decide (i < length tr)) as [Hlt|Hge].
  - rewrite lookup_app_l in Hi by done. specialize (Hno _ _ Hi). congruence.
  - destruct (decide (j < length tr)) as [|Hj']; [lia|].
    rewrite lookup_app_r in Hj by lia.
    destruct (j - length tr) as [|k] eqn:E; simpl in Hj; [by simplify_eq|].
    by rewrite lookup_nil in Hj.
Qed.

Lemma replication_first_nil : replication_first [].
Proof. intros i j e u Hi. by rewrite lookup_nil in Hi. Qed.

Lemma replication_last_nil : replication_last [].
Proof. intros i j e u Hi. by rewrite lookup_nil in Hi. Qed.

Section ReplicationOrder.

Variable get_row_ndx : Key → nat.
Variable m_weak_links : bool.
Variable other_strong_backlinks : nat → nat.

Lemma cascade_tail_no_repl old st :
  no_replication (cascade_tail m_weak_links other_strong_backlinks old st).
Proof. unfold cascade_tail. case_match; repeat constructor. Qed.



End ReplicationOrder.

(** ** Concrete runs *)





(** C4 as stated fails on [insert]: on a detached view it stops at a failed
    assertion and reports no [DetachedAccessor]. *)
Lemma detached_insert_is_no_logic_error :
  LinkView.insert row_of_key true 0 7 (detached_state (empty_sys 10 6) 5)
    ≠ Throws detached_accessor.
Proof. vm_compute. discriminate. Qed.

Lemma detached_view_operations_witness :
  (∀ a b, LinkView.move true a b (detached_state (empty_sys 10 6) 5)
          = Throws detached_accessor) ∧
  (∀ a b, LinkView.swap true a b (detached_state (empty_sys 10 6) 5)
          = Throws detached_accessor) ∧
  (∀ i t, LinkView.insert row_of_key true i t (detached_state (empty_sys 10 6) 5)
          = Assert_failed) ∧
  (∀ i t, LinkView.set row_of_key false true (λ _, 0) i t
            (detached_state (empty_sys 10 6) 5) = Assert_failed) ∧
  (∀ i, LinkView.remove row_of_key false true (λ _, 0) i
          (detached_state (empty_sys 10 6) 5) = Assert_failed) ∧
  LinkView.clear row_of_key false true (λ _, 0) (detached_state (empty_sys 10 6) 5)
    = Assert_failed ∧
  TightdbLinkView.size false detached_view (empty_sys 10 6)
    = (if false then Assert_failed else Ok 0) ∧
  TightdbLinkView.is_empty false detached_view (empty_sys 10 6)
    = (if false then Assert_failed else Ok true) ∧
  (∀ t, TightdbLinkView.find false detached_view t (empty_sys 10 6)
        = (if false then Assert_failed else Ok None)) ∧
  (∀ i, TightdbLinkView.get false detached_view i (empty_sys 10 6) = Assert_failed).
Proof.
  apply (detached_view_operations row_of_key false true (λ _, 0)
           (detached_state (empty_sys 10 6) 5) detached_view false (empty_sys 10 6));
    reflexivity.
Defined.

(** ** C10: reading a degenerate list *)

Section Degenerate.
Import TightdbLinkView.

Variable debug : bool.

(** C10.  A view made on a cell with word 0 is attached and has no store
    accessor.  On every attached view without store accessor [size] is 0,
    [is_empty] is true and [find] of a row of the target table is
    [not_found]; the three are [const] and return their value only, so the
    cell stays 0 and nothing is allocated. *)
Theorem degenerate_view_reads_as_empty st row_ndx lv target_row_ndx :
  links st !! row_ndx = Some 0%Z →
  (lv = new_LinkView row_ndx st ∨
   (is_attached lv = true ∧ m_target_row_indexes lv = None)) →
  target_row_ndx < length (backlinks st) →
  is_attached lv = true ∧ m_target_row_indexes lv = None ∧
  size debug lv st = Ok 0 ∧
  is_empty debug lv st = Ok true ∧
  find debug lv target_row_ndx st = Ok None.
Proof.
  intros Hcell Hlv Ht.
  assert (is_attached lv = true ∧ m_target_row_indexes lv = None) as [Ha Hd].
  { destruct Hlv as [->|?]; [|done]. unfold new_LinkView. simpl. by rewrite Hcell. }
  split; [done|]. split; [done|].
  unfold size, is_empty, find, TIGHTDB_ASSERT. rewrite Ha, Hd.
  rewrite bool_decide_eq_true_2 by done. simpl.
  by rewrite !andb_false_r.
Qed.

End Degenerate.

Lemma degenerate_view_reads_as_empty_witness :
  TightdbLinkView.is_attached (TightdbLinkView.new_LinkView 5 (empty_sys 10 6)) = true ∧
  TightdbLinkView.m_target_row_indexes (TightdbLinkView.new_LinkView 5 (empty_sys 10 6))
    = None ∧
  TightdbLinkView.size true (TightdbLinkView.new_LinkView 5 (empty_sys 10 6))
    (empty_sys 10 6) = Ok 0 ∧
  TightdbLinkView.is_empty true (TightdbLinkView.new_LinkView 5 (empty_sys 10 6))
    (empty_sys 10 6) = Ok true ∧
  TightdbLinkView.find true (TightdbLinkView.new_LinkView 5 (empty_sys 10 6)) 7
    (empty_sys 10 6) = Ok None.
Proof.
  apply (degenerate_view_reads_as_empty true (empty_sys 10 6) 5).
  - reflexivity.
  - by left.
  - simpl. lia.
Defined.

(** ** C6: a list and its backing store *)

Section Lists.
Import BacklinkSpec.

Lemma bl_inv_frame Ms st st' :
  bl_inv Ms st → backlinks st' = backlinks st →
  (∀ w, w ∈ backlinks st → is_ref w → heap st' !! w = heap st !! w) →
  bl_inv Ms st'.
Proof.
  intros [Hlen Hrep Hsep] Hb Hh. split.
  - by rewrite Hb.
  - intros row w M Hw HM. rewrite Hb in Hw.
    eapply rep_heap_agree; [by eapply Hrep|]. intros Hr. apply Hh; [|done].
    apply list_elem_of_lookup. by exists row.
  - intros i j w Hij Hi Hj. rewrite Hb in Hi, Hj. by eapply Hsep.
Qed.

Lemma owned_in_heap Ms st w :
  bl_inv Ms st → w ∈ backlinks st → is_ref w → is_Some (heap st !! w).
Proof.
  intros Hinv Hin Hr. apply list_elem_of_lookup in Hin as [j Hj].
  destruct (lookup_lt_is_Some_2 Ms j) as [Mj HMj].
  { rewrite <-(bl_length _ _ Hinv). by eapply lookup_lt_Some. }
  exact (rep_is_ref_heap _ _ _ (bl_rep _ _ Hinv _ _ _ Hj HMj) Hr).
Qed.

Lemma cnt_vector_insert row i t L :
  cnt row (vector_insert i t L) = cnt row L + (if decide (t = row) then 1 else 0).
Proof.
  unfold cnt, vector_insert.
  rewrite <-(take_drop i L) at 3.
  rewrite !filter_app, filter_cons, !length_app.
  case_decide; simpl; lia.
Qed.

Lemma mrep_S n r : mrep (S n) r = mrep n r ⊎ {[+ r +]}.
Proof. unfold mrep. simpl. multiset_solver. Qed.

Lemma add_links_insert r i t L Ms0 M :
  add_links r L Ms0 !! t = Some M →
  add_links r (vector_insert i t L) Ms0 = <[t := M ⊎ {[+ r +]}]> (add_links r L Ms0).
Proof.
  intros HM. apply list_eq. intros row.
  destruct (decide (row = t)) as [->|Hne].
  - rewrite list_lookup_insert_eq by (by eapply lookup_lt_Some).
    unfold add_links in *. rewrite list_lookup_imap in *.
    destruct (Ms0 !! t) as [M0|]; simplify_eq/=.
    rewrite cnt_vector_insert, decide_True by done.
    rewrite Nat.add_1_r, mrep_S. f_equal. multiset_solver.
  - rewrite list_lookup_insert_ne by done.
    unfold add_links. rewrite !list_lookup_imap.
    by rewrite cnt_vector_insert, decide_False, Nat.add_0_r by done.
Qed.

Lemma add_links_cons_remove r t L Ms0 M :
  add_links r (t :: L) Ms0 !! t = Some M →
  r ∈ M ∧ add_links r L Ms0 = <[t := M ∖ {[+ r +]}]> (add_links r (t :: L) Ms0).
Proof.
  intros HM. change (t :: L) with (vector_insert 0 t L) in *.
  destruct (lookup_lt_is_Some_2 (add_links r L Ms0) t) as [M' HM'].
  { apply lookup_lt_Some in HM. unfold add_links in *. by rewrite length_imap in *. }
  rewrite (add_links_insert _ _ _ _ _ _ HM') in HM |- *.
  rewrite list_lookup_insert_eq in HM by (by eapply lookup_lt_Some). simplify_eq.
  split; [multiset_solver|].
  rewrite list_insert_insert_eq.
  replace ((M' ⊎ {[+ r +]}) ∖ {[+ r +]}) with M' by multiset_solver.
  by rewrite list_insert_id.
Qed.

Lemma add_links_nil r Ms0 : add_links r [] Ms0 = Ms0.
Proof.
  apply list_eq. intros row. unfold add_links. rewrite list_lookup_imap.
  destruct (Ms0 !! row) as [M|]; [|done]. simpl. f_equal.
  unfold cnt, mrep. simpl. multiset_solver.
Qed.

Lemma length_add_links r L Ms0 : length (add_links r L Ms0) = length Ms0.
Proof. unfold add_links. by rewrite length_imap. Qed.

Variable get_row_ndx : Key → nat.
Variable m_weak_links : bool.
Variable repl : bool.
Variable other_strong_backlinks : nat → nat.

(** The keys of the rows of the target table are their indices, as the
    list view takes them. *)
Hypothesis Hkey : ∀ t, get_row_ndx (LinkView.key_of t) = t.

Lemma fresh_ref_foreign Ms st l :
  bl_inv Ms st →
  foreign (set_heap (<[alloc_ref (heap st) := l]> (heap st)) st) (alloc_ref (heap st)).
Proof.
  intros Hinv. split; [apply alloc_ref_is_ref|]. split; simpl.
  - rewrite lookup_insert_eq. by eexists.
  - intros Hin. destruct (owned_in_heap _ _ _ Hinv Hin (alloc_ref_is_ref _)) as [x Hx].
    by rewrite alloc_ref_fresh in Hx.
Qed.

Lemma insert_ok Ms0 L s i t :
  view_inv Ms0 L s → i ≤ length L → t < length Ms0 →
  ∃ s', LinkView.insert get_row_ndx repl i t s = Ok (tt, s') ∧
        view_inv Ms0 (vector_insert i t L) s' ∧
        ndx_in_parent (this s') = ndx_in_parent (this s) ∧
        is_Some (m_row_indexes (this s')).
Proof.
  intros [Ha Hr Ho Hbl Ht Hcell] Hi Htn.
  destruct s as [st [a r mri] v tr]; simpl in *. subst a.
  pose proof (bl_length _ _ Hbl) as Hlen. rewrite length_add_links in Hlen.
  destruct (lookup_lt_is_Some_2 (add_links (Z.of_nat r) L Ms0) t) as [M HM].
  { by rewrite length_add_links. }
  assert (Forall (λ t, t < length Ms0) (vector_insert i t L)) as Ht'.
  { unfold vector_insert. apply Forall_app. split; [by apply Forall_take|].
    apply Forall_cons_2; [done|by apply Forall_drop]. }
  destruct Hcell as [(Hc & -> & ->)|(ref & Hc & -> & Hf & Hh)].
  - assert (i = 0) as -> by (simpl in Hi; lia).
    pose proof (alloc_ref_is_ref (heap st)) as [Hr0 Hr1].
    set (ref := alloc_ref (heap st)) in *.
    set (st2 := {| heap := <[ref := [Z.of_nat t]]> (heap st); backlinks := backlinks st;
                   links := <[r := ref]> (links st) |}).
    assert (bl_inv (add_links (Z.of_nat r) [] Ms0) st2) as Hbl2.
    { eapply bl_inv_frame; [exact Hbl|done|]. intros w Hw Hwr. simpl.
      rewrite lookup_insert_ne; [done|]. intros <-.
      destruct (owned_in_heap _ _ _ Hbl Hw Hwr) as [x Hx].
      unfold ref in Hx. by rewrite alloc_ref_fresh in Hx. }
    assert (foreign st2 ref) as Hf2.
    { destruct (fresh_ref_foreign _ st [Z.of_nat t] Hbl) as (? & ? & ?).
      split; [done|]. split; [simpl; rewrite lookup_insert_eq; by eexists|done]. }
    destruct (add_backlink_spec get_row_ndx (add_links (Z.of_nat r) [] Ms0) st2
                (LinkView.key_of t) (LinkView.key_of r) M)
      as (st3 & Hadd & Hbl3 & Hl3 & Hlen3 & Hfr3); [done|by rewrite Hkey|done|].
    rewrite Hkey in Hbl3. simpl in Hbl3.
    rewrite <-(add_links_insert _ 0 _ _ _ _ HM) in Hbl3.
    destruct (Hfr3 _ Hf2) as [Hf3 Hh3].
    munfold. simpl.
    rewrite bool_decide_eq_true_2 by lia. simpl.
    rewrite bool_decide_eq_true_2 by done. simpl.
    rewrite list_lookup_insert_eq by done. simpl.
    fold ref. rewrite decide_False by done. simpl.
    rewrite lookup_insert_eq. simpl.
    unfold set_heap, set_links. simpl. rewrite insert_insert_eq.
    change (vector_insert 0 (Z.of_nat t) []) with [Z.of_nat t].
    fold st2. rewrite Hadd. simpl.
    destruct repl; simpl; eexists; (split; [reflexivity|]); simpl.
    all: split; [|split; [done|by eexists]].
    all: split; simpl; try done;
           rewrite ?Hl3; simpl; rewrite ?length_insert; try done.
    all: right; exists ref.
    all: rewrite list_lookup_insert_eq by done.
    all: split; [done|]; split; [done|]; split; [done|].
    all: rewrite Hh3; simpl; by rewrite lookup_insert_eq.
  - set (st2 := {| heap := <[ref := vector_insert i (Z.of_nat t) (Z.of_nat <$> L)]> (heap st);
                   backlinks := backlinks st; links := links st |}).
    assert (bl_inv (add_links (Z.of_nat r) L Ms0) st2) as Hbl2.
    { eapply bl_inv_frame; [exact Hbl|done|]. intros w Hw Hwr. simpl.
      rewrite lookup_insert_ne; [done|]. intros <-. by destruct Hf as (_ & _ & Hn). }
    assert (foreign st2 ref) as Hf2.
    { destruct Hf as (? & ? & ?).
      split; [done|]. split; [simpl; rewrite lookup_insert_eq; by eexists|done]. }
    destruct (add_backlink_spec get_row_ndx (add_links (Z.of_nat r) L Ms0) st2
                (LinkView.key_of t) (LinkView.key_of r) M)
      as (st3 & Hadd & Hbl3 & Hl3 & Hlen3 & Hfr3); [done|by rewrite Hkey|done|].
    rewrite Hkey in Hbl3. simpl in Hbl3.
    rewrite <-(add_links_insert _ i _ _ _ _ HM) in Hbl3.
    destruct (Hfr3 _ Hf2) as [Hf3 Hh3].
    munfold. simpl. rewrite Hh. simpl.
    rewrite length_fmap.
    rewrite bool_decide_eq_true_2 by done. simpl.
    rewrite bool_decide_eq_true_2 by lia. simpl.
    rewrite Hh. simpl. rewrite length_fmap.
    rewrite decide_True by done. simpl.
    unfold set_heap. simpl. fold st2. rewrite Hadd. simpl.
    destruct repl; simpl; eexists; (split; [reflexivity|]); simpl.
    all: split; [|split; [done|by eexists]].
    all: split; simpl; try done; rewrite ?Hl3; simpl; try done.
    all: right; exists ref.
    all: split; [done|]; split; [done|]; split; [done|].
    all: rewrite Hh3; simpl; rewrite lookup_insert_eq.
    all: unfold vector_insert; by rewrite fmap_app, fmap_cons, fmap_take, fmap_drop.
Qed.

Lemma for_loop_S {A} lo n (body : nat → A → M A) acc :
  for_loop lo (S n) body acc = (body lo acc ≫= λ acc', for_loop (S lo) n body acc').
Proof. done. Qed.

Lemma for_loop_0 {A} lo (body : nat → A → M A) acc s :
  for_loop lo 0 body acc s = Ok (acc, s).
Proof. done. Qed.

Lemma row_indexes_size_eq s ref l :
  m_row_indexes (this s) = Some ref → heap (sys s) !! ref = Some l →
  LinkView.row_indexes_size s = Ok (length l, s).
Proof. intros H1 H2. mrun. by rewrite H1, H2. Qed.

Lemma row_indexes_get_eq s ref l k t :
  m_row_indexes (this s) = Some ref → heap (sys s) !! ref = Some (Z.of_nat <$> l) →
  l !! k = Some t →
  LinkView.row_indexes_get k s = Ok (t, s).
Proof.
  intros H1 H2 H3. mrun. rewrite H1, H2. simpl. rewrite list_lookup_fmap, H3. simpl.
  rewrite decide_True by lia. simpl. by rewrite Nat2Z.id.
Qed.

Lemma get_backlink_count_eq s t n :
  BacklinkColumn.get_backlink_count t (sys s) = Some n →
  LinkView.get_backlink_count other_strong_backlinks t s
    = Ok (n + other_strong_backlinks t, s).
Proof. intros H. mrun. by rewrite H. Qed.

Lemma schedules_no_row_app t1 t2 :
  schedules_no_row t1 → schedules_no_row t2 → schedules_no_row (t1 ++ t2).
Proof. intros. by apply Forall_app. Qed.

Lemma clearing_step Ms0 L r ref links0 v k s t :
  Forall (λ t, t < length Ms0) L →
  clearing Ms0 L r ref links0 v k s → L !! k = Some t →
  ∃ s', LinkView.row_indexes_get k s = Ok (t, s) ∧
        LinkView.remove_backlink get_row_ndx t r s = Ok (tt, s') ∧
        clearing Ms0 L r ref links0 v (S k) s' ∧
        BacklinkColumn.get_backlink_count t (sys s')
          = Some (size (default ∅ (Ms0 !! t)) + cnt t (drop (S k) L)) ∧
        trace s' = trace s ++ [BacklinkUpdate].
Proof.
  intros HL (Hthis & Hlinks & Hv & Hbl & Hf & Hh) Hk.
  assert (t < length Ms0) as Ht.
  { rewrite Forall_lookup in HL. by eapply HL. }
  rewrite (drop_S _ _ _ Hk) in Hbl.
  destruct (lookup_lt_is_Some_2 (add_links (Z.of_nat r) (t :: drop (S k) L) Ms0) t)
    as [M HM]; [by rewrite length_add_links|].
  destruct (add_links_cons_remove _ _ _ _ _ HM) as [Hin Heq].
  destruct (remove_one_backlink_spec get_row_ndx _ (sys s) (LinkView.key_of t)
              (LinkView.key_of r) M Hbl)
    as (st1 & Hrm & Hbl1 & Hl1 & Hlen1 & Hfr1); [by rewrite Hkey|done|].
  rewrite Hkey in Hbl1. simpl in Hbl1. rewrite <-Heq in Hbl1.
  destruct (Hfr1 _ Hf) as [Hf1 Hh1].
  eexists. split.
  { eapply row_indexes_get_eq; [by rewrite Hthis|done|done]. }
  split.
  { mrun. rewrite Hrm. simpl. reflexivity. }
  split; [|split; [|done]].
  - unfold clearing. simpl. split_and!; try done; congruence.
  - simpl.
    destruct (lookup_lt_is_Some_2 (add_links (Z.of_nat r) (drop (S k) L) Ms0) t)
      as [M1 HM1]; [by rewrite length_add_links|].
    destruct (lookup_lt_is_Some_2 (backlinks st1) t) as [w Hw].
    { rewrite (bl_length _ _ Hbl1), length_add_links. done. }
    destruct (rep_encodes st1 t w M1 Hw (bl_rep _ _ Hbl1 _ _ _ Hw HM1)) as [_ ->].
    f_equal. unfold add_links in HM1. rewrite list_lookup_imap in HM1.
    destruct (Ms0 !! t) as [M0|]; simplify_eq/=.
    rewrite gmultiset_size_disj_union. f_equal.
    unfold mrep. by rewrite size_list_to_set_disj, length_replicate.
Qed.

(** The loop of [do_clear(false)]: every backlink of the list goes. *)
Lemma weak_loop Ms0 L r ref links0 v :
  Forall (λ t, t < length Ms0) L →
  ∀ n k s, k + n = length L → clearing Ms0 L r ref links0 v k s →
  ∃ s' tr, for_loop k n (λ link_ndx _,
          LinkView.row_indexes_get link_ndx ≫= λ target_row_ndx,
          LinkView.remove_backlink get_row_ndx target_row_ndx r) tt s = Ok (tt, s') ∧
        clearing Ms0 L r ref links0 v (k + n) s' ∧
        trace s' = trace s ++ tr ∧ schedules_no_row tr.
Proof.
  intros HL. induction n as [|n IH]; intros k s Hkn Hc.
  - exists s, []. rewrite for_loop_0, Nat.add_0_r, app_nil_r.
    split_and!; try done. constructor.
  - destruct (lookup_lt_is_Some_2 L k) as [t Hk]; [lia|].
    destruct (clearing_step _ _ _ _ _ _ _ _ _ HL Hc Hk)
      as (s1 & Hget & Hrm & Hc1 & _ & Htr1).
    destruct (IH (S k) s1) as (s' & tr & Hloop & Hc' & Htr & Hno); [lia|done|].
    exists s', (BacklinkUpdate :: tr). rewrite for_loop_S.
    rewrite (bind_eq _ _ _ _ _ (eq_trans (bind_eq _ _ _ _ _ Hget) Hrm)).
    split; [done|]. split; [by replace (k + S n) with (S k + n) by lia|].
    split; [by rewrite Htr, Htr1, <-app_assoc|]. by constructor.
Qed.

Lemma cnt_0_not_in t L : cnt t L = 0 → t ∉ L.
Proof.
  unfold cnt. intros H Hin.
  assert (t ∈ filter (λ x, x = t) L) as Hf by (by apply list_elem_of_filter).
  destruct (filter (λ x, x = t) L); [by apply elem_of_nil in Hf|done].
Qed.

(** The loop of [clear] on a strong column, when every target row of the
    list has a strong backlink apart from those of the list: after each
    [remove_backlink] the count of the target row is positive, so no row
    is scheduled and the cascade is not entered. *)
Lemma strong_loop_idle Ms0 L r ref links0 v :
  Forall (λ t, t < length Ms0) L →
  (∀ t, t ∈ L → 0 < strong_backlinks other_strong_backlinks Ms0 [] t) →
  ∀ n k s rows, k + n = length L → clearing Ms0 L r ref links0 v k s →
  ∃ s' tr, for_loop k n (λ link_ndx (rows : list nat),
          LinkView.row_indexes_get link_ndx ≫= λ target_row_ndx,
          LinkView.remove_backlink get_row_ndx target_row_ndx r ≫= λ _,
          LinkView.get_backlink_count other_strong_backlinks target_row_ndx
            ≫= λ num_remaining,
          if decide (0 < num_remaining) then mret rows
          else
            let i := upper_bound target_row_ndx rows in
            REALM_ASSERT (bool_decide (i = 0 ∨ rows !! (i - 1) ≠ Some target_row_ndx))
              ≫= λ _,
            let rows := vector_insert i target_row_ndx rows in
            LinkView.tf_cascade_break_backlinks_to target_row_ndx ≫= λ _,
            mret rows) rows s = Ok (rows, s') ∧
        clearing Ms0 L r ref links0 v (k + n) s' ∧
        trace s' = trace s ++ tr ∧ schedules_no_row tr.
Proof.
  intros HL Hkeep. induction n as [|n IH]; intros k s rows Hkn Hc.
  - exists s, []. rewrite for_loop_0, Nat.add_0_r, app_nil_r.
    split_and!; try done. constructor.
  - destruct (lookup_lt_is_Some_2 L k) as [t Hk]; [lia|].
    destruct (clearing_step _ _ _ _ _ _ _ _ _ HL Hc Hk)
      as (s1 & Hget & Hrm & Hc1 & Hcnt & Htr1).
    assert (0 < size (default ∅ (Ms0 !! t)) + cnt t (drop (S k) L)
                + other_strong_backlinks t) as Hpos.
    { assert (t ∈ L) as Hin by (apply list_elem_of_lookup; by exists k).
      specialize (Hkeep t Hin). unfold strong_backlinks in Hkeep.
      change (cnt t []) with 0 in Hkeep. lia. }
    destruct (IH (S k) s1 rows) as (s' & tr & Hloop & Hc' & Htr & Hno); [lia|done|].
    exists s', (BacklinkUpdate :: tr). rewrite for_loop_S.
    split; [|split; [by replace (k + S n) with (S k + n) by lia|]].
    + erewrite bind_eq; [exact Hloop|].
      rewrite (bind_eq _ _ _ _ _ Hget), (bind_eq _ _ _ _ _ Hrm).
      rewrite (bind_eq _ _ _ _ _ (get_backlink_count_eq _ _ _ Hcnt)).
      by rewrite decide_True.
    + split; [by rewrite Htr, Htr1, <-app_assoc|]. by constructor.
Qed.

Lemma clear_tail Ms0 L r ref links0 v s :
  clearing Ms0 L r ref links0 v (length L) s → r < length links0 →
  ∃ s' tr, (LinkView.row_indexes_destroy ≫= λ _,
         LinkView.set_row_ref r 0 ≫= λ _, bump_version) s = Ok (tt, s') ∧
        cleared Ms0 r ref links0 s' ∧
        trace s' = trace s ++ tr ∧ schedules_no_row tr.
Proof.
  intros (Hthis & Hlinks & Hv & Hbl & Hf & Hh) Hr.
  destruct s as [st lv v' tr]; simpl in *. subst lv v'.
  rewrite drop_all, add_links_nil in Hbl.
  mrun. rewrite bool_decide_eq_true_2 by (by rewrite Hlinks). simpl.
  eexists. exists [ForwardUpdate; ForwardUpdate].
  split; [reflexivity|]. split.
  - unfold cleared. simpl.
    split; [done|]. split; [by rewrite Hlinks|]. split; [by rewrite lookup_delete_eq|].
    eapply bl_inv_frame; [exact Hbl|done|]. intros w Hw Hwr. simpl.
    rewrite lookup_delete_ne; [done|]. intros <-. by destruct Hf as (_ & _ & Hn).
  - simpl. split; [by rewrite <-app_assoc|]. by repeat constructor.
Qed.

Lemma do_clear_true_ok Ms0 L r ref links0 v s :
  clearing Ms0 L r ref links0 v (length L) s → r < length links0 →
  ∃ s' tr, LinkView.do_clear get_row_ndx true s = Ok (tt, s') ∧
        cleared Ms0 r ref links0 s' ∧
        trace s' = trace s ++ tr ∧ schedules_no_row tr.
Proof.
  intros Hc Hr.
  destruct (clear_tail _ _ _ _ _ _ _ Hc Hr) as (s' & tr & Htail & Hpost & Htr & Hno).
  exists s', tr. split; [|done]. unfold LinkView.do_clear.
  destruct Hc as (Hthis & _).
  rewrite (bind_eq _ _ s (ndx_in_parent (this s)) s) by reflexivity.
  rewrite (bind_eq _ _ s (bool_decide (is_Some (m_row_indexes (this s)))) s) by reflexivity.
  rewrite Hthis. simpl.
  rewrite (bind_eq _ _ s tt s) by reflexivity. exact Htail.
Qed.

Lemma do_clear_false_ok Ms0 L r ref links0 v s :
  Forall (λ t, t < length Ms0) L →
  clearing Ms0 L r ref links0 v 0 s → r < length links0 →
  ∃ s' tr, LinkView.do_clear get_row_ndx false s = Ok (tt, s') ∧
        cleared Ms0 r ref links0 s' ∧
        trace s' = trace s ++ tr ∧ schedules_no_row tr.
Proof.
  intros HL Hc Hr.
  destruct (weak_loop _ _ _ _ _ _ HL (length L) 0 s eq_refl Hc)
    as (s1 & tr1 & Hloop & Hc1 & Htr1 & Hno1).
  destruct (clear_tail _ _ _ _ _ _ _ Hc1 Hr) as (s' & tr2 & Htail & Hpost & Htr2 & Hno2).
  exists s', (tr1 ++ tr2). split; [|split; [done|split]].
  - unfold LinkView.do_clear.
    destruct Hc as (Hthis & _ & _ & _ & _ & Hh).
    rewrite (bind_eq _ _ s (ndx_in_parent (this s)) s) by reflexivity.
    rewrite (bind_eq _ _ s (bool_decide (is_Some (m_row_indexes (this s)))) s)
      by reflexivity.
    rewrite Hthis. simpl.
    erewrite bind_eq; [exact Htail|].
    erewrite bind_eq; [|eapply row_indexes_size_eq; [by rewrite Hthis|done]].
    rewrite length_fmap. exact Hloop.
  - by rewrite Htr2, Htr1, <-app_assoc.
  - by apply schedules_no_row_app.
Qed.

(** The state of [clearing] at the start, for a view with its store. *)
Lemma clearing_start Ms0 L s ref :
  view_inv Ms0 L s → m_row_indexes (this s) = Some ref →
  clearing Ms0 L (ndx_in_parent (this s)) ref (links (sys s)) (m_version s) 0 s ∧
  ndx_in_parent (this s) < length (links (sys s)).
Proof.
  intros [Ha Hr Ho Hbl Ht Hcell] Href.
  destruct Hcell as [(_ & Hn & _)|(ref' & Hc & Hm & Hf & Hh)]; [congruence|].
  assert (ref' = ref) as -> by congruence.
  split; [|done]. unfold clearing. simpl. split_and!; try done.
  destruct (this s) as [a r' mri]; simpl in *. by subst.
Qed.

(** [do_clear] on a view with its store, whatever the flag: the store is
    freed, the cell is 0 and the accessor detached.  With the flag false
    the backlinks of the list are removed first. *)
Lemma do_clear_ok Ms0 L s ref broken_reciprocal_backlinks :
  view_inv Ms0 L s → m_row_indexes (this s) = Some ref →
  ∃ s', LinkView.do_clear get_row_ndx broken_reciprocal_backlinks s = Ok (tt, s') ∧
        links (sys s') !! ndx_in_parent (this s) = Some 0%Z ∧
        heap (sys s') !! ref = None ∧
        m_row_indexes (this s') = None ∧
        bl_inv (if broken_reciprocal_backlinks
                then add_links (Z.of_nat (ndx_in_parent (this s))) L Ms0 else Ms0)
               (sys s').
Proof.
  intros Hv Href. destruct (clearing_start _ _ _ _ Hv Href) as [Hc0 Hr].
  destruct broken_reciprocal_backlinks.
  - assert (clearing (add_links (Z.of_nat (ndx_in_parent (this s))) L Ms0) L
              (ndx_in_parent (this s)) ref (links (sys s)) (m_version s) (length L) s)
      as Hc.
    { destruct Hc0 as (Hthis & Hlinks & Hver & Hbl & Hf & Hh).
      unfold clearing. split_and!; try done.
      rewrite drop_all, add_links_nil. by rewrite drop_0 in Hbl. }
    destruct (do_clear_true_ok _ _ _ _ _ _ _ Hc Hr)
      as (s' & tr & Hrun & (Hthis' & Hlinks' & Hheap' & Hbl') & _).
    exists s'. split; [done|]. split; [by rewrite Hlinks', list_lookup_insert_eq|].
    split; [done|]. split; [by rewrite Hthis'|done].
  - destruct (do_clear_false_ok _ _ _ _ _ _ _ (vi_targets _ _ _ Hv) Hc0 Hr)
      as (s' & tr & Hrun & (Hthis' & Hlinks' & Hheap' & Hbl') & _).
    exists s'. split; [done|]. split; [by rewrite Hlinks', list_lookup_insert_eq|].
    split; [done|]. split; [by rewrite Hthis'|done].
Qed.

(** [clear] on a view with its store, in a run that schedules no row: the
    column is weak, or every target row of the list has a strong backlink
    apart from those of the list. *)
Lemma clear_idle_ok Ms0 L s ref :
  view_inv Ms0 L s → m_row_indexes (this s) = Some ref →
  m_weak_links = true ∨
    (∀ t, t ∈ L → 0 < strong_backlinks other_strong_backlinks Ms0 [] t) →
  ∃ s' tr, LinkView.clear get_row_ndx m_weak_links repl other_strong_backlinks s
          = Ok (tt, s') ∧
        trace s' = trace s ++ tr ∧ schedules_no_row tr ∧
        links (sys s') !! ndx_in_parent (this s) = Some 0%Z ∧
        heap (sys s') !! ref = None ∧
        m_row_indexes (this s') = None ∧
        bl_inv Ms0 (sys s').
Proof.
  intros Hv Href Hidle. destruct (clearing_start _ _ _ _ Hv Href) as [Hc Hr].
  pose proof (vi_attached _ _ _ Hv) as Ha. pose proof (vi_targets _ _ _ Hv) as Ht.
  set (r := ndx_in_parent (this s)) in *.
  set (s0 := {| sys := sys s; this := this s; m_version := m_version s;
                trace := trace s ++ replication_of repl link_list_clear |}).
  assert (clearing Ms0 L r ref (links (sys s)) (m_version s) 0 s0) as Hc0 by exact Hc.
  assert (heap (sys s) !! ref = Some (Z.of_nat <$> L)) as Hh by (by destruct Hc as (_&_&_&_&_&?)).
  assert (∃ s' tr, (if m_weak_links then LinkView.do_clear get_row_ndx false
                 else
                   LinkView.get_origin_row_index ≫= λ origin_row_ndx,
                   LinkView.row_indexes_size ≫= λ num_links,
                   for_loop 0 num_links (λ link_ndx (rows : list nat),
                     LinkView.row_indexes_get link_ndx ≫= λ target_row_ndx,
                     LinkView.remove_backlink get_row_ndx target_row_ndx origin_row_ndx
                       ≫= λ _,
                     LinkView.get_backlink_count other_strong_backlinks target_row_ndx
                       ≫= λ num_remaining,
                     if decide (0 < num_remaining) then mret rows
                     else
                       let i := upper_bound target_row_ndx rows in
                       REALM_ASSERT
                         (bool_decide (i = 0 ∨ rows !! (i - 1) ≠ Some target_row_ndx))
                         ≫= λ _,
                       let rows := vector_insert i target_row_ndx rows in
                       LinkView.tf_cascade_break_backlinks_to target_row_ndx ≫= λ _,
                       mret rows) [] ≫= λ rows,
                   LinkView.do_clear get_row_ndx true ≫= λ _,
                   LinkView.tf_remove_backlink_broken_rows rows) s0 = Ok (tt, s') ∧
                cleared Ms0 r ref (links (sys s)) s' ∧
                trace s' = trace s0 ++ tr ∧ schedules_no_row tr)
    as (s' & tr & Hrun & Hpost & Htr & Hno).
  { destruct m_weak_links.
    - by eapply do_clear_false_ok.
    - destruct Hidle as [?|Hkeep]; [done|].
      destruct (strong_loop_idle _ _ _ _ _ _ Ht Hkeep (length L) 0 s0 [] eq_refl Hc0)
        as (s1 & tr1 & Hloop & Hc1 & Htr1 & Hno1).
      destruct (do_clear_true_ok _ _ _ _ _ _ _ Hc1 Hr)
        as (s2 & tr2 & Hclear & Hpost & Htr2 & Hno2).
      exists {| sys := sys s2; this := this s2; m_version := m_version s2;
                trace := trace s2 ++ [RemoveRows []] |}, (tr1 ++ tr2 ++ [RemoveRows []]).
      split; [|split; [exact Hpost|split]].
      + rewrite (bind_eq _ _ s0 r s0) by reflexivity.
        erewrite bind_eq; [|eapply row_indexes_size_eq; [exact Href|exact Hh]].
        rewrite length_fmap.
        rewrite (bind_eq _ _ _ _ _ Hloop), (bind_eq _ _ _ _ _ Hclear). reflexivity.
      + change (trace s2 ++ [RemoveRows []] = trace s0 ++ tr1 ++ tr2 ++ [RemoveRows []]).
        by rewrite Htr2, Htr1, <-!app_assoc.
      + apply schedules_no_row_app; [done|]. apply schedules_no_row_app; [done|].
        by repeat constructor. }
  exists s', (replication_of repl link_list_clear ++ tr).
  destruct Hpost as (Hthis' & Hlinks' & Hheap' & Hbl').
  split; [|split; [|split]].
  - unfold LinkView.clear.
    rewrite (bind_eq _ _ s true s) by (by rewrite <-Ha).
    rewrite (bind_eq _ _ s tt s) by reflexivity.
    rewrite (bind_eq _ _ s true s).
    2:{ change (LinkView.row_indexes_is_attached s)
          with (Ok (bool_decide (is_Some (m_row_indexes (this s))), s)).
        rewrite Href. reflexivity. }
    simpl. rewrite (bind_eq _ _ s tt s0); [exact Hrun|].
    unfold LinkView.replicate_instr, s0, replication_of. destruct repl; [done|].
    cbn. by rewrite app_nil_r; destruct s.
  - rewrite Htr. unfold s0. simpl. by rewrite <-app_assoc.
  - apply schedules_no_row_app; [|done]. unfold replication_of.
    destruct repl; by repeat constructor.
  - split; [by rewrite Hlinks', list_lookup_insert_eq|].
    split; [done|]. split; [by rewrite Hthis'|done].
Qed.

Local Abbreviation run_mutators :=
  (run_mutators get_row_ndx m_weak_links repl other_strong_backlinks).

Lemma elem_of_vector_insert {A} (x y : A) i l :
  x ∈ vector_insert i y l → x = y ∨ x ∈ l.
Proof.
  unfold vector_insert. rewrite elem_of_app, elem_of_cons.
  intros [H|[H|H]]; [right|by left|right].
  - eapply elem_of_sublist; [done|apply sublist_take].
  - eapply elem_of_sublist; [done|apply sublist_drop].
Qed.

Lemma length_vector_insert {A} i (x : A) l :
  i ≤ length l → length (vector_insert i x l) = S (length l).
Proof.
  intros Hi. unfold vector_insert. rewrite length_app, length_take. simpl.
  rewrite length_drop. lia.
Qed.

Lemma inserts_ok ins : ∀ Ms0 L s,
  view_inv Ms0 L s → valid_inserts (length Ms0) (length L) ins →
  ∃ s' L', run_mutators (insert_all ins) s = Ok (tt, s') ∧
           view_inv Ms0 L' s' ∧
           ndx_in_parent (this s') = ndx_in_parent (this s) ∧
           (is_Some (m_row_indexes (this s)) ∨ ins ≠ [] →
            is_Some (m_row_indexes (this s'))) ∧
           (∀ t, t ∈ L' → t ∈ L ∨ ∃ i, (i, t) ∈ ins).
Proof.
  induction ins as [|[i t] ins IH]; intros Ms0 L s Hv Hvalid.
  - exists s, L. split; [done|]. split; [done|]. split; [done|].
    split; [by intros [?|?]|]. intros t Ht. by left.
  - destruct Hvalid as (Hi & Ht & Hvalid).
    destruct (insert_ok _ _ _ _ _ Hv Hi Ht) as (s1 & Hins & Hv1 & Hr1 & Hm1).
    destruct (IH Ms0 (vector_insert i t L) s1 Hv1)
      as (s' & L' & Hrun & Hv' & Hr' & Hm' & HL').
    { by rewrite length_vector_insert. }
    exists s', L'. split.
    + change (run_mutators (insert_all ((i, t) :: ins)) s)
        with ((LinkView.insert get_row_ndx repl i t ≫= λ _,
               run_mutators (insert_all ins)) s).
      by rewrite (bind_eq _ _ _ _ _ Hins).
    + split; [done|]. split; [congruence|].
      split; [intros _; apply Hm'; by left|].
      intros x Hx. destruct (HL' x Hx) as [Hin|[j Hj]].
      * apply elem_of_vector_insert in Hin as [->|Hin]; [|by left].
        right. exists i. by left.
      * right. exists j. by right.
Qed.

Lemma do_nullify_last_ok s ref t :
  m_row_indexes (this s) = Some ref →
  heap (sys s) !! ref = Some [Z.of_nat t] →
  ndx_in_parent (this s) < length (links (sys s)) →
  ∃ s', LinkView.do_nullify_link repl t s = Ok (tt, s') ∧
        links (sys s') !! ndx_in_parent (this s) = Some 0%Z ∧
        heap (sys s') !! ref = None ∧
        m_row_indexes (this s') = None.
Proof.
  intros Hm Hh Hr. destruct s as [st [a r mri] v tr]; simpl in *. subst mri.
  mrun. rewrite Hh. simpl.
  unfold find_first. simpl. rewrite decide_True by done. simpl.
  destruct repl; mrun; rewrite Hh; simpl; rewrite lookup_insert_eq; simpl;
    rewrite bool_decide_eq_true_2 by done; simpl;
    (eexists; split; [reflexivity|]); simpl;
    rewrite list_lookup_insert_eq by done;
    by rewrite lookup_delete_eq.
Qed.


End Lists.


(** ** C3: swapping two target rows *)

Section SwapTargets.
Import BacklinkSpec.

Lemma swap_cells_lookup {A} r1 r2 (c : list A) j :
  r1 < length c → r2 < length c →
  swap_cells r1 r2 c !! j = c !! exchange r1 r2 j.
Proof.
  intros H1 H2. unfold swap_cells.
  destruct (lookup_lt_is_Some_2 c r1 H1) as [x1 E1].
  destruct (lookup_lt_is_Some_2 c r2 H2) as [x2 E2].
  rewrite E1, E2. unfold exchange.
  destruct (decide (j = r2)) as [->|Hj2].
  - rewrite list_lookup_insert_eq by (by rewrite length_insert).
    repeat case_decide; congruence.
  - rewrite list_lookup_insert_ne by done.
    destruct (decide (j = r1)) as [->|Hj1].
    + rewrite list_lookup_insert_eq by done. repeat case_decide; congruence.
    + rewrite list_lookup_insert_ne by done. repeat case_decide; congruence.
Qed.

Lemma length_swap_cells {A} r1 r2 (c : list A) : length (swap_cells r1 r2 c) = length c.
Proof.
  unfold swap_cells. destruct (c !! r1), (c !! r2); try done.
  by rewrite !length_insert.
Qed.

Lemma exchange_swap (r1 r2 a b : nat) : exchange r1 r2 a = b ↔ a = exchange r1 r2 b.
Proof. unfold exchange. repeat case_decide; split; intros; subst; congruence. Qed.

Lemma cnt_exchange r1 r2 j L : cnt j (exchange r1 r2 <$> L) = cnt (exchange r1 r2 j) L.
Proof.
  unfold cnt. induction L as [|a L IH]; [done|].
  rewrite fmap_cons, !filter_cons.
  destruct (decide (exchange r1 r2 a = j)) as [Hj|Hj].
  - rewrite decide_True by (by apply exchange_swap). simpl. by rewrite IH.
  - rewrite decide_False by (by rewrite <-exchange_swap). done.
Qed.

(** Exchanging two rows of a column that is reciprocal with a list gives
    the column that is reciprocal with the list in which the two rows are
    exchanged. *)
Lemma swap_cells_add_links r r1 r2 L Ms0 :
  r1 < length Ms0 → r2 < length Ms0 →
  swap_cells r1 r2 (add_links r L Ms0)
    = add_links r (exchange r1 r2 <$> L) (swap_cells r1 r2 Ms0).
Proof.
  intros H1 H2. apply list_eq. intros j.
  rewrite swap_cells_lookup by (by rewrite length_add_links).
  unfold add_links. rewrite !list_lookup_imap.
  rewrite swap_cells_lookup by done. by rewrite cnt_exchange.
Qed.

(** [BacklinkColumn::swap_rows] on a well-formed column: the two cells
    change places, each in the form it had. *)
Lemma swap_rows_spec Ms st r1 r2 :
  bl_inv Ms st → r1 < length Ms → r2 < length Ms →
  ∃ st', BacklinkColumn.swap_rows r1 r2 st = Ok st' ∧
         backlinks st' = swap_cells r1 r2 (backlinks st) ∧
         heap st' = heap st ∧ links st' = links st ∧
         bl_inv (swap_cells r1 r2 Ms) st'.
Proof.
  intros Hinv H1 H2. pose proof (bl_length _ _ Hinv) as Hlen.
  destruct (lookup_lt_is_Some_2 (backlinks st) r1) as [w1 E1]; [lia|].
  destruct (lookup_lt_is_Some_2 (backlinks st) r2) as [w2 E2]; [lia|].
  exists (set_backlinks (swap_cells r1 r2 (backlinks st)) st).
  split.
  { unfold BacklinkColumn.swap_rows, BacklinkColumn.IntegerColumn_swap_rows, swap_cells.
    by rewrite E1, E2. }
  split; [done|]. split; [done|]. split; [done|]. split.
  - simpl. by rewrite !length_swap_cells.
  - intros row w M Hw HM. simpl in Hw.
    rewrite swap_cells_lookup in Hw by lia. rewrite swap_cells_lookup in HM by done.
    eapply rep_heap_agree; [by eapply (bl_rep _ _ Hinv)|done].
  - intros i j w Hij Hi Hj. simpl in Hi, Hj.
    rewrite swap_cells_lookup in Hi, Hj by lia.
    eapply (bl_sep _ _ Hinv); [|exact Hi|exact Hj].
    intros Heq. apply Hij. revert Heq. unfold exchange.
    repeat case_decide; congruence.
Qed.


End SwapTargets.

(** The list [7, 7, 9] of origin row 5 is reciprocal with the backlink
    column. *)
Lemma list_7_7_9_inv : view_inv (replicate 10 ∅) [7; 7; 9] list_7_7_9.
Proof.
  assert (view_inv (replicate 10 ∅) [] (attached_state (empty_sys 10 6) 5)) as Hv0.
  { split; simpl; try done.
    - lia.
    - change (BacklinkSpec.bl_inv (add_links (Z.of_nat 5) [] (replicate 10 ∅))
                (empty_sys 10 6)).
      rewrite add_links_nil. apply (fresh_column_inv 10). reflexivity.
    - by left. }
  destruct (insert_ok row_of_key false (λ t, Nat2Z.id t) _ _ _ 0 7 Hv0)
    as (s1 & H1 & Hv1 & _); [simpl; lia..|].
  vm_compute in H1. injection H1 as <-.
  destruct (insert_ok row_of_key false (λ t, Nat2Z.id t) _ _ _ 1 7 Hv1)
    as (s2 & H2 & Hv2 & _); [simpl; lia..|].
  vm_compute in H2. injection H2 as <-.
  destruct (insert_ok row_of_key false (λ t, Nat2Z.id t) _ _ _ 2 9 Hv2)
    as (s3 & H3 & Hv3 & _); [simpl; lia..|].
  vm_compute in H3. injection H3 as <-.
  exact Hv3.
Qed.



(** ** The registry: sorted vectors *)

Section Registry.
Import LinkListColumn RegistrySpec.

Implicit Types l : list list_entry.
Implicit Types e : list_entry.

Lemma sorted_nil : sorted [].
Proof. constructor. Qed.

Lemma sorted_app l1 l2 :
  sorted (l1 ++ l2) ↔
  (∀ a b, a ∈ l1 → b ∈ l2 → m_row_ndx a < m_row_ndx b) ∧ sorted l1 ∧ sorted l2.
Proof.
  unfold sorted, rows. rewrite fmap_app, StronglySorted_app. split.
  - intros (H & ? & ?). split; [|done]. intros a b Ha Hb.
    apply H; apply list_elem_of_fmap; eauto.
  - intros (H & ? & ?). split; [|done]. intros x y Hx Hy.
    apply list_elem_of_fmap in Hx as (a & -> & Ha).
    apply list_elem_of_fmap in Hy as (b & -> & Hb). eauto.
Qed.

Lemma sorted_cons e l :
  sorted (e :: l) ↔ Forall (λ b, m_row_ndx e < m_row_ndx b) l ∧ sorted l.
Proof.
  unfold sorted, rows. rewrite fmap_cons, StronglySorted_cons, Forall_fmap. done.
Qed.

Lemma sorted_singleton e : sorted [e].
Proof. apply sorted_cons. split; constructor. Qed.

Lemma sorted_take l n : sorted l → sorted (take n l).
Proof. intros H. rewrite <-(take_drop n l) in H. by apply sorted_app in H as (_ & ? & _). Qed.

Lemma sorted_drop l n : sorted l → sorted (drop n l).
Proof. intros H. rewrite <-(take_drop n l) in H. by apply sorted_app in H as (_ & _ & ?). Qed.

Lemma sorted_lookup_lt l i j a b :
  sorted l → l !! i = Some a → l !! j = Some b → i < j → m_row_ndx a < m_row_ndx b.
Proof.
  intros Hs Hi Hj Hij. rewrite <-(take_drop j l) in Hs.
  apply sorted_app in Hs as (H & _ & _). apply H.
  - apply list_elem_of_lookup. exists i. rewrite lookup_take_lt; done.
  - apply list_elem_of_lookup. exists 0. by rewrite lookup_drop, Nat.add_0_r.
Qed.

Lemma sorted_filter (P : list_entry → Prop) `{∀ e, Decision (P e)} l :
  sorted l → sorted (filter P l).
Proof.
  induction l as [|e l IH]; [done|]. rewrite sorted_cons. intros [Hall Hs].
  rewrite filter_cons. case_decide; [|by apply IH].
  apply sorted_cons. split; [|by apply IH].
  apply Forall_forall. intros b Hb. apply list_elem_of_filter in Hb as [_ Hb].
  rewrite Forall_forall in Hall. by apply Hall.
Qed.

(** [validate_list_accessors] checks exactly strict sortedness. *)
Lemma validate_sorted c : validate_list_accessors c = true ↔ sorted (m_list_accessors c).
Proof.
  unfold validate_list_accessors. generalize (m_list_accessors c). clear c.
  induction l as [|a [|b l] IH].
  - split; [intros _; constructor|done].
  - split; [intros _; apply sorted_singleton|done].
  - rewrite sorted_cons. change (is_sorted (a :: b :: l))
      with (negb (bool_decide (m_row_ndx b < m_row_ndx a)) && is_sorted (b :: l)).
    change (no_adjacent_equal (a :: b :: l))
      with (negb (bool_decide (m_row_ndx a = m_row_ndx b)) && no_adjacent_equal (b :: l)).
    rewrite !andb_true_iff, !negb_true_iff, !bool_decide_eq_false in *.
    split.
    + intros [[Hle Hs] [Hne Hn]].
      assert (sorted (b :: l)) as Hbl by (apply IH; done).
      split; [|done]. apply Forall_cons_2; [lia|].
      apply sorted_cons in Hbl as [Hall _].
      eapply Forall_impl; [exact Hall|]. simpl. intros. lia.
    + intros [Hall Hbl]. apply IH in Hbl as [? ?].
      apply Forall_cons_1 in Hall as [? _]. split; (split; [lia|done]).
Qed.

(** [std::lower_bound]. *)
Lemma lower_bound_le key l : lower_bound key l ≤ length l.
Proof. induction l as [|e l IH]; simpl; [lia|]. case_decide; simpl; lia. Qed.

Lemma lower_bound_take key l :
  Forall (λ e, m_row_ndx e < key) (take (lower_bound key l) l).
Proof.
  induction l as [|e l IH]; simpl; [constructor|].
  case_decide; simpl; [by constructor|constructor].
Qed.

Lemma lower_bound_head key l e :
  l !! lower_bound key l = Some e → key ≤ m_row_ndx e.
Proof.
  induction l as [|a l IH]; simpl; [done|].
  case_decide; simpl; [done|]. intros [= ->]. lia.
Qed.

Lemma lower_bound_drop key l :
  sorted l → Forall (λ e, key ≤ m_row_ndx e) (drop (lower_bound key l) l).
Proof.
  intros Hs. destruct (drop (lower_bound key l) l) as [|e l'] eqn:E; [constructor|].
  assert (l !! lower_bound key l = Some e) as He.
  { rewrite <-(Nat.add_0_r (lower_bound key l)), <-lookup_drop, E. done. }
  pose proof (lower_bound_head _ _ _ He).
  apply Forall_cons_2; [done|].
  pose proof (sorted_drop _ (lower_bound key l) Hs) as Hd. rewrite E in Hd.
  apply sorted_cons in Hd as [Hall _].
  eapply Forall_impl; [exact Hall|]. simpl. intros. lia.
Qed.

Lemma lower_bound_app key l1 l2 :
  Forall (λ e, m_row_ndx e < key) l1 →
  lower_bound key (l1 ++ l2) = length l1 + lower_bound key l2.
Proof.
  induction l1 as [|e l1 IH]; [done|]. intros [He Hall]%Forall_cons_1. simpl.
  rewrite decide_True by done. by rewrite IH.
Qed.

Lemma lower_bound_ge_head key l :
  (∀ e, head l = Some e → key ≤ m_row_ndx e) → lower_bound key l = 0.
Proof.
  destruct l as [|e l]; [done|]. simpl. intros H. specialize (H e eq_refl).
  rewrite decide_False by lia. done.
Qed.

(** In a sorted vector the lower bound of the row of an entry is the index
    of that entry. *)
Lemma lower_bound_found l i e :
  sorted l → l !! i = Some e → lower_bound (m_row_ndx e) l = i.
Proof.
  intros Hs Hi. rewrite <-(take_drop_middle l i e Hi) in Hs |- *.
  apply sorted_app in Hs as (Hlt & _ & _).
  rewrite lower_bound_app.
  - rewrite lower_bound_ge_head; [|by intros ? [= ->]].
    rewrite length_take. apply lookup_lt_Some in Hi. lia.
  - apply Forall_forall. intros a Ha. apply Hlt; [done|]. by left.
Qed.

End Registry.

(** ** The registry: weak pointers and views *)

Section Pointers.
Import LinkListColumn RegistrySpec RegistryAux.

Implicit Types l : list list_entry.
Implicit Types e : list_entry.
Implicit Types vs : gmap nat LinkViewObject.
Implicit Types ps : list (option nat).

Lemma sublist_omap {A B} (f : A → option B) (l1 l2 : list A) :
  l1 `sublist_of` l2 → omap f l1 `sublist_of` omap f l2.
Proof.
  induction 1 as [|x l1 l2 _ IH|x l1 l2 _ IH]; simpl.
  - constructor.
  - destruct (f x); [by constructor|done].
  - destruct (f x); [by constructor|done].
Qed.

Lemma pointers_ok_sublist flag vs next ps ps' :
  ps' `sublist_of` ps → pointers_ok flag vs next ps → pointers_ok flag vs next ps'.
Proof.
  intros Hsub [H1 H2 H3 H4]. split.
  - intros Hf. specialize (H1 Hf). rewrite Forall_forall in H1 |- *.
    intros o Ho. apply H1. by eapply elem_of_sublist.
  - intros h v Hh. apply H2. by eapply elem_of_sublist.
  - intros h Hh. apply H3. by eapply elem_of_sublist.
  - eapply sublist_NoDup; [exact H4|]. by apply sublist_omap.
Qed.

Lemma pointers_ok_perm flag vs next ps ps' :
  ps ≡ₚ ps' → pointers_ok flag vs next ps → pointers_ok flag vs next ps'.
Proof.
  intros Hp [H1 H2 H3 H4]. split.
  - intros Hf. rewrite <-Hp. by apply H1.
  - intros h v Hh. apply H2. by rewrite Hp.
  - intros h Hh. apply H3. by rewrite Hp.
  - by rewrite <-Hp.
Qed.

Lemma pointers_ok_flag vs next ps flag :
  pointers_ok flag vs next ps → pointers_ok true vs next ps.
Proof. intros [H1 H2 H3 H4]. by split. Qed.

Lemma pointers_ok_all_live flag vs next ps :
  pointers_ok flag vs next ps → all_live vs ps → pointers_ok false vs next ps.
Proof. intros [H1 H2 H3 H4] Hl. by split. Qed.

Lemma pointers_ok_same_views flag vs vs' next ps :
  same_views vs vs' → pointers_ok flag vs next ps → pointers_ok flag vs' next ps.
Proof.
  intros Hs [H1 H2 H3 H4]. split; try done.
  - intros Hf. specialize (H1 Hf). eapply Forall_impl; [exact H1|]. simpl.
    intros o (h & -> & [v Hv]). exists h. split; [done|].
    specialize (Hs h). rewrite Hv in Hs. destruct (vs' !! h); [by eexists|done].
  - intros h v' Hh Hv'. specialize (Hs h). rewrite Hv' in Hs.
    destruct (vs !! h) as [v|] eqn:Hv; [|done]. destruct Hs as [-> _]. by eapply H2.
Qed.

Lemma all_live_same_views vs vs' ps :
  same_views vs vs' → all_live vs ps → all_live vs' ps.
Proof.
  intros Hs H. eapply Forall_impl; [exact H|]. simpl.
  intros o (h & -> & [v Hv]). exists h. split; [done|].
  specialize (Hs h). rewrite Hv in Hs. destruct (vs' !! h); [by eexists|done].
Qed.

Lemma same_views_refl vs : same_views vs vs.
Proof. intros h. by destruct (vs !! h). Qed.

Lemma same_views_trans vs1 vs2 vs3 :
  same_views vs1 vs2 → same_views vs2 vs3 → same_views vs1 vs3.
Proof.
  intros H1 H2 h. specialize (H1 h). specialize (H2 h).
  destruct (vs1 !! h), (vs2 !! h), (vs3 !! h); try done.
  destruct H1 as [E1 E2], H2 as [E3 E4]. split; congruence.
Qed.

Lemma same_views_set_origin h row vs : same_views vs (set_origin_row_index h row vs).
Proof.
  intros h'. unfold set_origin_row_index. rewrite lookup_alter.
  case_decide as E; [subst h'|by destruct (vs !! h')].
  by destruct (vs !! h).
Qed.

Lemma lock_Some vs e h : lock vs e = Some h ↔ m_list e = Some h ∧ is_Some (vs !! h).
Proof.
  unfold lock. destruct (m_list e) as [h'|]; [|naive_solver].
  case_decide; naive_solver.
Qed.

Lemma lock_None_expired vs e : expired vs e = true ↔ lock vs e = None.
Proof. unfold expired. apply bool_decide_eq_true. Qed.

Lemma expired_false vs e :
  expired vs e = false ↔ ∃ h, m_list e = Some h ∧ is_Some (vs !! h).
Proof.
  unfold expired. rewrite bool_decide_eq_false. split.
  - destruct (lock vs e) as [h|] eqn:E; [|done]. intros _. exists h. by apply lock_Some.
  - intros (h & H). apply lock_Some in H. congruence.
Qed.

(** The loops over the entries that change rows. *)
Lemma map_entries_spec f fix_ l : ∀ vs r vs',
  map_entries f fix_ l vs = (r, vs') →
  r = set_row f <$> l ∧ same_views vs vs'.
Proof.
  induction l as [|e l IH]; intros vs r vs' H; simpl in H.
  - simplify_eq. split; [done|apply same_views_refl].
  - destruct (map_entries f fix_ l _) as [r1 vs1] eqn:E. simplify_eq.
    apply IH in E as [-> Hs]. split; [done|].
    eapply same_views_trans; [|exact Hs].
    destruct fix_; [|apply same_views_refl].
    destruct (lock vs (set_row f e)); [apply same_views_set_origin|apply same_views_refl].
Qed.

Lemma bump_entries_map fix_ k l vs :
  bump_entries fix_ k l vs = map_entries (λ x, x + k) fix_ l vs.
Proof.
  revert vs. induction l as [|e l IH]; intros vs; [done|]. simpl. by rewrite IH.
Qed.

Lemma lower_entries_map fix_ k l vs :
  lower_entries fix_ k l vs = map_entries (λ x, x - k) fix_ l vs.
Proof.
  revert vs. induction l as [|e l IH]; intros vs; [done|]. simpl. by rewrite IH.
Qed.

Lemma ptrs_set_row f l : ptrs (set_row f <$> l) = ptrs l.
Proof. unfold ptrs. rewrite <-list_fmap_compose. done. Qed.

Lemma rows_set_row f l : rows (set_row f <$> l) = f <$> rows l.
Proof. unfold rows. rewrite <-!list_fmap_compose. done. Qed.

Lemma ptrs_app l1 l2 : ptrs (l1 ++ l2) = ptrs l1 ++ ptrs l2.
Proof. apply fmap_app. Qed.

Lemma sorted_set_row f l :
  (∀ a b, a ∈ l → b ∈ l → m_row_ndx a < m_row_ndx b → f (m_row_ndx a) < f (m_row_ndx b)) →
  sorted l → sorted (set_row f <$> l).
Proof.
  induction l as [|e l IH]; intros Hf Hs; [constructor|].
  apply sorted_cons in Hs as [Hall Hs]. rewrite fmap_cons. apply sorted_cons. split.
  - rewrite Forall_fmap. rewrite Forall_forall in Hall |- *. intros b Hb. simpl.
    apply Hf; [by left|by right|by apply Hall].
  - apply IH; [|done]. intros a b Ha Hb. apply Hf; by right.
Qed.

Lemma pointers_ok_detached flag vs vs' next ps D :
  detached_in D vs vs' → (∀ h, Some h ∈ ps → h ∉ D) →
  pointers_ok flag vs next ps → pointers_ok flag vs' next ps.
Proof.
  intros [Hdom Hsame] Hd [H1 H2 H3 H4]. split; try done.
  - intros Hf. specialize (H1 Hf). rewrite Forall_forall in H1 |- *.
    intros o Ho. destruct (H1 o Ho) as (h & -> & Hv). exists h. split; [done|].
    by apply Hdom.
  - intros h v Hh Hv. rewrite Hsame in Hv by by apply Hd. by eapply H2.
Qed.

Lemma pointers_ok_new flag vs next ps v :
  m_origin_table v = true → pointers_ok flag vs next ps →
  pointers_ok flag (<[next := v]> vs) (S next) (Some next :: ps).
Proof.
  intros Hv [H1 H2 H3 H4]. split.
  - intros Hf. specialize (H1 Hf). apply Forall_cons_2.
    + exists next. by rewrite lookup_insert_eq.
    + eapply Forall_impl; [exact H1|]. simpl. intros o (h & -> & Hh).
      exists h. split; [done|]. destruct (decide (h = next)) as [->|Hne].
      * by rewrite lookup_insert_eq.
      * by rewrite lookup_insert_ne.
  - intros h v' Hh Hv'. destruct (decide (h = next)) as [->|Hne].
    + rewrite lookup_insert_eq in Hv'. by simplify_eq.
    + rewrite lookup_insert_ne in Hv' by done.
      apply elem_of_cons in Hh as [?|Hh]; [by simplify_eq|]. by eapply H2.
  - intros h Hh. apply elem_of_cons in Hh as [?|Hh]; [simplify_eq; lia|].
    specialize (H3 h Hh). lia.
  - simpl. apply NoDup_cons. split; [|done].
    intros Hin. apply list_elem_of_omap in Hin as (o & Ho & Hid). simpl in Hid. subst o.
    specialize (H3 next Ho). lia.
Qed.

Lemma detach_view_dom h h' vs : is_Some (detach_view h vs !! h') ↔ is_Some (vs !! h').
Proof.
  unfold detach_view. rewrite lookup_alter. case_decide as E; [subst h'|done].
  by rewrite fmap_is_Some.
Qed.

Lemma detach_view_ne h h' vs : h ≠ h' → detach_view h vs !! h' = vs !! h'.
Proof. intros. unfold detach_view. by rewrite lookup_alter_ne. Qed.

Lemma detach_entries_spec l : ∀ vs,
  detached_in (omap m_list l) vs (detach_entries l vs).
Proof.
  unfold detach_entries. induction l as [|e l IH]; intros vs; simpl.
  - split; done.
  - set (vs1 := match lock vs e with Some h => detach_view h vs | None => vs end).
    destruct (IH vs1) as [Hdom Hsame].
    assert (detached_in (omap m_list [e]) vs vs1) as [Hdom1 Hsame1].
    { unfold vs1. destruct (lock vs e) as [h|] eqn:E.
      - apply lock_Some in E as [E _]. simpl. rewrite E. split.
        + intros h'. apply detach_view_dom.
        + intros h' Hh'. apply detach_view_ne. intros ->. apply Hh'. by left.
      - split; done. }
    split.
    + intros h. by rewrite Hdom, Hdom1.
    + intros h Hh. simpl in Hh, Hsame1.
      destruct (m_list e) as [h0|].
      * apply not_elem_of_cons in Hh as [Hne Hh].
        rewrite Hsame by done. apply Hsame1.
        intros Hin. by apply list_elem_of_singleton in Hin.
      * rewrite Hsame by done. apply Hsame1. apply not_elem_of_nil.
Qed.

(** ** The invariant of the registry, operation by operation *)

Lemma inv_empty : inv empty_accessors.
Proof.
  split; simpl; [constructor|]. split; simpl.
  - constructor.
  - intros h v Hh. by apply elem_of_nil in Hh.
  - intros h Hh. by apply elem_of_nil in Hh.
  - constructor.
Qed.

Lemma pointers_ok_nil flag vs next : pointers_ok flag vs next [].
Proof.
  split; simpl.
  - constructor.
  - intros h v Hh. by apply elem_of_nil in Hh.
  - intros h Hh. by apply elem_of_nil in Hh.
  - constructor.
Qed.

Lemma discard_child_accessors_inv c : inv (discard_child_accessors c).
Proof. split; simpl; [constructor|apply pointers_ok_nil]. Qed.

Lemma destroy_view_inv h c : inv c → inv (destroy_view h c).
Proof.
  intros Hinv. pose proof Hinv as [Hs [H1 H2 H3 H4]]. unfold destroy_view.
  destruct (views c !! h) as [v|] eqn:Hv; [|done].
  split; [destruct (m_origin_table v); exact Hs|].
  assert (∀ h' v', Some h' ∈ ptrs (m_list_accessors c) →
            delete h (views c) !! h' = Some v' → m_origin_table v' = true) as Hatt.
  { intros h' v' Hh' Hv'. apply lookup_delete_Some in Hv' as [_ Hv']. by eapply H2. }
  destruct (m_origin_table v) eqn:Ho; simpl; split; try done.
  intros Hf. specialize (H1 Hf). rewrite Forall_forall in H1 |- *.
  intros o Ho'. destruct (H1 o Ho') as (h' & -> & Hh'). exists h'. split; [done|].
  rewrite lookup_delete_ne; [done|]. intros ->.
  specialize (H2 h' v Ho' Hv). congruence.
Qed.

Lemma ptrs_sublist l1 l2 : l1 `sublist_of` l2 → ptrs l1 `sublist_of` ptrs l2.
Proof. apply fmap_sublist. Qed.

Lemma all_live_ptrs vs l :
  all_live vs (ptrs l) ↔ Forall (λ e, expired vs e = false) l.
Proof.
  unfold all_live, ptrs. rewrite Forall_fmap. apply Forall_proper; [|done].
  intros e. simpl. rewrite expired_false. naive_solver.
Qed.

(** After [prune_list_accessor_tombstones] the flag is down and every entry
    is live; the live entries are kept. *)
Lemma prune_spec c :
  inv c →
  let c' := prune_list_accessor_tombstones c in
  inv c' ∧ m_list_accessors_contains_tombstones c' = false ∧
  views c' = views c ∧ next_view c' = next_view c ∧
  m_list_accessors c' = filter (λ e, expired (views c) e = false) (m_list_accessors c).
Proof.
  intros [Hs Hp]. unfold prune_list_accessor_tombstones.
  destruct (m_list_accessors_contains_tombstones c) eqn:Hf; simpl.
  - split_and!; try done. split; simpl.
    + by apply sorted_filter.
    + apply pointers_ok_all_live with true.
      * eapply pointers_ok_sublist; [|exact Hp]. apply ptrs_sublist, sublist_filter.
      * apply all_live_ptrs. apply Forall_forall. intros e He.
        by apply list_elem_of_filter in He as [? _].
  - assert (all_live (views c) (ptrs (m_list_accessors c))) as Hl by by apply Hp.
    assert (filter (λ e, expired (views c) e = false) (m_list_accessors c)
            = m_list_accessors c) as Hfl.
    { apply all_live_ptrs in Hl. clear -Hl. induction Hl as [|e l He _ IH]; [done|].
      rewrite filter_cons_True by done. by rewrite IH. }
    by split_and!.
Qed.

End Pointers.

Section RegistryOps.
Import LinkListColumn RegistrySpec RegistryAux.

Implicit Types l : list list_entry.
Implicit Types e : list_entry.
Implicit Types c : Accessors.

Lemma lower_bound_add key key' l :
  key ≤ key' →
  lower_bound key' l = lower_bound key l + lower_bound key' (drop (lower_bound key l) l).
Proof.
  intros Hle. induction l as [|e l IH]; [done|]. simpl.
  destruct (decide (m_row_ndx e < key)) as [Hlt|Hge].
  - rewrite decide_True by lia. simpl. by rewrite IH.
  - simpl. done.
Qed.

Lemma lower_bound_drop_strict key l :
  sorted l →
  (∀ e, l !! lower_bound key l = Some e → m_row_ndx e ≠ key) →
  Forall (λ e, key < m_row_ndx e) (drop (lower_bound key l) l).
Proof.
  intros Hs Hne. pose proof (lower_bound_drop key l Hs) as Hge.
  apply Forall_lookup. intros j e Hj. rewrite lookup_drop in Hj.
  destruct j as [|j].
  - rewrite Nat.add_0_r in Hj. specialize (Hne e Hj).
    apply lower_bound_head in Hj. lia.
  - destruct (l !! lower_bound key l) as [e0|] eqn:E0.
    + pose proof (sorted_lookup_lt l _ _ e0 e Hs E0 Hj ltac:(lia)).
      apply lower_bound_head in E0. lia.
    + apply lookup_ge_None in E0. apply lookup_lt_Some in Hj. lia.
Qed.

Lemma elem_of_take_lt key l a :
  a ∈ take (lower_bound key l) l → m_row_ndx a < key.
Proof.
  intros Ha. pose proof (lower_bound_take key l) as H.
  rewrite Forall_forall in H. by apply H.
Qed.

Lemma adj_insert_rows_inv fix_ row k c : inv c → inv (adj_insert_rows fix_ row k c).
Proof.
  intros Hinv. unfold adj_insert_rows.
  destruct (prune_spec c Hinv) as ([Hs Hp] & Hf & Hv & Hn & _).
  set (c' := prune_list_accessor_tombstones c) in *.
  set (l := m_list_accessors c') in *.
  destruct (bump_entries _ _ _ _) as [r vs] eqn:E.
  rewrite bump_entries_map in E. apply map_entries_spec in E as [-> Hsv].
  split; simpl.
  - apply sorted_app. split_and!.
    + intros a b Ha Hb. apply elem_of_take_lt in Ha.
      apply list_elem_of_fmap in Hb as (b' & -> & Hb'). simpl.
      pose proof (lower_bound_drop row l Hs) as Hge. rewrite Forall_forall in Hge.
      specialize (Hge b' Hb'). lia.
    + by apply sorted_take.
    + apply sorted_set_row; [intros; lia|by apply sorted_drop].
  - rewrite ptrs_app, ptrs_set_row, <-ptrs_app, take_drop.
    eapply pointers_ok_same_views; [exact Hsv|]. exact Hp.
Qed.

Lemma sublist_take_drop {A} (l : list A) i j :
  i ≤ j → take i l ++ drop j l `sublist_of` l.
Proof.
  intros Hij. rewrite <-(take_drop i l) at 3. apply sublist_app; [done|].
  replace j with (i + (j - i)) by lia. rewrite <-drop_drop. apply sublist_drop.
Qed.

Lemma take_segment_drop {A} (l : list A) i j :
  i ≤ j → l = take i l ++ drop i (take j l) ++ drop j l.
Proof.
  intros Hij. rewrite <-(take_drop j l) at 1.
  rewrite <-(take_drop i (take j l)) at 1.
  rewrite take_take, Nat.min_l by done. by rewrite <-app_assoc.
Qed.

Lemma adj_erase_rows_inv fix_ row k c : inv c → inv (adj_erase_rows fix_ row k c).
Proof.
  intros Hinv. unfold adj_erase_rows.
  destruct (prune_spec c Hinv) as ([Hs Hp] & Hf & Hv & Hn & _).
  set (c' := prune_list_accessor_tombstones c) in *.
  set (l := m_list_accessors c') in *.
  rewrite <-(lower_bound_add row (row + k) l) by lia.
  set (b := lower_bound row l). set (en := lower_bound (row + k) l).
  assert (b ≤ en) as Hbe.
  { unfold en. rewrite (lower_bound_add row (row + k) l) by lia. fold b. lia. }
  destruct (lower_entries _ _ _ _) as [r vs] eqn:E.
  rewrite lower_entries_map in E. apply map_entries_spec in E as [-> Hsv].
  pose proof (lower_bound_drop (row + k) l Hs) as Hge. fold en in Hge.
  rewrite Forall_forall in Hge.
  split; simpl.
  - apply sorted_app. split_and!.
    + intros x y Hx Hy. apply elem_of_take_lt in Hx.
      apply list_elem_of_fmap in Hy as (y' & -> & Hy'). simpl.
      specialize (Hge y' Hy'). lia.
    + by apply sorted_take.
    + apply sorted_set_row; [|by apply sorted_drop].
      intros x y Hx Hy Hlt. specialize (Hge x Hx). lia.
  - rewrite ptrs_app, ptrs_set_row, <-ptrs_app.
    eapply pointers_ok_same_views; [exact Hsv|].
    eapply pointers_ok_detached; [apply detach_entries_spec| |].
    + intros h Hh Hin.
      destruct Hp as [_ _ _ Hnd]. unfold ptrs in Hnd.
      rewrite (take_segment_drop l b en Hbe) in Hnd.
      rewrite !fmap_app, !omap_app in Hnd.
      apply list_elem_of_omap in Hin as (x & Hx & Hxh).
      assert (h ∈ omap id (m_list <$> drop b (take en l))) as Hmid.
      { apply list_elem_of_omap. exists (Some h). split; [|done].
        apply list_elem_of_fmap. by exists x. }
      unfold ptrs in Hh. rewrite fmap_app in Hh. apply elem_of_app in Hh as [Hh|Hh].
      * apply NoDup_app in Hnd as (_ & Hdis & _). eapply (Hdis h).
        -- apply list_elem_of_omap. by exists (Some h).
        -- apply elem_of_app. by left.
      * apply NoDup_app in Hnd as (_ & _ & Hnd).
        apply NoDup_app in Hnd as (_ & Hdis & _). eapply (Hdis h); [done|].
        apply list_elem_of_omap. by exists (Some h).
    + eapply pointers_ok_sublist; [|exact Hp].
      apply ptrs_sublist. by apply sublist_take_drop.
Qed.

End RegistryOps.

Section RegistryLookup.
Import LinkListColumn RegistrySpec RegistryAux.

Implicit Types l A B : list list_entry.
Implicit Types e : list_entry.
Implicit Types c : Accessors.

Lemma sorted_middle A e B :
  sorted A → sorted B →
  Forall (λ a, m_row_ndx a < m_row_ndx e) A →
  Forall (λ b, m_row_ndx e < m_row_ndx b) B →
  sorted (A ++ e :: B).
Proof.
  intros HA HB HlA HlB. rewrite Forall_forall in HlA, HlB.
  apply sorted_app. split_and!; [|done|].
  - intros a b Ha Hb. apply elem_of_cons in Hb as [->|Hb]; [by apply HlA|].
    specialize (HlA a Ha). specialize (HlB b Hb). lia.
  - apply sorted_cons. split; [by apply Forall_forall|done].
Qed.

Lemma sorted_middle_inv A e B :
  sorted (A ++ e :: B) →
  sorted A ∧ sorted B ∧
  Forall (λ a, m_row_ndx a < m_row_ndx e) A ∧
  Forall (λ b, m_row_ndx e < m_row_ndx b) B.
Proof.
  intros H. apply sorted_app in H as (Hlt & HA & HB).
  apply sorted_cons in HB as [HlB HB]. split_and!; try done.
  apply Forall_forall. intros a Ha. apply Hlt; [done|by left].
Qed.

Lemma insert_middle {T} (k1 k2 : list T) (x y : T) :
  <[length k1 := y]> (k1 ++ x :: k2) = k1 ++ y :: k2.
Proof.
  rewrite insert_app_r_alt by lia. by rewrite Nat.sub_diag.
Qed.

Lemma ptrs_middle A e B : ptrs (A ++ e :: B) ≡ₚ m_list e :: ptrs (A ++ B).
Proof.
  unfold ptrs. rewrite !fmap_app, fmap_cons. by rewrite Permutation_middle.
Qed.

(** [create_view] on the entry between [A] and [B]. *)
Lemma create_view_spec cells row c A e B :
  m_list_accessors c = A ++ e :: B →
  sorted A → sorted B →
  Forall (λ a, m_row_ndx a < row) A →
  Forall (λ b, row < m_row_ndx b) B →
  pointers_ok (m_list_accessors_contains_tombstones c) (views c) (next_view c)
    (ptrs (A ++ B)) →
  let '(h, c1) := create_view cells row (length A) c in
  inv c1 ∧ h = next_view c ∧
  m_list_accessors c1 = A ++ {| m_row_ndx := row; m_list := Some h |} :: B ∧
  is_Some (views c1 !! h).
Proof.
  intros Hl HA HB HlA HlB Hp. unfold create_view. rewrite Hl, insert_middle.
  split_and!; simpl; try done.
  - split; simpl.
    + by apply sorted_middle.
    + eapply pointers_ok_perm; [symmetry; apply ptrs_middle|]. simpl.
      by apply pointers_ok_new.
  - by rewrite lookup_insert_eq.
Qed.

Lemma get_ptr_spec cells row c v c1 :
  inv c → get_ptr cells row c = Ok (v, c1) →
  inv c1 ∧ {| m_row_ndx := row; m_list := Some v |} ∈ m_list_accessors c1 ∧
  is_Some (views c1 !! v) ∧
  (∀ e, e ∈ m_list_accessors c → lock (views c) e = Some v → c1 = c).
Proof.
  intros Hinv. pose proof Hinv as [Hs Hp]. unfold get_ptr.
  case_decide as Hrow; [|done].
  set (l := m_list_accessors c) in *. set (it := lower_bound row l).
  assert (∀ e, l !! it = Some e → expired (views c) e = false →
            lock (views c) e = None ∨ m_row_ndx e ≠ row →
            m_row_ndx e ≠ row) as Hne.
  { intros e _ Hex [Hlock|?]; [|done].
    apply lock_None_expired in Hlock. congruence. }
  assert (∀ h e, e ∈ l → lock (views c) e = Some h → h < next_view c) as Hbound.
  { intros h e He Hlock. apply lock_Some in Hlock as [Hm _].
    destruct Hp as [_ _ Hb _]. apply Hb. unfold ptrs. rewrite <-Hm.
    by apply list_elem_of_fmap_2. }
  assert (∀ c' A e B, m_list_accessors c' = A ++ e :: B →
            views c' = views c → next_view c' = next_view c →
            m_list_accessors_contains_tombstones c' = m_list_accessors_contains_tombstones c →
            A ++ B `sublist_of` l → sorted A → sorted B →
            Forall (λ a, m_row_ndx a < row) A → Forall (λ b, row < m_row_ndx b) B →
            Ok (create_view cells row (length A) c') = Ok (v, c1) →
            inv c1 ∧ {| m_row_ndx := row; m_list := Some v |} ∈ m_list_accessors c1 ∧
            is_Some (views c1 !! v) ∧
            (∀ e, e ∈ l → lock (views c) e = Some v → c1 = c)) as Hreuse.
  { intros c' A e B Hl Hv' Hn' Hf' Hsub HA HB HlA HlB Hcv.
    assert (pointers_ok (m_list_accessors_contains_tombstones c') (views c') (next_view c')
              (ptrs (A ++ B))) as Hp'.
    { rewrite Hv', Hn', Hf'. eapply pointers_ok_sublist; [|exact Hp]. by apply ptrs_sublist. }
    pose proof (create_view_spec cells row c' A e B Hl HA HB HlA HlB Hp') as Hcs.
    destruct (create_view cells row (length A) c') as [h c2]. simplify_eq.
    destruct Hcs as (Hi & -> & Hl1 & Hv). split_and!; try done.
    - rewrite Hl1. apply elem_of_app. right. by left.
    - intros e' He' Hlock. specialize (Hbound _ _ He' Hlock). lia. }
  assert (∀ A e B, l = A ++ e :: B → A ++ B `sublist_of` l) as Hsubl.
  { intros A e B ->. apply sublist_app; [done|]. by apply sublist_cons. }
  assert (Forall (λ a, m_row_ndx a < row) (take it l)) as HltA.
  { apply Forall_forall. intros a Ha. by apply elem_of_take_lt in Ha. }
  assert ((∀ e, l !! it = Some e → m_row_ndx e ≠ row) →
          Ok (create_view cells row it
                (set_accessors (vector_insert it {| m_row_ndx := row; m_list := None |} l) c))
            = Ok (v, c1) →
          inv c1 ∧ {| m_row_ndx := row; m_list := Some v |} ∈ m_list_accessors c1 ∧
          is_Some (views c1 !! v) ∧
          (∀ e, e ∈ l → lock (views c) e = Some v → c1 = c)) as Hinsert.
  { intros Hne' Hcv.
    assert (length (take it l) = it) as Hlen.
    { rewrite length_take. pose proof (lower_bound_le row l). fold it in H. lia. }
    rewrite <-Hlen in Hcv at 1.
    eapply Hreuse in Hcv; [exact Hcv|reflexivity..| | | | |].
    - by rewrite take_drop.
    - by apply sorted_take.
    - by apply sorted_drop.
    - done.
    - by apply lower_bound_drop_strict. }
  destruct (l !! it) as [e|] eqn:Hit.
  - (* an entry at the insertion point *)
    pose proof (take_drop_middle l it e Hit) as Hl. symmetry in Hl.
    assert (length (take it l) = it) as Hlen.
    { rewrite length_take. apply lookup_lt_Some in Hit. lia. }
    pose proof Hs as Hs'.
    rewrite Hl in Hs'. apply sorted_middle_inv in Hs' as (HA & HB & HlA & HlB).
    pose proof (lower_bound_head row l e Hit) as Hge.
    assert (expired (views c) e = true →
            Ok (create_view cells row it c) = Ok (v, c1) →
            inv c1 ∧ {| m_row_ndx := row; m_list := Some v |} ∈ m_list_accessors c1 ∧
            is_Some (views c1 !! v) ∧
            (∀ e, e ∈ l → lock (views c) e = Some v → c1 = c)) as Hhere.
    { intros _ Hcv. rewrite <-Hlen in Hcv.
      eapply Hreuse; [exact Hl|done..|by eapply Hsubl|done|done|done| |exact Hcv].
      eapply Forall_impl; [exact HlB|]. simpl. intros; lia. }
    assert (expired (views c) e = false → m_row_ndx e ≠ row →
            (if decide (it ≠ 0)
             then match l !! (it - 1) with
                  | Some previous =>
                    if expired (views c) previous
                    then Some (create_view cells row (it - 1) c) else None
                  | None => None
                  end
             else None) = Some (v, c1) →
            inv c1 ∧ {| m_row_ndx := row; m_list := Some v |} ∈ m_list_accessors c1 ∧
            is_Some (views c1 !! v) ∧
            (∀ e, e ∈ l → lock (views c) e = Some v → c1 = c)) as Hprevious.
    { intros Hex Hner. case_decide as Hit0; [|done].
      destruct (l !! (it - 1)) as [p|] eqn:Hprev; [|done].
      destruct (expired (views c) p) eqn:Hexp; [|done]. intros Hcv0.
      assert (Ok (create_view cells row (it - 1) c) = Ok (v, c1)) as Hcv by congruence.
      clear Hcv0.
      pose proof (take_drop_middle l (it - 1) p Hprev) as Hl'. symmetry in Hl'.
      replace (S (it - 1)) with it in Hl' by lia.
      assert (length (take (it - 1) l) = it - 1) as Hlen'.
      { rewrite length_take. apply lookup_lt_Some in Hprev. lia. }
      rewrite <-Hlen' in Hcv.
      eapply (Hreuse c); [exact Hl'|done..|by eapply Hsubl|by apply sorted_take
                         |by apply sorted_drop| | |exact Hcv].
      - apply Forall_forall. intros a Ha. apply (elem_of_take_lt row l).
        fold it. eapply elem_of_sublist; [|apply (sublist_take _ (it - 1))].
        rewrite take_take, Nat.min_l by lia. exact Ha.
      - apply lower_bound_drop_strict; [done|]. fold it. intros e' He'. by simplify_eq. }
    destruct (decide (m_row_ndx e = row)) as [Heq|Hneq].
    + destruct (lock (views c) e) as [h|] eqn:Hlock.
      * intros [= -> ->]. apply lock_Some in Hlock as [Hm Hv].
        split_and!; try done.
        assert (e = {| m_row_ndx := row; m_list := Some v |}) as <-.
        { destruct e; simpl in *. by subst. }
        by eapply list_elem_of_lookup_2.
      * assert (expired (views c) e = true) as Hex by by apply lock_None_expired.
        rewrite Hex. by apply Hhere.
    + destruct (expired (views c) e) eqn:Hex; [by apply Hhere|].
      destruct (if decide (it ≠ 0) then _ else _) as [[h c2]|] eqn:Hpr.
      * intros [= -> ->]. by apply Hprevious.
      * apply Hinsert. intros e' He'. by simplify_eq.
  - (* the insertion point is the end *)
    assert ((if decide (it ≠ 0)
             then match l !! (it - 1) with
                  | Some previous =>
                    if expired (views c) previous
                    then Some (create_view cells row (it - 1) c) else None
                  | None => None
                  end
             else None) = Some (v, c1) →
            inv c1 ∧ {| m_row_ndx := row; m_list := Some v |} ∈ m_list_accessors c1 ∧
            is_Some (views c1 !! v) ∧
            (∀ e, e ∈ l → lock (views c) e = Some v → c1 = c)) as Hprevious.
    { case_decide as Hit0; [|done].
      destruct (l !! (it - 1)) as [p|] eqn:Hprev; [|done].
      destruct (expired (views c) p) eqn:Hexp; [|done]. intros Hcv0.
      assert (Ok (create_view cells row (it - 1) c) = Ok (v, c1)) as Hcv by congruence.
      clear Hcv0.
      pose proof (take_drop_middle l (it - 1) p Hprev) as Hl'. symmetry in Hl'.
      replace (S (it - 1)) with it in Hl' by lia.
      assert (length (take (it - 1) l) = it - 1) as Hlen'.
      { rewrite length_take. apply lookup_lt_Some in Hprev. lia. }
      rewrite <-Hlen' in Hcv.
      eapply (Hreuse c); [exact Hl'|done..|by eapply Hsubl|by apply sorted_take
                         |by apply sorted_drop| | |exact Hcv].
      - apply Forall_forall. intros a Ha. apply (elem_of_take_lt row l).
        fold it. eapply elem_of_sublist; [|apply (sublist_take _ (it - 1))].
        rewrite take_take, Nat.min_l by lia. exact Ha.
      - apply lower_bound_drop_strict; [done|]. fold it. intros e' He'. by simplify_eq. }
    destruct (if decide (it ≠ 0) then _ else _) as [[h c2]|] eqn:Hpr.
    + intros [= -> ->]. by apply Hprevious.
    + apply Hinsert. intros e' He'. by simplify_eq.
Qed.

End RegistryLookup.

Section Rotation.
Import LinkListColumn RegistrySpec RegistryAux.

Implicit Types l A B C : list list_entry.
Implicit Types e f : list_entry.

Lemma rotate_right {T} (k1 k2 k3 : list T) (x : T) :
  rotate (length k1) (length k1 + 1) (length k1 + 1 + length k2) (k1 ++ x :: k2 ++ k3)
  = k1 ++ k2 ++ x :: k3.
Proof.
  unfold rotate. rewrite take_app_length.
  rewrite <-(Nat.add_assoc (length k1) 1 (length k2)).
  rewrite !take_app_add, !drop_app_add. simpl.
  rewrite take_app_length, drop_app_length, take_0. simpl.
  by rewrite drop_app_length.
Qed.

Lemma rotate_left {T} (k1 k2 k3 : list T) (x : T) :
  rotate (length k1) (length k1 + length k2) (length k1 + length k2 + 1)
    (k1 ++ k2 ++ x :: k3)
  = k1 ++ x :: k2 ++ k3.
Proof.
  unfold rotate. rewrite take_app_length.
  rewrite <-(Nat.add_assoc (length k1) (length k2) 1).
  rewrite !take_app_add, !drop_app_add.
  rewrite !drop_app_length, take_app_length. simpl. by rewrite ?take_0, ?drop_0.
Qed.

Lemma split_right l from to f :
  l !! from = Some f → from < to → to ≤ length l →
  l = take from l ++ f :: drop (S from) (take to l) ++ drop to l ∧
  length (take from l) = from ∧
  length (drop (S from) (take to l)) = to - from - 1.
Proof.
  intros Hf Hlt Hle. split_and!.
  - rewrite <-(take_drop to l) at 1.
    rewrite <-(take_drop from (take to l)) at 1.
    rewrite take_take, Nat.min_l by lia.
    rewrite (drop_S (take to l) f from) by by rewrite lookup_take_lt.
    by rewrite <-app_assoc.
  - rewrite length_take. lia.
  - rewrite length_drop, length_take. lia.
Qed.

Lemma split_left l from to f :
  l !! from = Some f → to ≤ from →
  l = take to l ++ drop to (take from l) ++ f :: drop (S from) l ∧
  length (take to l) = to ∧
  length (drop to (take from l)) = from - to.
Proof.
  intros Hf Hle. pose proof (lookup_lt_Some _ _ _ Hf) as Hlen. split_and!.
  - rewrite <-(take_drop_middle l from f Hf) at 1.
    rewrite <-(take_drop to (take from l)) at 1.
    rewrite take_take, Nat.min_l by lia.
    by rewrite <-app_assoc.
  - rewrite length_take. lia.
  - rewrite length_drop, length_take. lia.
Qed.

Lemma elem_of_segment l i j a :
  a ∈ drop i (take j l) → a ∈ take j l ∧ a ∈ drop i l.
Proof.
  intros Ha. split.
  - eapply elem_of_sublist; [exact Ha|apply sublist_drop].
  - apply list_elem_of_lookup in Ha as [n Hn]. rewrite lookup_drop in Hn.
    apply lookup_take_Some in Hn as [Hn _].
    apply list_elem_of_lookup. exists n. by rewrite lookup_drop.
Qed.

(** An entry is given the row [key] and rotated to the insertion point of
    [key], where no entry has that row. *)
Lemma move_entry l from f key :
  sorted l → l !! from = Some f →
  (∀ t, l !! lower_bound key l = Some t → m_row_ndx t ≠ key) →
  let to := lower_bound key l in
  let l' := <[from := {| m_row_ndx := key; m_list := m_list f |}]> l in
  let r := if decide (from < to) then rotate from (from + 1) to l'
           else rotate to from (from + 1) l' in
  sorted r ∧ ptrs r ≡ₚ ptrs l.
Proof.
  intros Hs Hf Hne to l' r.
  pose proof (lower_bound_le key l) as Hto. fold to in Hto.
  pose proof (lower_bound_drop_strict key l Hs Hne) as Hgt. fold to in Hgt.
  rewrite Forall_forall in Hgt.
  set (f' := {| m_row_ndx := key; m_list := m_list f |}) in *.
  unfold r. case_decide as Hlt.
  - destruct (split_right l from to f Hf Hlt Hto) as (Hl & HlenA & HlenB).
    set (A := take from l) in *. set (B := drop (S from) (take to l)) in *.
    set (C := drop to l) in *.
    assert (l' = A ++ f' :: B ++ C) as ->.
    { unfold l'. rewrite Hl at 1. rewrite <-HlenA at 1. apply insert_middle. }
    assert (∀ n m, n = length A → m = length A + 1 + length B →
              rotate n (n + 1) m (A ++ f' :: B ++ C) = A ++ B ++ f' :: C) as Hrot.
    { intros n m -> ->. apply rotate_right. }
    rewrite (Hrot from to) by lia. split.
    + rewrite Hl in Hs. apply sorted_app in Hs as (HAr & HA & Hr).
      apply sorted_cons in Hr as [_ Hr].
      apply sorted_app in Hr as (HBC & HB & HC).
      apply sorted_app. split_and!; [|done|].
      * intros a b Ha Hb. apply elem_of_app in Hb as [Hb|Hb].
        -- apply HAr; [done|]. right. apply elem_of_app. by left.
        -- apply elem_of_cons in Hb as [->|Hb].
           ++ simpl. apply (elem_of_take_lt key l). fold to.
              eapply elem_of_sublist; [|apply (sublist_take _ from)].
              rewrite take_take, Nat.min_l by lia. exact Ha.
           ++ apply HAr; [done|]. right. apply elem_of_app. by right.
      * apply sorted_app. split_and!; [|done|].
        -- intros a b Ha Hb. apply elem_of_cons in Hb as [->|Hb].
           ++ simpl. apply (elem_of_take_lt key l). fold to.
              by apply elem_of_segment in Ha as [Ha _].
           ++ by apply HBC.
        -- apply sorted_cons. split; [|done]. apply Forall_forall. intros b Hb.
           simpl. by apply Hgt.
    + rewrite Hl. unfold ptrs. rewrite !fmap_app, !fmap_cons, !fmap_app. simpl.
      apply Permutation_app_head. by rewrite Permutation_middle.
  - assert (to ≤ from) as Hle by lia.
    destruct (split_left l from to f Hf Hle) as (Hl & HlenA & HlenB).
    set (A := take to l) in *. set (B := drop to (take from l)) in *.
    set (C := drop (S from) l) in *.
    assert (l' = A ++ B ++ f' :: C) as ->.
    { unfold l'. rewrite Hl at 1. rewrite app_assoc.
      replace from with (length (A ++ B)) at 1 by (rewrite length_app; lia).
      rewrite insert_middle. by rewrite <-app_assoc. }
    assert (∀ n m, n = length A → m = length A + length B →
              rotate n m (m + 1) (A ++ B ++ f' :: C) = A ++ f' :: B ++ C) as Hrot.
    { intros n m -> ->. apply rotate_left. }
    rewrite (Hrot to from) by lia. split.
    + assert (key < m_row_ndx f) as Hkf.
      { apply Hgt. apply list_elem_of_lookup. exists (from - to).
        rewrite lookup_drop. by replace (to + (from - to)) with from by lia. }
      rewrite Hl in Hs. apply sorted_app in Hs as (HAr & HA & Hr).
      apply sorted_app in Hr as (HBC & HB & HC).
      apply sorted_cons in HC as [HfC HC]. rewrite Forall_forall in HfC.
      apply sorted_app. split_and!; [|done|].
      * intros a b Ha Hb. apply elem_of_cons in Hb as [->|Hb].
        -- simpl. by apply (elem_of_take_lt key l).
        -- apply HAr; [done|]. apply elem_of_app in Hb as [Hb|Hb].
           ++ apply elem_of_app. by left.
           ++ apply elem_of_app. right. by right.
      * apply sorted_cons. split.
        -- apply Forall_forall. intros b Hb. simpl. apply elem_of_app in Hb as [Hb|Hb].
           ++ apply Hgt. by apply elem_of_segment in Hb as [_ Hb].
           ++ specialize (HfC b Hb). lia.
        -- apply sorted_app. split_and!; [|done|done].
           intros a b Ha Hb. apply HBC; [done|by right].
    + rewrite Hl. unfold ptrs. repeat (rewrite ?fmap_app, ?fmap_cons). simpl.
      apply Permutation_app_head. by rewrite Permutation_middle.
Qed.

(** Two entries exchange their pointers. *)
Lemma swap_entries l i j a b :
  l !! i = Some a → l !! j = Some b →
  let l' := <[j := {| m_row_ndx := m_row_ndx b; m_list := m_list a |}]>
              (<[i := {| m_row_ndx := m_row_ndx a; m_list := m_list b |}]> l) in
  rows l' = rows l ∧ ptrs l' ≡ₚ ptrs l.
Proof.
  intros Ha Hb l'. unfold l', rows, ptrs. rewrite !list_fmap_insert. simpl. split.
  - rewrite (list_insert_id (m_row_ndx <$> l) i) by by rewrite list_lookup_fmap, Ha.
    by rewrite list_insert_id by by rewrite list_lookup_fmap, Hb.
  - apply Permutation_insert_swap; rewrite list_lookup_fmap.
    + by rewrite Ha.
    + by rewrite Hb.
Qed.

End Rotation.

Section RegistryMoves.
Import LinkListColumn RegistrySpec RegistryAux.

Implicit Types l : list list_entry.
Implicit Types e f t : list_entry.
Implicit Types c : Accessors.

Lemma iter_swap_alter {T} (k : list T) (i j : nat) (g : T → T) (x y z : T) :
  i ≠ j → k !! i = Some x → k !! j = Some y →
  iter_swap i j (alter g i (<[j := z]> k)) = <[j := g x]> (<[i := z]> k).
Proof.
  intros Hij Hi Hj. unfold iter_swap.
  pose proof (lookup_lt_Some _ _ _ Hi) as Hli.
  pose proof (lookup_lt_Some _ _ _ Hj) as Hlj.
  rewrite list_lookup_alter_eq, list_lookup_insert_ne, Hi by done. simpl.
  rewrite list_lookup_alter_ne, list_lookup_insert_eq by done.
  apply list_eq. intros n.
  destruct (decide (n = j)) as [->|Hnj].
  - by rewrite !list_lookup_insert_eq by (repeat (rewrite length_insert || rewrite length_alter); lia).
  - rewrite !(list_lookup_insert_ne _ j n) by done.
    destruct (decide (n = i)) as [->|Hni].
    + by rewrite !list_lookup_insert_eq by (repeat (rewrite length_insert || rewrite length_alter); lia).
    + rewrite !(list_lookup_insert_ne _ i n) by done.
      rewrite list_lookup_alter_ne by done. by rewrite list_lookup_insert_ne by done.
Qed.

Lemma pointers_ok_None vs next ps :
  pointers_ok true vs next ps → pointers_ok true vs next (None :: ps).
Proof.
  intros [H1 H2 H3 H4]. split; simpl; try done.
  - intros h v Hh. apply elem_of_cons in Hh as [?|Hh]; [done|]. by apply H2.
  - intros h Hh. apply elem_of_cons in Hh as [?|Hh]; [done|]. by apply H3.
Qed.

Lemma rows_insert_same l i e e' :
  l !! i = Some e → m_row_ndx e' = m_row_ndx e → rows (<[i := e']> l) = rows l.
Proof.
  intros Hi He. unfold rows. rewrite list_fmap_insert, He.
  apply list_insert_id. by rewrite list_lookup_fmap, Hi.
Qed.

(** The entry for the row that is moved over loses its view. *)
Lemma reset_entry_inv c i t h :
  inv c → m_list_accessors c !! i = Some t → lock (views c) t = Some h →
  inv {| m_list_accessors :=
           <[i := {| m_row_ndx := m_row_ndx t; m_list := None |}]> (m_list_accessors c);
         m_list_accessors_contains_tombstones := true;
         views := detach_view h (views c);
         next_view := next_view c |}.
Proof.
  intros [Hs Hp] Hi Hlock. apply lock_Some in Hlock as [Hm _]. split; simpl.
  - unfold sorted. by erewrite rows_insert_same.
  - pose proof (take_drop_middle _ _ _ Hi) as Hl. rewrite <-Hl.
    assert (length (take i (m_list_accessors c)) = i) as Hlen.
    { rewrite length_take. apply lookup_lt_Some in Hi. lia. }
    rewrite <-Hlen at 1. rewrite insert_middle.
    eapply pointers_ok_perm; [symmetry; apply ptrs_middle|]. simpl.
    apply pointers_ok_None.
    apply pointers_ok_flag in Hp. rewrite <-Hl in Hp.
    eapply pointers_ok_perm in Hp; [|apply ptrs_middle]. rewrite Hm in Hp.
    eapply (pointers_ok_detached _ _ _ _ _ [h]).
    + split.
      * intros h'. apply detach_view_dom.
      * intros h' Hh'. apply detach_view_ne. intros ->. apply Hh'. by left.
    + intros h' Hh' Hin. apply list_elem_of_singleton in Hin as ->.
      destruct Hp as [_ _ _ Hnd]. simpl in Hnd. apply NoDup_cons in Hnd as [Hnin _].
      apply Hnin. apply list_elem_of_omap. by exists (Some h).
    + eapply pointers_ok_sublist; [|exact Hp]. by apply sublist_cons.
Qed.

Lemma set_origin_if_same_views (b : bool) vs e row :
  same_views vs
    (if b then match lock vs e with
               | Some h => set_origin_row_index h row vs
               | None => vs
               end
     else vs).
Proof.
  destruct b; [|apply same_views_refl].
  destruct (lock vs e); [apply same_views_set_origin|apply same_views_refl].
Qed.

Lemma lower_bound_rows key l1 l2 :
  rows l1 = rows l2 → lower_bound key l1 = lower_bound key l2.
Proof.
  revert l2. induction l1 as [|a l1 IH]; intros [|b l2] Hr; try done.
  simpl in *. injection Hr as Hab Hr. rewrite Hab. by rewrite (IH l2).
Qed.

Lemma rows_lookup l1 l2 i a :
  rows l1 = rows l2 → l1 !! i = Some a → ∃ b, l2 !! i = Some b ∧ m_row_ndx b = m_row_ndx a.
Proof.
  intros Hr Ha. assert (rows l2 !! i = Some (m_row_ndx a)) as Hb.
  { rewrite <-Hr. unfold rows. by rewrite list_lookup_fmap, Ha. }
  unfold rows in Hb. rewrite list_lookup_fmap in Hb.
  destruct (l2 !! i) as [b|]; [|done]. exists b. split; [done|]. by simplify_eq/=.
Qed.

(** The second half of [adj_move_over], from a state [c] in which the entry
    for [to_row_ndx], if any, has been given up. *)
Lemma move_from_inv (fix_ : bool) (from_row to_row : nat) (to_is_valid : bool) c :
  inv c →
  let l := m_list_accessors c in
  let to := lower_bound to_row l in
  (if to_is_valid then ∃ t, l !! to = Some t ∧ m_row_ndx t = to_row
   else ∀ t, l !! to = Some t → m_row_ndx t ≠ to_row) →
  from_row ≠ to_row →
  let from := lower_bound from_row l in
  inv match l !! from with
      | Some e =>
        if decide (m_row_ndx e = from_row) then
          let e' := {| m_row_ndx := to_row; m_list := m_list e |} in
          let l := <[from := e']> l in
          let vs := if fix_ then
                      match lock (views c) e' with
                      | Some h => set_origin_row_index h to_row (views c)
                      | None => views c
                      end
                    else views c in
          let l :=
            if to_is_valid then
              iter_swap to from
                (alter (λ t, {| m_row_ndx := from_row; m_list := m_list t |}) to l)
            else if decide (from < to) then rotate from (from + 1) to l
            else rotate to from (from + 1) l in
          set_accessors l (set_views vs c)
        else c
      | None => c
      end.
Proof.
  intros Hinv l to Hvalid Hrows from. pose proof Hinv as [Hs Hp].
  destruct (l !! from) as [f|] eqn:Hf; [|done].
  case_decide as Hfrow; [|done]. cbv zeta.
  set (f' := {| m_row_ndx := to_row; m_list := m_list f |}).
  pose proof (set_origin_if_same_views fix_ (views c) f' to_row) as Hsv.
  destruct to_is_valid.
  - destruct Hvalid as (t & Ht & Htrow).
    assert (to ≠ from) as Hne by (intros E; rewrite E in Ht; simplify_eq; lia).
    rewrite (iter_swap_alter l to from _ t f f' Hne Ht Hf).
    destruct (swap_entries l to from t f Ht Hf) as [Hr Hperm].
    rewrite Htrow, Hfrow in Hr, Hperm. fold f' in Hr, Hperm.
    split; simpl.
    + unfold sorted. by rewrite Hr.
    + eapply pointers_ok_same_views; [exact Hsv|].
      eapply pointers_ok_perm; [symmetry; exact Hperm|]. exact Hp.
  - destruct (move_entry l from f to_row Hs Hf Hvalid) as [Hsr Hperm].
    split; simpl.
    + exact Hsr.
    + eapply pointers_ok_same_views; [exact Hsv|].
      eapply pointers_ok_perm; [symmetry; exact Hperm|]. exact Hp.
Qed.

Lemma adj_move_over_inv fix_ from_row to_row c :
  inv c → inv (adj_move_over fix_ from_row to_row c).
Proof.
  intros Hinv. unfold adj_move_over.
  destruct (prune_spec c Hinv) as (Hinv' & Hf & Hv & Hn & _).
  set (c' := prune_list_accessor_tombstones c) in *.
  set (l := m_list_accessors c') in *. set (to := lower_bound to_row l) in *.
  destruct (l !! to) as [t|] eqn:Ht.
  - destruct (bool_decide (m_row_ndx t = to_row)) eqn:Hvalid.
    + apply bool_decide_eq_true in Hvalid.
      destruct (lock (views c') t) as [h|] eqn:Hlock.
      * pose proof (reset_entry_inv c' to t h Hinv' Ht Hlock) as Hinv1.
        case_decide as Hrows; [done|]. simpl.
        assert (rows (<[to := {| m_row_ndx := m_row_ndx t; m_list := None |}]> l) = rows l)
          as Hr by by eapply rows_insert_same.
        rewrite (lower_bound_rows from_row _ l Hr).
        pose proof (move_from_inv fix_ from_row to_row true _ Hinv1) as Hmv.
        simpl in Hmv. rewrite !(lower_bound_rows _ _ l Hr) in Hmv.
        apply Hmv; [|done].
        exists {| m_row_ndx := m_row_ndx t; m_list := None |}. split; [|done].
        apply list_lookup_insert_eq. by eapply lookup_lt_Some.
      * case_decide as Hrows; [done|].
        apply (move_from_inv fix_ from_row to_row true c' Hinv'); [|done].
        by exists t.
    + apply bool_decide_eq_false in Hvalid.
      case_decide as Hrows; [done|].
      apply (move_from_inv fix_ from_row to_row false c' Hinv'); [|done].
      intros t' Ht'. fold l in Ht'. fold to in Ht'. by simplify_eq.
  - case_decide as Hrows; [done|].
    apply (move_from_inv fix_ from_row to_row false c' Hinv'); [|done].
    intros t' Ht'. fold l in Ht'. fold to in Ht'. by simplify_eq.
Qed.

End RegistryMoves.

Section RegistrySwap.
Import LinkListColumn RegistrySpec RegistryAux.

Implicit Types l : list list_entry.
Implicit Types e f t : list_entry.
Implicit Types c : Accessors.

Lemma found_Some vs l (it row : nat) e h :
  match l !! it with
  | Some e =>
    if decide (m_row_ndx e = row) then
      match lock vs e with
      | Some ptr => Some (e, ptr)
      | None => None
      end
    else None
  | None => None
  end = Some (e, h) →
  l !! it = Some e ∧ m_row_ndx e = row ∧ lock vs e = Some h.
Proof.
  destruct (l !! it) as [e'|]; [|done]. case_decide; [|done].
  destruct (lock vs e') eqn:E; [|done]. intros [= -> ->]. done.
Qed.

Lemma found_None vs l (it row : nat) :
  all_live vs (ptrs l) →
  match l !! it with
  | Some e =>
    if decide (m_row_ndx e = row) then
      match lock vs e with
      | Some ptr => Some (e, ptr)
      | None => None
      end
    else None
  | None => None
  end = None →
  ∀ t, l !! it = Some t → m_row_ndx t ≠ row.
Proof.
  intros Hlive Hnone t Ht. rewrite Ht in Hnone. case_decide as Hrow; [|done].
  destruct (lock vs t) eqn:E; [done|].
  apply all_live_ptrs in Hlive. rewrite Forall_forall in Hlive.
  specialize (Hlive t (list_elem_of_lookup_2 _ _ _ Ht)).
  apply lock_None_expired in E. congruence.
Qed.

Lemma adj_swap_inv fix_ row_1 row_2 c : inv c → inv (adj_swap fix_ row_1 row_2 c).
Proof.
  intros Hinv. unfold adj_swap.
  destruct (prune_spec c Hinv) as (Hinv' & Hf & Hv & Hn & _).
  set (c' := prune_list_accessor_tombstones c) in *.
  set (l := m_list_accessors c') in *. cbv zeta.
  pose proof Hinv' as [Hs Hp].
  assert (all_live (views c') (ptrs l)) as Hlive by by apply Hp.
  set (it_1 := lower_bound row_1 l). set (it_2 := lower_bound row_2 l).
  match goal with |- inv (match ?F with _ => _ end) => destruct F as [[e_1 ptr_1]|] eqn:HF1 end.
  - apply found_Some in HF1 as (H1 & Hr1 & Hl1).
    match goal with |- inv (match ?F with _ => _ end) => destruct F as [[e_2 ptr_2]|] eqn:HF2 end.
    + apply found_Some in HF2 as (H2 & Hr2 & Hl2).
      destruct (swap_entries l it_1 it_2 e_1 e_2 H1 H2) as [Hr Hperm].
      split; simpl.
      * unfold sorted. by rewrite Hr.
      * eapply (pointers_ok_same_views _ (views c')).
        { destruct fix_; [|apply same_views_refl].
          eapply same_views_trans; apply same_views_set_origin. }
        eapply pointers_ok_perm; [symmetry; exact Hperm|]. exact Hp.
    + pose proof (found_None _ _ _ _ Hlive HF2) as Hne.
      destruct (move_entry l it_1 e_1 row_2 Hs H1 Hne) as [Hsr Hperm].
      split; simpl.
      * exact Hsr.
      * eapply (pointers_ok_same_views _ (views c')).
        { destruct fix_; [apply same_views_set_origin|apply same_views_refl]. }
        eapply pointers_ok_perm; [symmetry; exact Hperm|]. exact Hp.
  - pose proof (found_None _ _ _ _ Hlive HF1) as Hne.
    match goal with |- inv (match ?F with _ => _ end) => destruct F as [[e_2 ptr_2]|] eqn:HF2 end.
    + apply found_Some in HF2 as (H2 & Hr2 & Hl2).
      destruct (move_entry l it_2 e_2 row_1 Hs H2 Hne) as [Hsr Hperm].
      split; simpl.
      * exact Hsr.
      * eapply (pointers_ok_same_views _ (views c')).
        { destruct fix_; [apply same_views_set_origin|apply same_views_refl]. }
        eapply pointers_ok_perm; [symmetry; exact Hperm|]. exact Hp.
    + exact Hinv'.
Qed.

(** Every operation on the registry keeps the invariant. *)
Lemma step_inv o c c' : inv c → step o c = Ok c' → inv c'.
Proof.
  intros Hinv. destruct o; simpl.
  - destruct (get_ptr cells row_ndx c) as [[v c1]| |] eqn:E; [|done..].
    intros [= <-]. by apply get_ptr_spec in E as [? _].
  - intros [= <-]. by apply adj_insert_rows_inv.
  - intros [= <-]. by apply adj_erase_rows_inv.
  - intros [= <-]. by apply adj_move_over_inv.
  - intros [= <-]. by apply adj_swap_inv.
  - intros [= <-]. by apply discard_child_accessors_inv.
  - intros [= <-]. by apply destroy_view_inv.
Qed.

Lemma run_inv ops : ∀ c c', inv c → run ops c = Ok c' → inv c'.
Proof.
  induction ops as [|o ops IH]; intros c c' Hinv; simpl.
  - by intros [= <-].
  - destruct (step o c) as [c1| |] eqn:E; [|done..]. simpl.
    apply IH. by eapply step_inv.
Qed.

End RegistrySwap.

Section RegistryProperties.
Import LinkListColumn RegistrySpec RegistryAux.

Implicit Types l : list list_entry.
Implicit Types e t : list_entry.
Implicit Types c : Accessors.
Implicit Types vs : gmap nat LinkViewObject.

Lemma omap_ptrs l : omap id (ptrs l) = omap m_list l.
Proof.
  induction l as [|e l IH]; [done|].
  change (omap id (ptrs (e :: l))) with
    (match m_list e with Some h => h :: omap id (ptrs l) | None => omap id (ptrs l) end).
  by rewrite IH.
Qed.

Lemma same_views_is_Some vs vs' h : same_views vs vs' → is_Some (vs !! h) → is_Some (vs' !! h).
Proof.
  intros Hs [v Hv]. specialize (Hs h). rewrite Hv in Hs.
  destruct (vs' !! h); [by eexists|done].
Qed.

(** Entries that do not hold [h] leave the view [h] alone. *)
Lemma map_entries_other f fix_ l h : ∀ vs r vs',
  h ∉ omap m_list l → map_entries f fix_ l vs = (r, vs') → vs' !! h = vs !! h.
Proof.
  induction l as [|e l IH]; intros vs r vs' Hh H; simpl in H.
  - by simplify_eq.
  - destruct (map_entries f fix_ l _) as [r1 vs1] eqn:E. simplify_eq.
    assert ((h ∉ omap m_list l) ∧ m_list e ≠ Some h) as [Hl He].
    { simpl in Hh. destruct (m_list e) as [h'|]; [|done].
      apply not_elem_of_cons in Hh as [? ?]. split; [done|congruence]. }
    rewrite (IH _ _ _ Hl E).
    destruct fix_; [|done].
    destruct (lock vs (set_row f e)) as [h'|] eqn:Hlock; [|done].
    apply lock_Some in Hlock as [Hm _]. simpl in Hm.
    unfold set_origin_row_index. rewrite lookup_alter_ne; [done|]. congruence.
Qed.

(** With [fix_ndx_in_parent], the view of an entry is told the new row. *)
Lemma map_entries_origin f l e h : ∀ vs r vs',
  NoDup (omap m_list l) → e ∈ l → m_list e = Some h → is_Some (vs !! h) →
  map_entries f true l vs = (r, vs') →
  ndx_in_parent <$> vs' !! h = Some (f (m_row_ndx e)).
Proof.
  induction l as [|a l IH]; intros vs r vs' Hnd He Hm Hv H; simpl in H.
  - by apply elem_of_nil in He.
  - destruct (map_entries f true l _) as [r1 vs1] eqn:E. simplify_eq.
    apply elem_of_cons in He as [<-|He].
    + simpl in Hnd. rewrite Hm in Hnd. apply NoDup_cons in Hnd as [Hnin _].
      rewrite (map_entries_other _ _ _ _ _ _ _ Hnin E).
      assert (lock vs (set_row f e) = Some h) as -> by by apply lock_Some.
      unfold set_origin_row_index. rewrite lookup_alter_eq.
      destruct Hv as [v ->]. done.
    + eapply IH; [|done|done| |exact E].
      * simpl in Hnd. destruct (m_list a); [by apply NoDup_cons in Hnd as [_ ?]|done].
      * eapply same_views_is_Some; [|exact Hv].
        destruct (lock vs (set_row f a)); [apply same_views_set_origin|apply same_views_refl].
Qed.

Lemma sorted_unique l i j a b :
  sorted l → l !! i = Some a → l !! j = Some b → m_row_ndx a = m_row_ndx b → i = j.
Proof.
  intros Hs Ha Hb Hr. destruct (Nat.lt_trichotomy i j) as [Hlt|[?|Hlt]]; [|done|].
  - pose proof (sorted_lookup_lt l i j a b Hs Ha Hb Hlt). lia.
  - pose proof (sorted_lookup_lt l j i b a Hs Hb Ha Hlt). lia.
Qed.

(** A lookup of a row whose entry is live gives the view of the entry and
    changes nothing. *)
Lemma get_ptr_found cells row c e v :
  sorted (m_list_accessors c) → e ∈ m_list_accessors c → m_row_ndx e = row →
  lock (views c) e = Some v → row < length cells →
  get_ptr cells row c = Ok (v, c).
Proof.
  intros Hs He Hr Hlock Hlen. unfold get_ptr. rewrite decide_True by done.
  apply list_elem_of_lookup in He as [i Hi].
  rewrite <-Hr. rewrite (lower_bound_found _ i e Hs Hi). rewrite Hi.
  rewrite decide_True by done. by rewrite Hlock.
Qed.

Lemma reachable_inv ops c : run ops empty_accessors = Ok c → inv c.
Proof. apply run_inv, inv_empty. Qed.

(** C9. After any sequence of the operations on the registry of a link-list
    column (accessor lookups, the adjustments for row insertion, erasure,
    move-last-over and swap, clearing, and the release of views by their
    holders), the debug check [validate_list_accessors] passes: the registry
    is strictly sorted by origin row, so no two entries, and in particular
    no two live ones, have the same origin row. *)
Theorem registry_sorted_after_every_mutator ops c :
  run ops empty_accessors = Ok c →
  validate_list_accessors c = true ∧
  sorted (m_list_accessors c) ∧
  sorted (live_entries c) ∧
  (∀ i j a b, m_list_accessors c !! i = Some a → m_list_accessors c !! j = Some b →
              m_row_ndx a = m_row_ndx b → i = j).
Proof.
  intros Hrun. apply reachable_inv in Hrun as [Hs _]. split_and!.
  - by apply validate_sorted.
  - done.
  - by apply sorted_filter.
  - intros i j a b. by apply sorted_unique.
Qed.

Lemma registry_sorted_after_every_mutator_witness :
  run example_ops empty_accessors = Ok example_registry ∧
  validate_list_accessors example_registry = true ∧
  sorted (m_list_accessors example_registry) ∧
  sorted (live_entries example_registry) ∧
  (∀ i j a b, m_list_accessors example_registry !! i = Some a →
              m_list_accessors example_registry !! j = Some b →
              m_row_ndx a = m_row_ndx b → i = j).
Proof.
  split; [vm_compute; reflexivity|].
  apply (registry_sorted_after_every_mutator example_ops example_registry).
  vm_compute. reflexivity.
Defined.

(** C7. A view [v] obtained for origin row [r] of a link-list column keeps
    its identity when [k] rows are inserted at an index at or below [r]: it
    is still there, its origin row is [r + k], a lookup of row [r + k] gives
    [v] again and changes nothing, and every entry of the registry for row
    [r + k] is the one of [v]. *)
Theorem list_view_follows_inserted_rows ops c cells r v c1 row_ndx k cells' :
  run ops empty_accessors = Ok c →
  get_ptr cells r c = Ok (v, c1) →
  row_ndx ≤ r →
  r + k < length cells' →
  is_Some (views (adj_insert_rows true row_ndx k c1) !! v) ∧
  origin_row (adj_insert_rows true row_ndx k c1) v = Some (r + k) ∧
  get_ptr cells' (r + k) (adj_insert_rows true row_ndx k c1)
    = Ok (v, adj_insert_rows true row_ndx k c1) ∧
  (∀ e, e ∈ m_list_accessors (adj_insert_rows true row_ndx k c1) →
        m_row_ndx e = r + k → m_list e = Some v).
Proof.
  intros Hrun Hget Hle Hlen. apply reachable_inv in Hrun.
  apply get_ptr_spec in Hget as (Hinv1 & He0 & Hv0 & _); [|done].
  pose proof (adj_insert_rows_inv true row_ndx k c1 Hinv1) as [Hs2 _].
  revert Hs2. unfold adj_insert_rows.
  destruct (prune_spec c1 Hinv1) as ([Hs Hp] & Hf & Hv & Hn & Hl).
  set (c1' := prune_list_accessor_tombstones c1) in *.
  set (l := m_list_accessors c1') in *.
  set (e0 := {| m_row_ndx := r; m_list := Some v |}) in *.
  assert (e0 ∈ drop (lower_bound row_ndx l) l) as Hin.
  { assert (e0 ∈ l) as Hin.
    { rewrite Hl. apply list_elem_of_filter. split; [|done].
      apply expired_false. by exists v. }
    rewrite <-(take_drop (lower_bound row_ndx l) l) in Hin.
    apply elem_of_app in Hin as [Hin|Hin]; [|done].
    apply elem_of_take_lt in Hin. simpl in Hin. lia. }
  destruct (bump_entries _ _ _ _) as [r' vs] eqn:E.
  rewrite bump_entries_map in E.
  pose proof (map_entries_spec _ _ _ _ _ _ E) as [Hr' Hsv].
  assert (is_Some (views c1' !! v)) as Hv1 by by rewrite Hv.
  assert (ndx_in_parent <$> vs !! v = Some (r + k)) as Horigin.
  { eapply (map_entries_origin (λ x, x + k) _ e0 v); [|exact Hin|done|exact Hv1|exact E].
    eapply sublist_NoDup; [|apply sublist_omap, (sublist_drop _ (lower_bound row_ndx l))].
    rewrite <-omap_ptrs. by destruct Hp. }
  assert (is_Some (vs !! v)) as Hv2 by by eapply same_views_is_Some.
  simpl. intros Hs2.
  set (e1 := {| m_row_ndx := r + k; m_list := Some v |}).
  assert (e1 ∈ take (lower_bound row_ndx l) l ++ r') as Hin1.
  { apply elem_of_app. right. rewrite Hr'.
    apply list_elem_of_fmap. by exists e0. }
  split_and!.
  - done.
  - done.
  - apply (get_ptr_found _ _ _ e1); simpl; try done.
    by apply lock_Some.
  - intros e He Hrow.
    apply list_elem_of_lookup in He as [i Hi].
    apply list_elem_of_lookup in Hin1 as [j Hj].
    assert (i = j) as -> by by eapply (sorted_unique _ i j e e1 Hs2).
    by simplify_eq.
Qed.

Lemma list_view_follows_inserted_rows_witness :
  run example_ops empty_accessors = Ok example_registry ∧
  get_ptr example_cells 10 example_registry = Ok (3, example_registry_held) ∧
  is_Some (views (adj_insert_rows true 5 3 example_registry_held) !! 3) ∧
  origin_row (adj_insert_rows true 5 3 example_registry_held) 3 = Some (10 + 3) ∧
  get_ptr (replicate 15 0%Z) (10 + 3) (adj_insert_rows true 5 3 example_registry_held)
    = Ok (3, adj_insert_rows true 5 3 example_registry_held) ∧
  (∀ e, e ∈ m_list_accessors (adj_insert_rows true 5 3 example_registry_held) →
        m_row_ndx e = 10 + 3 → m_list e = Some 3).
Proof.
  split; [vm_compute; reflexivity|]. split; [vm_compute; reflexivity|].
  apply (list_view_follows_inserted_rows example_ops example_registry example_cells
           10 3 example_registry_held 5 3 (replicate 15 0%Z)).
  - vm_compute. reflexivity.
  - vm_compute. reflexivity.
  - lia.
  - simpl. lia.
Defined.

End RegistryProperties.

(** * Further properties of the code *)

(** ** Reading and removing backlinks *)

Section BacklinkReads.
Import BacklinkSpec.

Variable get_row_ndx : Key → nat.

Lemma bl_inv_lookup Ms st row M :
  bl_inv Ms st → Ms !! row = Some M →
  ∃ w, backlinks st !! row = Some w ∧ rep st w M.
Proof.
  intros Hinv HM. destruct (lookup_lt_is_Some_2 (backlinks st) row) as [w Hw].
  { rewrite (bl_length _ _ Hinv). by eapply lookup_lt_Some. }
  exists w. split; [done|]. by eapply (bl_rep _ _ Hinv).
Qed.

Lemma int64_small x : (0 ≤ x < 2 ^ 63)%Z → int64_t x = x.
Proof.
  intros Hx. unfold int64_t. rewrite Z.mod_small by lia. lia.
Qed.

Lemma find_first_None (x : Z) (l : list Z) : x ∉ l → find_first x l = None.
Proof.
  intros Hx. unfold find_first.
  destruct (list_find (λ y, y = x) l) as [[i y]|] eqn:E; [|done].
  apply list_find_Some in E as (Hi & -> & _).
  exfalso. apply Hx. by eapply list_elem_of_lookup_2.
Qed.

Lemma elem_of_list_to_set_disj_Z (x : Z) (l : list Z) :
  x ∈ (list_to_set_disj l : gmultiset Z) ↔ x ∈ l.
Proof. apply elem_of_list_to_set_disj. Qed.

(** X1.  [remove_one_backlink] removes an edge that is there and stops at an
    assertion when it is not: it never leaves a missing edge unnoticed. *)
Theorem remove_one_backlink_needs_the_edge Ms st t x M :
  bl_inv Ms st → Ms !! get_row_ndx t = Some M →
  (- 2 ^ 63 ≤ value x < 2 ^ 63)%Z →
  (value x ∈ M →
     ∃ st', BacklinkColumn.remove_one_backlink get_row_ndx t x st = Ok st' ∧
            bl_inv (<[get_row_ndx t := M ∖ {[+ value x +]}]> Ms) st') ∧
  (value x ∉ M →
     BacklinkColumn.remove_one_backlink get_row_ndx t x st = Assert_failed).
Proof.
  intros Hinv HM Hx. split.
  - intros Hin.
    destruct (remove_one_backlink_spec get_row_ndx Ms st t x M Hinv HM Hin)
      as (st' & H1 & H2 & _). by exists st'.
  - intros Hnin. destruct (bl_inv_lookup _ _ _ _ Hinv HM) as (w & Hw & Hrep).
    unfold BacklinkColumn.remove_one_backlink. rewrite Hw.
    destruct Hrep as [[-> ->]|[(o & -> & Ho & ->)|(l & Hl & <- & Hlen & Hall & Hw0 & Hw1)]].
    + done.
    + rewrite decide_False by (unfold origin_ok in Ho; lia).
      rewrite land_odd_1 by (unfold origin_ok in Ho; lia).
      rewrite decide_True by done. rewrite shiftr_odd_1.
      rewrite decide_False; [done|]. intros Heq. apply Hnin.
      assert (value x = o) as ->; [|multiset_solver].
      unfold uint64_t in Heq. unfold origin_ok in Ho.
      destruct (decide (0 ≤ value x)%Z).
      * rewrite Z.mod_small in Heq by lia. done.
      * assert ((value x) mod 2 ^ 64 = value x + 2 ^ 64)%Z as E.
        { symmetry. apply (Z.mod_unique _ _ (-1)); lia. }
        lia.
    + rewrite decide_False by done. rewrite decide_False by (rewrite Hw1; intros H; by apply H).
      unfold to_ref. rewrite Hl.
      rewrite find_first_None; [done|].
      intros Hin. apply Hnin. by apply elem_of_list_to_set_disj_Z.
Qed.

(** The stored sequence of a cell that represents [M]: it is empty, the
    one inline origin, or the list in the store. *)
Lemma stored_backlinks_of_rep st w M :
  rep st w M →
  (M = ∅ ∧ w = 0%Z ∧ stored_backlinks st w = []) ∨
  (∃ o, M = {[+ o +]} ∧ origin_ok o ∧ w = (2 * o + 1)%Z ∧ stored_backlinks st w = [o]) ∨
  (∃ l, heap st !! w = Some l ∧ list_to_set_disj l = M ∧ 2 ≤ length l ∧
        Forall origin_ok l ∧ w ≠ 0%Z ∧ Z.land w 1 = 0%Z ∧ stored_backlinks st w = l).
Proof.
  unfold stored_backlinks.
  intros [[-> ->]|[(o & -> & Ho & ->)|(l & Hl & <- & Hlen & Hall & Hw0 & Hw1)]].
  - left. by rewrite decide_True.
  - right. left. exists o. unfold origin_ok in Ho. split_and!; try done.
    rewrite decide_False by lia. rewrite land_odd_1, decide_True by lia.
    by rewrite shiftr_odd_1.
  - right. right. exists l. split_and!; try done.
    rewrite decide_False by done. rewrite decide_False by (rewrite Hw1; lia).
    by rewrite Hl.
Qed.

(** X2.  [get_backlink] enumerates the backlinks of a row in the order in which
    the cell keeps them ([stored_backlinks]): this sequence holds the
    origins of the row, each as often as it was added, [get_backlink_count]
    is its length, the positions below the count give its elements from
    first to last, and every other position stops at an assertion.  The
    word of the cell must be non-negative as [int64_t]: an inline origin
    below 2^62, a ref below 2^63. *)
Theorem get_backlink_enumerates Ms st row M w :
  bl_inv Ms st → Ms !! row = Some M →
  backlinks st !! row = Some w → (0 ≤ w < 2 ^ 63)%Z →
  list_to_set_disj (stored_backlinks st w) = M ∧
  BacklinkColumn.get_backlink_count row st = Some (length (stored_backlinks st w)) ∧
  ∀ j, BacklinkColumn.get_backlink row j st =
         match stored_backlinks st w !! j with
         | Some o => Ok {| value := o |}
         | None => Assert_failed
         end.
Proof.
  intros Hinv HM Hw Hlt. pose proof (bl_rep _ _ Hinv row w M Hw HM) as Hrep.
  unfold BacklinkColumn.get_backlink_count, BacklinkColumn.get_backlink. rewrite Hw.
  destruct (stored_backlinks_of_rep _ _ _ Hrep)
    as [(-> & -> & ->)|[(o & -> & Ho & -> & ->)
                       |(l & Hl & <- & Hlen & Hall & Hw0 & Hw1 & ->)]].
  - split_and!; try done.
  - unfold origin_ok in Ho. split_and!.
    + simpl. multiset_solver.
    + rewrite decide_False by lia. by rewrite land_odd_1, decide_True by lia.
    + intros j. rewrite int64_small by lia. rewrite decide_False by lia.
      rewrite land_odd_1, decide_True by lia. rewrite shiftr_odd_1.
      destruct j as [|j]; [done|]. by rewrite decide_False by lia.
  - split_and!; try done.
    + rewrite decide_False by done. rewrite decide_False by (rewrite Hw1; intros H; by apply H).
      unfold to_ref. by rewrite Hl.
    + intros j. rewrite int64_small by lia. rewrite decide_False by done.
      rewrite decide_False by (rewrite Hw1; intros H; by apply H).
      unfold to_ref. rewrite Hl. by destruct (l !! j).
Qed.

Lemma land_1_mod x : Z.land x 1 = (x mod 2)%Z.
Proof. apply (Z.land_ones x 1). lia. Qed.

Lemma shiftr_1_div x : Z.shiftr x 1 = (x / 2)%Z.
Proof. rewrite Z.shiftr_div_pow2 by lia. done. Qed.

(** X3.  The inline form keeps 62 bits of an origin for [get_backlink]:
    [add_backlink] on an empty cell followed by [get_backlink] gives the
    origin back if it is below 2^62, and the origin minus 2^63 if not,
    since [get_backlink] reads the word as [int64_t] and shifts it with its
    sign. *)
Theorem get_backlink_after_inline_add st t x :
  backlinks st !! get_row_ndx t = Some 0%Z → origin_ok (value x) →
  ∃ st', BacklinkColumn.add_backlink get_row_ndx t x st = Ok st' ∧
         BacklinkColumn.get_backlink_count (get_row_ndx t) st' = Some 1 ∧
         BacklinkColumn.get_backlink (get_row_ndx t) 0 st' =
           Ok {| value := if decide (value x < 2 ^ 62)%Z then value x
                          else (value x - 2 ^ 63)%Z |}.
Proof.
  intros Hw Ho. unfold BacklinkColumn.add_backlink. rewrite Hw.
  rewrite decide_True by done.
  set (st' := BacklinkColumn.set_uint (get_row_ndx t) (tagged (value x)) st).
  exists st'. split; [done|].
  assert (backlinks st' !! get_row_ndx t = Some (2 * value x + 1)%Z) as Hw'.
  { unfold st', BacklinkColumn.set_uint. simpl.
    rewrite list_lookup_insert_eq by by eapply lookup_lt_Some.
    by rewrite tagged_ok. }
  unfold BacklinkColumn.get_backlink_count, BacklinkColumn.get_backlink. rewrite Hw'.
  unfold origin_ok in Ho. split.
  - rewrite decide_False by lia. by rewrite land_odd_1, decide_True by lia.
  - cbv zeta. destruct (decide (value x < 2 ^ 62)%Z) as [Hx|Hx].
    + rewrite int64_small by lia. rewrite decide_False by lia.
      rewrite land_odd_1, decide_True by lia. by rewrite shiftr_odd_1.
    + assert (int64_t (2 * value x + 1) = 2 * (value x - 2 ^ 63) + 1)%Z as ->.
      { unfold int64_t.
        assert ((2 * value x + 1 + 2 ^ 63) mod 2 ^ 64 = 2 * value x + 1 - 2 ^ 63)%Z as ->.
        { symmetry. apply (Z.mod_unique _ _ 1); lia. }
        lia. }
      rewrite decide_False by lia.
      rewrite land_1_mod, shiftr_1_div.
      replace (2 * (value x - 2 ^ 63) + 1)%Z with (1 + (value x - 2 ^ 63) * 2)%Z by lia.
      rewrite Z.mod_add, Z.div_add by lia.
      change (1 mod 2)%Z with 1%Z. change (1 / 2)%Z with 0%Z.
      rewrite decide_True by done. rewrite decide_True by done.
      by rewrite Z.add_0_l.
Qed.

End BacklinkReads.

(** ** Rewriting backlinks in place *)

Section BacklinkRewrites.
Import BacklinkSpec.

Lemma size_t_tagged n : origin_ok n → Z.lor (uint64_t (Z.shiftl n 1)) 1 = (2 * n + 1)%Z.
Proof.
  intros Hn. rewrite <-(tagged_ok n Hn). unfold tagged.
  rewrite (uint64_small n) by (unfold origin_ok in Hn; lia). done.
Qed.

Lemma list_to_set_disj_insert (l : list Z) i x y :
  l !! i = Some x →
  (list_to_set_disj (<[i := y]> l) : gmultiset Z)
  = list_to_set_disj l ∖ {[+ x +]} ⊎ {[+ y +]}.
Proof.
  revert i. induction l as [|a l IH]; intros [|i] Hi; simplify_eq/=.
  - multiset_solver.
  - rewrite (IH i Hi).
    assert (x ∈ (list_to_set_disj l : gmultiset Z)) as Hx.
    { apply elem_of_list_to_set_disj. by eapply list_elem_of_lookup_2. }
    multiset_solver.
Qed.

Lemma Forall_insert_ok {A} (P : A → Prop) (l : list A) i x :
  Forall P l → P x → Forall P (<[i := x]> l).
Proof.
  intros Hl Hx. apply Forall_forall. intros y Hy.
  apply list_elem_of_lookup in Hy as [j Hj].
  destruct (decide (j = i)) as [->|Hne].
  - destruct (decide (i < length l)).
    + rewrite list_lookup_insert_eq in Hj by done. by simplify_eq.
    + rewrite list_insert_ge in Hj by lia. rewrite Forall_forall in Hl.
      apply Hl. by eapply list_elem_of_lookup_2.
  - rewrite list_lookup_insert_ne in Hj by done. rewrite Forall_forall in Hl.
    apply Hl. by eapply list_elem_of_lookup_2.
Qed.

(** X4.  [update_backlink] replaces one backlink from the old origin row by one
    from the new origin row, whatever the form of the cell, and leaves the
    rest of the database alone; it stops at an assertion if the row has no
    backlink from the old origin row. *)
Theorem update_backlink_replaces_one Ms st row old new M :
  bl_inv Ms st → Ms !! row = Some M →
  origin_ok (Z.of_nat old) → origin_ok (Z.of_nat new) →
  (Z.of_nat old ∈ M →
     ∃ st', BacklinkColumnOps.update_backlink row old new st = Ok st' ∧
            bl_inv (<[row := M ∖ {[+ Z.of_nat old +]} ⊎ {[+ Z.of_nat new +]}]> Ms) st' ∧
            links st' = links st ∧
            (∀ r, foreign st r → foreign st' r ∧ heap st' !! r = heap st !! r)) ∧
  (Z.of_nat old ∉ M →
     BacklinkColumnOps.update_backlink row old new st = Assert_failed).
Proof.
  intros Hinv HM Hold Hnew.
  destruct (bl_inv_lookup _ _ _ _ Hinv HM) as (w & Hw & Hrep).
  pose proof (lookup_lt_Some _ _ _ HM) as Hrow.
  unfold BacklinkColumnOps.update_backlink. rewrite Hw.
  destruct Hrep as [[-> ->]|[(o & -> & Ho & ->)|(l & Hl & HMl & Hlen & Hok & Hw0 & Hw1)]].
  - split; [multiset_solver|done].
  - rewrite decide_False by (unfold origin_ok in Ho; lia).
    rewrite land_odd_1 by (unfold origin_ok in Ho; lia).
    rewrite decide_True by done. rewrite shiftr_odd_1. split.
    + intros Hin. assert (Z.of_nat old = o) as <- by multiset_solver.
      rewrite decide_True by done. rewrite size_t_tagged by done.
      eexists; split; [done|].
      unfold BacklinkColumn.set_uint, set_backlinks; simpl.
      split; [|split; [done|]].
      * replace st with {| heap := heap st; backlinks := backlinks st; links := links st |}
          at 1 by (by destruct st).
        apply bl_inv_update; try done.
        -- right; left. exists (Z.of_nat new). split; [multiset_solver|done].
        -- intros Hr. by apply odd_not_ref in Hr.
      * intros r Hr. split; [|done]. apply foreign_update; try done.
        intros <-. destruct Hr as [Hr _]. by apply odd_not_ref in Hr.
    + intros Hnin. rewrite decide_False; [done|]. intros Heq. rewrite <-Heq in Hnin.
      multiset_solver.
  - rewrite decide_False by done. rewrite decide_False by (rewrite Hw1; intros H; by apply H).
    unfold to_ref. rewrite Hl.
    rewrite !int64_small by (unfold origin_ok in *; lia). split.
    + intros Hin. assert (Z.of_nat old ∈ l) as Hin'.
      { apply elem_of_list_to_set_disj. by rewrite HMl. }
      destruct (find_first_elem_of _ _ Hin') as (i & -> & Hi).
      eexists; split; [done|]. unfold set_heap; simpl.
      split; [|split; [done|]].
      * eapply bl_inv_heap_only; try done.
        -- intros r Hr. by rewrite lookup_insert_ne.
        -- right; right. exists (<[i := Z.of_nat new]> l). simpl. rewrite lookup_insert_eq.
           split; [done|]. split; [by rewrite (list_to_set_disj_insert _ _ _ _ Hi), HMl|].
           split; [by rewrite length_insert|]. split; [by apply Forall_insert_ok|done].
      * intros r Hr. pose proof (foreign_ne_owned _ _ _ _ Hr Hw).
        split; [|by rewrite lookup_insert_ne].
        apply foreign_heap_only; [done|]. by rewrite lookup_insert_ne.
    + intros Hnin. rewrite find_first_None; [done|].
      intros Hin. apply Hnin. rewrite <-HMl. by apply elem_of_list_to_set_disj.
Qed.

Lemma list_to_set_disj_fmap_map (f : Z → Z) (l : list Z) :
  (list_to_set_disj (f <$> l) : gmultiset Z) = gmultiset_map f (list_to_set_disj l).
Proof.
  induction l as [|a l IH].
  - symmetry. apply gmultiset_map_empty.
  - rewrite fmap_cons.
    change (list_to_set_disj (f a :: (f <$> l)) : gmultiset Z)
      with ({[+ f a +]} ⊎ (list_to_set_disj (f <$> l) : gmultiset Z)).
    change (list_to_set_disj (a :: l) : gmultiset Z)
      with ({[+ a +]} ⊎ (list_to_set_disj l : gmultiset Z)).
    by rewrite gmultiset_map_disj_union, gmultiset_map_singleton, IH.
Qed.

Lemma exchange_involutive {A} `{EqDecision A} (a b x : A) :
  exchange a b (exchange a b x) = x.
Proof. unfold exchange. repeat case_decide; congruence. Qed.

Lemma swap_origin_exchange o1 o2 (l : list Z) :
  Forall origin_ok l →
  BacklinkColumn.swap_origin o1 o2 <$> l = exchange o1 o2 <$> l.
Proof.
  intros Hl. apply Forall_fmap_ext. eapply Forall_impl; [exact Hl|]. simpl.
  intros r Hr. unfold BacklinkColumn.swap_origin, exchange.
  by rewrite uint64_small by (unfold origin_ok in Hr; lia).
Qed.

Lemma exchange_origin_ok o1 o2 o :
  origin_ok o1 → origin_ok o2 → origin_ok o → origin_ok (exchange o1 o2 o).
Proof. intros. unfold exchange. by repeat case_decide. Qed.

Lemma set_uint_back st row w w' :
  backlinks st !! row = Some w →
  BacklinkColumn.set_uint row w (BacklinkColumn.set_uint row w' st) = st.
Proof.
  intros Hw. destruct st as [h b l]. unfold BacklinkColumn.set_uint, set_backlinks. simpl in *.
  f_equal. rewrite list_insert_insert_eq. by apply list_insert_id.
Qed.

Lemma swap_backlinks_spec Ms st row o1 o2 M :
  bl_inv Ms st → Ms !! row = Some M → origin_ok o1 → origin_ok o2 →
  (M = ∅ → BacklinkColumn.swap_backlinks row o1 o2 st = Assert_failed) ∧
  (M ≠ ∅ →
     ∃ st', BacklinkColumn.swap_backlinks row o1 o2 st = Ok st' ∧
            bl_inv (<[row := gmultiset_map (exchange o1 o2) M]> Ms) st' ∧
            links st' = links st ∧
            (∀ r, foreign st r → foreign st' r ∧ heap st' !! r = heap st !! r) ∧
            BacklinkColumn.swap_backlinks row o1 o2 st' = Ok st).
Proof.
  intros Hinv HM Ho1 Ho2.
  destruct (bl_inv_lookup _ _ _ _ Hinv HM) as (w & Hw & Hrep).
  pose proof (lookup_lt_Some _ _ _ HM) as Hrow.
  assert (row < length (backlinks st)) as Hrow' by by eapply lookup_lt_Some.
  unfold BacklinkColumn.swap_backlinks at 1 2. rewrite Hw.
  destruct Hrep as [[-> ->]|[(o & -> & Ho & ->)|(l & Hl & HMl & Hlen & Hok & Hw0 & Hw1)]].
  - split; [done|]. by intros [].
  - split; [multiset_solver|]. intros _.
    rewrite decide_False by (unfold origin_ok in Ho; lia).
    rewrite land_odd_1 by (unfold origin_ok in Ho; lia).
    rewrite decide_True by done. rewrite shiftr_odd_1.
    rewrite gmultiset_map_singleton.
    assert (∀ o', origin_ok o' →
      bl_inv (<[row := {[+ o' +]}]> Ms) (BacklinkColumn.set_uint row (2 * o' + 1) st) ∧
      (∀ r, foreign st r →
            foreign (BacklinkColumn.set_uint row (2 * o' + 1) st) r ∧
            heap (BacklinkColumn.set_uint row (2 * o' + 1) st) !! r = heap st !! r)) as Hset.
    { intros o' Ho'. unfold BacklinkColumn.set_uint, set_backlinks; simpl. split.
      - replace st with {| heap := heap st; backlinks := backlinks st; links := links st |}
          at 1 by (by destruct st).
        apply bl_inv_update; try done.
        + right; left. by exists o'.
        + intros Hr. by apply odd_not_ref in Hr.
      - intros r Hr. split; [|done]. apply foreign_update; try done.
        intros <-. destruct Hr as [Hr _]. by apply odd_not_ref in Hr. }
    assert (∀ o', origin_ok o' →
      backlinks (BacklinkColumn.set_uint row (2 * o' + 1) st) !! row = Some (2 * o' + 1)%Z)
      as Hlook.
    { intros o' _. unfold BacklinkColumn.set_uint. simpl.
      by rewrite list_lookup_insert_eq. }
    unfold exchange.
    destruct (decide (o = o1)) as [->|Hne1].
    + rewrite size_t_tagged by done. eexists; split; [done|].
      destruct (Hset o2 Ho2) as [Hb Hf]. split_and!; try done.
      unfold BacklinkColumn.swap_backlinks. rewrite (Hlook o2 Ho2).
      rewrite decide_False by (unfold origin_ok in Ho2; lia).
      rewrite land_odd_1 by (unfold origin_ok in Ho2; lia).
      rewrite decide_True by done. rewrite shiftr_odd_1.
      destruct (decide (o2 = o1)) as [->|Hne].
      * rewrite size_t_tagged by done. by rewrite set_uint_back.
      * rewrite decide_True by done. rewrite size_t_tagged by done.
        by rewrite set_uint_back.
    + destruct (decide (o = o2)) as [->|Hne2].
      * rewrite size_t_tagged by done. eexists; split; [done|].
        destruct (Hset o1 Ho1) as [Hb Hf]. split_and!; try done.
        unfold BacklinkColumn.swap_backlinks. rewrite (Hlook o1 Ho1).
        rewrite decide_False by (unfold origin_ok in Ho1; lia).
        rewrite land_odd_1 by (unfold origin_ok in Ho1; lia).
        rewrite decide_True by done. rewrite shiftr_odd_1.
        rewrite decide_True by done. rewrite size_t_tagged by done.
        by rewrite set_uint_back.
      * eexists; split; [done|]. split_and!; try done.
        -- rewrite list_insert_id; done.
        -- unfold BacklinkColumn.swap_backlinks. rewrite Hw.
           rewrite decide_False by (unfold origin_ok in Ho; lia).
           rewrite land_odd_1 by (unfold origin_ok in Ho; lia).
           rewrite decide_True by done. rewrite shiftr_odd_1.
           by rewrite !decide_False by done.
  - split.
    { intros ->. destruct l as [|? [|? ?]]; simpl in *; try lia. multiset_solver. }
    intros _.
    rewrite decide_False by done. rewrite decide_False by (rewrite Hw1; intros H; by apply H).
    unfold to_ref. rewrite Hl. rewrite (swap_origin_exchange _ _ _ Hok).
    eexists; split; [done|]. unfold set_heap; simpl.
    assert (Forall origin_ok (exchange o1 o2 <$> l)) as Hok'.
    { apply Forall_fmap. eapply Forall_impl; [exact Hok|]. simpl.
      intros. by apply exchange_origin_ok. }
    split_and!; try done.
    + eapply bl_inv_heap_only; try done.
      * intros r Hr. by rewrite lookup_insert_ne.
      * right; right. exists (exchange o1 o2 <$> l). simpl. rewrite lookup_insert_eq.
        split; [done|]. split; [by rewrite list_to_set_disj_fmap_map, HMl|].
        split; [by rewrite length_fmap|]. done.
    + intros r Hr. pose proof (foreign_ne_owned _ _ _ _ Hr Hw).
      split; [|by rewrite lookup_insert_ne].
      apply foreign_heap_only; [done|]. by rewrite lookup_insert_ne.
    + unfold BacklinkColumn.swap_backlinks. simpl. rewrite Hw.
      rewrite decide_False by done.
      rewrite decide_False by (rewrite Hw1; intros H; by apply H).
      unfold to_ref. rewrite lookup_insert_eq.
      rewrite (swap_origin_exchange _ _ _ Hok').
      rewrite <-list_fmap_compose.
      assert ((exchange o1 o2 ∘ exchange o1 o2) <$> l = l) as ->.
      { rewrite <-(list_fmap_id l) at 2. apply list_fmap_ext.
        intros i x _. apply exchange_involutive. } unfold set_heap. simpl.
      rewrite insert_insert_eq, insert_id by done. by destruct st.
Qed.

(** X5.  [swap_backlinks] exchanges the two origin rows in the backlinks of a
    row, whatever the form of the cell, and doing it twice gives the state
    before; on a row without backlinks it stops at an assertion. *)
Theorem swap_backlinks_exchanges Ms st row o1 o2 M :
  bl_inv Ms st → Ms !! row = Some M → origin_ok o1 → origin_ok o2 →
  (M = ∅ → BacklinkColumn.swap_backlinks row o1 o2 st = Assert_failed) ∧
  (M ≠ ∅ →
     ∃ st', BacklinkColumn.swap_backlinks row o1 o2 st = Ok st' ∧
            bl_inv (<[row := gmultiset_map (exchange o1 o2) M]> Ms) st' ∧
            links st' = links st ∧
            (∀ r, foreign st r → foreign st' r ∧ heap st' !! r = heap st !! r) ∧
            BacklinkColumn.swap_backlinks row o1 o2 st' = Ok st).
Proof. apply swap_backlinks_spec. Qed.

End BacklinkRewrites.

(** ** Removing all backlinks *)

Section BacklinkBulk.
Import BacklinkSpec.

Lemma take_replicate_drop_insert {A} (e : A) (l : list A) k n :
  k < length l →
  take (S k) (<[k := e]> l) ++ replicate n e ++ drop (S k + n) (<[k := e]> l)
  = take k l ++ replicate (S n) e ++ drop (k + S n) l.
Proof.
  intros Hk. rewrite (take_S_r _ k e) by (by apply list_lookup_insert_eq).
  rewrite take_insert_ge by lia. rewrite drop_insert_lt by lia.
  rewrite <-app_assoc. simpl. by replace (k + S n) with (S (k + n)) by lia.
Qed.

Lemma remove_all_step Ms st k M w :
  bl_inv Ms st → Ms !! k = Some M → backlinks st !! k = Some w → (0 ≤ w < 2 ^ 64)%Z →
  let value := uint64_t (int64_t w) in
  let st1 := if decide (value ≠ 0%Z ∧ Z.land value 1 = 0%Z)
             then set_heap (delete (to_ref value) (heap st)) st else st in
  let st' := BacklinkColumn.set_uint k 0 st1 in
  bl_inv (<[k := ∅]> Ms) st' ∧ links st' = links st ∧
  backlinks st' = <[k := 0%Z]> (backlinks st) ∧
  (is_ref w → heap st' !! w = None) ∧
  (∀ r, heap st !! r = None → heap st' !! r = None) ∧
  (∀ r, foreign st r → foreign st' r ∧ heap st' !! r = heap st !! r).
Proof.
  intros Hinv HM Hw Hrange. cbv zeta.
  rewrite uint64_int64, uint64_small by done.
  pose proof (lookup_lt_Some _ _ _ HM) as Hrow.
  pose proof (bl_rep _ _ Hinv _ _ _ Hw HM) as Hrep.
  unfold to_ref.
  assert (∀ h', (∀ j wj, j ≠ k → backlinks st !! j = Some wj → is_ref wj →
                         h' !! wj = heap st !! wj) →
                bl_inv (<[k := ∅]> Ms)
                  {| heap := h'; backlinks := <[k := 0%Z]> (backlinks st);
                     links := links st |}) as Hupd.
  { intros h' Hh'. apply bl_inv_update; try done.
    - by left.
    - by intros []. }
  case_decide as Href.
  - unfold BacklinkColumn.set_uint, set_backlinks, set_heap; simpl. split_and!.
    + apply Hupd. intros j wj Hj Hwj Hr. rewrite lookup_delete_ne; [done|]. intros <-.
      exact (bl_sep _ _ Hinv j k w Hj Hwj Hw Hr).
    + done.
    + done.
    + intros _. by rewrite lookup_delete_eq.
    + intros r Hr. destruct (decide (r = w)) as [->|Hne];
        [by rewrite lookup_delete_eq|by rewrite lookup_delete_ne].
    + intros r Hr. pose proof (foreign_ne_owned _ _ _ _ Hr Hw).
      split; [|by rewrite lookup_delete_ne].
      apply foreign_update; [done| |by rewrite lookup_delete_ne].
      intros <-. by destruct Hr as [[] _].
  - unfold BacklinkColumn.set_uint, set_backlinks; simpl. split_and!.
    + replace st with {| heap := heap st; backlinks := backlinks st; links := links st |}
        at 1 by (by destruct st).
      by apply Hupd.
    + done.
    + done.
    + intros [? ?]. exfalso. by apply Href.
    + done.
    + intros r Hr. split; [|done]. apply foreign_update; [done| |done].
      intros <-. by destruct Hr as [[] _].
Qed.

Lemma remove_all_from_spec n : ∀ k Ms st,
  bl_inv Ms st → k + n ≤ length Ms → words_ok st →
  ∃ st', BacklinkColumnOps.remove_all_backlinks_from k n st = Ok st' ∧
         bl_inv (take k Ms ++ replicate n ∅ ++ drop (k + n) Ms) st' ∧
         links st' = links st ∧
         backlinks st' = take k (backlinks st) ++ replicate n 0%Z ++
                         drop (k + n) (backlinks st) ∧
         (∀ row w, k ≤ row < k + n → backlinks st !! row = Some w → is_ref w →
                   heap st' !! w = None) ∧
         (∀ r, heap st !! r = None → heap st' !! r = None) ∧
         (∀ r, foreign st r → foreign st' r ∧ heap st' !! r = heap st !! r).
Proof.
  induction n as [|n IH]; intros k Ms st Hinv Hlen Hwords.
  - exists st. simpl. rewrite Nat.add_0_r, !take_drop. split_and!; try done. intros; lia.
  - simpl. destruct (lookup_lt_is_Some_2 Ms k) as [M HM]; [lia|].
    destruct (bl_inv_lookup _ _ _ _ Hinv HM) as (w & Hw & _). rewrite Hw.
    assert (0 ≤ w < 2 ^ 64)%Z as Hrange.
    { unfold words_ok in Hwords. rewrite Forall_forall in Hwords. apply Hwords.
      by eapply list_elem_of_lookup_2. }
    destruct (remove_all_step Ms st k M w Hinv HM Hw Hrange)
      as (Hinv1 & Hlinks1 & Hb1 & Hfreed1 & Hmono1 & Hframe1).
    match goal with |- ∃ _, BacklinkColumnOps.remove_all_backlinks_from _ _ ?s = _ ∧ _ =>
      set (st1 := s) in * end.
    assert (k < length (backlinks st)) as Hk by by eapply lookup_lt_Some.
    destruct (IH (S k) (<[k := ∅]> Ms) st1 Hinv1)
      as (st' & Hrun & Hinv' & Hl' & Hb' & Hfr' & Hmo' & Hf').
    { rewrite length_insert. lia. }
    { unfold words_ok. rewrite Hb1. apply Forall_insert_ok; [done|lia]. }
    exists st'. split; [done|]. split_and!.
    + by rewrite take_replicate_drop_insert in Hinv' by lia.
    + by rewrite Hl'.
    + rewrite Hb', Hb1. by apply take_replicate_drop_insert.
    + intros row w' Hrow Hw' Hr.
      destruct (decide (row = k)) as [->|Hne].
      * simplify_eq. apply Hmo'. by apply Hfreed1.
      * eapply (Hfr' row); [lia| |done]. rewrite Hb1.
        by rewrite list_lookup_insert_ne.
    + intros r Hr. by apply Hmo', Hmono1.
    + intros r Hr. destruct (Hframe1 r Hr) as [Hr1 Hh1].
      destruct (Hf' r Hr1) as [Hr2 Hh2]. split; [done|]. by rewrite Hh2.
Qed.

(** X6.  [remove_all_backlinks(num_rows)] leaves the first [num_rows] rows
    without backlinks and their cells 0, frees every store these rows had,
    and touches no other row, no other store and no forward cell. *)
Theorem remove_all_backlinks_clears Ms st n :
  bl_inv Ms st → n ≤ length Ms → words_ok st →
  ∃ st', BacklinkColumnOps.remove_all_backlinks n st = Ok st' ∧
         bl_inv (replicate n ∅ ++ drop n Ms) st' ∧
         take n (backlinks st') = replicate n 0%Z ∧
         drop n (backlinks st') = drop n (backlinks st) ∧
         links st' = links st ∧
         (∀ row w, row < n → backlinks st !! row = Some w → is_ref w →
                   heap st' !! w = None) ∧
         (∀ r, foreign st r → foreign st' r ∧ heap st' !! r = heap st !! r).
Proof.
  intros Hinv Hlen Hwords.
  destruct (remove_all_from_spec n 0 Ms st Hinv)
    as (st' & Hrun & Hinv' & Hl & Hb & Hfr & _ & Hf); [lia|done|].
  exists st'. simpl in Hinv', Hb. split; [done|]. split; [done|].
  assert (n ≤ length (backlinks st)) as Hn by (by rewrite (bl_length _ _ Hinv)).
  split_and!; try done.
  - rewrite Hb. rewrite take_app_length'; [done|]. by rewrite length_replicate.
  - rewrite Hb. rewrite drop_app_length'; [done|]. by rewrite length_replicate.
  - intros row w Hrow. apply Hfr. lia.
Qed.

End BacklinkBulk.

(** ** The cascade reads the backlinks *)

Section CascadeBreak.
Import BacklinkSpec.

Variable get_key : nat → Key.
Variable m_origin_table : nat.
Variable origin_column_index : nat.

Local Abbreviation push := (BacklinkColumnOps.push_link m_origin_table origin_column_index).
Local Abbreviation record := (link_to_nullify m_origin_table origin_column_index).

Lemma add_links_to_nullify_nil cs : add_links_to_nullify cs [] = cs.
Proof. destruct cs. unfold add_links_to_nullify. simpl. by rewrite app_nil_r. Qed.

Lemma add_links_to_nullify_app cs l1 l2 :
  add_links_to_nullify (add_links_to_nullify cs l1) l2 = add_links_to_nullify cs (l1 ++ l2).
Proof. unfold add_links_to_nullify. simpl. by rewrite app_assoc. Qed.

Lemma for_each_in_list_push ref t l st : ∀ n i cs,
  heap st !! ref = Some l → i + n ≤ length l →
  BacklinkColumnOps.for_each_in_list ref i n (push t) (cs, st)
  = Ok (add_links_to_nullify cs (record t <$> take n (drop i l)), st).
Proof.
  induction n as [|n IH]; intros i cs Hl Hlen; simpl.
  - by rewrite add_links_to_nullify_nil.
  - rewrite Hl. destruct (lookup_lt_is_Some_2 l i) as [x Hx]; [lia|]. rewrite Hx. simpl.
    unfold BacklinkColumnOps.push_link at 1. simpl.
    rewrite IH by (done || lia). f_equal. f_equal.
    rewrite (drop_S l x i Hx). simpl.
    unfold add_links_to_nullify. simpl. f_equal. by rewrite <-app_assoc.
Qed.

(** X7.  [cascade_break_backlinks_to] only reads: with link nullifications
    tracked it adds to [state.links] one record per backlink of the row, in
    the order in which the cell keeps the backlinks ([stored_backlinks]),
    with the key of the row as the old target; without, it does nothing.
    The database is the same afterwards. *)
Theorem cascade_break_records_each_backlink Ms st row M w cs :
  bl_inv Ms st → Ms !! row = Some M →
  backlinks st !! row = Some w → (0 ≤ w < 2 ^ 63)%Z →
  list_to_set_disj (stored_backlinks st w) = M ∧
  BacklinkColumnOps.cascade_break_backlinks_to get_key m_origin_table
    origin_column_index row (cs, st)
  = Ok (if BacklinkColumnOps.track_link_nullifications cs
        then add_links_to_nullify cs (record (get_key row) <$> stored_backlinks st w)
        else cs, st).
Proof.
  intros Hinv HM Hw Hrange. pose proof (bl_rep _ _ Hinv row w M Hw HM) as Hrep.
  unfold BacklinkColumnOps.cascade_break_backlinks_to. simpl.
  destruct (stored_backlinks_of_rep _ _ _ Hrep)
    as [(-> & -> & ->)|[(o & -> & Ho & -> & ->)
                       |(l & Hl & <- & Hlen & Hall & Hw0 & Hw1 & ->)]].
  - split; [done|]. destruct (BacklinkColumnOps.track_link_nullifications cs); [|done].
    unfold BacklinkColumnOps.for_each_link. simpl. rewrite Hw. simpl.
    by rewrite add_links_to_nullify_nil.
  - split; [simpl; multiset_solver|].
    destruct (BacklinkColumnOps.track_link_nullifications cs); [|done].
    unfold BacklinkColumnOps.for_each_link. simpl. rewrite Hw.
    unfold origin_ok in Ho. rewrite int64_small by lia.
    rewrite decide_False by lia. rewrite land_odd_1, decide_True by lia.
    rewrite shiftr_odd_1. simpl. by rewrite decide_True by lia.
  - split; [done|].
    destruct (BacklinkColumnOps.track_link_nullifications cs); [|done].
    unfold BacklinkColumnOps.for_each_link. simpl. rewrite Hw.
    rewrite int64_small by lia. rewrite decide_False by done.
    rewrite decide_False by (rewrite Hw1; intros H; by apply H).
    unfold to_ref. rewrite Hl.
    rewrite (for_each_in_list_push _ _ l) by (done || (simpl; lia)). simpl.
    rewrite decide_True by lia. simpl.
    by rewrite drop_0, firstn_all.
Qed.

End CascadeBreak.

(** ** A list view: [set], [remove] and the bounds of the mutators *)

Section ListMutators.
Import BacklinkSpec.

Lemma cnt_perm row L L' : L ≡ₚ L' → cnt row L = cnt row L'.
Proof. intros H. unfold cnt. by rewrite H. Qed.

Lemma add_links_perm r L L' Ms0 : L ≡ₚ L' → add_links r L Ms0 = add_links r L' Ms0.
Proof.
  intros H. unfold add_links. apply imap_ext. intros row M _.
  by rewrite (cnt_perm row L L' H).
Qed.

Lemma insert_Permutation {A} (l : list A) i x y :
  l !! i = Some x → <[i := y]> l ≡ₚ y :: delete i l.
Proof.
  revert i. induction l as [|a l IH]; intros [|i] Hi; simplify_eq/=; [done|].
  rewrite (IH i Hi). apply Permutation_swap.
Qed.

(** What a list loses with the link at position [i], and gains with a link
    to [t] in its place. *)
Lemma add_links_delete r i old L Ms0 M :
  L !! i = Some old → add_links r L Ms0 !! old = Some M →
  r ∈ M ∧ add_links r (delete i L) Ms0 = <[old := M ∖ {[+ r +]}]> (add_links r L Ms0).
Proof.
  intros Hi HM. rewrite (add_links_perm r L (old :: delete i L)) in HM |- *
    by by apply delete_Permutation.
  by apply add_links_cons_remove.
Qed.

Lemma add_links_replace r i old t L Ms0 M :
  L !! i = Some old → add_links r (delete i L) Ms0 !! t = Some M →
  add_links r (<[i := t]> L) Ms0 = <[t := M ⊎ {[+ r +]}]> (add_links r (delete i L) Ms0).
Proof.
  intros Hi HM.
  rewrite (add_links_perm r (<[i := t]> L) (vector_insert 0 t (delete i L)))
    by by eapply insert_Permutation.
  by apply add_links_insert.
Qed.

Variable get_row_ndx : Key → nat.
Variable m_weak_links : bool.
Variable repl : bool.
Variable other_strong_backlinks : nat → nat.

Hypothesis Hkey : ∀ t, get_row_ndx (LinkView.key_of t) = t.

Local Abbreviation set_ :=
  (LinkView.set get_row_ndx m_weak_links repl other_strong_backlinks).
Local Abbreviation remove :=
  (LinkView.remove get_row_ndx m_weak_links repl other_strong_backlinks).

(** A non-empty list has its store. *)
Lemma view_inv_store Ms0 L s :
  view_inv Ms0 L s → L ≠ [] →
  ∃ ref, links (sys s) !! ndx_in_parent (this s) = Some ref ∧
         m_row_indexes (this s) = Some ref ∧ foreign (sys s) ref ∧
         heap (sys s) !! ref = Some (Z.of_nat <$> L).
Proof. intros [_ _ _ _ _ [(_ & _ & ->)|H]] HL; done. Qed.

(** The count of a target row, read off a backlink column that is
    reciprocal with the list [L]. *)
Lemma backlink_count_add_links Ms0 L r st t :
  bl_inv (add_links r L Ms0) st → t < length Ms0 →
  BacklinkColumn.get_backlink_count t st
    = Some (size (default ∅ (Ms0 !! t)) + cnt t L).
Proof.
  intros Hbl Ht.
  destruct (lookup_lt_is_Some_2 (add_links r L Ms0) t) as [M1 HM1];
    [by rewrite length_add_links|].
  destruct (lookup_lt_is_Some_2 (backlinks st) t) as [w Hw].
  { by rewrite (bl_length _ _ Hbl), length_add_links. }
  destruct (rep_encodes st t w M1 Hw (bl_rep _ _ Hbl _ _ _ Hw HM1)) as [_ ->].
  f_equal. unfold add_links in HM1. rewrite list_lookup_imap in HM1.
  destruct (Ms0 !! t) as [M0|]; simplify_eq/=.
  rewrite gmultiset_size_disj_union. f_equal.
  unfold mrep. by rewrite size_list_to_set_disj, length_replicate.
Qed.

(** X8.  [set] on a list that is reciprocal with the backlink column, in a run
    that seeds no cascade: the column is weak, or the old target row has a
    strong backlink left after the call, from the list, from another
    origin row or from another column.  It runs to the end and schedules no
    row; the list has the new target at the position, and the backlink
    column has lost one backlink from this origin row at the old target
    and gained one at the new target, so the two are reciprocal again.  The
    view and the cell are the same. *)
Theorem set_keeps_reciprocity Ms0 L s i t old :
  view_inv Ms0 L s → L !! i = Some old → t < length Ms0 →
  m_weak_links = true ∨
    0 < strong_backlinks other_strong_backlinks Ms0 (<[i := t]> L) old →
  ∃ s' tr, set_ i t s = Ok (tt, s') ∧
        trace s' = trace s ++ tr ∧ schedules_no_row tr ∧
        view_inv Ms0 (<[i := t]> L) s' ∧
        this s' = this s ∧ links (sys s') = links (sys s).
Proof.
  intros Hv Hold Ht Hidle.
  pose proof (lookup_lt_Some _ _ _ Hold) as Hi.
  destruct (view_inv_store _ _ _ Hv) as (ref & Hc & Hmri & Hf & Hh).
  { intros ->. simpl in Hi. lia. }
  destruct Hv as [Ha Hr Ho Hbl HL _].
  destruct s as [st [a r mri] v tr]; simpl in *. subst a mri.
  assert (old < length Ms0) as Holdlt.
  { rewrite Forall_lookup in HL. by eapply HL. }
  pose proof (bl_length _ _ Hbl) as Hlen. rewrite length_add_links in Hlen.
  (* the old backlink goes *)
  destruct (lookup_lt_is_Some_2 (add_links (Z.of_nat r) L Ms0) old) as [M HM];
    [by rewrite length_add_links|].
  destruct (add_links_delete _ _ _ _ _ _ Hold HM) as [Hin Heq].
  destruct (remove_one_backlink_spec get_row_ndx _ st (LinkView.key_of old)
              (LinkView.key_of r) M Hbl)
    as (st1 & Hrm & Hbl1 & Hl1 & Hlen1 & Hfr1); [by rewrite Hkey|done|].
  rewrite Hkey in Hbl1. simpl in Hbl1. rewrite <-Heq in Hbl1.
  destruct (Hfr1 _ Hf) as [Hf1 Hh1].
  (* the new one comes *)
  destruct (lookup_lt_is_Some_2 (add_links (Z.of_nat r) (delete i L) Ms0) t) as [M' HM'];
    [by rewrite length_add_links|].
  destruct (add_backlink_spec get_row_ndx _ st1 (LinkView.key_of t) (LinkView.key_of r) M'
              Hbl1)
    as (st2 & Hadd & Hbl2 & Hl2 & Hlen2 & Hfr2); [by rewrite Hkey|done|].
  rewrite Hkey in Hbl2. simpl in Hbl2.
  rewrite <-(add_links_replace _ _ _ _ _ _ _ Hold HM') in Hbl2.
  destruct (Hfr2 _ Hf1) as [Hf2 Hh2].
  (* the store is written *)
  set (st3 := set_heap (<[ref := <[i := Z.of_nat t]> (Z.of_nat <$> L)]> (heap st2)) st2).
  assert (bl_inv (add_links (Z.of_nat r) (<[i := t]> L) Ms0) st3) as Hbl3.
  { eapply bl_inv_frame; [exact Hbl2|done|]. intros w Hw Hwr. simpl.
    rewrite lookup_insert_ne; [done|]. intros <-. by destruct Hf2 as (_ & _ & Hn). }
  assert (foreign st3 ref) as Hf3.
  { destruct Hf2 as (? & ? & ?).
    split; [done|]. split; [simpl; rewrite lookup_insert_eq; by eexists|done]. }
  pose proof (backlink_count_add_links _ _ _ st3 old Hbl3 Holdlt) as Hn.
  assert (m_weak_links = false →
          0 < size (default ∅ (Ms0 !! old)) + cnt old (<[i := t]> L)
              + other_strong_backlinks old) as Hpos.
  { intros Hw. destruct Hidle as [Hw'|Hpos]; [congruence|exact Hpos]. }
  mrun. rewrite Hh. mrun. rewrite length_fmap.
  rewrite bool_decide_eq_true_2 by done. mrun.
  rewrite bool_decide_eq_true_2 by lia. mrun.
  destruct repl; mrun.
  all: rewrite ?Hh; mrun; rewrite list_lookup_fmap, Hold; mrun.
  all: rewrite decide_True by lia; mrun; rewrite Nat2Z.id, Hrm; mrun.
  all: rewrite Hadd; mrun; rewrite Hh2, Hh1, Hh; mrun.
  all: rewrite length_fmap, decide_True by done; mrun.
  all: fold st3.
  all: assert (links st3 = links st) as Hl3 by (simpl; congruence).
  all: assert (∀ v' tr', view_inv Ms0 (<[i := t]> L)
         {| sys := st3;
            this := {| m_origin_table := true; ndx_in_parent := r;
                       m_row_indexes := Some ref |};
            m_version := v'; trace := tr' |}) as Hview.
  1,3: intros v' tr'; split; simpl; try done;
       [by rewrite Hl2, Hl1|by apply Forall_insert_ok|].
  1,2: right; exists ref; simpl; rewrite Hl2, Hl1; split_and!; try done;
       simpl; by rewrite lookup_insert_eq, list_fmap_insert.
  all: destruct m_weak_links; simpl;
       [|rewrite Hn; simpl; rewrite decide_True by (by apply Hpos); simpl].
  all: eexists _, _; (split; [reflexivity|]); simpl.
  all: (split; [rewrite <-?app_assoc; reflexivity|]).
  all: (split; [by repeat constructor|]); split_and!; done.
Qed.

(** X9.  [remove] on a list that is reciprocal with the backlink column, in a
    run that seeds no cascade: the column is weak, or the old target row
    has a strong backlink left after the call, from the list, from another
    origin row or from another column.  It runs to the end and schedules no
    row; the list has lost the position and the backlink column one
    backlink from this origin row at the old target.  The store stays
    allocated and the cell keeps its ref, also when the last link is
    removed: an empty store is left, not the word 0. *)
Theorem remove_keeps_reciprocity_and_store Ms0 L s i old :
  view_inv Ms0 L s → L !! i = Some old →
  m_weak_links = true ∨
    0 < strong_backlinks other_strong_backlinks Ms0 (delete i L) old →
  ∃ s' tr ref, remove i s = Ok (tt, s') ∧
        trace s' = trace s ++ tr ∧ schedules_no_row tr ∧
        view_inv Ms0 (delete i L) s' ∧
        this s' = this s ∧ links (sys s') = links (sys s) ∧
        m_row_indexes (this s') = Some ref ∧ ref ≠ 0%Z ∧
        links (sys s') !! ndx_in_parent (this s) = Some ref ∧
        heap (sys s') !! ref = Some (Z.of_nat <$> delete i L).
Proof.
  intros Hv Hold Hidle.
  pose proof (lookup_lt_Some _ _ _ Hold) as Hi.
  destruct (view_inv_store _ _ _ Hv) as (ref & Hc & Hmri & Hf & Hh).
  { intros ->. simpl in Hi. lia. }
  destruct Hv as [Ha Hr Ho Hbl HL _].
  destruct s as [st [a r mri] v tr]; simpl in *. subst a mri.
  assert (old < length Ms0) as Holdlt.
  { rewrite Forall_lookup in HL. by eapply HL. }
  destruct (lookup_lt_is_Some_2 (add_links (Z.of_nat r) L Ms0) old) as [M HM];
    [by rewrite length_add_links|].
  destruct (add_links_delete _ _ _ _ _ _ Hold HM) as [Hin Heq].
  destruct (remove_one_backlink_spec get_row_ndx _ st (LinkView.key_of old)
              (LinkView.key_of r) M Hbl)
    as (st1 & Hrm & Hbl1 & Hl1 & Hlen1 & Hfr1); [by rewrite Hkey|done|].
  rewrite Hkey in Hbl1. simpl in Hbl1. rewrite <-Heq in Hbl1.
  destruct (Hfr1 _ Hf) as [Hf1 Hh1].
  set (st2 := set_heap (<[ref := delete i (Z.of_nat <$> L)]> (heap st1)) st1).
  assert (bl_inv (add_links (Z.of_nat r) (delete i L) Ms0) st2) as Hbl2.
  { eapply bl_inv_frame; [exact Hbl1|done|]. intros w Hw Hwr. simpl.
    rewrite lookup_insert_ne; [done|]. intros <-. by destruct Hf1 as (_ & _ & Hn). }
  assert (foreign st2 ref) as Hf2.
  { destruct Hf1 as (? & ? & ?).
    split; [done|]. split; [simpl; rewrite lookup_insert_eq; by eexists|done]. }
  pose proof (backlink_count_add_links _ _ _ st2 old Hbl2 Holdlt) as Hn.
  assert (m_weak_links = false →
          0 < size (default ∅ (Ms0 !! old)) + cnt old (delete i L)
              + other_strong_backlinks old) as Hpos.
  { intros Hw. destruct Hidle as [Hw'|Hpos]; [congruence|exact Hpos]. }
  assert (ref ≠ 0%Z) as Href by (by destruct Hf as [[] _]).
  mrun. rewrite Hh. mrun. rewrite length_fmap.
  rewrite bool_decide_eq_true_2 by done. mrun.
  destruct repl; mrun.
  all: rewrite ?Hh; mrun; rewrite list_lookup_fmap, Hold; mrun.
  all: rewrite decide_True by lia; mrun; rewrite Nat2Z.id, Hrm; mrun.
  all: rewrite Hh1, Hh; mrun.
  all: rewrite length_fmap, decide_True by done; mrun.
  all: fold st2.
  all: assert (∀ v' tr', view_inv Ms0 (delete i L)
         {| sys := st2;
            this := {| m_origin_table := true; ndx_in_parent := r;
                       m_row_indexes := Some ref |};
            m_version := v'; trace := tr' |}) as Hview.
  1,3: intros v' tr'; split; simpl; try done;
       [by rewrite Hl1|by apply Forall_delete_ok|].
  1,2: right; exists ref; simpl; rewrite Hl1; split_and!; try done;
       simpl; by rewrite lookup_insert_eq, list_fmap_delete.
  all: destruct m_weak_links; simpl;
       [|rewrite Hn; simpl; rewrite decide_True by (by apply Hpos); simpl].
  all: eexists _, _, ref; (split; [reflexivity|]); simpl.
  all: (split; [rewrite <-?app_assoc; reflexivity|]).
  all: (split; [by repeat constructor|]).
  all: rewrite ?Hl1; split_and!; try done;
       by rewrite lookup_insert_eq, list_fmap_delete.
Qed.

(** X10.  The bounds of the mutators on an attached list of length [n] with
    targets among [m] rows: [insert] beyond the end, [set] and [remove] at
    or beyond the end, and a target row outside the target table stop at an
    assertion; [move] and [swap] throw [link_index_out_of_range] for a
    position at or beyond the end, also on a list without store. *)
Theorem mutators_out_of_bounds Ms0 L s :
  view_inv Ms0 L s →
  (∀ i t, length L < i ∨ length Ms0 ≤ t →
          LinkView.insert get_row_ndx repl i t s = Assert_failed) ∧
  (∀ i t, length L ≤ i ∨ length Ms0 ≤ t → set_ i t s = Assert_failed) ∧
  (∀ i, length L ≤ i → remove i s = Assert_failed) ∧
  (∀ a b, length L ≤ a ∨ length L ≤ b →
          LinkView.move repl a b s = Throws link_index_out_of_range ∧
          LinkView.swap repl a b s = Throws link_index_out_of_range).
Proof.
  intros [Ha Hr Ho Hbl HL Hcell].
  pose proof (bl_length _ _ Hbl) as Hlen. rewrite length_add_links in Hlen.
  destruct s as [st [a r mri] v tr]; simpl in *. subst a.
  destruct Hcell as [(Hc & -> & ->)|(ref & Hc & -> & Hf & Hh)].
  - split_and!.
    + intros i t [Hi|Ht]; mrun.
      * rewrite bool_decide_eq_false_2 by (simpl in Hi; lia). done.
      * destruct (bool_decide (i = 0)); [|done]. mrun.
        by rewrite bool_decide_eq_false_2 by lia.
    + intros i t _. by mrun.
    + intros i _. by mrun.
    + intros a b _. split; by mrun.
  - split_and!.
    + intros i t [Hi|Ht]; mrun; rewrite Hh; mrun; rewrite length_fmap.
      * by rewrite bool_decide_eq_false_2 by lia.
      * destruct (bool_decide (i ≤ length L)); [|done]. mrun.
        by rewrite bool_decide_eq_false_2 by lia.
    + intros i t [Hi|Ht]; mrun; rewrite Hh; mrun; rewrite length_fmap.
      * by rewrite bool_decide_eq_false_2 by lia.
      * destruct (bool_decide (i < length L)); [|done]. mrun.
        by rewrite bool_decide_eq_false_2 by lia.
    + intros i Hi. mrun. rewrite Hh. mrun. rewrite length_fmap.
      by rewrite bool_decide_eq_false_2 by lia.
    + intros a b Hab. split; mrun; rewrite Hh; mrun; rewrite length_fmap;
        by rewrite decide_True by done.
Qed.

(** X11.  [insert] on a list that is reciprocal with the backlink column, at a
    position up to the end and with a target row of the target table: it
    runs to the end, the list has the new target at the position, the
    backlink column has gained one backlink from this origin row at the
    target, and the store is attached afterwards. *)
Theorem insert_keeps_reciprocity Ms0 L s i t :
  view_inv Ms0 L s → i ≤ length L → t < length Ms0 →
  ∃ s', LinkView.insert get_row_ndx repl i t s = Ok (tt, s') ∧
        view_inv Ms0 (vector_insert i t L) s' ∧
        ndx_in_parent (this s') = ndx_in_parent (this s) ∧
        is_Some (m_row_indexes (this s')).
Proof. apply (insert_ok get_row_ndx repl Hkey). Qed.

(** X12.  [clear] on a list with a store that is reciprocal with the backlink
    column, in a run that schedules no row for removal: the column is
    weak, or every target row of the list has a strong backlink apart from
    those of the list.  It runs to the end, every backlink that the list
    accounted for is removed from the backlink column, the store is freed,
    the cell is 0 and the store accessor detached. *)
Theorem clear_removes_the_backlinks Ms0 L s ref :
  view_inv Ms0 L s → m_row_indexes (this s) = Some ref →
  m_weak_links = true ∨
    (∀ t, t ∈ L → 0 < strong_backlinks other_strong_backlinks Ms0 [] t) →
  ∃ s' tr, LinkView.clear get_row_ndx m_weak_links repl other_strong_backlinks s
          = Ok (tt, s') ∧
        trace s' = trace s ++ tr ∧ schedules_no_row tr ∧
        links (sys s') !! ndx_in_parent (this s) = Some 0%Z ∧
        heap (sys s') !! ref = None ∧
        m_row_indexes (this s') = None ∧
        bl_inv Ms0 (sys s').
Proof. apply (clear_idle_ok get_row_ndx m_weak_links repl other_strong_backlinks Hkey). Qed.

End ListMutators.

(** ** A list view: reordering and rewriting the list *)

Section ListReorder.
Import BacklinkSpec.

Variable repl : bool.

Lemma vector_insert_delete {A} (l : list A) i x :
  l !! i = Some x → vector_insert i x (delete i l) = l.
Proof.
  revert i. induction l as [|a l IH]; intros [|i] Hi; simplify_eq/=.
  - unfold vector_insert. simpl. by rewrite drop_0.
  - unfold vector_insert in *. simpl. f_equal. by apply IH.
Qed.

Lemma vector_insert_perm {A} (l : list A) i x : vector_insert i x l ≡ₚ x :: l.
Proof.
  unfold vector_insert. rewrite <-Permutation_middle. by rewrite take_drop.
Qed.

Lemma fmap_vector_insert {A B} (f : A → B) (l : list A) i x :
  f <$> vector_insert i x l = vector_insert i (f x) (f <$> l).
Proof. unfold vector_insert. by rewrite fmap_app, fmap_cons, fmap_take, fmap_drop. Qed.

(** A view whose list changes in the store only, by a permutation. *)
Lemma view_inv_permuted Ms0 L L' st r ref v tr v' tr' :
  view_inv Ms0 L {| sys := st;
                    this := {| m_origin_table := true; ndx_in_parent := r;
                               m_row_indexes := Some ref |};
                    m_version := v; trace := tr |} →
  heap st !! ref = Some (Z.of_nat <$> L) → L' ≡ₚ L →
  view_inv Ms0 L'
    {| sys := set_heap (<[ref := Z.of_nat <$> L']> (heap st)) st;
       this := {| m_origin_table := true; ndx_in_parent := r;
                  m_row_indexes := Some ref |};
       m_version := v'; trace := tr' |}.
Proof.
  intros [Ha Hr Ho Hbl HL Hcell] Hh Hp. simpl in *.
  assert (links st !! r = Some ref ∧ foreign st ref) as [Hc Hf].
  { destruct Hcell as [(_ & ? & _)|(ref' & ? & ? & ? & _)]; [done|]. by simplify_eq. }
  split; simpl; try done.
  - rewrite (add_links_perm _ L' L) by done.
    eapply bl_inv_frame; [exact Hbl|done|]. intros w Hw Hwr. simpl.
    rewrite lookup_insert_ne; [done|]. intros <-. by destruct Hf as (_ & _ & Hn).
  - by rewrite Hp.
  - right. exists ref. split_and!; try done.
    + destruct Hf as (? & ? & ?).
      split; [done|]. split; [simpl; rewrite lookup_insert_eq; by eexists|done].
    + simpl. by rewrite lookup_insert_eq.
Qed.

(** X13.  [move] takes the link at position [a] out and puts it in at position
    [b] of what is left; the backlink column and the cell are not touched,
    and the list and the backlinks stay reciprocal. *)
Theorem move_reorders_only Ms0 L s a b x :
  view_inv Ms0 L s → L !! a = Some x → b < length L →
  ∃ s', LinkView.move repl a b s = Ok (tt, s') ∧
        view_inv Ms0 (vector_insert b x (delete a L)) s' ∧
        old_target s' b = Some x ∧
        backlinks (sys s') = backlinks (sys s) ∧
        links (sys s') = links (sys s) ∧ this s' = this s.
Proof.
  intros Hv Ha Hb. pose proof (lookup_lt_Some _ _ _ Ha) as Halt.
  destruct (view_inv_store _ _ _ Hv) as (ref & Hc & Hmri & Hf & Hh).
  { intros ->. simpl in Hb. lia. }
  destruct s as [st [at_ r mri] v tr]; simpl in *. subst mri.
  assert (at_ = true) as -> by (by destruct Hv).
  assert (length (delete a L) = length L - 1) as Hdl by (by apply length_delete).
  assert (vector_insert b x (delete a L) ≡ₚ L) as Hperm.
  { rewrite vector_insert_perm. symmetry. by apply delete_Permutation. }
  assert ((vector_insert b x (delete a L) !! b) = Some x) as Hlook.
  { unfold vector_insert. rewrite lookup_app_r by (rewrite length_take; lia).
    rewrite length_take. by replace (b - b `min` length (delete a L)) with 0 by lia. }
  mrun. rewrite Hh. mrun. rewrite length_fmap.
  rewrite decide_False by lia. mrun.
  case_decide as Hab.
  - subst b. exists {| sys := st;
                       this := {| m_origin_table := true; ndx_in_parent := r;
                                  m_row_indexes := Some ref |};
                       m_version := v; trace := tr |}.
    split; [done|]. rewrite vector_insert_delete by done. split_and!; try done.
    unfold old_target. simpl. rewrite Hh. simpl. rewrite list_lookup_fmap, Ha. simpl.
    by rewrite Nat2Z.id.
  - mrun. rewrite Hh. mrun. rewrite list_lookup_fmap, Ha. mrun.
    rewrite decide_True by lia. mrun. rewrite Hh. mrun. rewrite length_fmap.
    rewrite decide_True by done. mrun. rewrite lookup_insert_eq. mrun.
    rewrite length_delete by (rewrite list_lookup_fmap, Ha; by eexists).
    rewrite length_fmap, decide_True by lia. mrun.
    rewrite Nat2Z.id. unfold set_heap. simpl. rewrite insert_insert_eq.
    rewrite <-list_fmap_delete, <-fmap_vector_insert.
    destruct repl; mrun; eexists; (split; [reflexivity|]); simpl.
    all: split; [by eapply (view_inv_permuted Ms0 L)|].
    all: split_and!; try done.
    all: unfold old_target; simpl; rewrite lookup_insert_eq; simpl.
    all: rewrite list_lookup_fmap, Hlook; simpl; by rewrite Nat2Z.id.
Qed.

(** [swap] does not depend on the order of its two positions. *)
Lemma swap_symmetric a b s : LinkView.swap repl a b s = LinkView.swap repl b a s.
Proof.
  destruct s as [st [[|] r [ref|]] v tr]; try (by mrun).
  destruct (heap st !! ref) as [l|] eqn:Hh; [|mrun; rewrite Hh; by mrun].
  mrun. rewrite Hh. mrun.
  destruct (decide (length l ≤ a ∨ length l ≤ b)) as [H1|H1],
           (decide (length l ≤ b ∨ length l ≤ a)) as [H2|H2]; try done; try (exfalso; lia).
  mrun. destruct (decide (a = b)) as [->|Hab].
  - by rewrite decide_True by done.
  - rewrite (decide_False (P := b = a)) by lia.
    destruct (decide (b < a)), (decide (a < b)); try done; lia.
Qed.

(** X14.  [swap] exchanges the links at two positions of the list, in either
    order of the positions; the backlink column and the cell are not
    touched, and the list and the backlinks stay reciprocal. *)
Theorem swap_exchanges_positions Ms0 L s a b x y :
  view_inv Ms0 L s → L !! a = Some x → L !! b = Some y →
  ∃ s', LinkView.swap repl a b s = Ok (tt, s') ∧
        LinkView.swap repl b a s = Ok (tt, s') ∧
        view_inv Ms0 (<[b := x]> (<[a := y]> L)) s' ∧
        backlinks (sys s') = backlinks (sys s) ∧
        links (sys s') = links (sys s) ∧ this s' = this s.
Proof.
  assert (∀ a b x y, a < b →
    view_inv Ms0 L s → L !! a = Some x → L !! b = Some y →
    ∃ s', LinkView.swap repl a b s = Ok (tt, s') ∧
          view_inv Ms0 (<[b := x]> (<[a := y]> L)) s' ∧
          backlinks (sys s') = backlinks (sys s) ∧
          links (sys s') = links (sys s) ∧ this s' = this s) as Hlt.
  { clear a b x y. intros a b x y Hab Hv Ha Hb.
    pose proof (lookup_lt_Some _ _ _ Ha) as Halt.
    pose proof (lookup_lt_Some _ _ _ Hb) as Hblt.
    destruct (view_inv_store _ _ _ Hv) as (ref & Hc & Hmri & Hf & Hh).
    { intros ->. simpl in Halt. lia. }
    destruct s as [st [at_ r mri] v tr]; simpl in *. subst mri.
    assert (at_ = true) as -> by (by destruct Hv).
    mrun. rewrite Hh. mrun. rewrite length_fmap.
    rewrite decide_False by lia. mrun.
    rewrite decide_False by lia. rewrite decide_False by lia. mrun.
    rewrite Hh. mrun. rewrite list_lookup_fmap, Ha. mrun.
    rewrite decide_True by lia. mrun. rewrite Hh. mrun.
    rewrite list_lookup_fmap, Hb. mrun. rewrite Hh. mrun.
    rewrite length_fmap, decide_True by done. mrun.
    rewrite lookup_insert_eq. mrun.
    rewrite length_insert, length_fmap, decide_True by done. mrun.
    rewrite Nat2Z.id. unfold set_heap. simpl. rewrite insert_insert_eq.
    rewrite <-!list_fmap_insert.
    destruct repl; mrun; eexists; (split; [reflexivity|]); simpl.
    all: split; [|done].
    all: eapply (view_inv_permuted Ms0 L); [exact Hv|done|].
    all: by apply Permutation_insert_swap. }
  intros Hv Ha Hb.
  destruct (Nat.lt_trichotomy a b) as [Hab|[->|Hab]].
  - destruct (Hlt a b x y Hab Hv Ha Hb) as (s' & H1 & H2). exists s'.
    split; [done|]. split; [by rewrite <-swap_symmetric|done].
  - simplify_eq. exists s. rewrite list_insert_insert_eq, list_insert_id by done.
    assert (LinkView.swap repl b b s = Ok (tt, s)) as Hsw.
    { pose proof (lookup_lt_Some _ _ _ Ha) as Halt.
      destruct (view_inv_store _ _ _ Hv) as (ref & Hc & Hmri & Hf & Hh).
      { intros ->. simpl in Halt. lia. }
      destruct s as [st [at_ r mri] v tr]; simpl in *. subst mri.
      assert (at_ = true) as -> by (by destruct Hv).
      mrun. rewrite Hh. mrun. rewrite length_fmap.
      rewrite decide_False by lia. mrun. by rewrite decide_True by done. }
    by split_and!.
  - destruct (Hlt b a y x Hab Hv Hb Ha) as (s' & H1 & H2 & H3). exists s'.
    split; [by rewrite swap_symmetric|]. split; [done|]. split; [|done].
    by rewrite list_insert_insert_ne by lia.
Qed.

End ListReorder.

(** ** A list view: the calls from the backlink column *)

Section ListRewrites.

Variable repl : bool.

Lemma find_first_first (v : Z) (l : list Z) i :
  find_first v l = Some i ↔ l !! i = Some v ∧ ∀ j, j < i → l !! j ≠ Some v.
Proof.
  unfold find_first. split.
  - destruct (list_find (λ x, x = v) l) as [[i' y]|] eqn:E; [|done].
    intros [= <-]. simpl. apply list_find_Some in E as (Hi & -> & Hj).
    split; [done|]. intros j Hj' Hl. by eapply (Hj j v).
  - intros [Hi Hj]. assert (list_find (λ x, x = v) l = Some (i, v)) as ->; [|done].
    apply list_find_Some. split; [done|]. split; [done|].
    intros j y Hy Hji ->. by eapply Hj.
Qed.

Lemma find_first_nat (t : nat) (L : list nat) i :
  find_first (Z.of_nat t) (Z.of_nat <$> L) = Some i ↔
  L !! i = Some t ∧ ∀ j, j < i → L !! j ≠ Some t.
Proof.
  rewrite find_first_first. rewrite list_lookup_fmap.
  split; intros [Hi Hj]; split.
  - destruct (L !! i) as [x|]; simplify_eq/=; done.
  - intros j Hji Hl. apply (Hj j Hji). by rewrite list_lookup_fmap, Hl.
  - by rewrite Hi.
  - intros j Hji Hl. apply (Hj j Hji). rewrite list_lookup_fmap in Hl.
    destruct (L !! j) as [x|]; simplify_eq/=; done.
Qed.

(** X15.  [do_update_link] rewrites the first link to the old target row and no
    other, as its comment says; the backlink column is left to the caller.
    Without a link to the old target row it stops at an assertion. *)
Theorem do_update_link_rewrites_first L s ref old new :
  m_row_indexes (this s) = Some ref → heap (sys s) !! ref = Some (Z.of_nat <$> L) →
  (old ∉ L → LinkView.do_update_link old new s = Assert_failed) ∧
  (old ∈ L →
     ∃ pos, L !! pos = Some old ∧ (∀ j, j < pos → L !! j ≠ Some old) ∧
       LinkView.do_update_link old new s =
         Ok (tt, {| sys := set_heap (<[ref := Z.of_nat <$> <[pos := new]> L]> (heap (sys s)))
                             (sys s);
                    this := this s; m_version := m_version s;
                    trace := trace s ++ [ForwardUpdate] |})).
Proof.
  intros Hmri Hh. destruct s as [st [at_ r mri] v tr]; simpl in *. subst mri. split.
  - intros Hnin. mrun. rewrite Hh. mrun.
    rewrite find_first_None; [done|].
    intros Hin. apply list_elem_of_fmap in Hin as (x & Hx & Hin).
    apply Nat2Z.inj in Hx as <-. done.
  - intros Hin.
    assert (Z.of_nat old ∈ Z.of_nat <$> L) as Hin' by by apply list_elem_of_fmap_2.
    destruct (find_first_elem_of _ _ Hin') as (pos & Hff & _).
    pose proof Hff as Hff'. apply find_first_nat in Hff' as [Hpos Hmin].
    exists pos. split; [done|]. split; [done|].
    mrun. rewrite Hh. mrun. rewrite Hff. mrun. rewrite Hh. mrun.
    rewrite length_fmap, decide_True by by eapply lookup_lt_Some.
    mrun. by rewrite list_fmap_insert.
Qed.

(** X16.  [do_nullify_link] on a list with more than one link erases the first
    link to the target row and no other; the store and the cell of the
    origin row stay as they are.  The replication instruction carries the
    position and comes before the erase.  Without a link to the target row
    it stops at an assertion. *)
Theorem do_nullify_link_erases_first L s ref t :
  m_row_indexes (this s) = Some ref → heap (sys s) !! ref = Some (Z.of_nat <$> L) →
  (t ∉ L → LinkView.do_nullify_link repl t s = Assert_failed) ∧
  (t ∈ L → 2 ≤ length L →
     ∃ pos, L !! pos = Some t ∧ (∀ j, j < pos → L !! j ≠ Some t) ∧
       LinkView.do_nullify_link repl t s =
         Ok (tt, {| sys := set_heap (<[ref := Z.of_nat <$> delete pos L]> (heap (sys s)))
                             (sys s);
                    this := this s; m_version := m_version s;
                    trace := trace s
                             ++ (if repl then [Replication (link_list_nullify pos)] else [])
                             ++ [ForwardUpdate] |})).
Proof.
  intros Hmri Hh. destruct s as [st [at_ r mri] v tr]; simpl in *. subst mri. split.
  - intros Hnin. mrun. rewrite Hh. mrun.
    rewrite find_first_None; [done|].
    intros Hin. apply list_elem_of_fmap in Hin as (x & Hx & Hin).
    apply Nat2Z.inj in Hx as <-. done.
  - intros Hin Hlen.
    assert (Z.of_nat t ∈ Z.of_nat <$> L) as Hin' by by apply list_elem_of_fmap_2.
    destruct (find_first_elem_of _ _ Hin') as (pos & Hff & _).
    pose proof Hff as Hff'. apply find_first_nat in Hff' as [Hpos Hmin].
    exists pos. split; [done|]. split; [done|].
    pose proof (lookup_lt_Some _ _ _ Hpos) as Hlt.
    mrun. rewrite Hh. mrun. rewrite Hff.
    destruct repl; mrun; rewrite Hh; mrun;
      rewrite length_fmap, decide_True by done; mrun;
      rewrite lookup_insert_eq; mrun;
      rewrite length_delete by (rewrite list_lookup_fmap, Hpos; done);
      rewrite length_fmap;
      (rewrite decide_False by lia); mrun;
      by rewrite list_fmap_delete, <-?app_assoc.
Qed.

Lemma row_indexes_set_eq s ref l i t :
  m_row_indexes (this s) = Some ref → heap (sys s) !! ref = Some l → i < length l →
  LinkView.row_indexes_set i t s =
    Ok (tt, {| sys := set_heap (<[ref := <[i := Z.of_nat t]> l]> (heap (sys s))) (sys s);
               this := this s; m_version := m_version s;
               trace := trace s ++ [ForwardUpdate] |}).
Proof.
  intros Hmri Hh Hi. mrun. rewrite Hmri, Hh. mrun. by rewrite decide_True by done.
Qed.

Lemma bind_bind_eq {A B C} (m : M A) (k0 : A → M B) (k : B → M C) s a s1 :
  m s = Ok (a, s1) → ((m ≫= k0) ≫= k) s = (k0 a ≫= k) s1.
Proof. unfold mbind, M_bind. by intros ->. Qed.

Lemma exchange_step {A} (f : A → A) (cur : list A) lo x :
  cur !! lo = Some x →
  take (S lo) (<[lo := f x]> cur) ++ (f <$> drop (S lo) (<[lo := f x]> cur))
  = take lo cur ++ (f <$> drop lo cur).
Proof.
  intros Hx. pose proof (lookup_lt_Some _ _ _ Hx) as Hlo.
  rewrite (take_S_r _ lo (f x)) by (by apply list_lookup_insert_eq).
  rewrite take_insert_ge by lia. rewrite drop_insert_lt by lia.
  rewrite (drop_S cur x lo Hx). rewrite fmap_cons. by rewrite <-app_assoc.
Qed.

Lemma do_swap_link_loop t1 t2 ref : ∀ n lo cur s,
  m_row_indexes (this s) = Some ref →
  heap (sys s) !! ref = Some (Z.of_nat <$> cur) → lo + n = length cur →
  ∃ tr,
    for_loop lo n (λ i (_ : unit),
      LinkView.row_indexes_get i ≫= λ v,
      if decide (v = t1) then LinkView.row_indexes_set i t2
      else if decide (v = t2) then LinkView.row_indexes_set i t1
      else skip) tt s
    = Ok (tt, {| sys := set_heap
                   (<[ref := Z.of_nat <$> (take lo cur ++ (exchange t1 t2 <$> drop lo cur))]>
                      (heap (sys s))) (sys s);
                 this := this s; m_version := m_version s;
                 trace := trace s ++ tr |}) ∧
    Forall (λ e, e = ForwardUpdate) tr.
Proof.
  induction n as [|n IH]; intros lo cur s Hmri Hh Hlen.
  - exists []. rewrite for_loop_0. split; [|done].
    rewrite drop_ge, app_nil_r, take_ge by lia.
    rewrite insert_id by done. destruct s as [[] ? ? ?]. simpl. by rewrite app_nil_r.
  - destruct (lookup_lt_is_Some_2 cur lo) as [x Hx]; [lia|].
    rewrite for_loop_S. cbv beta.
    rewrite (bind_bind_eq _ _ _ _ _ _ (row_indexes_get_eq s ref cur lo x Hmri Hh Hx)).
    assert (∀ s1 tr1,
      this s1 = this s → m_version s1 = m_version s → trace s1 = trace s ++ tr1 →
      Forall (λ e, e = ForwardUpdate) tr1 →
      sys s1 = set_heap (<[ref := Z.of_nat <$> <[lo := exchange t1 t2 x]> cur]>
                           (heap (sys s))) (sys s) →
      ∃ tr, for_loop (S lo) n (λ i (_ : unit),
              LinkView.row_indexes_get i ≫= λ v,
              if decide (v = t1) then LinkView.row_indexes_set i t2
              else if decide (v = t2) then LinkView.row_indexes_set i t1
              else skip) tt s1
            = Ok (tt, {| sys := set_heap
                   (<[ref := Z.of_nat <$> (take lo cur ++ (exchange t1 t2 <$> drop lo cur))]>
                      (heap (sys s))) (sys s);
                 this := this s; m_version := m_version s;
                 trace := trace s ++ tr |}) ∧
            Forall (λ e, e = ForwardUpdate) tr) as Hnext.
    { intros s1 tr1 Hthis Hver Htr Hall Hsys.
      destruct (IH (S lo) (<[lo := exchange t1 t2 x]> cur) s1) as (tr2 & Hrun & Hall2).
      - by rewrite Hthis.
      - rewrite Hsys. simpl. by rewrite lookup_insert_eq.
      - rewrite length_insert. lia.
      - exists (tr1 ++ tr2). split; [|by apply Forall_app].
        rewrite Hrun. rewrite exchange_step by done.
        rewrite Hthis, Hver, Htr, Hsys. unfold set_heap. simpl.
        by rewrite insert_insert_eq, app_assoc. }
    assert (lo < length (Z.of_nat <$> cur)) as Hlo by (rewrite length_fmap; lia).
    destruct (decide (x = t1)) as [->|Hne1].
    + rewrite (bind_eq _ _ _ _ _ (row_indexes_set_eq s ref _ lo t2 Hmri Hh Hlo)).
      apply (Hnext _ [ForwardUpdate]); try done.
      * by apply Forall_singleton.
      * simpl. unfold exchange. rewrite decide_True by done. by rewrite list_fmap_insert.
    + destruct (decide (x = t2)) as [->|Hne2].
      * rewrite (bind_eq _ _ _ _ _ (row_indexes_set_eq s ref _ lo t1 Hmri Hh Hlo)).
        apply (Hnext _ [ForwardUpdate]); try done.
        -- by apply Forall_singleton.
        -- simpl. unfold exchange. rewrite decide_False, decide_True by done.
           by rewrite list_fmap_insert.
      * rewrite (bind_eq _ _ s tt s) by done.
        apply (Hnext s []); try done.
        -- by rewrite app_nil_r.
        -- unfold exchange. rewrite !decide_False by done.
           rewrite list_insert_id by done. rewrite insert_id by done.
           by destruct s as [[] ? ? ?].
Qed.

(** X17.  [do_swap_link] exchanges the two target rows in every link of the list
    and touches nothing but the store of the list; doing it twice gives the
    list back. *)
Theorem do_swap_link_exchanges_targets L s ref t1 t2 :
  m_row_indexes (this s) = Some ref → heap (sys s) !! ref = Some (Z.of_nat <$> L) →
  ∃ s' s'',
    LinkView.do_swap_link t1 t2 s = Ok (tt, s') ∧
    heap (sys s') = <[ref := Z.of_nat <$> (exchange t1 t2 <$> L)]> (heap (sys s)) ∧
    backlinks (sys s') = backlinks (sys s) ∧ links (sys s') = links (sys s) ∧
    this s' = this s ∧ m_version s' = m_version s ∧
    LinkView.do_swap_link t1 t2 s' = Ok (tt, s'') ∧
    sys s'' = sys s.
Proof.
  assert (∀ L s, m_row_indexes (this s) = Some ref →
            heap (sys s) !! ref = Some (Z.of_nat <$> L) →
            ∃ tr, LinkView.do_swap_link t1 t2 s =
              Ok (tt, {| sys := set_heap
                           (<[ref := Z.of_nat <$> (exchange t1 t2 <$> L)]> (heap (sys s)))
                           (sys s);
                         this := this s; m_version := m_version s;
                         trace := trace s ++ tr |})) as Hspec.
  { clear L s. intros L s Hmri Hh.
    destruct (do_swap_link_loop t1 t2 ref (length L) 0 L s Hmri Hh) as (tr & Hrun & _);
      [done|].
    exists tr. unfold LinkView.do_swap_link.
    rewrite (bind_eq _ _ s true s) by (mrun; by rewrite Hmri).
    rewrite (bind_eq _ _ s tt s) by done.
    rewrite (bind_eq _ _ _ _ _ (row_indexes_size_eq s ref _ Hmri Hh)).
    rewrite length_fmap. rewrite Hrun. by rewrite take_0, drop_0. }
  intros Hmri Hh. destruct (Hspec L s Hmri Hh) as [tr Hrun].
  set (s1 := {| sys := set_heap
                         (<[ref := Z.of_nat <$> (exchange t1 t2 <$> L)]> (heap (sys s)))
                         (sys s);
                this := this s; m_version := m_version s;
                trace := trace s ++ tr |}) in *.
  destruct (Hspec (exchange t1 t2 <$> L) s1) as [tr' Hrun']; [done| |].
  { simpl. by rewrite lookup_insert_eq. }
  eexists s1, _. split; [exact Hrun|]. split_and!; try done; try exact Hrun'.
  simpl. unfold set_heap. simpl. rewrite insert_insert_eq.
  assert (exchange t1 t2 <$> (exchange t1 t2 <$> L) = L) as ->.
  { rewrite <-list_fmap_compose. rewrite <-(list_fmap_id L) at 2. apply list_fmap_ext.
    intros i x _. apply exchange_involutive. }
  rewrite insert_id by done. by destruct s as [[] ? ? ?].
Qed.

End ListRewrites.

(** ** The registry: what happens to the views that are handed out *)

Section RegistryViews.
Import LinkListColumn RegistrySpec RegistryAux.

Implicit Types l A B : list list_entry.
Implicit Types e : list_entry.
Implicit Types c : Accessors.

Lemma sorted_lookup_row l e :
  sorted l → e ∈ l → l !! lower_bound (m_row_ndx e) l = Some e.
Proof.
  intros Hs He. apply list_elem_of_lookup in He as [i Hi].
  by rewrite (lower_bound_found l i e Hs Hi).
Qed.

Lemma omap_app_disjoint A B a b h :
  NoDup (omap m_list (A ++ B)) → a ∈ A → b ∈ B → m_list a = Some h → m_list b ≠ Some h.
Proof.
  rewrite omap_app. intros Hnd Ha Hb Hah Hbh.
  apply NoDup_app in Hnd as (_ & Hdis & _). apply (Hdis h).
  - apply list_elem_of_omap. by exists a.
  - apply list_elem_of_omap. by exists b.
Qed.

Lemma omap_unique l : ∀ i j a b h,
  NoDup (omap m_list l) → l !! i = Some a → l !! j = Some b →
  m_list a = Some h → m_list b = Some h → i = j.
Proof.
  induction l as [|e l IH]; intros i j a b h Hnd Hi Hj Ha Hb; [done|].
  assert (∀ k x, m_list e = Some h → l !! k = Some x → m_list x = Some h → False) as Hhead.
  { intros k x He Hk Hx. simpl in Hnd. rewrite He in Hnd.
    apply NoDup_cons in Hnd as [Hnin _]. apply Hnin.
    apply list_elem_of_omap. exists x. split; [|done]. by eapply list_elem_of_lookup_2. }
  assert (NoDup (omap m_list l)) as Hnd'.
  { simpl in Hnd. destruct (m_list e); [by apply NoDup_cons in Hnd as [_ ?]|done]. }
  destruct i as [|i], j as [|j]; simplify_eq/=; try done.
  - exfalso. by eapply Hhead.
  - exfalso. by eapply Hhead.
  - f_equal. by eapply IH.
Qed.

(** A view that [detach] has been called on. *)
Local Abbreviation detached vs h :=
  (∃ o, vs !! h = Some o ∧ m_origin_table o = false ∧ m_row_indexes o = None).

Lemma detach_view_eq h vs : is_Some (vs !! h) → detached (detach_view h vs) h.
Proof.
  intros [o Ho]. unfold detach_view. rewrite lookup_alter_eq, Ho. simpl. by eexists.
Qed.

Lemma detach_view_keeps h h' vs : detached vs h → detached (detach_view h' vs) h.
Proof.
  intros (o & Ho & H1 & H2). destruct (decide (h' = h)) as [->|Hne].
  - apply detach_view_eq. by eexists.
  - rewrite detach_view_ne by done. by exists o.
Qed.

Lemma detach_entries_keeps l : ∀ vs h, detached vs h → detached (detach_entries l vs) h.
Proof.
  unfold detach_entries. induction l as [|e l IH]; intros vs h Hd; [done|].
  simpl. apply IH. destruct (lock vs e); [by apply detach_view_keeps|done].
Qed.

Lemma detach_entries_detaches l : ∀ vs e h,
  e ∈ l → m_list e = Some h → is_Some (vs !! h) → detached (detach_entries l vs) h.
Proof.
  induction l as [|e' l IH]; intros vs e h He Hm Hv; [by apply elem_of_nil in He|].
  apply elem_of_cons in He as [<-|He].
  - change (detach_entries (e :: l) vs)
      with (detach_entries l (match lock vs e with Some h => detach_view h vs | None => vs end)).
    apply detach_entries_keeps.
    assert (lock vs e = Some h) as -> by by apply lock_Some.
    by apply detach_view_eq.
  - change (detach_entries (e' :: l) vs)
      with (detach_entries l (match lock vs e' with Some h => detach_view h vs | None => vs end)).
    eapply IH; [done..|]. destruct (lock vs e'); [by apply detach_view_dom|done].
Qed.

Lemma same_views_detached vs vs' h : same_views vs vs' → detached vs h → detached vs' h.
Proof.
  intros Hsv (o & Ho & H1 & H2). specialize (Hsv h). rewrite Ho in Hsv.
  destruct (vs' !! h) as [o'|]; [|done]. destruct Hsv as [E1 E2].
  exists o'. split; [done|]. split; congruence.
Qed.

Lemma elem_of_insert_other {T} (k : list T) i x y z :
  z ∈ k → k !! i = Some y → z ≠ y → z ∈ <[i := x]> k.
Proof.
  intros Hz Hi Hne. apply list_elem_of_lookup in Hz as [j Hj].
  apply (list_elem_of_lookup_2 _ j). rewrite list_lookup_insert_ne; [done|].
  intros ->. congruence.
Qed.

Lemma lock_insert_view vs e h n o :
  lock vs e = Some h → lock (<[n := o]> vs) e = Some h.
Proof.
  rewrite !lock_Some. intros [Hm Hv]. split; [done|].
  destruct (decide (n = h)) as [->|Hne].
  - by rewrite lookup_insert_eq.
  - by rewrite lookup_insert_ne.
Qed.

(** [get_ptr] leaves the entries of live views in the registry. *)
Lemma get_ptr_keeps cells row c v c1 e h :
  get_ptr cells row c = Ok (v, c1) →
  e ∈ m_list_accessors c → lock (views c) e = Some h →
  e ∈ m_list_accessors c1 ∧ lock (views c1) e = Some h.
Proof.
  intros Hget He Hlock. unfold get_ptr in Hget.
  case_decide as Hrow; [|done].
  set (l := m_list_accessors c) in *. set (it := lower_bound row l) in *.
  assert (∀ i y, l !! i = Some y → expired (views c) y = true →
            Ok (create_view cells row i c) = Ok (v, c1) →
            e ∈ m_list_accessors c1 ∧ lock (views c1) e = Some h) as Hreuse.
  { intros i y Hi Hex Hcv. unfold create_view in Hcv. simplify_eq. simpl. split.
    - eapply elem_of_insert_other; [done..|]. intros ->.
      apply lock_None_expired in Hex. congruence.
    - by apply lock_insert_view. }
  assert (Ok (create_view cells row it
                (set_accessors (vector_insert it {| m_row_ndx := row; m_list := None |} l) c))
            = Ok (v, c1) →
          e ∈ m_list_accessors c1 ∧ lock (views c1) e = Some h) as Hinsert.
  { intros Hcv. unfold create_view in Hcv. simplify_eq. simpl. split.
    - unfold vector_insert.
      pose proof (lower_bound_le row l) as Hle. fold it in Hle.
      assert (length (take it l) = it) as Hlen by (rewrite length_take; lia).
      rewrite <-Hlen at 1. rewrite insert_middle.
      rewrite <-(take_drop it l) in He. apply elem_of_app in He as [He|He].
      + apply elem_of_app. by left.
      + apply elem_of_app. right. by right.
    - by apply lock_insert_view. }
  assert (match (if decide (it ≠ 0)
                 then match l !! (it - 1) with
                      | Some previous =>
                        if expired (views c) previous
                        then Some (create_view cells row (it - 1) c) else None
                      | None => None
                      end
                 else None) with
          | Some r => Ok r
          | None => Ok (create_view cells row it
                (set_accessors (vector_insert it {| m_row_ndx := row; m_list := None |} l) c))
          end = Ok (v, c1) →
          e ∈ m_list_accessors c1 ∧ lock (views c1) e = Some h) as Hprev.
  { case_decide as Hit0; [|done].
    destruct (l !! (it - 1)) as [p|] eqn:Hp; [|done].
    destruct (expired (views c) p) eqn:Hex; [|done].
    by apply (Hreuse (it - 1) p). }
  cbv zeta in Hget.
  destruct (l !! it) as [y|] eqn:Hit; [|by apply Hprev].
  destruct (if decide (m_row_ndx y = row) then lock (views c) y else None) as [h'|] eqn:Hl.
  - by simplify_eq.
  - destruct (expired (views c) y) eqn:Hex; [|by apply Hprev].
    by apply (Hreuse it y).
Qed.

(** X18.  [get_ptr] hands out one view per origin row: asking again for the same
    row gives the same view and changes nothing; asking for another row
    gives another view and leaves the first one registered for its row. *)
Theorem get_ptr_one_view_per_row ops c cells r v c1 r' v' c2 :
  run ops empty_accessors = Ok c →
  get_ptr cells r c = Ok (v, c1) →
  get_ptr cells r' c1 = Ok (v', c2) →
  (r' = r → v' = v ∧ c2 = c1) ∧
  (r' ≠ r → v' ≠ v ∧ get_ptr cells r c2 = Ok (v, c2)).
Proof.
  intros Hrun Hget Hget'. apply reachable_inv in Hrun.
  assert (r < length cells) as Hr.
  { unfold get_ptr in Hget. by case_decide. }
  apply get_ptr_spec in Hget as (Hinv1 & He0 & Hv0 & _); [|done].
  set (e0 := {| m_row_ndx := r; m_list := Some v |}) in *.
  assert (lock (views c1) e0 = Some v) as Hlock0 by by apply lock_Some.
  split.
  - intros ->.
    rewrite (get_ptr_found cells r c1 e0 v) in Hget'; try done; [|by destruct Hinv1].
    by simplify_eq.
  - intros Hne.
    destruct (get_ptr_keeps _ _ _ _ _ _ _ Hget' He0 Hlock0) as [He2 Hlock2].
    apply get_ptr_spec in Hget' as (Hinv2 & He1 & Hv1 & _); [|done].
    split.
    + intros ->.
      apply list_elem_of_lookup in He2 as [i Hi].
      apply list_elem_of_lookup in He1 as [j Hj].
      assert (i = j) as ->.
      { eapply (omap_unique _ i j _ _ v); [|exact Hi|exact Hj|done|done].
        rewrite <-omap_ptrs. by destruct Hinv2 as [_ []]. }
      rewrite Hi in Hj. unfold e0 in Hj. by simplify_eq.
    + apply (get_ptr_found cells r c2 e0 v); try done. by destruct Hinv2.
Qed.

(** X19.  [adj_erase_rows] on the view [v] of origin row [r] when the rows from
    [row_ndx] to [row_ndx + k] are erased: a view of an earlier row is left
    as it is, a view of an erased row is detached and no entry of the
    registry refers to it any more, and a view of a later row stays
    registered, now for row [r - k], which is also its origin row. *)
Theorem adj_erase_rows_detaches_and_shifts ops c cells r v c1 row_ndx k :
  run ops empty_accessors = Ok c →
  get_ptr cells r c = Ok (v, c1) →
  let c2 := adj_erase_rows true row_ndx k c1 in
  (r < row_ndx →
     views c2 !! v = views c1 !! v ∧
     {| m_row_ndx := r; m_list := Some v |} ∈ m_list_accessors c2) ∧
  (row_ndx ≤ r < row_ndx + k →
     (∃ o, views c2 !! v = Some o ∧
           m_origin_table o = false ∧ m_row_indexes o = None) ∧
     (∀ e, e ∈ m_list_accessors c2 → m_list e ≠ Some v)) ∧
  (row_ndx + k ≤ r →
     origin_row c2 v = Some (r - k) ∧
     {| m_row_ndx := r - k; m_list := Some v |} ∈ m_list_accessors c2 ∧
     (∀ e, e ∈ m_list_accessors c2 → m_row_ndx e = r - k → m_list e = Some v)).
Proof.
  intros Hrun Hget. apply reachable_inv in Hrun.
  apply get_ptr_spec in Hget as (Hinv1 & He0 & Hv0 & _); [|done].
  pose proof (adj_erase_rows_inv true row_ndx k c1 Hinv1) as [Hs2 _].
  revert Hs2. unfold adj_erase_rows.
  destruct (prune_spec c1 Hinv1) as ([Hs Hp] & Hf & Hv & Hn & Hl).
  set (c1' := prune_list_accessor_tombstones c1) in *.
  set (l := m_list_accessors c1') in *.
  set (e0 := {| m_row_ndx := r; m_list := Some v |}) in *.
  rewrite <-(lower_bound_add row_ndx (row_ndx + k) l) by lia.
  set (b := lower_bound row_ndx l). set (en := lower_bound (row_ndx + k) l).
  assert (b ≤ en) as Hbe.
  { unfold en. rewrite (lower_bound_add row_ndx (row_ndx + k) l) by lia. fold b. lia. }
  assert (e0 ∈ l) as Hin.
  { rewrite Hl. apply list_elem_of_filter. split; [|done].
    apply expired_false. by exists v. }
  assert (NoDup (omap m_list l)) as Hnd.
  { rewrite <-omap_ptrs. by destruct Hp. }
  pose proof (take_segment_drop l b en Hbe) as Hseg.
  set (D := drop b (take en l)) in *.
  assert (∀ e, e ∈ D → row_ndx ≤ m_row_ndx e < row_ndx + k) as HD.
  { intros e He. split.
    - pose proof (lower_bound_drop row_ndx l Hs) as Hge. fold b in Hge.
      rewrite Forall_forall in Hge. apply Hge.
      unfold D in He. eapply elem_of_sublist; [exact He|].
      replace en with (b + (en - b)) by lia.
      rewrite <-take_drop_commute. apply sublist_take.
    - apply (elem_of_take_lt _ l). fold en.
      unfold D in He. eapply elem_of_sublist; [exact He|]. apply sublist_drop. }
  assert (∀ e, e ∈ drop en l → row_ndx + k ≤ m_row_ndx e) as HC.
  { intros e He. pose proof (lower_bound_drop (row_ndx + k) l Hs) as Hge. fold en in Hge.
    rewrite Forall_forall in Hge. by apply Hge. }
  assert (∀ e, e ∈ take b l → m_row_ndx e < row_ndx) as HA.
  { intros e He. by apply elem_of_take_lt in He. }
  assert (is_Some (views c1' !! v)) as Hv1 by by rewrite Hv.
  set (vs1 := detach_entries D (views c1')).
  destruct (detach_entries_spec D (views c1')) as [Hdom Hsame]. fold vs1 in Hdom, Hsame.
  destruct (lower_entries _ _ _ _) as [r' vs] eqn:E.
  rewrite lower_entries_map in E.
  pose proof (map_entries_spec _ _ _ _ _ _ E) as [Hr' Hsv].
  simpl. intros Hs2.
  rewrite Hseg in Hin, Hnd.
  apply elem_of_app in Hin as [Hin|Hin]; [|apply elem_of_app in Hin as [Hin|Hin]].
  - (* before the erased rows *)
    specialize (HA _ Hin). simpl in HA.
    split_and!; [|lia|lia]. intros _. split.
    + assert (v ∉ omap m_list (drop en l)) as Hnin.
      { intros Hd. apply list_elem_of_omap in Hd as (x & Hx & Hxv).
        eapply (omap_app_disjoint _ _ e0 x v Hnd); [done| |done|done].
        apply elem_of_app. by right. }
      rewrite (map_entries_other _ _ _ v _ _ _ Hnin E).
      rewrite Hsame, Hv; [done|].
      intros Hd. apply list_elem_of_omap in Hd as (x & Hx & Hxv).
      eapply (omap_app_disjoint _ _ e0 x v Hnd); [done| |done|done].
      apply elem_of_app. by left.
    + apply elem_of_app. by left.
  - (* among the erased rows *)
    specialize (HD _ Hin). simpl in HD.
    split_and!; [lia| |lia]. intros _. split.
    + eapply same_views_detached; [exact Hsv|].
      by apply (detach_entries_detaches D _ e0).
    + intros e He Hev. apply elem_of_app in He as [He|He].
      * eapply (omap_app_disjoint _ _ e e0 v Hnd); [done| |done|done].
        apply elem_of_app. by left.
      * rewrite Hr' in He. apply list_elem_of_fmap in He as (x & -> & Hx).
        simpl in Hev. rewrite omap_app in Hnd. apply NoDup_app in Hnd as (_ & _ & Hnd).
        by eapply (omap_app_disjoint _ _ e0 x v Hnd).
  - (* behind the erased rows *)
    specialize (HC _ Hin). simpl in HC.
    split_and!; [lia|lia|]. intros _.
    assert (ndx_in_parent <$> vs !! v = Some (r - k)) as Horigin.
    { eapply (map_entries_origin (λ x, x - k) _ e0 v); [|exact Hin|done| |exact E].
      - rewrite !omap_app in Hnd. apply NoDup_app in Hnd as (_ & _ & Hnd).
        by apply NoDup_app in Hnd as (_ & _ & Hnd).
      - by apply Hdom. }
    set (e1 := {| m_row_ndx := r - k; m_list := Some v |}).
    assert (e1 ∈ take b l ++ r') as Hin1.
    { apply elem_of_app. right. rewrite Hr'.
      apply list_elem_of_fmap. by exists e0. }
    split_and!; try done.
    intros e He Hrow.
    apply list_elem_of_lookup in He as [i Hi].
    apply list_elem_of_lookup in Hin1 as [j Hj].
    assert (i = j) as -> by by eapply (sorted_unique _ i j e e1 Hs2).
    by simplify_eq.
Qed.

(** X20.  [discard_child_accessors] empties the registry and detaches every view
    that was registered and alive; the views are not destroyed, and a view
    that was not registered is left as it is. *)
Theorem discard_child_accessors_detaches_all ops c :
  run ops empty_accessors = Ok c →
  let c' := discard_child_accessors c in
  m_list_accessors c' = [] ∧
  (∀ h, is_Some (views c' !! h) ↔ is_Some (views c !! h)) ∧
  (∀ e h, e ∈ m_list_accessors c → lock (views c) e = Some h →
     ∃ o, views c' !! h = Some o ∧
          m_origin_table o = false ∧ m_row_indexes o = None) ∧
  (∀ h, (∀ e, e ∈ m_list_accessors c → m_list e ≠ Some h) →
     views c' !! h = views c !! h).
Proof.
  intros _. simpl.
  change (foldl _ (views c) (m_list_accessors c))
    with (detach_entries (m_list_accessors c) (views c)).
  destruct (detach_entries_spec (m_list_accessors c) (views c)) as [Hdom Hsame].
  split_and!; try done.
  - intros e h He Hlock. apply lock_Some in Hlock as [Hm Hv].
    by apply (detach_entries_detaches _ _ e).
  - intros h Hh. apply Hsame. intros Hin.
    apply list_elem_of_omap in Hin as (x & Hx & Hxh). by eapply Hh.
Qed.

(** X21.  The tombstone flag is accurate: while it is not set, no entry of the
    registry is expired, so the early return of
    [prune_list_accessor_tombstones] leaves no tombstone behind; and when it
    is set the entries that are left are the live ones, in their order.
    The views are not touched. *)
Theorem prune_removes_the_expired ops c :
  run ops empty_accessors = Ok c →
  m_list_accessors (prune_list_accessor_tombstones c)
    = filter (λ e, expired (views c) e = false) (m_list_accessors c) ∧
  m_list_accessors_contains_tombstones (prune_list_accessor_tombstones c) = false ∧
  views (prune_list_accessor_tombstones c) = views c ∧
  (m_list_accessors_contains_tombstones c = false →
     Forall (λ e, expired (views c) e = false) (m_list_accessors c) ∧
     m_list_accessors (prune_list_accessor_tombstones c) = m_list_accessors c).
Proof.
  intros Hrun. apply reachable_inv in Hrun.
  destruct (prune_spec c Hrun) as (_ & Hf & Hv & _ & Hl).
  split_and!; try done.
  intros Hflag. destruct Hrun as [_ Hp].
  split.
  - apply all_live_ptrs. by apply Hp.
  - unfold prune_list_accessor_tombstones. by rewrite Hflag.
Qed.

(** X22.  When the holder of a view lets go of it, the entry of its row stays in
    the registry as a tombstone; the next [get_ptr] for the row makes a new
    view with a new identity in that entry, so the registry does not
    grow. *)
Theorem get_ptr_reuses_the_tombstone ops c cells r v c1 :
  run ops empty_accessors = Ok c →
  get_ptr cells r c = Ok (v, c1) →
  ∃ v' c3,
    get_ptr cells r (destroy_view v c1) = Ok (v', c3) ∧
    v' ≠ v ∧ views c3 !! v = None ∧ is_Some (views c3 !! v') ∧
    length (m_list_accessors c3) = length (m_list_accessors c1) ∧
    {| m_row_ndx := r; m_list := Some v' |} ∈ m_list_accessors c3.
Proof.
  intros Hrun Hget. apply reachable_inv in Hrun.
  assert (r < length cells) as Hr.
  { unfold get_ptr in Hget. by case_decide. }
  apply get_ptr_spec in Hget as (Hinv1 & He0 & [o Hv0] & _); [|done].
  set (e0 := {| m_row_ndx := r; m_list := Some v |}) in *.
  pose proof Hinv1 as [Hs Hp].
  pose proof (sorted_lookup_row _ e0 Hs He0) as Hit. simpl in Hit.
  assert (v < next_view c1) as Hbound.
  { destruct Hp as [_ _ Hb _]. apply Hb. unfold ptrs.
    apply (list_elem_of_fmap_2 m_list _ e0). done. }
  set (c2 := destroy_view v c1).
  assert (m_list_accessors c2 = m_list_accessors c1 ∧ views c2 = delete v (views c1) ∧
          next_view c2 = next_view c1) as (Hl2 & Hv2 & Hn2).
  { unfold c2, destroy_view. rewrite Hv0. by destruct (m_origin_table o). }
  assert (lock (views c2) e0 = None) as Hlock.
  { unfold lock. simpl. rewrite Hv2, lookup_delete_eq.
    rewrite decide_False; [done|]. by intros [? ?]. }
  unfold get_ptr. rewrite decide_True by done. cbv zeta.
  rewrite Hl2, Hit. simpl. rewrite decide_True by done. rewrite Hlock.
  assert (expired (views c2) e0 = true) as -> by by apply lock_None_expired.
  eexists _, _. split; [reflexivity|]. simpl. rewrite Hn2, Hv2.
  pose proof (lookup_lt_Some _ _ _ Hit) as Hlen.
  split_and!.
  - lia.
  - rewrite lookup_insert_ne by lia. apply lookup_delete_eq.
  - by rewrite lookup_insert_eq.
  - by rewrite Hl2, length_insert.
  - rewrite Hl2. apply (list_elem_of_lookup_2 _ (lower_bound r (m_list_accessors c1))).
    by apply list_lookup_insert_eq.
Qed.

End RegistryViews.

(** ** The registry: a view follows its row when rows are moved or swapped *)

Section RegistryRelocation.
Import LinkListColumn RegistrySpec RegistryAux.

Implicit Types l : list list_entry.
Implicit Types e : list_entry.
Implicit Types c : Accessors.

Lemma rotate_Permutation {T} (k : list T) first middle last :
  first ≤ middle → middle ≤ last → last ≤ length k →
  rotate first middle last k ≡ₚ k.
Proof.
  intros H1 H2 H3. unfold rotate.
  assert (drop first (take last k)
          = drop first (take middle k) ++ drop middle (take last k)) as Hmid.
  { rewrite <-(take_drop middle (take last k)) at 1.
    rewrite take_take, Nat.min_l by lia.
    apply drop_app_le. rewrite length_take. lia. }
  pose proof (take_segment_drop k first last ltac:(lia)) as Hk. rewrite Hmid in Hk.
  set (A := take first k) in *. set (B := drop first (take middle k)) in *.
  set (C := drop middle (take last k)) in *. set (D := drop last k) in *.
  clearbody A B C D. subst k.
  apply Permutation_app_head. rewrite !app_assoc. apply Permutation_app_tail.
  apply Permutation_app_comm.
Qed.

Lemma origin_row_set h row vs :
  is_Some (vs !! h) → ndx_in_parent <$> set_origin_row_index h row vs !! h = Some row.
Proof.
  intros [o Ho]. unfold set_origin_row_index. by rewrite lookup_alter_eq, Ho.
Qed.

(** The second half of [adj_move_over] for the view [v] of the row that
    is moved. *)
Lemma move_from_view (from_row to_row : nat) (to_is_valid : bool) c v :
  inv c →
  let l := m_list_accessors c in
  let to := lower_bound to_row l in
  (if to_is_valid then ∃ t, l !! to = Some t ∧ m_row_ndx t = to_row
   else ∀ t, l !! to = Some t → m_row_ndx t ≠ to_row) →
  from_row ≠ to_row →
  {| m_row_ndx := from_row; m_list := Some v |} ∈ l →
  is_Some (views c !! v) →
  let from := lower_bound from_row l in
  let c2 :=
    match l !! from with
    | Some e =>
      if decide (m_row_ndx e = from_row) then
        let e' := {| m_row_ndx := to_row; m_list := m_list e |} in
        let l := <[from := e']> l in
        let vs := if true then
                    match lock (views c) e' with
                    | Some h => set_origin_row_index h to_row (views c)
                    | None => views c
                    end
                  else views c in
        let l :=
          if to_is_valid then
            iter_swap to from
              (alter (λ t, {| m_row_ndx := from_row; m_list := m_list t |}) to l)
          else if decide (from < to) then rotate from (from + 1) to l
          else rotate to from (from + 1) l in
        set_accessors l (set_views vs c)
      else c
    | None => c
    end in
  origin_row c2 v = Some to_row ∧
  {| m_row_ndx := to_row; m_list := Some v |} ∈ m_list_accessors c2 ∧
  same_views (views c) (views c2).
Proof.
  intros Hinv l to Hvalid Hrows He0 Hv from. pose proof Hinv as [Hs Hp].
  pose proof (sorted_lookup_row l _ Hs He0) as Hf. simpl in Hf. fold from in Hf.
  rewrite Hf. simpl. rewrite decide_True by done.
  set (f' := {| m_row_ndx := to_row; m_list := Some v |}).
  assert (lock (views c) f' = Some v) as -> by by apply lock_Some.
  pose proof (lookup_lt_Some _ _ _ Hf) as Hlen.
  pose proof (lower_bound_le to_row l) as Hto. fold to in Hto.
  split_and!.
  - unfold origin_row. simpl. by apply origin_row_set.
  - simpl. destruct to_is_valid.
    + destruct Hvalid as (t & Ht & Htrow).
      assert (to ≠ from) as Hne by (intros E; rewrite E in Ht; simplify_eq/=; lia).
      rewrite (iter_swap_alter l to from _ t _ f' Hne Ht Hf).
      apply (list_elem_of_lookup_2 _ to).
      rewrite list_lookup_insert_ne by done.
      apply list_lookup_insert_eq. by eapply lookup_lt_Some.
    + assert (f' ∈ <[from := f']> l) as Hin.
      { apply (list_elem_of_lookup_2 _ from). by apply list_lookup_insert_eq. }
      case_decide.
      * rewrite rotate_Permutation; [done|lia|lia|rewrite length_insert; lia].
      * rewrite rotate_Permutation; [done|lia|lia|rewrite length_insert; lia].
  - simpl. apply same_views_set_origin.
Qed.

(** X23.  [adj_move_over] for the view [v] of origin row [from_row_ndx] (what
    move_last_row_over does with the last row): the view stays registered,
    now for row [to_row_ndx], which is also its origin row; a view that was
    registered for [to_row_ndx] is detached.  When the two rows are the same
    row, [v] is that view and is detached. *)
Theorem adj_move_over_relocates_view ops c cells from_row_ndx to_row_ndx v c1 :
  run ops empty_accessors = Ok c →
  get_ptr cells from_row_ndx c = Ok (v, c1) →
  let c2 := adj_move_over true from_row_ndx to_row_ndx c1 in
  (from_row_ndx ≠ to_row_ndx →
     origin_row c2 v = Some to_row_ndx ∧
     {| m_row_ndx := to_row_ndx; m_list := Some v |} ∈ m_list_accessors c2 ∧
     (∀ e, e ∈ m_list_accessors c2 → m_row_ndx e = to_row_ndx → m_list e = Some v)) ∧
  (∀ e w, e ∈ m_list_accessors c1 → m_row_ndx e = to_row_ndx →
     lock (views c1) e = Some w →
     ∃ o, views c2 !! w = Some o ∧
          m_origin_table o = false ∧ m_row_indexes o = None).
Proof.
  intros Hrun Hget. apply reachable_inv in Hrun.
  apply get_ptr_spec in Hget as (Hinv1 & He0 & Hv0 & _); [|done].
  pose proof (adj_move_over_inv true from_row_ndx to_row_ndx c1 Hinv1) as [Hs2 _].
  revert Hs2. unfold adj_move_over.
  destruct (prune_spec c1 Hinv1) as (Hinv' & Hf & Hv & Hn & Hl).
  set (c' := prune_list_accessor_tombstones c1) in *.
  set (l := m_list_accessors c') in *. set (to := lower_bound to_row_ndx l) in *.
  set (e0 := {| m_row_ndx := from_row_ndx; m_list := Some v |}) in *.
  pose proof Hinv' as [Hs Hp].
  assert (e0 ∈ l) as Hin.
  { rewrite Hl. apply list_elem_of_filter. split; [|done].
    apply expired_false. by exists v. }
  assert (is_Some (views c' !! v)) as Hv1 by by rewrite Hv.
  assert (∀ e w, e ∈ m_list_accessors c1 → m_row_ndx e = to_row_ndx →
            lock (views c1) e = Some w → l !! to = Some e ∧ lock (views c') e = Some w)
    as Hat.
  { intros e w He Hrow Hlock. rewrite Hv. split; [|done].
    unfold to. rewrite <-Hrow. apply sorted_lookup_row; [done|].
    rewrite Hl. apply list_elem_of_filter. split; [|done].
    apply expired_false. apply lock_Some in Hlock. by exists w. }
  assert (∀ (c3 : Accessors) (valid : bool),
            inv c3 → rows (m_list_accessors c3) = rows l →
            (if valid then ∃ t, m_list_accessors c3 !! to = Some t ∧ m_row_ndx t = to_row_ndx
             else ∀ t, m_list_accessors c3 !! to = Some t → m_row_ndx t ≠ to_row_ndx) →
            from_row_ndx ≠ to_row_ndx →
            e0 ∈ m_list_accessors c3 → is_Some (views c3 !! v) →
            ∀ c2, c2 =
              match m_list_accessors c3 !! lower_bound from_row_ndx (m_list_accessors c3) with
              | Some e =>
                if decide (m_row_ndx e = from_row_ndx) then
                  let e' := {| m_row_ndx := to_row_ndx; m_list := m_list e |} in
                  let l3 := <[lower_bound from_row_ndx (m_list_accessors c3) := e']>
                              (m_list_accessors c3) in
                  let vs := match lock (views c3) e' with
                            | Some h => set_origin_row_index h to_row_ndx (views c3)
                            | None => views c3
                            end in
                  let l3 :=
                    if valid then
                      iter_swap to (lower_bound from_row_ndx (m_list_accessors c3))
                        (alter (λ t, {| m_row_ndx := from_row_ndx; m_list := m_list t |})
                           to l3)
                    else if decide (lower_bound from_row_ndx (m_list_accessors c3) < to)
                         then rotate (lower_bound from_row_ndx (m_list_accessors c3))
                                (lower_bound from_row_ndx (m_list_accessors c3) + 1) to l3
                         else rotate to (lower_bound from_row_ndx (m_list_accessors c3))
                                (lower_bound from_row_ndx (m_list_accessors c3) + 1) l3 in
                  set_accessors l3 (set_views vs c3)
                else c3
              | None => c3
              end →
            sorted (m_list_accessors c2) →
            (origin_row c2 v = Some to_row_ndx ∧
             {| m_row_ndx := to_row_ndx; m_list := Some v |} ∈ m_list_accessors c2 ∧
             (∀ e, e ∈ m_list_accessors c2 → m_row_ndx e = to_row_ndx → m_list e = Some v)) ∧
            same_views (views c3) (views c2)) as Hmove.
  { intros c3 valid Hinv3 Hrows Hvalid Hne Hin3 Hv3 c2 -> Hs2.
    pose proof (move_from_view from_row_ndx to_row_ndx valid c3 v Hinv3) as Hmv.
    simpl in Hmv. rewrite (lower_bound_rows to_row_ndx _ l Hrows) in Hmv. fold to in Hmv.
    destruct (Hmv Hvalid Hne Hin3 Hv3) as (Ho & Hin2 & Hsv).
    split; [|done]. split_and!; try done.
    intros e He Hrow.
    apply list_elem_of_lookup in He as [i Hi].
    apply list_elem_of_lookup in Hin2 as [j Hj].
    assert (i = j) as -> by by eapply (sorted_unique _ i j _ _ Hs2).
    pose proof (eq_trans (eq_sym Hi) Hj) as Heq.
    injection Heq as Heq. by rewrite Heq. }
  destruct (l !! to) as [t|] eqn:Ht.
  - destruct (bool_decide (m_row_ndx t = to_row_ndx)) eqn:Hvalid.
    + apply bool_decide_eq_true in Hvalid.
      destruct (lock (views c') t) as [h|] eqn:Hlock.
      * pose proof (reset_entry_inv c' to t h Hinv' Ht Hlock) as Hinv1'.
        set (c3 := {| m_list_accessors :=
                        <[to := {| m_row_ndx := m_row_ndx t; m_list := None |}]> l;
                      m_list_accessors_contains_tombstones := true;
                      views := detach_view h (views c');
                      next_view := next_view c' |}) in *.
        assert (rows (m_list_accessors c3) = rows l) as Hr by by eapply rows_insert_same.
        assert (∀ e w, e ∈ m_list_accessors c1 → m_row_ndx e = to_row_ndx →
                  lock (views c1) e = Some w →
                  ∃ o, views c3 !! w = Some o ∧
                       m_origin_table o = false ∧ m_row_indexes o = None) as Hdet.
        { intros e w He Hrow Hlk. destruct (Hat e w He Hrow Hlk) as [Hte Hlk'].
          simplify_eq. simpl.
          apply detach_view_eq. by apply lock_Some in Hlock as [_ ?]. }
        case_decide as Hrows.
        -- intros _. split; [done|]. exact Hdet.
        -- intros Hs2.
           edestruct (Hmove c3 true) as [Hres Hsv]; [done|done| | | | | |exact Hs2|].
           ++ exists {| m_row_ndx := m_row_ndx t; m_list := None |}. split; [|done].
              simpl. apply list_lookup_insert_eq. by eapply lookup_lt_Some.
           ++ done.
           ++ simpl. eapply elem_of_insert_other; [done..|].
              intros E. rewrite <-E in Hvalid. simpl in Hvalid. done.
           ++ simpl. by apply detach_view_dom.
           ++ reflexivity.
           ++ split; [done|]. intros e w He Hrow Hlk.
              eapply same_views_detached; [exact Hsv|]. by eapply Hdet.
      * assert (∀ e w, e ∈ m_list_accessors c1 → m_row_ndx e = to_row_ndx →
                  lock (views c1) e = Some w → False) as Hno.
        { intros e w He Hrow Hlk. destruct (Hat e w He Hrow Hlk) as [Hte Hlk'].
          simplify_eq. }
        case_decide as Hrows.
        -- intros _. split; [done|]. intros e w He Hrow Hlk. by destruct (Hno e w).
        -- intros Hs2.
           edestruct (Hmove c' true) as [Hres Hsv]; [done|done| | | | | |exact Hs2|].
           ++ by exists t.
           ++ done.
           ++ done.
           ++ done.
           ++ reflexivity.
           ++ split; [done|]. intros e w He Hrow Hlk. by destruct (Hno e w).
    + apply bool_decide_eq_false in Hvalid.
      assert (∀ e w, e ∈ m_list_accessors c1 → m_row_ndx e = to_row_ndx →
                lock (views c1) e = Some w → False) as Hno.
      { intros e w He Hrow Hlk. destruct (Hat e w He Hrow Hlk) as [Hte Hlk'].
        simplify_eq. }
      case_decide as Hrows.
      * intros _. split; [done|]. intros e w He Hrow Hlk. by destruct (Hno e w).
      * intros Hs2.
        edestruct (Hmove c' false) as [Hres Hsv]; [done|done| | | | | |exact Hs2|].
        -- intros t' Ht'. fold l in Ht'. by simplify_eq.
        -- done.
        -- done.
        -- done.
        -- reflexivity.
        -- split; [done|]. intros e w He Hrow Hlk. by destruct (Hno e w).
  - assert (∀ e w, e ∈ m_list_accessors c1 → m_row_ndx e = to_row_ndx →
              lock (views c1) e = Some w → False) as Hno.
    { intros e w He Hrow Hlk. destruct (Hat e w He Hrow Hlk) as [Hte Hlk'].
      simplify_eq. }
    case_decide as Hrows.
    + intros _. split; [done|]. intros e w He Hrow Hlk. by destruct (Hno e w).
    + intros Hs2.
      edestruct (Hmove c' false) as [Hres Hsv]; [done|done| | | | | |exact Hs2|].
      * intros t' Ht'. fold l in Ht'. by simplify_eq.
      * done.
      * done.
      * done.
      * reflexivity.
      * split; [done|]. intros e w He Hrow Hlk. by destruct (Hno e w).
Qed.

(** X24.  [adj_swap] for the view [v] of origin row [row_ndx_1]: the view stays
    registered, now for row [row_ndx_2], which is also its origin row; a
    view that was registered for [row_ndx_2] is registered for [row_ndx_1]
    afterwards, with that origin row. *)
Theorem adj_swap_exchanges_views ops c cells row_ndx_1 row_ndx_2 v c1 :
  run ops empty_accessors = Ok c →
  get_ptr cells row_ndx_1 c = Ok (v, c1) →
  let c2 := adj_swap true row_ndx_1 row_ndx_2 c1 in
  origin_row c2 v = Some row_ndx_2 ∧
  {| m_row_ndx := row_ndx_2; m_list := Some v |} ∈ m_list_accessors c2 ∧
  (∀ e w, e ∈ m_list_accessors c1 → m_row_ndx e = row_ndx_2 →
     lock (views c1) e = Some w →
     origin_row c2 w = Some row_ndx_1 ∧
     {| m_row_ndx := row_ndx_1; m_list := Some w |} ∈ m_list_accessors c2).
Proof.
  intros Hrun Hget. apply reachable_inv in Hrun.
  apply get_ptr_spec in Hget as (Hinv1 & He0 & Hv0 & _); [|done].
  unfold adj_swap.
  destruct (prune_spec c1 Hinv1) as (Hinv' & Hf & Hv & Hn & Hl).
  set (c' := prune_list_accessor_tombstones c1) in *.
  set (l := m_list_accessors c') in *. cbv zeta.
  set (e0 := {| m_row_ndx := row_ndx_1; m_list := Some v |}) in *.
  pose proof Hinv' as [Hs Hp].
  assert (all_live (views c') (ptrs l)) as Hlive by by apply Hp.
  assert (NoDup (omap m_list l)) as Hnd.
  { rewrite <-omap_ptrs. by destruct Hp. }
  assert (∀ e w, e ∈ m_list_accessors c1 → lock (views c1) e = Some w →
            l !! lower_bound (m_row_ndx e) l = Some e ∧ lock (views c') e = Some w) as Hat.
  { intros e w He Hlock. rewrite Hv. split; [|done].
    apply sorted_lookup_row; [done|].
    rewrite Hl. apply list_elem_of_filter. split; [|done].
    apply expired_false. apply lock_Some in Hlock. by exists w. }
  assert (lock (views c1) e0 = Some v) as Hlock0 by by apply lock_Some.
  destruct (Hat e0 v He0 Hlock0) as [Hit1 Hlock1]. simpl in Hit1.
  assert (is_Some (views c' !! v)) as Hv1 by by rewrite Hv.
  set (it_1 := lower_bound row_ndx_1 l) in *. set (it_2 := lower_bound row_ndx_2 l).
  pose proof (lookup_lt_Some _ _ _ Hit1) as Hlen1.
  pose proof (lower_bound_le row_ndx_2 l) as Hlen2. fold it_2 in Hlen2.
  match goal with |- context [match ?F with _ => _ end] =>
    destruct F as [[e_1 ptr_1]|] eqn:HF1 end.
  - apply found_Some in HF1 as (H1 & Hr1 & Hl1).
    assert (e_1 = e0) as -> by congruence.
    assert (ptr_1 = v) as -> by congruence.
    match goal with |- context [match ?F with _ => _ end] =>
      destruct F as [[e_2 ptr_2]|] eqn:HF2 end.
    + apply found_Some in HF2 as (H2 & Hr2 & Hl2).
      pose proof Hl2 as Hl2'. apply lock_Some in Hl2' as [Hm2 Hv2].
      pose proof (lookup_lt_Some _ _ _ H2) as Hlt2.
      assert (is_Some (set_origin_row_index v row_ndx_2 (views c') !! ptr_2)) as Hv2'.
      { eapply same_views_is_Some; [apply same_views_set_origin|done]. }
      assert (ptr_2 = v → it_1 = it_2) as Hsame.
      { intros ->. by eapply (omap_unique l it_1 it_2 e0 e_2 v). }
      unfold origin_row. simpl. split_and!.
      * destruct (decide (ptr_2 = v)) as [->|Hne].
        -- assert (row_ndx_1 = row_ndx_2) as <-.
           { specialize (Hsame eq_refl). rewrite Hsame in Hit1.
             assert (e_2 = e0) as -> by congruence. done. }
           by apply origin_row_set.
        -- unfold set_origin_row_index at 1. rewrite lookup_alter_ne by done.
           by apply origin_row_set.
      * apply (list_elem_of_lookup_2 _ it_2). rewrite Hr2.
        apply list_lookup_insert_eq. by rewrite length_insert.
      * intros e w He Hrow Hlk. destruct (Hat e w He Hlk) as [Hit Hlk'].
        rewrite Hrow in Hit. fold it_2 in Hit.
        assert (e = e_2) as -> by congruence.
        assert (w = ptr_2) as -> by congruence.
        split; [by apply origin_row_set|].
        destruct (decide (it_1 = it_2)) as [Heq|Hne].
        -- assert (e_2 = e0) as -> by (rewrite <-Heq in H2; congruence).
           simpl in Hm2. injection Hm2 as <-.
           apply (list_elem_of_lookup_2 _ it_2). simpl.
           apply list_lookup_insert_eq. by rewrite length_insert.
        -- apply (list_elem_of_lookup_2 _ it_1).
           rewrite list_lookup_insert_ne by done. simpl. rewrite <-Hm2.
           by apply list_lookup_insert_eq.
    + pose proof (found_None _ _ _ _ Hlive HF2) as Hne.
      unfold origin_row. simpl. split_and!.
      * by apply origin_row_set.
      * set (f' := {| m_row_ndx := row_ndx_2; m_list := Some v |}).
        assert (f' ∈ <[it_1 := f']> l) as Hin.
        { apply (list_elem_of_lookup_2 _ it_1). by apply list_lookup_insert_eq. }
        case_decide.
        -- rewrite rotate_Permutation; [done|lia|lia|rewrite length_insert; lia].
        -- rewrite rotate_Permutation; [done|lia|lia|rewrite length_insert; lia].
      * intros e w He Hrow Hlk. destruct (Hat e w He Hlk) as [Hit Hlk'].
        rewrite Hrow in Hit. by destruct (Hne e Hit).
  - exfalso. rewrite Hit1 in HF1. simpl in HF1.
    rewrite decide_True in HF1 by done. by rewrite Hlock1 in HF1.
Qed.

End RegistryRelocation.

(** ** The link-list column: the swap of two origin rows *)

Section SwapOriginRows.
Import BacklinkSpec LinkListColumnOps.

Variable debug : bool.

Lemma set_insert_elem x s y : y ∈ set_insert x s ↔ y = x ∨ y ∈ s.
Proof.
  induction s as [|z s IH]; simpl.
  - rewrite list_elem_of_singleton, elem_of_nil. tauto.
  - repeat case_decide; subst; rewrite ?elem_of_cons, ?IH; tauto.
Qed.

Lemma set_insert_sorted x s : StronglySorted lt s → StronglySorted lt (set_insert x s).
Proof.
  induction 1 as [|z s Hs IH Hz]; simpl.
  - repeat constructor.
  - repeat case_decide; subst.
    + constructor; [by constructor|]. constructor; [done|].
      eapply Forall_impl; [exact Hz|]. simpl. lia.
    + by constructor.
    + constructor; [done|]. apply Forall_forall. intros y Hy.
      apply set_insert_elem in Hy as [->|Hy]; [lia|].
      rewrite Forall_forall in Hz. by apply Hz.
Qed.

Lemma sorted_lt_NoDup (s : list nat) : StronglySorted lt s → NoDup s.
Proof.
  induction 1 as [|z s Hs IH Hz]; constructor; [|done].
  intros Hin. rewrite Forall_forall in Hz. specialize (Hz z Hin). lia.
Qed.

Lemma insert_targets_spec L : ∀ s,
  ∃ s', insert_targets (Z.of_nat <$> L) s = Ok s' ∧
        (∀ t, t ∈ s' ↔ t ∈ L ∨ t ∈ s) ∧
        (StronglySorted lt s → StronglySorted lt s').
Proof.
  induction L as [|x L IH]; intros s.
  - exists s. split; [done|]. split; [|done]. intros t. rewrite elem_of_nil. tauto.
  - change (insert_targets (Z.of_nat <$> x :: L) s)
      with (if decide (0 ≤ Z.of_nat x)%Z
            then insert_targets (Z.of_nat <$> L) (set_insert (Z.to_nat (Z.of_nat x)) s)
            else Assert_failed).
    rewrite decide_True by lia. rewrite Nat2Z.id.
    destruct (IH (set_insert x s)) as (s' & -> & Hel & Hs).
    exists s'. split; [done|]. split.
    + intros t. rewrite Hel, set_insert_elem, elem_of_cons. tauto.
    + intros H. by apply Hs, set_insert_sorted.
Qed.

Lemma targets_of_spec st w L s :
  list_at st w L →
  ∃ s', targets_of (to_ref w) st s = Ok s' ∧
        (∀ t, t ∈ s' ↔ t ∈ L ∨ t ∈ s) ∧
        (StronglySorted lt s → StronglySorted lt s').
Proof.
  unfold targets_of, to_ref. intros [[-> ->]|(Hw & _ & Hh)].
  - exists s. rewrite decide_True by done. split; [done|]. split; [|done].
    intros t. rewrite elem_of_nil. tauto.
  - rewrite decide_False by done. unfold to_ref in Hh. rewrite Hh.
    apply insert_targets_spec.
Qed.

Lemma foldl_alter_lookup {T} (f : T → T) (ts : list nat) : ∀ (k : list T) i,
  NoDup ts →
  foldl (λ k t, alter f t k) k ts !! i
  = if decide (i ∈ ts) then f <$> k !! i else k !! i.
Proof.
  induction ts as [|t ts IH]; intros k i Hnd.
  - simpl. destruct (decide (i ∈ [])) as [H|_]; [by apply elem_of_nil in H|done].
  - apply NoDup_cons in Hnd as [Hnin Hnd].
    change (foldl (λ k t, alter f t k) k (t :: ts))
      with (foldl (λ k t, alter f t k) (alter f t k) ts).
    rewrite IH by done.
    destruct (decide (i ∈ ts)) as [Hin|Hin]; destruct (decide (i ∈ t :: ts)) as [Hin'|Hin'].
    + rewrite list_lookup_alter_ne; [done|]. by intros ->.
    + exfalso. apply Hin'. by right.
    + apply elem_of_cons in Hin' as [->|?]; [|done]. by rewrite list_lookup_alter_eq.
    + rewrite list_lookup_alter_ne; [done|]. intros ->. apply Hin'. by left.
Qed.

Lemma foldl_alter_all {T} (f : T → T) (ts : list nat) (k : list T) :
  NoDup ts →
  (∀ i x, k !! i = Some x → i ∉ ts → f x = x) →
  foldl (λ k t, alter f t k) k ts = f <$> k.
Proof.
  intros Hnd Hfix. apply list_eq. intros i.
  rewrite foldl_alter_lookup by done. rewrite list_lookup_fmap.
  case_decide as Hin; [done|].
  destruct (k !! i) as [x|] eqn:Hx; [|done]. simpl. by rewrite (Hfix i x).
Qed.

Lemma gmultiset_map_fixed (f : Z → Z) (M : gmultiset Z) :
  (∀ x, x ∈ M → f x = x) → gmultiset_map f M = M.
Proof.
  induction M as [|x M IH] using gmultiset_ind; intros Hfix.
  - apply gmultiset_map_empty.
  - rewrite gmultiset_map_disj_union, gmultiset_map_singleton.
    rewrite Hfix by multiset_solver. rewrite IH; [done|].
    intros y Hy. apply Hfix. multiset_solver.
Qed.

Lemma exchange_inj (a b : Z) : Inj (=) (=) (exchange a b).
Proof.
  intros x y H. rewrite <-(exchange_involutive a b x), <-(exchange_involutive a b y).
  by rewrite H.
Qed.

Lemma cnt_pos t L : t ∈ L → 0 < cnt t L.
Proof.
  intros Hin. destruct (cnt t L) eqn:E; [|lia].
  by apply cnt_0_not_in in E.
Qed.

Lemma cnt_not_in t L : t ∉ L → cnt t L = 0.
Proof.
  intros Hnin. unfold cnt. destruct (filter (λ x, x = t) L) as [|y k] eqn:E; [done|].
  assert (y ∈ filter (λ x, x = t) L) as Hy by (rewrite E; by left).
  apply list_elem_of_filter in Hy as [-> Hy]. done.
Qed.

(** The loop over the set of targets. *)
Lemma swap_all_backlinks_spec r1 r2 : ∀ ts Ms st,
  origin_ok (Z.of_nat r1) → origin_ok (Z.of_nat r2) →
  NoDup ts → bl_inv Ms st →
  (∀ t, t ∈ ts → ∃ M, Ms !! t = Some M ∧ M ≠ ∅) →
  ∃ st', swap_all_backlinks ts r1 r2 st = Ok st' ∧
         bl_inv (foldl (λ k t, alter (gmultiset_map (exchange (Z.of_nat r1) (Z.of_nat r2))) t k)
                   Ms ts) st' ∧
         links st' = links st ∧
         (∀ r, foreign st r → foreign st' r ∧ heap st' !! r = heap st !! r).
Proof.
  intros ts Ms st Ho1 Ho2. revert Ms st.
  induction ts as [|t ts IH]; intros Ms st Hnd Hinv Hne; simpl.
  - exists st. by split_and!.
  - apply NoDup_cons in Hnd as [Hnin Hnd].
    destruct (Hne t) as (M & HM & HMne); [by left|].
    destruct (swap_backlinks_spec Ms st t _ _ M Hinv HM Ho1 Ho2) as [_ Hsw].
    destruct (Hsw HMne) as (st1 & -> & Hinv1 & Hl1 & Hfr1 & _). simpl.
    assert (<[t := gmultiset_map (exchange (Z.of_nat r1) (Z.of_nat r2)) M]> Ms
            = alter (gmultiset_map (exchange (Z.of_nat r1) (Z.of_nat r2))) t Ms) as Heq.
    { apply list_eq. intros i. destruct (decide (i = t)) as [->|Hi].
      - rewrite list_lookup_alter_eq, HM. simpl.
        apply list_lookup_insert_eq. by eapply lookup_lt_Some.
      - by rewrite list_lookup_alter_ne, list_lookup_insert_ne by done. }
    rewrite Heq in Hinv1.
    destruct (IH _ st1 Hnd Hinv1) as (st' & -> & Hinv' & Hl' & Hfr').
    { intros t' Ht'. destruct (Hne t') as (M' & HM' & HMne'); [by right|].
      exists M'. split; [|done]. rewrite list_lookup_alter_ne; [done|].
      intros ->. done. }
    exists st'. split; [done|]. split; [done|]. split; [congruence|].
    intros r Hr. destruct (Hfr1 r Hr) as [Hr1 Hh1].
    destruct (Hfr' r Hr1) as [Hr' Hh']. split; [done|]. congruence.
Qed.

Lemma list_at_frame st st' w L :
  list_at st w L →
  (∀ r, foreign st r → foreign st' r ∧ heap st' !! r = heap st !! r) →
  list_at st' w L.
Proof.
  intros [[-> ->]|(Hw & Hf & Hh)] Hfr; [by left|]. right.
  destruct (Hfr w Hf) as [Hf' Hh']. split; [done|]. split; [done|].
  unfold to_ref in *. congruence.
Qed.

(** X25.  [LinkListColumn::swap_rows] keeps the backlinks reciprocal to the lists
    of the two origin rows, also when a list links twice to one target row
    or both lists link to it: the backlinks of every target row have the two
    origin rows exchanged, the two cells of the column change places, and
    the lists themselves are not touched.  The registry is adjusted by
    [adj_swap]. *)
Theorem swap_rows_keeps_reciprocity Ms st c r1 r2 w1 w2 L1 L2 :
  bl_inv Ms st → r1 ≠ r2 →
  origin_ok (Z.of_nat r1) → origin_ok (Z.of_nat r2) →
  links st !! r1 = Some w1 → links st !! r2 = Some w2 →
  list_at st w1 L1 → list_at st w2 L2 →
  reciprocal Ms r1 L1 → reciprocal Ms r2 L2 →
  ∃ st',
    swap_rows debug r1 r2 st c = Ok (st', LinkListColumn.adj_swap true r1 r2 c) ∧
    links st' = <[r2 := w1]> (<[r1 := w2]> (links st)) ∧
    list_at st' w1 L1 ∧ list_at st' w2 L2 ∧
    bl_inv (gmultiset_map (exchange (Z.of_nat r1) (Z.of_nat r2)) <$> Ms) st' ∧
    reciprocal (gmultiset_map (exchange (Z.of_nat r1) (Z.of_nat r2)) <$> Ms) r2 L1 ∧
    reciprocal (gmultiset_map (exchange (Z.of_nat r1) (Z.of_nat r2)) <$> Ms) r1 L2.
Proof.
  intros Hinv Hne Ho1 Ho2 Hl1 Hl2 Hat1 Hat2 Hrec1 Hrec2.
  set (ex := exchange (Z.of_nat r1) (Z.of_nat r2)).
  assert (ex (Z.of_nat r1) = Z.of_nat r2) as Hex1.
  { unfold ex, exchange. by rewrite decide_True. }
  assert (ex (Z.of_nat r2) = Z.of_nat r1) as Hex2.
  { unfold ex, exchange. rewrite decide_False by lia. by rewrite decide_True. }
  assert (∀ r r' L, reciprocal Ms r L → ex (Z.of_nat r) = Z.of_nat r' →
            reciprocal (gmultiset_map ex <$> Ms) r' L) as Hrec.
  { intros r r' L Hr Hexr t. rewrite list_lookup_fmap. specialize (Hr t).
    destruct (Ms !! t) as [M|]; simpl in *.
    - rewrite <-Hexr. unfold ex. pose proof (exchange_inj (Z.of_nat r1) (Z.of_nat r2)) as Hinj.
      rewrite multiplicity_gmultiset_map; [exact Hr|exact Hinj].
    - rewrite multiplicity_empty in Hr. by rewrite multiplicity_empty. }
  unfold swap_rows.
  assert (debug && bool_decide (r1 = r2) = false) as ->.
  { rewrite bool_decide_eq_false_2 by done. apply andb_false_r. }
  rewrite Hl1, Hl2. cbv zeta.
  destruct (targets_of_spec st w1 L1 [] Hat1) as (s1 & -> & Hel1 & Hs1).
  destruct (targets_of_spec st w2 L2 s1 Hat2) as (ts & Hts & Hel2 & Hs2).
  simpl. rewrite Hts. simpl.
  assert (NoDup ts) as Hnd.
  { apply sorted_lt_NoDup, Hs2, Hs1. constructor. }
  assert (∀ t, t ∈ ts ↔ t ∈ L1 ∨ t ∈ L2) as Hel.
  { intros t. rewrite Hel2, Hel1, elem_of_nil. tauto. }
  destruct (swap_all_backlinks_spec r1 r2 ts Ms st Ho1 Ho2 Hnd Hinv)
    as (st1 & -> & Hinv1 & Hlinks & Hfr).
  { intros t Ht. apply Hel in Ht.
    assert (∃ r L, reciprocal Ms r L ∧ t ∈ L) as (r & L & Hr & HtL).
    { destruct Ht; [by exists r1, L1|by exists r2, L2]. }
    specialize (Hr t). pose proof (cnt_pos t L HtL) as Hpos.
    destruct (Ms !! t) as [M|]; simpl in Hr.
    - exists M. split; [done|]. intros ->. rewrite multiplicity_empty in Hr. lia.
    - rewrite multiplicity_empty in Hr. lia. }
  rewrite foldl_alter_all in Hinv1; [|done|].
  2:{ intros i M HM Hi. apply gmultiset_map_fixed. intros x Hx.
      assert ((i ∉ L1) ∧ (i ∉ L2)) as [Hi1 Hi2].
      { split; intros ?; apply Hi; apply Hel; tauto. }
      pose proof (Hrec1 i) as H1. pose proof (Hrec2 i) as H2.
      rewrite HM in H1, H2. simpl in H1, H2.
      rewrite cnt_not_in in H1, H2 by done.
      unfold exchange. rewrite !decide_False; [done| |].
      - intros ->. pose proof (proj1 (elem_of_multiplicity _ _) Hx). lia.
      - intros ->. pose proof (proj1 (elem_of_multiplicity _ _) Hx). lia. }
  simpl. unfold BacklinkColumn.IntegerColumn_swap_rows.
  rewrite Hlinks, Hl1, Hl2.
  eexists. split; [done|]. simpl.
  assert (∀ w L, list_at st w L →
            list_at (set_links (<[r2 := w1]> (<[r1 := w2]> (links st))) st1) w L) as Hframe.
  { intros w L Hat. eapply list_at_frame; [exact Hat|].
    intros r Hr. destruct (Hfr r Hr) as [Hr1 Hh1]. split; [|done].
    destruct Hr1 as (? & ? & ?). by split_and!. }
  split_and!.
  - done.
  - by apply Hframe.
  - by apply Hframe.
  - eapply (bl_inv_frame _ st1); [exact Hinv1|done|done].
  - by apply (Hrec r1 r2 L1).
  - by apply (Hrec r2 r1 L2).
Qed.

End SwapOriginRows.

(** ** The column of single links *)

Section SingleLinks.
Import BacklinkSpec.

Variable get_row_ndx : Key → nat.
Variable get_key : nat → Key.
Variable null_key : Key.

Lemma int64_succ_pred v : (- 2 ^ 63 ≤ v < 2 ^ 63)%Z → int64_t (int64_t (v + 1) - 1) = v.
Proof.
  intros Hv. unfold int64_t.
  replace ((v + 1 + 2 ^ 63) mod 2 ^ 64 - 2 ^ 63 - 1 + 2 ^ 63)%Z
    with ((v + 1 + 2 ^ 63) mod 2 ^ 64 - 1)%Z by lia.
  destruct (decide (v = 2 ^ 63 - 1)%Z) as [->|Hne].
  - reflexivity.
  - rewrite (Z.mod_small (v + 1 + 2 ^ 63)) by lia.
    rewrite Z.mod_small by lia. lia.
Qed.

Lemma alter_insert_lookup {T} (f : T → T) (k : list T) i x :
  k !! i = Some x → <[i := f x]> k = alter f i k.
Proof.
  intros Hx. apply list_eq. intros j. destruct (decide (j = i)) as [->|Hj].
  - rewrite list_lookup_alter_eq, Hx. simpl.
    apply list_lookup_insert_eq. by eapply lookup_lt_Some.
  - by rewrite list_lookup_alter_ne, list_lookup_insert_ne by done.
Qed.

Lemma bl_inv_set_links Ms st l : bl_inv Ms st → bl_inv Ms (set_links l st).
Proof. intros H. by eapply bl_inv_frame. Qed.

(** X26.  [set_link] keeps the backlinks reciprocal to the link of the row and
    reads back: the backlink of the old link, if the cell held one, is
    removed, the cell gets the new key plus one, the backlink of the new
    link is added unless the new key is the null key, the old target key is
    returned, and [get_link] then gives the new key.  The hypotheses are
    what the backlink column asserts: the old link has its backlink, and the
    new target is a row of the target table. *)
Theorem set_link_relinks Ms st row_ndx target_key old_value :
  bl_inv Ms st →
  links st !! row_ndx = Some old_value →
  origin_ok (value (get_key row_ndx)) →
  (old_value ≠ 0%Z →
     ∃ M, Ms !! get_row_ndx {| value := int64_t (old_value - 1) |} = Some M ∧
          value (get_key row_ndx) ∈ M) →
  (target_key ≠ null_key → get_row_ndx target_key < length Ms) →
  (- 2 ^ 63 ≤ value target_key < 2 ^ 63)%Z →
  ∃ st',
    LinkColumn.set_link get_row_ndx get_key null_key row_ndx target_key st
      = Ok ({| value := int64_t (old_value - 1) |}, st') ∧
    links st' = <[row_ndx := int64_t (value target_key + 1)]> (links st) ∧
    LinkColumn.get_link row_ndx st' = Ok target_key ∧
    bl_inv (relinked (value (get_key row_ndx))
              (if decide (old_value = 0%Z) then None
               else Some (get_row_ndx {| value := int64_t (old_value - 1) |}))
              (if decide (target_key = null_key) then None
               else Some (get_row_ndx target_key)) Ms) st'.
Proof.
  intros Hinv Hl Ho Hold Hnew Hrange.
  unfold LinkColumn.set_link. rewrite Hl. cbv zeta.
  set (o := get_key row_ndx) in *.
  set (ot := get_row_ndx {| value := int64_t (old_value - 1) |}) in *.
  assert (∃ st1, (if decide (old_value ≠ 0%Z)
                  then BacklinkColumn.remove_one_backlink get_row_ndx
                         {| value := int64_t (old_value - 1) |} o st
                  else Ok st) = Ok st1 ∧
                 links st1 = links st ∧
                 bl_inv (if decide (old_value = 0%Z) then Ms else unlink (value o) ot Ms) st1)
    as (st1 & -> & Hl1 & Hinv1).
  { destruct (decide (old_value = 0%Z)) as [->|Hne].
    - rewrite decide_False by (intros H; by apply H). by exists st.
    - rewrite decide_True by done. destruct (Hold Hne) as (M & HM & Hin).
      destruct (remove_one_backlink_spec get_row_ndx Ms st _ o M Hinv HM Hin)
        as (st1 & -> & Hinv1 & Hl1 & _).
      exists st1. split; [done|]. split; [done|].
      unfold unlink. fold ot in HM, Hinv1.
      by rewrite <-(alter_insert_lookup (λ M, M ∖ {[+ value o +]}) Ms ot M HM). }
  simpl. rewrite Hl1, Hl.
  set (Ms1 := if decide (old_value = 0%Z) then Ms else unlink (value o) ot Ms) in *.
  set (st2 := set_links (<[row_ndx := int64_t (value target_key + 1)]> (links st)) st1).
  assert (bl_inv Ms1 st2) as Hinv2 by by apply bl_inv_set_links.
  assert (length Ms1 = length Ms) as Hlen1.
  { unfold Ms1, unlink. case_decide; [done|]. by rewrite length_alter. }
  assert (∀ st', links st' = links st2 →
            LinkColumn.get_link row_ndx st' = Ok target_key) as Hget.
  { intros st' Hst'. unfold LinkColumn.get_link. rewrite Hst'. simpl.
    rewrite list_lookup_insert_eq by by eapply lookup_lt_Some.
    rewrite int64_succ_pred by done. by destruct target_key. }
  assert (relinked (value o) (if decide (old_value = 0%Z) then None else Some ot)
            (if decide (target_key = null_key) then None
             else Some (get_row_ndx target_key)) Ms
          = if decide (target_key = null_key) then Ms1
            else link_to (value o) (get_row_ndx target_key) Ms1) as ->.
  { unfold relinked, Ms1. by repeat case_decide. }
  destruct (decide (target_key = null_key)) as [Heq|Hne].
  - rewrite decide_False by (intros H; by apply H). simpl.
    exists st2. split_and!; try done. by apply Hget.
  - rewrite decide_True by done.
    destruct (lookup_lt_is_Some_2 Ms1 (get_row_ndx target_key)) as [M HM].
    { rewrite Hlen1. by apply Hnew. }
    destruct (add_backlink_spec get_row_ndx Ms1 st2 target_key o M Hinv2 HM Ho)
      as (st3 & -> & Hinv3 & Hl3 & _).
    simpl. exists st3. split_and!; try done.
    + by apply Hget.
    + unfold link_to.
      by rewrite <-(alter_insert_lookup (λ M, M ⊎ {[+ value o +]}) Ms1 _ M HM).
Qed.

(** X27.  [LinkColumn::do_swap_link] twice with the same two keys leaves the
    column as it was, whatever the cell holds. *)
Theorem link_do_swap_link_involutive st row_ndx k1 k2 st' :
  LinkColumn.do_swap_link row_ndx k1 k2 st = Ok st' →
  LinkColumn.do_swap_link row_ndx k1 k2 st' = Ok st.
Proof.
  unfold LinkColumn.do_swap_link.
  destruct (links st !! row_ndx) as [v|] eqn:Hv; [|done].
  pose proof (lookup_lt_Some _ _ _ Hv) as Hlt.
  assert (∀ x, set_links (<[row_ndx := v]> (<[row_ndx := x]> (links st)))
                 (set_links (<[row_ndx := x]> (links st)) st) = st) as Hback.
  { intros x. destruct st as [h b l]. unfold set_links. simpl in *. f_equal.
    rewrite list_insert_insert_eq. by apply list_insert_id. }
  repeat case_decide; intros [= <-]; simpl;
    rewrite ?list_lookup_insert_eq by done; rewrite ?Hv;
    repeat case_decide; subst; try done; try (by rewrite Hback); congruence.
Qed.

End SingleLinks.

(** ** tightdb/link_view.hpp: reading a list through a view *)

Section ListReads.

Variable debug : bool.

(** X28.  On a view constructed on a cell that holds the ref of a store, [size]
    is the number of links, [find] gives the first position that links to
    the target row, [get] at that position gives the target row back and at
    no earlier position, and [find] answers not_found exactly when no link
    points to the row. *)
Theorem find_get_round_trip st row ref L t :
  links st !! row = Some ref → ref ≠ 0%Z →
  heap st !! ref = Some (Z.of_nat <$> L) →
  t < length (backlinks st) →
  TightdbLinkView.size debug (TightdbLinkView.new_LinkView row st) st = Ok (length L) ∧
  (t ∉ L →
     TightdbLinkView.find debug (TightdbLinkView.new_LinkView row st) t st = Ok None) ∧
  (t ∈ L →
     ∃ i, TightdbLinkView.find debug (TightdbLinkView.new_LinkView row st) t st
            = Ok (Some i) ∧
          TightdbLinkView.get debug (TightdbLinkView.new_LinkView row st) i st = Ok t ∧
          ∀ j, j < i →
            TightdbLinkView.get debug (TightdbLinkView.new_LinkView row st) j st ≠ Ok t).
Proof.
  intros Hl Hne Hh Ht.
  unfold TightdbLinkView.size, TightdbLinkView.find, TightdbLinkView.get,
    TightdbLinkView.new_LinkView, TightdbLinkView.TIGHTDB_ASSERT,
    TightdbLinkView.is_attached.
  simpl. rewrite Hl. rewrite decide_False by done. simpl. rewrite Hh.
  rewrite !andb_false_r. rewrite bool_decide_eq_true_2 by done. simpl.
  rewrite !andb_false_r. rewrite length_fmap. split_and!.
  - done.
  - intros Hnin. rewrite find_first_None; [done|].
    intros Hin. apply list_elem_of_fmap in Hin as (x & Hx & Hin).
    apply Nat2Z.inj in Hx as <-. done.
  - intros Hin.
    assert (Z.of_nat t ∈ Z.of_nat <$> L) as Hin' by by apply list_elem_of_fmap_2.
    destruct (find_first_elem_of _ _ Hin') as (i & Hff & _).
    pose proof Hff as Hff'. apply find_first_nat in Hff' as [Hi Hmin].
    exists i. split; [by rewrite Hff|]. split.
    + rewrite bool_decide_eq_true_2 by by eapply lookup_lt_Some.
      rewrite andb_false_r. rewrite list_lookup_fmap, Hi. simpl. by rewrite Nat2Z.id.
    + intros j Hj. specialize (Hmin j Hj).
      destruct (debug && negb (bool_decide (j < length L))); [done|].
      rewrite list_lookup_fmap. destruct (L !! j) as [x|]; [|done]. simpl.
      rewrite Nat2Z.id. congruence.
Qed.

End ListReads.

(** ** The registry: merging a row into another *)

Section RegistryMerge.
Import LinkListColumn RegistrySpec RegistryAux LinkListColumnOps.

Implicit Types l : list list_entry.
Implicit Types e : list_entry.
Implicit Types c : Accessors.

Lemma lower_bound_take_le key key' l :
  key ≤ key' → lower_bound key (take (lower_bound key' l) l) = lower_bound key l.
Proof.
  intros Hle. induction l as [|e l IH]; [done|]. simpl.
  destruct (decide (m_row_ndx e < key')) as [H1|H1]; simpl.
  - by rewrite IH.
  - by rewrite decide_False by lia.
Qed.

Lemma lower_bound_mono key key' l : key ≤ key' → lower_bound key l ≤ lower_bound key' l.
Proof. intros Hle. rewrite (lower_bound_add key key' l Hle). lia. Qed.

Lemma lower_bound_after l i e key :
  l !! i = Some e → lower_bound (m_row_ndx e) l = i → m_row_ndx e < key →
  i < lower_bound key l.
Proof.
  intros Hi Hlb Hlt. rewrite (lower_bound_add (m_row_ndx e) key l) by lia.
  rewrite Hlb. rewrite (drop_S l e i Hi). simpl. rewrite decide_True by done. lia.
Qed.

(** Rotating an entry to a position and rewriting it there is rewriting it
    in place and rotating it. *)
Lemma rotate_alter {T} (g : T → T) (k : list T) from to f :
  k !! from = Some f → to ≤ length k →
  (from < to →
     alter g (to - 1) (rotate from (from + 1) to k)
     = rotate from (from + 1) to (<[from := g f]> k) ∧
     rotate from (from + 1) to (<[from := g f]> k) !! (to - 1) = Some (g f)) ∧
  (to ≤ from →
     alter g to (rotate to from (from + 1) k)
     = rotate to from (from + 1) (<[from := g f]> k) ∧
     rotate to from (from + 1) (<[from := g f]> k) !! to = Some (g f)).
Proof.
  intros Hf Hto. pose proof (lookup_lt_Some _ _ _ Hf) as Hlen. split.
  - intros Hlt.
    assert (k = take from k ++ f :: drop (S from) (take to k) ++ drop to k ∧
            length (take from k) = from ∧
            length (drop (S from) (take to k)) = to - from - 1) as (Hk & HlenA & HlenB).
    { split_and!.
      - rewrite <-(take_drop to k) at 1.
        rewrite <-(take_drop from (take to k)) at 1.
        rewrite take_take, Nat.min_l by lia.
        rewrite (drop_S (take to k) f from) by by rewrite lookup_take_lt.
        by rewrite <-app_assoc.
      - rewrite length_take. lia.
      - rewrite length_drop, length_take. lia. }
    set (A := take from k) in *. set (B := drop (S from) (take to k)) in *.
    set (C := drop to k) in *. clearbody A B C. subst k.
    assert (∀ x n m, n = length A → m = length A + 1 + length B →
              rotate n (n + 1) m (A ++ x :: B ++ C) = A ++ B ++ x :: C) as Hrot.
    { intros x n m -> ->. apply rotate_right. }
    rewrite (Hrot f from to) by lia.
    replace (<[from := g f]> (A ++ f :: B ++ C)) with (A ++ g f :: B ++ C)
      by (rewrite <-HlenA; by rewrite insert_middle).
    rewrite (Hrot (g f) from to) by lia.
    rewrite !app_assoc.
    replace (to - 1) with (length (A ++ B) + 0) by (rewrite length_app; lia).
    rewrite alter_app_r. simpl. split; [done|].
    by rewrite lookup_app_r, Nat.add_0_r, Nat.sub_diag by lia.
  - intros Hle.
    assert (k = take to k ++ drop to (take from k) ++ f :: drop (S from) k ∧
            length (take to k) = to ∧
            length (drop to (take from k)) = from - to) as (Hk & HlenA & HlenB).
    { split_and!.
      - rewrite <-(take_drop_middle k from f Hf) at 1.
        rewrite <-(take_drop to (take from k)) at 1.
        rewrite take_take, Nat.min_l by lia.
        by rewrite <-app_assoc.
      - rewrite length_take. lia.
      - rewrite length_drop, length_take. lia. }
    set (A := take to k) in *. set (B := drop to (take from k)) in *.
    set (C := drop (S from) k) in *. clearbody A B C. subst k.
    assert (∀ x n m, n = length A → m = length A + length B →
              rotate n m (m + 1) (A ++ B ++ x :: C) = A ++ x :: B ++ C) as Hrot.
    { intros x n m -> ->. apply rotate_left. }
    rewrite (Hrot f to from) by lia.
    replace (<[from := g f]> (A ++ B ++ f :: C)) with (A ++ B ++ g f :: C).
    2:{ rewrite !app_assoc.
        replace from with (length (A ++ B)) by (rewrite length_app; lia).
        by rewrite insert_middle. }
    rewrite (Hrot (g f) to from) by lia.
    replace to with (length A + 0) by lia.
    rewrite alter_app_r. simpl. split; [done|].
    by rewrite lookup_app_r, Nat.add_0_r, Nat.sub_diag by lia.
Qed.

Lemma rotate_same {T} (k : list T) n : rotate n n (n + 1) k = k.
Proof.
  unfold rotate. rewrite (drop_ge (take n k)) by (rewrite length_take; lia).
  simpl. by rewrite <-take_segment_drop by lia.
Qed.

(** The list and the views [adj_acc_merge_rows] leaves when the entry [f]
    of the old row is at position [from]. *)
Lemma merge_rows_result old_row_ndx new_row_ndx c from f v :
  let c' := prune_list_accessor_tombstones c in
  let l := m_list_accessors c' in
  let to := lower_bound new_row_ndx l in
  let f' := {| m_row_ndx := new_row_ndx; m_list := Some v |} in
  sorted l → lower_bound old_row_ndx l = from → l !! from = Some f →
  m_row_ndx f = old_row_ndx → m_list f = Some v → is_Some (views c' !! v) →
  adj_acc_merge_rows old_row_ndx new_row_ndx c
  = set_accessors
      (if decide (from < to) then rotate from (from + 1) to (<[from := f']> l)
       else rotate to from (from + 1) (<[from := f']> l))
      (set_views (set_origin_row_index v new_row_ndx (views c')) c') ∧
  (if decide (from < to) then rotate from (from + 1) to (<[from := f']> l)
   else rotate to from (from + 1) (<[from := f']> l))
  ≡ₚ <[from := f']> l ∧
  f' ∈ (if decide (from < to) then rotate from (from + 1) to (<[from := f']> l)
        else rotate to from (from + 1) (<[from := f']> l)) ∧
  (old_row_ndx = new_row_ndx → to = from).
Proof.
  intros c' l to f' Hs Hfrom Hf Hrow Hm Hv.
  pose proof (lookup_lt_Some _ _ _ Hf) as Hlen.
  pose proof (lower_bound_le new_row_ndx l) as Hto. fold to in Hto.
  set (g := λ e, {| m_row_ndx := new_row_ndx; m_list := m_list e |}).
  assert (g f = f') as Hg by (unfold g, f'; by rewrite Hm).
  assert (lock (views c') f' = Some v) as Hlock by by apply lock_Some.
  destruct (rotate_alter g l from to f Hf Hto) as [Hright Hleft].
  rewrite Hg in Hright, Hleft.
  unfold adj_acc_merge_rows. fold c'. fold l. cbv zeta.
  rewrite Hfrom, Hf. rewrite decide_False by (intros H; by apply H).
  destruct (decide (old_row_ndx < new_row_ndx)) as [Hlt|Hge].
  - assert (from + lower_bound new_row_ndx (drop from l) = to) as ->.
    { unfold to. rewrite (lower_bound_add old_row_ndx new_row_ndx l) by lia.
      by rewrite Hfrom. }
    assert (from < to) as Hft.
    { apply (lower_bound_after l from f); [done| |lia]. by rewrite Hrow. }
    destruct (Hright Hft) as [Heq Hat]. fold g. rewrite Heq.
    rewrite !decide_True by done. rewrite Hat, Hlock.
    split_and!; [done| | |lia].
    + apply rotate_Permutation; [lia|lia|by rewrite length_insert].
    + by eapply list_elem_of_lookup_2.
  - assert (lower_bound new_row_ndx (take from l) = to) as ->.
    { unfold to. rewrite <-Hfrom. apply lower_bound_take_le. lia. }
    assert (to ≤ from) as Hft.
    { unfold to. rewrite <-Hfrom. apply lower_bound_mono. lia. }
    destruct (Hleft Hft) as [Heq Hat]. fold g. rewrite Heq.
    rewrite !decide_False by lia. rewrite Hat, Hlock.
    split_and!; [done| | |].
    + apply rotate_Permutation; [lia|lia|rewrite length_insert; lia].
    + by eapply list_elem_of_lookup_2.
    + intros <-. unfold to. by rewrite Hfrom.
Qed.

(** X29.  [adj_acc_merge_rows] for the view [v] of origin row [old_row_ndx]: the
    view is registered for [new_row_ndx] afterwards and that is its origin
    row.  If no other live view is registered for [new_row_ndx], the
    registry is sorted without duplicates afterwards and [v] is the only
    view of that row.  If another live view is registered for it, the
    registry holds two entries for [new_row_ndx] afterwards, which
    [validate_list_accessors] rejects. *)
Theorem adj_acc_merge_rows_moves_view ops c cells old_row_ndx new_row_ndx v c1 :
  run ops empty_accessors = Ok c →
  get_ptr cells old_row_ndx c = Ok (v, c1) →
  origin_row (adj_acc_merge_rows old_row_ndx new_row_ndx c1) v = Some new_row_ndx ∧
  {| m_row_ndx := new_row_ndx; m_list := Some v |}
    ∈ m_list_accessors (adj_acc_merge_rows old_row_ndx new_row_ndx c1) ∧
  ((∀ e w, e ∈ m_list_accessors c1 → lock (views c1) e = Some w →
           m_row_ndx e = new_row_ndx → new_row_ndx = old_row_ndx) →
     validate_list_accessors (adj_acc_merge_rows old_row_ndx new_row_ndx c1) = true ∧
     ∀ e, e ∈ m_list_accessors (adj_acc_merge_rows old_row_ndx new_row_ndx c1) →
          m_row_ndx e = new_row_ndx → m_list e = Some v) ∧
  (old_row_ndx ≠ new_row_ndx →
   (∃ e w, e ∈ m_list_accessors c1 ∧ lock (views c1) e = Some w ∧
           m_row_ndx e = new_row_ndx) →
     validate_list_accessors (adj_acc_merge_rows old_row_ndx new_row_ndx c1) = false).
Proof.
  intros Hrun Hget. apply reachable_inv in Hrun.
  apply get_ptr_spec in Hget as (Hinv1 & He0 & Hv0 & _); [|done].
  destruct (prune_spec c1 Hinv1) as ([Hs Hp] & Hflag & Hv & Hn & Hl).
  set (c' := prune_list_accessor_tombstones c1) in *.
  set (l := m_list_accessors c') in *.
  set (e0 := {| m_row_ndx := old_row_ndx; m_list := Some v |}) in *.
  set (f' := {| m_row_ndx := new_row_ndx; m_list := Some v |}).
  assert (∀ e w, e ∈ m_list_accessors c1 → lock (views c1) e = Some w → e ∈ l) as Hlive.
  { intros e w He Hlock. rewrite Hl. apply list_elem_of_filter. split; [|done].
    apply expired_false. apply lock_Some in Hlock. by exists w. }
  assert (∀ e, e ∈ l → e ∈ m_list_accessors c1 ∧ ∃ w, lock (views c1) e = Some w) as Hback.
  { intros e He. rewrite Hl in He. apply list_elem_of_filter in He as [Hex He].
    split; [done|]. apply expired_false in Hex as (w & Hw & Hvw).
    exists w. by apply lock_Some. }
  assert (e0 ∈ l) as Hin by (apply (Hlive e0 v); [done|by apply lock_Some]).
  pose proof (sorted_lookup_row l e0 Hs Hin) as Hf. simpl in Hf.
  set (from := lower_bound old_row_ndx l) in *.
  set (to := lower_bound new_row_ndx l).
  assert (is_Some (views c' !! v)) as Hv1 by by rewrite Hv.
  destruct (merge_rows_result old_row_ndx new_row_ndx c1 from e0 v Hs eq_refl Hf
              eq_refl eq_refl Hv1) as (-> & Hperm & Hin' & Hsame).
  fold c' l to f' in Hperm, Hin', Hsame |- *.
  set (r := if decide (from < to) then rotate from (from + 1) to (<[from := f']> l)
            else rotate to from (from + 1) (<[from := f']> l)) in *.
  pose proof (lookup_lt_Some _ _ _ Hf) as Hlen.
  split_and!.
  - unfold origin_row. simpl. by apply origin_row_set.
  - done.
  - intros Hno.
    assert (sorted r) as Hsr.
    { destruct (decide (old_row_ndx = new_row_ndx)) as [Heq|Hne].
      - specialize (Hsame Heq). unfold r. rewrite Hsame.
        rewrite decide_False by lia. rewrite rotate_same.
        assert (f' = e0) as -> by (unfold f', e0; by rewrite Heq).
        by rewrite list_insert_id.
      - apply (move_entry l from e0 new_row_ndx Hs Hf).
        intros t Ht Hrow. destruct (Hback t) as (Ht1 & w & Hw).
        { by eapply list_elem_of_lookup_2. }
        apply Hne. symmetry. by eapply Hno. }
    split.
    + by apply validate_sorted.
    + intros e He Hrow. simpl in He.
      apply list_elem_of_lookup in He as [i Hi].
      apply list_elem_of_lookup in Hin' as [j Hj].
      assert (i = j) as -> by by eapply (sorted_unique _ i j e f' Hsr).
      pose proof (eq_trans (eq_sym Hi) Hj) as Heq. injection Heq as ->. done.
  - intros Hne (e & w & He & Hlock & Hrow).
    apply not_true_is_false. intros Hval. apply validate_sorted in Hval. simpl in Hval.
    assert (NoDup (rows (<[from := f']> l))) as Hnd.
    { unfold rows. rewrite <-Hperm. by apply sorted_lt_NoDup. }
    specialize (Hlive e w He Hlock). apply list_elem_of_lookup in Hlive as [j Hj].
    assert (j ≠ from) as Hjf.
    { intros ->. rewrite Hf in Hj. injection Hj as <-. simpl in Hrow. done. }
    apply (NoDup_lookup _ from j new_row_ndx) in Hnd; [done| |].
    + unfold rows. rewrite list_lookup_fmap, list_lookup_insert_eq by done. done.
    + unfold rows. rewrite list_lookup_fmap, list_lookup_insert_ne by done.
      by rewrite Hj, <-Hrow.
Qed.

End RegistryMerge.

(** ** The properties on the running examples *)

Lemma bl_inv_of_run get_row_ndx n st0 ops Ms st :
  BacklinkSpec.fresh_column n st0 →
  BacklinkSpec.spec_run get_row_ndx ops (replicate n ∅) = Some Ms →
  BacklinkSpec.run get_row_ndx ops st0 = Ok st →
  BacklinkSpec.bl_inv Ms st.
Proof.
  intros Hf Hs Hr.
  destruct (run_keeps_rep get_row_ndx ops (replicate n ∅) st0 Ms (fresh_column_inv n st0 Hf) Hs)
    as (st' & Hr' & Hinv & _).
  congruence.
Qed.

Lemma example_backlinks_inv : BacklinkSpec.bl_inv example_edges example_backlinks.
Proof.
  apply (bl_inv_of_run row_of_key 3 (empty_sys 3 0) example_backlink_ops).
  - reflexivity.
  - vm_compute. reflexivity.
  - reflexivity.
Qed.

Lemma example_backlinks_words : words_ok example_backlinks.
Proof.
  unfold words_ok.
  assert (backlinks example_backlinks = [0; 8; 21]%Z) as -> by reflexivity.
  repeat constructor; lia.
Qed.

Lemma example_single_links_inv :
  BacklinkSpec.bl_inv [∅; {[+ 0%Z +]}; ∅] example_single_links.
Proof.
  apply bl_inv_set_links.
  apply (bl_inv_of_run row_of_key 3 (empty_sys 3 2)
           [BacklinkSpec.Add {| value := 1 |} {| value := 0 |}]).
  - reflexivity.
  - vm_compute. reflexivity.
  - reflexivity.
Qed.

Lemma multiplicity_mrep (r r' : Z) n :
  multiplicity r' (mrep n r) = if decide (r' = r) then n else 0.
Proof.
  unfold mrep. induction n as [|n IH]; simpl.
  - rewrite multiplicity_empty. by case_decide.
  - rewrite multiplicity_disj_union, IH, multiplicity_singleton.
    repeat case_decide; subst; try done; lia.
Qed.

(** The backlinks that the list [L] of origin row [r] adds to a column
    without backlinks are reciprocal to [L], and have nothing from another
    origin row. *)
Lemma reciprocal_add_links r r' L n :
  Forall (λ t, t < n) L →
  reciprocal (add_links (Z.of_nat r) L (replicate n ∅)) r' (if decide (r' = r) then L else []).
Proof.
  intros HL t. unfold add_links. rewrite list_lookup_imap.
  destruct (decide (t < n)) as [Ht|Ht].
  - rewrite lookup_replicate_2 by done. simpl.
    rewrite multiplicity_disj_union, multiplicity_empty, multiplicity_mrep. simpl.
    destruct (decide (r' = r)) as [->|Hne].
    + by rewrite decide_True.
    + rewrite decide_False by lia. done.
  - rewrite (proj1 (lookup_replicate_None n (∅ : gmultiset Z) t)) by lia.
    simpl. rewrite multiplicity_empty.
    case_decide; [|done]. symmetry. apply cnt_not_in.
    intros Hin. rewrite Forall_forall in HL. specialize (HL t Hin). lia.
Qed.

Lemma list_7_7_9_list_at : list_at (sys list_7_7_9) 8%Z [7; 7; 9].
Proof.
  right. split; [done|].
  destruct (vi_cell _ _ _ list_7_7_9_inv) as [(H & _)|(ref & Hc & Hm & Hf & Hh)].
  - vm_compute in H. discriminate.
  - vm_compute in Hm. injection Hm as <-. by split.
Qed.

Section Examples.
Import BacklinkSpec.

Lemma remove_one_backlink_needs_the_edge_witness :
  (value {| value := 10 |} ∈ ({[+ 10%Z; 11%Z +]} : gmultiset Z) →
     ∃ st', BacklinkColumn.remove_one_backlink row_of_key {| value := 1 |} {| value := 10 |} example_backlinks = Ok st' ∧
            bl_inv (<[row_of_key {| value := 1 |} := ({[+ 10%Z; 11%Z +]} : gmultiset Z) ∖ {[+ value {| value := 10 |} +]}]> example_edges) st') ∧
  (value {| value := 10 |} ∉ ({[+ 10%Z; 11%Z +]} : gmultiset Z) →
     BacklinkColumn.remove_one_backlink row_of_key {| value := 1 |} {| value := 10 |} example_backlinks = Assert_failed).
Proof.
  apply (remove_one_backlink_needs_the_edge row_of_key example_edges example_backlinks {| value := 1 |} {| value := 10 |} ({[+ 10%Z; 11%Z +]} : gmultiset Z)).
  - apply example_backlinks_inv.
  - reflexivity.
  - simpl. lia.
Defined.

Lemma get_backlink_enumerates_witness :
  list_to_set_disj (stored_backlinks example_backlinks 8%Z) = ({[+ 10%Z; 11%Z +]} : gmultiset Z) ∧
  BacklinkColumn.get_backlink_count 1 example_backlinks = Some (length (stored_backlinks example_backlinks 8%Z)) ∧
  ∀ j, BacklinkColumn.get_backlink 1 j example_backlinks =
         match stored_backlinks example_backlinks 8%Z !! j with
         | Some o => Ok {| value := o |}
         | None => Assert_failed
         end.
Proof.
  apply (get_backlink_enumerates example_edges example_backlinks 1 ({[+ 10%Z; 11%Z +]} : gmultiset Z) 8%Z).
  - apply example_backlinks_inv.
  - reflexivity.
  - reflexivity.
  - lia.
Defined.

Lemma get_backlink_after_inline_add_witness :
  ∃ st', BacklinkColumn.add_backlink row_of_key {| value := 1 |} {| value := 2 ^ 62 |} (empty_sys 3 0) = Ok st' ∧
         BacklinkColumn.get_backlink_count (row_of_key {| value := 1 |}) st' = Some 1 ∧
         BacklinkColumn.get_backlink (row_of_key {| value := 1 |}) 0 st' =
           Ok {| value := if decide (value {| value := 2 ^ 62 |} < 2 ^ 62)%Z then value {| value := 2 ^ 62 |}
                          else (value {| value := 2 ^ 62 |} - 2 ^ 63)%Z |}.
Proof.
  apply (get_backlink_after_inline_add row_of_key (empty_sys 3 0) {| value := 1 |} {| value := 2 ^ 62 |}).
  - reflexivity.
  - unfold BacklinkSpec.origin_ok. simpl. lia.
Defined.

Lemma update_backlink_replaces_one_witness :
  (Z.of_nat 10 ∈ ({[+ 10%Z; 11%Z +]} : gmultiset Z) →
     ∃ st', BacklinkColumnOps.update_backlink 1 10 12 example_backlinks = Ok st' ∧
            bl_inv (<[1 := ({[+ 10%Z; 11%Z +]} : gmultiset Z) ∖ {[+ Z.of_nat 10 +]} ⊎ {[+ Z.of_nat 12 +]}]> example_edges) st' ∧
            links st' = links example_backlinks ∧
            (∀ r, foreign example_backlinks r → foreign st' r ∧ heap st' !! r = heap example_backlinks !! r)) ∧
  (Z.of_nat 10 ∉ ({[+ 10%Z; 11%Z +]} : gmultiset Z) →
     BacklinkColumnOps.update_backlink 1 10 12 example_backlinks = Assert_failed).
Proof.
  apply (update_backlink_replaces_one example_edges example_backlinks 1 10 12 ({[+ 10%Z; 11%Z +]} : gmultiset Z)).
  - apply example_backlinks_inv.
  - reflexivity.
  - unfold BacklinkSpec.origin_ok. lia.
  - unfold BacklinkSpec.origin_ok. lia.
Defined.

Lemma swap_backlinks_exchanges_witness :
  (({[+ 10%Z; 11%Z +]} : gmultiset Z) = ∅ → BacklinkColumn.swap_backlinks 1 10%Z 11%Z example_backlinks = Assert_failed) ∧
  (({[+ 10%Z; 11%Z +]} : gmultiset Z) ≠ ∅ →
     ∃ st', BacklinkColumn.swap_backlinks 1 10%Z 11%Z example_backlinks = Ok st' ∧
            bl_inv (<[1 := gmultiset_map (exchange 10%Z 11%Z) ({[+ 10%Z; 11%Z +]} : gmultiset Z)]> example_edges) st' ∧
            links st' = links example_backlinks ∧
            (∀ r, foreign example_backlinks r → foreign st' r ∧ heap st' !! r = heap example_backlinks !! r) ∧
            BacklinkColumn.swap_backlinks 1 10%Z 11%Z st' = Ok example_backlinks).
Proof.
  apply (swap_backlinks_exchanges example_edges example_backlinks 1 10%Z 11%Z ({[+ 10%Z; 11%Z +]} : gmultiset Z)).
  - apply example_backlinks_inv.
  - reflexivity.
  - unfold BacklinkSpec.origin_ok. lia.
  - unfold BacklinkSpec.origin_ok. lia.
Defined.

Lemma remove_all_backlinks_clears_witness :
  ∃ st', BacklinkColumnOps.remove_all_backlinks 2 example_backlinks = Ok st' ∧
         bl_inv (replicate 2 ∅ ++ drop 2 example_edges) st' ∧
         take 2 (backlinks st') = replicate 2 0%Z ∧
         drop 2 (backlinks st') = drop 2 (backlinks example_backlinks) ∧
         links st' = links example_backlinks ∧
         (∀ row w, row < 2 → backlinks example_backlinks !! row = Some w → is_ref w →
                   heap st' !! w = None) ∧
         (∀ r, foreign example_backlinks r → foreign st' r ∧ heap st' !! r = heap example_backlinks !! r).
Proof.
  apply (remove_all_backlinks_clears example_edges example_backlinks 2).
  - apply example_backlinks_inv.
  - simpl. lia.
  - apply example_backlinks_words.
Defined.

Lemma cascade_break_records_each_backlink_witness :
  list_to_set_disj (stored_backlinks example_backlinks 8%Z) = ({[+ 10%Z; 11%Z +]} : gmultiset Z) ∧
  BacklinkColumnOps.cascade_break_backlinks_to LinkView.key_of 0
    0 1 ({| BacklinkColumnOps.track_link_nullifications := true; BacklinkColumnOps.links := [] |}, example_backlinks)
  = Ok (if BacklinkColumnOps.track_link_nullifications {| BacklinkColumnOps.track_link_nullifications := true; BacklinkColumnOps.links := [] |}
        then add_links_to_nullify {| BacklinkColumnOps.track_link_nullifications := true; BacklinkColumnOps.links := [] |} (link_to_nullify 0 0 (LinkView.key_of 1) <$> stored_backlinks example_backlinks 8%Z)
        else {| BacklinkColumnOps.track_link_nullifications := true; BacklinkColumnOps.links := [] |}, example_backlinks).
Proof.
  apply (cascade_break_records_each_backlink LinkView.key_of 0 0 example_edges example_backlinks 1 ({[+ 10%Z; 11%Z +]} : gmultiset Z) 8%Z {| BacklinkColumnOps.track_link_nullifications := true; BacklinkColumnOps.links := [] |}).
  - apply example_backlinks_inv.
  - reflexivity.
  - reflexivity.
  - lia.
Defined.

Lemma set_keeps_reciprocity_witness :
  ∃ s' tr, LinkView.set row_of_key false false (λ _, 0) 1 3 list_7_7_9 = Ok (tt, s') ∧
        trace s' = trace list_7_7_9 ++ tr ∧ schedules_no_row tr ∧
        view_inv (replicate 10 (∅ : gmultiset Z)) (<[1 := 3]> [7; 7; 9]) s' ∧
        this s' = this list_7_7_9 ∧ links (sys s') = links (sys list_7_7_9).
Proof.
  apply (set_keeps_reciprocity row_of_key false false (λ _, 0) (λ t, Nat2Z.id t) (replicate 10 (∅ : gmultiset Z)) [7; 7; 9] list_7_7_9 1 3 7).
  - apply list_7_7_9_inv.
  - reflexivity.
  - simpl. lia.
  - right. vm_compute. lia.
Defined.

Lemma remove_keeps_reciprocity_and_store_witness :
  ∃ s' tr ref, LinkView.remove row_of_key false false (λ _, 0) 1 list_7_7_9 = Ok (tt, s') ∧
        trace s' = trace list_7_7_9 ++ tr ∧ schedules_no_row tr ∧
        view_inv (replicate 10 (∅ : gmultiset Z)) (delete 1 [7; 7; 9]) s' ∧
        this s' = this list_7_7_9 ∧ links (sys s') = links (sys list_7_7_9) ∧
        m_row_indexes (this s') = Some ref ∧ ref ≠ 0%Z ∧
        links (sys s') !! ndx_in_parent (this list_7_7_9) = Some ref ∧
        heap (sys s') !! ref = Some (Z.of_nat <$> delete 1 [7; 7; 9]).
Proof.
  apply (remove_keeps_reciprocity_and_store row_of_key false false (λ _, 0) (λ t, Nat2Z.id t) (replicate 10 (∅ : gmultiset Z)) [7; 7; 9] list_7_7_9 1 7).
  - apply list_7_7_9_inv.
  - reflexivity.
  - right. vm_compute. lia.
Defined.

Lemma mutators_out_of_bounds_witness :
  (∀ i t, length [7; 7; 9] < i ∨ length (replicate 10 (∅ : gmultiset Z)) ≤ t →
          LinkView.insert row_of_key false i t list_7_7_9 = Assert_failed) ∧
  (∀ i t, length [7; 7; 9] ≤ i ∨ length (replicate 10 (∅ : gmultiset Z)) ≤ t → LinkView.set row_of_key false false (λ _, 0) i t list_7_7_9 = Assert_failed) ∧
  (∀ i, length [7; 7; 9] ≤ i → LinkView.remove row_of_key false false (λ _, 0) i list_7_7_9 = Assert_failed) ∧
  (∀ a b, length [7; 7; 9] ≤ a ∨ length [7; 7; 9] ≤ b →
          LinkView.move false a b list_7_7_9 = Throws link_index_out_of_range ∧
          LinkView.swap false a b list_7_7_9 = Throws link_index_out_of_range).
Proof.
  apply (mutators_out_of_bounds row_of_key false false (λ _, 0) (replicate 10 (∅ : gmultiset Z)) [7; 7; 9] list_7_7_9).
  - apply list_7_7_9_inv.
Defined.

Lemma insert_keeps_reciprocity_witness :
  ∃ s', LinkView.insert row_of_key false 3 2 list_7_7_9 = Ok (tt, s') ∧
        view_inv (replicate 10 (∅ : gmultiset Z)) (vector_insert 3 2 [7; 7; 9]) s' ∧
        ndx_in_parent (this s') = ndx_in_parent (this list_7_7_9) ∧
        is_Some (m_row_indexes (this s')).
Proof.
  apply (insert_keeps_reciprocity row_of_key false (λ t, Nat2Z.id t) (replicate 10 (∅ : gmultiset Z)) [7; 7; 9] list_7_7_9 3 2).
  - apply list_7_7_9_inv.
  - simpl. lia.
  - simpl. lia.
Defined.

Lemma clear_removes_the_backlinks_witness :
  ∃ s' tr, LinkView.clear row_of_key false false (λ _, 1) list_7_7_9
          = Ok (tt, s') ∧
        trace s' = trace list_7_7_9 ++ tr ∧ schedules_no_row tr ∧
        links (sys s') !! ndx_in_parent (this list_7_7_9) = Some 0%Z ∧
        heap (sys s') !! 8%Z = None ∧
        m_row_indexes (this s') = None ∧
        bl_inv (replicate 10 (∅ : gmultiset Z)) (sys s').
Proof.
  apply (clear_removes_the_backlinks row_of_key false false (λ _, 1) (λ t, Nat2Z.id t) (replicate 10 (∅ : gmultiset Z)) [7; 7; 9] list_7_7_9 8%Z).
  - apply list_7_7_9_inv.
  - reflexivity.
  - right. intros t _. unfold strong_backlinks. lia.
Defined.

Lemma move_reorders_only_witness :
  ∃ s', LinkView.move false 0 2 list_7_7_9 = Ok (tt, s') ∧
        view_inv (replicate 10 (∅ : gmultiset Z)) (vector_insert 2 7 (delete 0 [7; 7; 9])) s' ∧
        old_target s' 2 = Some 7 ∧
        backlinks (sys s') = backlinks (sys list_7_7_9) ∧
        links (sys s') = links (sys list_7_7_9) ∧ this s' = this list_7_7_9.
Proof.
  apply (move_reorders_only false (replicate 10 (∅ : gmultiset Z)) [7; 7; 9] list_7_7_9 0 2 7).
  - apply list_7_7_9_inv.
  - reflexivity.
  - simpl. lia.
Defined.

Lemma swap_exchanges_positions_witness :
  ∃ s', LinkView.swap false 0 2 list_7_7_9 = Ok (tt, s') ∧
        LinkView.swap false 2 0 list_7_7_9 = Ok (tt, s') ∧
        view_inv (replicate 10 (∅ : gmultiset Z)) (<[2 := 7]> (<[0 := 9]> [7; 7; 9])) s' ∧
        backlinks (sys s') = backlinks (sys list_7_7_9) ∧
        links (sys s') = links (sys list_7_7_9) ∧ this s' = this list_7_7_9.
Proof.
  apply (swap_exchanges_positions false (replicate 10 (∅ : gmultiset Z)) [7; 7; 9] list_7_7_9 0 2 7 9).
  - apply list_7_7_9_inv.
  - reflexivity.
  - reflexivity.
Defined.

Lemma do_update_link_rewrites_first_witness :
  (7 ∉ [7; 7; 9] → LinkView.do_update_link 7 3 list_7_7_9 = Assert_failed) ∧
  (7 ∈ [7; 7; 9] →
     ∃ pos, [7; 7; 9] !! pos = Some 7 ∧ (∀ j, j < pos → [7; 7; 9] !! j ≠ Some 7) ∧
       LinkView.do_update_link 7 3 list_7_7_9 =
         Ok (tt, {| sys := set_heap (<[8%Z := Z.of_nat <$> <[pos := 3]> [7; 7; 9]]> (heap (sys list_7_7_9)))
                             (sys list_7_7_9);
                    this := this list_7_7_9; m_version := m_version list_7_7_9;
                    trace := trace list_7_7_9 ++ [ForwardUpdate] |})).
Proof.
  apply (do_update_link_rewrites_first [7; 7; 9] list_7_7_9 8%Z 7 3).
  - reflexivity.
  - reflexivity.
Defined.

Lemma do_nullify_link_erases_first_witness :
  (7 ∉ [7; 7; 9] → LinkView.do_nullify_link true 7 list_7_7_9 = Assert_failed) ∧
  (7 ∈ [7; 7; 9] → 2 ≤ length [7; 7; 9] →
     ∃ pos, [7; 7; 9] !! pos = Some 7 ∧ (∀ j, j < pos → [7; 7; 9] !! j ≠ Some 7) ∧
       LinkView.do_nullify_link true 7 list_7_7_9 =
         Ok (tt, {| sys := set_heap (<[8%Z := Z.of_nat <$> delete pos [7; 7; 9]]> (heap (sys list_7_7_9)))
                             (sys list_7_7_9);
                    this := this list_7_7_9; m_version := m_version list_7_7_9;
                    trace := trace list_7_7_9
                             ++ (if true then [Replication (link_list_nullify pos)] else [])
                             ++ [ForwardUpdate] |})).
Proof.
  apply (do_nullify_link_erases_first true [7; 7; 9] list_7_7_9 8%Z 7).
  - reflexivity.
  - reflexivity.
Defined.

Lemma do_swap_link_exchanges_targets_witness :
  ∃ s' s'',
    LinkView.do_swap_link 7 9 list_7_7_9 = Ok (tt, s') ∧
    heap (sys s') = <[8%Z := Z.of_nat <$> (exchange 7 9 <$> [7; 7; 9])]> (heap (sys list_7_7_9)) ∧
    backlinks (sys s') = backlinks (sys list_7_7_9) ∧ links (sys s') = links (sys list_7_7_9) ∧
    this s' = this list_7_7_9 ∧ m_version s' = m_version list_7_7_9 ∧
    LinkView.do_swap_link 7 9 s' = Ok (tt, s'') ∧
    sys s'' = sys list_7_7_9.
Proof.
  apply (do_swap_link_exchanges_targets [7; 7; 9] list_7_7_9 8%Z 7 9).
  - reflexivity.
  - reflexivity.
Defined.

Lemma get_ptr_one_view_per_row_witness :
  (4 = 10 → 4 = 3 ∧ example_registry_two = RegistrySpec.example_registry_held) ∧
  (4 ≠ 10 → 4 ≠ 3 ∧ LinkListColumn.get_ptr RegistrySpec.example_cells 10 example_registry_two = Ok (3, example_registry_two)).
Proof.
  apply (get_ptr_one_view_per_row RegistrySpec.example_ops RegistrySpec.example_registry RegistrySpec.example_cells 10 3 RegistrySpec.example_registry_held 4 4 example_registry_two).
  - reflexivity.
  - reflexivity.
  - reflexivity.
Defined.

Lemma adj_erase_rows_detaches_and_shifts_witness :
  let c2 := LinkListColumn.adj_erase_rows true 6 2 RegistrySpec.example_registry_held in
  (10 < 6 →
     LinkListColumn.views c2 !! 3 = LinkListColumn.views RegistrySpec.example_registry_held !! 3 ∧
     {| LinkListColumn.m_row_ndx := 10; LinkListColumn.m_list := Some 3 |} ∈ LinkListColumn.m_list_accessors c2) ∧
  (6 ≤ 10 < 6 + 2 →
     (∃ o, LinkListColumn.views c2 !! 3 = Some o ∧
           m_origin_table o = false ∧ m_row_indexes o = None) ∧
     (∀ e, e ∈ LinkListColumn.m_list_accessors c2 → LinkListColumn.m_list e ≠ Some 3)) ∧
  (6 + 2 ≤ 10 →
     RegistrySpec.origin_row c2 3 = Some (10 - 2) ∧
     {| LinkListColumn.m_row_ndx := 10 - 2; LinkListColumn.m_list := Some 3 |} ∈ LinkListColumn.m_list_accessors c2 ∧
     (∀ e, e ∈ LinkListColumn.m_list_accessors c2 → LinkListColumn.m_row_ndx e = 10 - 2 → LinkListColumn.m_list e = Some 3)).
Proof.
  apply (adj_erase_rows_detaches_and_shifts RegistrySpec.example_ops RegistrySpec.example_registry RegistrySpec.example_cells 10 3 RegistrySpec.example_registry_held 6 2).
  - reflexivity.
  - reflexivity.
Defined.

Lemma discard_child_accessors_detaches_all_witness :
  let c' := LinkListColumn.discard_child_accessors RegistrySpec.example_registry_held in
  LinkListColumn.m_list_accessors c' = [] ∧
  (∀ h, is_Some (LinkListColumn.views c' !! h) ↔ is_Some (LinkListColumn.views RegistrySpec.example_registry_held !! h)) ∧
  (∀ e h, e ∈ LinkListColumn.m_list_accessors RegistrySpec.example_registry_held → LinkListColumn.lock (LinkListColumn.views RegistrySpec.example_registry_held) e = Some h →
     ∃ o, LinkListColumn.views c' !! h = Some o ∧
          m_origin_table o = false ∧ m_row_indexes o = None) ∧
  (∀ h, (∀ e, e ∈ LinkListColumn.m_list_accessors RegistrySpec.example_registry_held → LinkListColumn.m_list e ≠ Some h) →
     LinkListColumn.views c' !! h = LinkListColumn.views RegistrySpec.example_registry_held !! h).
Proof.
  apply (discard_child_accessors_detaches_all (RegistrySpec.example_ops ++ [LinkListColumn.Get_ptr RegistrySpec.example_cells 10]) RegistrySpec.example_registry_held).
  - reflexivity.
Defined.

Lemma prune_removes_the_expired_witness :
  LinkListColumn.m_list_accessors (LinkListColumn.prune_list_accessor_tombstones (RegistrySpec.the_registry (LinkListColumn.run (take 5 RegistrySpec.example_ops) LinkListColumn.empty_accessors)))
    = filter (λ e, LinkListColumn.expired (LinkListColumn.views (RegistrySpec.the_registry (LinkListColumn.run (take 5 RegistrySpec.example_ops) LinkListColumn.empty_accessors))) e = false) (LinkListColumn.m_list_accessors (RegistrySpec.the_registry (LinkListColumn.run (take 5 RegistrySpec.example_ops) LinkListColumn.empty_accessors))) ∧
  LinkListColumn.m_list_accessors_contains_tombstones (LinkListColumn.prune_list_accessor_tombstones (RegistrySpec.the_registry (LinkListColumn.run (take 5 RegistrySpec.example_ops) LinkListColumn.empty_accessors))) = false ∧
  LinkListColumn.views (LinkListColumn.prune_list_accessor_tombstones (RegistrySpec.the_registry (LinkListColumn.run (take 5 RegistrySpec.example_ops) LinkListColumn.empty_accessors))) = LinkListColumn.views (RegistrySpec.the_registry (LinkListColumn.run (take 5 RegistrySpec.example_ops) LinkListColumn.empty_accessors)) ∧
  (LinkListColumn.m_list_accessors_contains_tombstones (RegistrySpec.the_registry (LinkListColumn.run (take 5 RegistrySpec.example_ops) LinkListColumn.empty_accessors)) = false →
     Forall (λ e, LinkListColumn.expired (LinkListColumn.views (RegistrySpec.the_registry (LinkListColumn.run (take 5 RegistrySpec.example_ops) LinkListColumn.empty_accessors))) e = false) (LinkListColumn.m_list_accessors (RegistrySpec.the_registry (LinkListColumn.run (take 5 RegistrySpec.example_ops) LinkListColumn.empty_accessors))) ∧
     LinkListColumn.m_list_accessors (LinkListColumn.prune_list_accessor_tombstones (RegistrySpec.the_registry (LinkListColumn.run (take 5 RegistrySpec.example_ops) LinkListColumn.empty_accessors))) = LinkListColumn.m_list_accessors (RegistrySpec.the_registry (LinkListColumn.run (take 5 RegistrySpec.example_ops) LinkListColumn.empty_accessors))).
Proof.
  apply (prune_removes_the_expired (take 5 RegistrySpec.example_ops) (RegistrySpec.the_registry (LinkListColumn.run (take 5 RegistrySpec.example_ops) LinkListColumn.empty_accessors))).
  - reflexivity.
Defined.

Lemma get_ptr_reuses_the_tombstone_witness :
  ∃ v' c3,
    LinkListColumn.get_ptr RegistrySpec.example_cells 10 (LinkListColumn.destroy_view 3 RegistrySpec.example_registry_held) = Ok (v', c3) ∧
    v' ≠ 3 ∧ LinkListColumn.views c3 !! 3 = None ∧ is_Some (LinkListColumn.views c3 !! v') ∧
    length (LinkListColumn.m_list_accessors c3) = length (LinkListColumn.m_list_accessors RegistrySpec.example_registry_held) ∧
    {| LinkListColumn.m_row_ndx := 10; LinkListColumn.m_list := Some v' |} ∈ LinkListColumn.m_list_accessors c3.
Proof.
  apply (get_ptr_reuses_the_tombstone RegistrySpec.example_ops RegistrySpec.example_registry RegistrySpec.example_cells 10 3 RegistrySpec.example_registry_held).
  - reflexivity.
  - reflexivity.
Defined.

Lemma adj_move_over_relocates_view_witness :
  let c2 := LinkListColumn.adj_move_over true 10 6 RegistrySpec.example_registry_held in
  (10 ≠ 6 →
     RegistrySpec.origin_row c2 3 = Some 6 ∧
     {| LinkListColumn.m_row_ndx := 6; LinkListColumn.m_list := Some 3 |} ∈ LinkListColumn.m_list_accessors c2 ∧
     (∀ e, e ∈ LinkListColumn.m_list_accessors c2 → LinkListColumn.m_row_ndx e = 6 → LinkListColumn.m_list e = Some 3)) ∧
  (∀ e w, e ∈ LinkListColumn.m_list_accessors RegistrySpec.example_registry_held → LinkListColumn.m_row_ndx e = 6 →
     LinkListColumn.lock (LinkListColumn.views RegistrySpec.example_registry_held) e = Some w →
     ∃ o, LinkListColumn.views c2 !! w = Some o ∧
          m_origin_table o = false ∧ m_row_indexes o = None).
Proof.
  apply (adj_move_over_relocates_view RegistrySpec.example_ops RegistrySpec.example_registry RegistrySpec.example_cells 10 6 3 RegistrySpec.example_registry_held).
  - reflexivity.
  - reflexivity.
Defined.

Lemma adj_swap_exchanges_views_witness :
  let c2 := LinkListColumn.adj_swap true 10 7 RegistrySpec.example_registry_held in
  RegistrySpec.origin_row c2 3 = Some 7 ∧
  {| LinkListColumn.m_row_ndx := 7; LinkListColumn.m_list := Some 3 |} ∈ LinkListColumn.m_list_accessors c2 ∧
  (∀ e w, e ∈ LinkListColumn.m_list_accessors RegistrySpec.example_registry_held → LinkListColumn.m_row_ndx e = 7 →
     LinkListColumn.lock (LinkListColumn.views RegistrySpec.example_registry_held) e = Some w →
     RegistrySpec.origin_row c2 w = Some 10 ∧
     {| LinkListColumn.m_row_ndx := 10; LinkListColumn.m_list := Some w |} ∈ LinkListColumn.m_list_accessors c2).
Proof.
  apply (adj_swap_exchanges_views RegistrySpec.example_ops RegistrySpec.example_registry RegistrySpec.example_cells 10 7 3 RegistrySpec.example_registry_held).
  - reflexivity.
  - reflexivity.
Defined.

Lemma swap_rows_keeps_reciprocity_witness :
  ∃ st',
    LinkListColumnOps.swap_rows true 5 2 (sys list_7_7_9) RegistrySpec.example_registry_held = Ok (st', LinkListColumn.adj_swap true 5 2 RegistrySpec.example_registry_held) ∧
    links st' = <[2 := 8%Z]> (<[5 := 0%Z]> (links (sys list_7_7_9))) ∧
    list_at st' 8%Z [7; 7; 9] ∧ list_at st' 0%Z [] ∧
    bl_inv (gmultiset_map (exchange (Z.of_nat 5) (Z.of_nat 2)) <$> (add_links 5%Z [7; 7; 9] (replicate 10 (∅ : gmultiset Z)))) st' ∧
    reciprocal (gmultiset_map (exchange (Z.of_nat 5) (Z.of_nat 2)) <$> (add_links 5%Z [7; 7; 9] (replicate 10 (∅ : gmultiset Z)))) 2 [7; 7; 9] ∧
    reciprocal (gmultiset_map (exchange (Z.of_nat 5) (Z.of_nat 2)) <$> (add_links 5%Z [7; 7; 9] (replicate 10 (∅ : gmultiset Z)))) 5 [].
Proof.
  apply (swap_rows_keeps_reciprocity true (add_links 5%Z [7; 7; 9] (replicate 10 (∅ : gmultiset Z))) (sys list_7_7_9) RegistrySpec.example_registry_held 5 2 8%Z 0%Z [7; 7; 9] []).
  - apply (vi_bl _ _ _ list_7_7_9_inv).
  - lia.
  - unfold BacklinkSpec.origin_ok. lia.
  - unfold BacklinkSpec.origin_ok. lia.
  - reflexivity.
  - reflexivity.
  - apply list_7_7_9_list_at.
  - by left.
  - apply (reciprocal_add_links 5 5 [7; 7; 9] 10). repeat constructor.
  - apply (reciprocal_add_links 5 2 [7; 7; 9] 10). repeat constructor.
Defined.

Lemma set_link_relinks_witness :
  ∃ st',
    LinkColumn.set_link row_of_key LinkView.key_of {| value := -1 |} 0 {| value := 2 |} example_single_links
      = Ok ({| value := int64_t (2%Z - 1) |}, st') ∧
    links st' = <[0 := int64_t (value {| value := 2 |} + 1)]> (links example_single_links) ∧
    LinkColumn.get_link 0 st' = Ok {| value := 2 |} ∧
    bl_inv (relinked (value (LinkView.key_of 0))
              (if decide (2%Z = 0%Z) then None
               else Some (row_of_key {| value := int64_t (2%Z - 1) |}))
              (if decide ({| value := 2 |} = {| value := -1 |}) then None
               else Some (row_of_key {| value := 2 |})) [∅; {[+ 0%Z +]}; ∅]) st'.
Proof.
  apply (set_link_relinks row_of_key LinkView.key_of {| value := -1 |} [∅; {[+ 0%Z +]}; ∅] example_single_links 0 {| value := 2 |} 2%Z).
  - apply example_single_links_inv.
  - reflexivity.
  - unfold BacklinkSpec.origin_ok. simpl. lia.
  - intros _. exists {[+ 0%Z +]}. split; [reflexivity|]. simpl. multiset_solver.
  - intros _. vm_compute. lia.
  - simpl. lia.
Defined.

Lemma link_do_swap_link_involutive_witness :
  LinkColumn.do_swap_link 0 {| value := 1 |} {| value := 4 |} (final_sys (LinkColumn.do_swap_link 0 {| value := 1 |} {| value := 4 |} example_single_links) example_single_links) = Ok example_single_links.
Proof.
  apply (link_do_swap_link_involutive example_single_links 0 {| value := 1 |} {| value := 4 |} (final_sys (LinkColumn.do_swap_link 0 {| value := 1 |} {| value := 4 |} example_single_links) example_single_links)).
  - reflexivity.
Defined.

Lemma find_get_round_trip_witness :
  TightdbLinkView.size true (TightdbLinkView.new_LinkView 5 example_sys) example_sys = Ok (length [7]) ∧
  (7 ∉ [7] →
     TightdbLinkView.find true (TightdbLinkView.new_LinkView 5 example_sys) 7 example_sys = Ok None) ∧
  (7 ∈ [7] →
     ∃ i, TightdbLinkView.find true (TightdbLinkView.new_LinkView 5 example_sys) 7 example_sys
            = Ok (Some i) ∧
          TightdbLinkView.get true (TightdbLinkView.new_LinkView 5 example_sys) i example_sys = Ok 7 ∧
          ∀ j, j < i →
            TightdbLinkView.get true (TightdbLinkView.new_LinkView 5 example_sys) j example_sys ≠ Ok 7).
Proof.
  apply (find_get_round_trip true example_sys 5 8%Z [7] 7).
  - reflexivity.
  - done.
  - reflexivity.
  - unfold example_sys. simpl. lia.
Defined.

Lemma adj_acc_merge_rows_moves_view_witness :
  RegistrySpec.origin_row (LinkListColumnOps.adj_acc_merge_rows 10 7 RegistrySpec.example_registry_held) 3 = Some 7 ∧
  {| LinkListColumn.m_row_ndx := 7; LinkListColumn.m_list := Some 3 |}
    ∈ LinkListColumn.m_list_accessors (LinkListColumnOps.adj_acc_merge_rows 10 7 RegistrySpec.example_registry_held) ∧
  ((∀ e w, e ∈ LinkListColumn.m_list_accessors RegistrySpec.example_registry_held → LinkListColumn.lock (LinkListColumn.views RegistrySpec.example_registry_held) e = Some w →
           LinkListColumn.m_row_ndx e = 7 → 7 = 10) →
     LinkListColumn.validate_list_accessors (LinkListColumnOps.adj_acc_merge_rows 10 7 RegistrySpec.example_registry_held) = true ∧
     ∀ e, e ∈ LinkListColumn.m_list_accessors (LinkListColumnOps.adj_acc_merge_rows 10 7 RegistrySpec.example_registry_held) →
          LinkListColumn.m_row_ndx e = 7 → LinkListColumn.m_list e = Some 3) ∧
  (10 ≠ 7 →
   (∃ e w, e ∈ LinkListColumn.m_list_accessors RegistrySpec.example_registry_held ∧ LinkListColumn.lock (LinkListColumn.views RegistrySpec.example_registry_held) e = Some w ∧
           LinkListColumn.m_row_ndx e = 7) →
     LinkListColumn.validate_list_accessors (LinkListColumnOps.adj_acc_merge_rows 10 7 RegistrySpec.example_registry_held) = false).
Proof.
  apply (adj_acc_merge_rows_moves_view RegistrySpec.example_ops RegistrySpec.example_registry RegistrySpec.example_cells 10 7 3 RegistrySpec.example_registry_held).
  - reflexivity.
  - reflexivity.
Defined.

End Examples.
